(** * Groundwater tracer properties and CDO-Fb divergence: shallow embedding

    Embedded sources:
    - [src/cdo/cs_cdofb_navsto.h]  ([cs_cdofb_navsto_divergence_vect])
    - [src/cdo/cs_gwf_tracer.c]    (property evaluators, diffusion tensor
      updaters, precipitation/dissolution update, precipitation setup,
      parameter setting and integration)
    - [src/mesh/cs_mesh_cartesian.c]  (parameters of the cartesian mesh,
      laws of the directions, connectivity and coordinates)

    Conventions of the embedding.
    - [cs_real_t] / [double] values are elements of an abstract number type
      [real] equipped with the operations the C code uses ([cs_real_ops]).
      Results that only depend on which operations are executed, and in which
      order, are proved for every such type; results that depend on the laws
      of arithmetic are proved for the instance [R_ops] (exact real numbers,
      no rounding).  The instance [F_ops] runs the same code on IEEE 754
      binary64 numbers, with the rounding of the machine.
    - [cs_lnum_t], [int] and [short int] indices are natural numbers.
    - C arrays are lists.  Reading or writing outside of an array, or
      dereferencing a NULL pointer, has no defined behaviour in C: the
      embedding then yields [Undef].  A call to [bft_error] yields [Abort]
      with the formatted message.  *)

From Stdlib Require Import PrimFloat.
From Stdlib Require Import Reals Lra ZArith String.
From stdpp Require Import base list option.

Open Scope string_scope.

(** ** Outcome of a computation *)

Inductive outcome (A : Type) : Type :=
| Done (a : A)          (* normal return *)
| Abort (msg : string)  (* bft_error was called *)
| Undef.                (* behaviour not defined by the C language *)
Arguments Done {A} a.
Arguments Abort {A} msg.
Arguments Undef {A}.

#[export] Instance outcome_ret : MRet outcome := fun A a => Done a.
#[export] Instance outcome_bind : MBind outcome := fun A B f m =>
  match m with
  | Done a => f a
  | Abort msg => Abort msg
  | Undef => Undef
  end.

(** Modelled from the spec: [bft_error] (not under src/) is fatal; it aborts
    the run with a descriptive message and does not give control back. *)
Definition bft_error {A} (msg : string) : outcome A := Abort msg.

(** Dereference of a pointer that may be NULL. *)
Definition deref {A} (p : option A) : outcome A :=
  match p with
  | Some a => Done a
  | None => Undef
  end.

(** [a[i]] as an rvalue. *)
Definition rd {A} (a : list A) (i : nat) : outcome A := deref (a !! i).

(** [a[i] = x]. *)
Definition wr {A} (a : list A) (i : nat) (x : A) : outcome (list A) :=
  if decide (i < length a) then Done (<[i:=x]> a) else Undef.

(** [for (k = lo; k < lo + n; k++) body], the state being threaded. *)
Fixpoint for_loop {St} (lo n : nat) (body : nat → St → outcome St) (s : St)
  : outcome St :=
  match n with
  | O => Done s
  | S n' => s' ← body lo s; for_loop (S lo) n' body s'
  end.

(** [for (k = lo; k < hi; k++) body]. *)
Definition for_range {St} (lo hi : nat) (body : nat → St → outcome St) (s : St)
  : outcome St :=
  for_loop lo (hi - lo) body s.

(** ** Arithmetic on [cs_real_t] *)

Class cs_real_ops (real : Type) : Type := {
  real_0 : real;
  real_1 : real;
  real_add : real → real → real;
  real_sub : real → real → real;
  real_mul : real → real → real;
  real_div : real → real → real;
  real_sqrt : real → real;
  real_lt : real → real → bool;
  real_le : real → real → bool;
  real_of_int : Z → real;
}.

Declare Scope cs_scope.
Delimit Scope cs_scope with cs.
Notation "a + b" := (real_add a b) : cs_scope.
Notation "a - b" := (real_sub a b) : cs_scope.
Notation "a * b" := (real_mul a b) : cs_scope.
Notation "a / b" := (real_div a b) : cs_scope.
Notation "a <? b" := (real_lt a b) : cs_scope.
Notation "a <=? b" := (real_le a b) : cs_scope.
Notation "a >? b" := (real_lt b a) : cs_scope.

Definition Rltb (x y : R) : bool := if Rlt_dec x y then true else false.
Definition Rleb (x y : R) : bool := if Rle_dec x y then true else false.

#[export] Instance R_ops : cs_real_ops R := {|
  real_0 := 0%R;
  real_1 := 1%R;
  real_add := Rplus;
  real_sub := Rminus;
  real_mul := Rmult;
  real_div := Rdiv;
  real_sqrt := sqrt;
  real_lt := Rltb;
  real_le := Rleb;
  real_of_int := IZR;
|}.

(** IEEE 754 double precision: [cs_real_t] is the C type [double].  The
    operations are those of binary64, each one rounded to nearest; the
    conversion of an [int] is exact. *)
Fixpoint float_of_pos (p : positive) : float :=
  match p with
  | xH => 1%float
  | xO q => (2 * float_of_pos q)%float
  | xI q => (2 * float_of_pos q + 1)%float
  end.

Definition float_of_int (z : Z) : float :=
  match z with
  | Z0 => 0%float
  | Zpos p => float_of_pos p
  | Zneg p => (- float_of_pos p)%float
  end.

#[export] Instance F_ops : cs_real_ops float := {|
  real_0 := 0%float;
  real_1 := 1%float;
  real_add := PrimFloat.add;
  real_sub := PrimFloat.sub;
  real_mul := PrimFloat.mul;
  real_div := PrimFloat.div;
  real_sqrt := PrimFloat.sqrt;
  real_lt := PrimFloat.ltb;
  real_le := PrimFloat.leb;
  real_of_int := float_of_int;
|}.

Section Embedding.

Context {real : Type} {ops : cs_real_ops real}.

#[local] Open Scope cs_scope.

#[export] Instance real_inhabited : Inhabited real := populate real_0.

(** [CS_MIN] and [CS_MAX] of cs_defs.h:
    [((a) < (b) ? (a) : (b))] and [((a) > (b) ? (a) : (b))]. *)
Definition CS_MIN (a b : real) : real := if a <? b then a else b.
Definition CS_MAX (a b : real) : real := if a >? b then a else b.

(** ** Cell-wise mesh view (cs_cell_mesh_t, the members that are read) *)

Record cs_quant_t : Type := {
  meas : real;
  unitv : real * real * real;
  center : real * real * real;
}.

Definition at3 (u : real * real * real) (k : nat) : real :=
  match k with
  | 0 => u.1.1
  | 1 => u.1.2
  | _ => u.2
  end.

Record cs_cell_mesh_t : Type := {
  c_id : nat;
  vol_c : real;
  n_fc : nat;
  face : list cs_quant_t;
  f_sgn : list Z;
}.

#[export] Instance cs_quant_inhabited : Inhabited cs_quant_t :=
  populate {| meas := real_0;
              unitv := (real_0, real_0, real_0);
              center := (real_0, real_0, real_0) |}.

(** ** cs_cdofb_navsto_divergence_vect (cs_cdofb_navsto.h) *)

Definition cs_cdofb_navsto_divergence_vect (cm : cs_cell_mesh_t)
    (div : list real) : outcome (list real) :=
  for_range 0 (n_fc cm) (fun f div =>
    pfq ← rd (face cm) f;
    sgn ← rd (f_sgn cm) f;
    let i_f := real_of_int sgn * meas pfq in
    div ← wr div (3 * f + 0) (i_f * at3 (unitv pfq) 0);
    div ← wr div (3 * f + 1) (i_f * at3 (unitv pfq) 1);
    wr div (3 * f + 2) (i_f * at3 (unitv pfq) 2)) div.

(** Sum of [g f] over the faces [0 .. n-1], accumulated in face order. *)
Fixpoint face_sum (n : nat) (g : nat → real) : real :=
  match n with
  | O => real_0
  | S n' => face_sum n' g + g n'
  end.

(** ** Mesh connectivity and quantities (the members that are read) *)

Record cs_adjacency_t : Type := {
  idx : list nat;
  ids : list nat;
}.

(** Modelled from the spec: the interface set of fvm (not under src/) relates
    the vertices shared between parallel partitions.  For one exchange it is
    represented by the pairs (local vertex id, value held by a neighbouring
    rank for the synchronised array). *)
Definition cs_interface_set_t : Type := list (nat * real).

Record cs_cdo_connect_t : Type := {
  c2v : cs_adjacency_t;
  interfaces_VTX_SCAL : option cs_interface_set_t;
}.

Record cs_cdo_quantities_t : Type := {
  n_cells : nat;
  n_vertices : nat;
  cell_vol : list real;
  dcell_vol : list real;
}.

Record cs_zone_t : Type := {
  name : string;
  n_elts : nat;
  elt_ids : option (list nat);
}.

Record cs_field_t : Type := {
  val : list real;
}.

Record cs_gwf_soil_t : Type := {
  id_of_soil : nat;              (* soil->id *)
  zone_id : nat;
  bulk_density : real;
  saturated_moisture : real;
}.

(** Global registries the tracer module queries (soils, volume zones, the
    cell to soil map) and global constants; they are passed explicitly. *)
Record cs_glob_t : Type := {
  soils : list cs_gwf_soil_t;
  zones : list cs_zone_t;
  cell2soil : list nat;
  cs_math_zero_threshold : real;
  cs_glob_n_ranks : nat;
  parall_contrib : list real;   (* partial sums held by the other ranks *)
}.

Definition cs_gwf_get_n_soils (g : cs_glob_t) : nat := length (soils g).

Definition cs_gwf_soil_by_id (g : cs_glob_t) (k : nat)
  : outcome cs_gwf_soil_t := rd (soils g) k.

Definition cs_volume_zone_by_id (g : cs_glob_t) (k : nat)
  : outcome cs_zone_t := rd (zones g) k.

Definition cs_gwf_get_cell2soil (g : cs_glob_t) : list nat := cell2soil g.

Definition cs_gwf_soil_get_saturated_moisture (g : cs_glob_t) (k : nat)
  : outcome real :=
  soil ← rd (soils g) k; mret (saturated_moisture soil).

(** Modelled from the spec: [cs_gwf_soil_by_name] (not under src/) returns
    the soil attached to the volume zone of that name, or NULL. *)
Definition cs_gwf_soil_by_name (g : cs_glob_t) (nm : string)
  : option cs_gwf_soil_t :=
  List.find (fun soil =>
    match zones g !! zone_id soil with
    | Some z => String.eqb (name z) nm
    | None => false
    end) (soils g).

(** [z->elt_ids == NULL ? i : z->elt_ids[i]] *)
Definition zone_elt (z : cs_zone_t) (i : nat) : outcome nat :=
  match elt_ids z with
  | None => Done i
  | Some l => rd l i
  end.

(** Modelled from the spec: [cs_interface_set_max] and
    [cs_interface_set_min] (not under src/) replace the value at each shared
    vertex by the maximum (minimum) over the ranks sharing it. *)
Definition cs_interface_set_max (itf : cs_interface_set_t) (var : list real)
  : outcome (list real) :=
  for_range 0 (length itf) (fun k var =>
    p ← rd itf k;
    x ← rd var p.1;
    wr var p.1 (CS_MAX x p.2)) var.

Definition cs_interface_set_min (itf : cs_interface_set_t) (var : list real)
  : outcome (list real) :=
  for_range 0 (length itf) (fun k var =>
    p ← rd itf k;
    x ← rd var p.1;
    wr var p.1 (CS_MIN x p.2)) var.

(** Modelled from the spec: [cs_parall_sum] (not under src/) adds up the
    values held by all the ranks. *)
Definition cs_parall_sum (g : cs_glob_t) (x : real) : real :=
  foldl real_add x (parall_contrib g).

(** ** Equations and tracers (the members that are read or written) *)

Inductive cs_param_space_scheme_t : Type :=
| CS_SPACE_SCHEME_LEGACY
| CS_SPACE_SCHEME_CDOVB
| CS_SPACE_SCHEME_CDOVCB
| CS_SPACE_SCHEME_CDOEB
| CS_SPACE_SCHEME_CDOFB
| CS_SPACE_SCHEME_HHO_P0
| CS_SPACE_SCHEME_HHO_P1
| CS_SPACE_SCHEME_HHO_P2.

Record cs_equation_t : Type := {
  space_scheme : cs_param_space_scheme_t;
  vertex_values : list real;     (* cs_equation_get_vertex_values(eq, false) *)
  cell_values : list real;       (* cs_equation_get_cell_values(eq, false) *)
}.

Record cs_gwf_tracer_context_t : Type := {
  rho_bulk : list real;
  kd0 : list real;
  rho_kd : list real;
  alpha_l : list real;
  alpha_t : list real;
  wmd : list real;
  reaction_rate : list real;
  conc_w_star : option (list real);
  conc_precip : option (list real);
  conc_satura : option (list real);
  precip_field : option cs_field_t;
  darcy_velocity_field : option cs_field_t;
  l_saturation : option (list real);
}.

Record cs_gwf_tracer_t : Type := {
  tr_eq : cs_equation_t;         (* tracer->eq *)
  diffusivity : option cs_field_t;
  context : option cs_gwf_tracer_context_t;
}.

(** [p[i]] where the pointer [p] may be NULL. *)
Definition rdp {A} (p : option (list A)) (i : nat) : outcome A :=
  a ← deref p; rd a i.

(** ** Property evaluators (cs_gwf_tracer.c)

    The parameters [mesh], [connect] and [quant], which are CS_UNUSED in the
    source, are left out.  [context] is the [void *] cast to the tracer
    context; [assert(tc != NULL)] is the dereference of [context]. *)


Definition _get_time_pty4std_sat_tracer_cw (g : cs_glob_t)
    (cm : cs_cell_mesh_t) (t_eval : real)
    (context : option cs_gwf_tracer_context_t) : outcome real :=
  let c2s := cs_gwf_get_cell2soil g in
  soil_id ← rd c2s (c_id cm);
  saturated_moisture ← cs_gwf_soil_get_saturated_moisture g soil_id;
  tc ← deref context;
  rk ← rd (rho_kd tc) soil_id;
  mret (saturated_moisture + rk).


Definition _get_time_pty4std_tracer_cw (g : cs_glob_t)
    (cm : cs_cell_mesh_t) (t_eval : real)
    (context : option cs_gwf_tracer_context_t) : outcome real :=
  let c2s := cs_gwf_get_cell2soil g in
  tc ← deref context;
  th ← rdp (l_saturation tc) (c_id cm);
  s ← rd c2s (c_id cm);
  rk ← rd (rho_kd tc) s;
  mret (th + rk).


Definition _get_reaction_pty4std_sat_tracer_cw (g : cs_glob_t)
    (cm : cs_cell_mesh_t) (t_eval : real)
    (context : option cs_gwf_tracer_context_t) : outcome real :=
  tc ← deref context;
  let c2s := cs_gwf_get_cell2soil g in
  s ← rd c2s (c_id cm);
  saturated_moisture ← cs_gwf_soil_get_saturated_moisture g s;
  rk ← rd (rho_kd tc) s;
  rr ← rd (reaction_rate tc) s;
  mret ((saturated_moisture + rk) * rr).


Definition _get_reaction_pty4std_tracer_cw (g : cs_glob_t)
    (cm : cs_cell_mesh_t) (t_eval : real)
    (context : option cs_gwf_tracer_context_t) : outcome real :=
  tc ← deref context;
  let c2s := cs_gwf_get_cell2soil g in
  s ← rd c2s (c_id cm);
  th ← rdp (l_saturation tc) (c_id cm);
  rk ← rd (rho_kd tc) s;
  rr ← rd (reaction_rate tc) s;
  mret ((th + rk) * rr).

(** ** Writing back into the structures reached through pointers *)

Definition set_diffusivity_val (tracer : cs_gwf_tracer_t) (values : list real)
  : cs_gwf_tracer_t :=
  {| tr_eq := tr_eq tracer;
     diffusivity := Some {| val := values |};
     context := context tracer |}.

Definition set_context (tracer : cs_gwf_tracer_t)
    (tc : cs_gwf_tracer_context_t) : cs_gwf_tracer_t :=
  {| tr_eq := tr_eq tracer;
     diffusivity := diffusivity tracer;
     context := Some tc |}.

Definition set_vertex_values (tracer : cs_gwf_tracer_t) (c_w : list real)
  : cs_gwf_tracer_t :=
  {| tr_eq := {| space_scheme := space_scheme (tr_eq tracer);
                 vertex_values := c_w;
                 cell_values := cell_values (tr_eq tracer) |};
     diffusivity := diffusivity tracer;
     context := context tracer |}.

Definition set_precip (tc : cs_gwf_tracer_context_t)
    (c_p : option (list real)) (c_sat : option (list real))
    (field : option cs_field_t) : cs_gwf_tracer_context_t :=
  {| rho_bulk := rho_bulk tc; kd0 := kd0 tc; rho_kd := rho_kd tc;
     alpha_l := alpha_l tc; alpha_t := alpha_t tc; wmd := wmd tc;
     reaction_rate := reaction_rate tc;
     conc_w_star := conc_w_star tc;
     conc_precip := c_p;
     conc_satura := c_sat;
     precip_field := field;
     darcy_velocity_field := darcy_velocity_field tc;
     l_saturation := l_saturation tc |}.

(** ** Diffusion tensor updaters (cs_gwf_tracer.c) *)

Definition _update_sat_diff_pty (g : cs_glob_t) (tracer : cs_gwf_tracer_t)
    (t_eval : real) : outcome cs_gwf_tracer_t :=
  match diffusivity tracer with
  | None => Done tracer
  | Some dfield =>
    let values := val dfield in
    tc ← deref (context tracer);
    dvf ← deref (darcy_velocity_field tc);
    let velocity := val dvf in
    let n_soils := cs_gwf_get_n_soils g in
    values ← for_range 0 n_soils (fun soil_id values =>
      soil ← cs_gwf_soil_by_id g soil_id;
      z ← cs_volume_zone_by_id g (zone_id soil);
      wmd ← rd (wmd tc) soil_id;
      at_ ← rd (alpha_t tc) soil_id;
      al ← rd (alpha_l tc) soil_id;
      theta_s ← cs_gwf_soil_get_saturated_moisture g soil_id;
      for_range 0 (n_elts z) (fun i values =>
        c_id ← zone_elt z i;
        v0 ← rd velocity (3 * c_id + 0);
        v1 ← rd velocity (3 * c_id + 1);
        v2_ ← rd velocity (3 * c_id + 2);
        let v2 := [v0 * v0; v1 * v1; v2_ * v2_] in
        let vnorm := real_sqrt (v0 * v0 + v1 * v1 + v2_ * v2_) in
        let coef1 := wmd * theta_s + at_ * vnorm in
        let delta :=
          if vnorm >? cs_math_zero_threshold g then (al - at_) / vnorm
          else real_0 in
        let dcv := [delta * v0; delta * v1; delta * v2_] in
        for_range 0 3 (fun ki values =>
          x ← rd v2 ki;
          values ← wr values (9 * c_id + (3 * ki + ki)) (coef1 + delta * x);
          for_range (ki + 1) 3 (fun kj values =>
            d ← rd dcv ki;
            vkj ← rd velocity (3 * c_id + kj);
            values ← wr values (9 * c_id + (3 * ki + kj)) (d * vkj);
            y ← rd values (9 * c_id + (3 * ki + kj));
            wr values (9 * c_id + (3 * kj + ki)) y) values) values) values)
      values;
    mret (set_diffusivity_val tracer values)
  end.

Definition _update_diff_pty (g : cs_glob_t) (tracer : cs_gwf_tracer_t)
    (t_eval : real) : outcome cs_gwf_tracer_t :=
  match diffusivity tracer with
  | None => Done tracer
  | Some dfield =>
    let values := val dfield in
    tc ← deref (context tracer);
    let theta := l_saturation tc in
    dvf ← deref (darcy_velocity_field tc);
    let velocity := val dvf in
    let n_soils := cs_gwf_get_n_soils g in
    values ← for_range 0 n_soils (fun soil_id values =>
      soil ← cs_gwf_soil_by_id g soil_id;
      z ← cs_volume_zone_by_id g (zone_id soil);
      wmd ← rd (wmd tc) soil_id;
      at_ ← rd (alpha_t tc) soil_id;
      al ← rd (alpha_l tc) soil_id;
      for_range 0 (n_elts z) (fun i values =>
        c_id ← zone_elt z i;
        v0 ← rd velocity (3 * c_id + 0);
        v1 ← rd velocity (3 * c_id + 1);
        v2_ ← rd velocity (3 * c_id + 2);
        let v2 := [v0 * v0; v1 * v1; v2_ * v2_] in
        let vnorm := real_sqrt (v0 * v0 + v1 * v1 + v2_ * v2_) in
        th ← rdp theta c_id;
        let coef1 := wmd * th + at_ * vnorm in
        let delta :=
          if vnorm >? cs_math_zero_threshold g then (al - at_) / vnorm
          else real_0 in
        let dcv := [delta * v0; delta * v1; delta * v2_] in
        for_range 0 3 (fun ki values =>
          x ← rd v2 ki;
          values ← wr values (9 * c_id + (3 * ki + ki)) (coef1 + delta * x);
          for_range (ki + 1) 3 (fun kj values =>
            d ← rd dcv ki;
            vkj ← rd velocity (3 * c_id + kj);
            values ← wr values (9 * c_id + (3 * ki + kj)) (d * vkj);
            y ← rd values (9 * c_id + (3 * ki + kj));
            wr values (9 * c_id + (3 * kj + ki)) y) values) values) values)
      values;
    mret (set_diffusivity_val tracer values)
  end.

(** ** Precipitation / dissolution update (cs_gwf_tracer.c)

    [assert(tc->conc_satura != NULL && tc->conc_precip != NULL)] is the
    dereference of both pointers.  The state threaded through the loops is
    the pair ([c_w], [c_p]). *)

Definition _update_precipitation_vb (g : cs_glob_t)
    (tracer : cs_gwf_tracer_t) (t_eval : real)
    (connect : cs_cdo_connect_t) (quant : cs_cdo_quantities_t)
  : outcome cs_gwf_tracer_t :=
  tc ← deref (context tracer);
  conc_satura ← deref (conc_satura tc);
  c_p ← deref (conc_precip tc);
  let c_w := vertex_values (tr_eq tracer) in
  (* BFT_MALLOC + memcpy of n_vertices values *)
  c_w_save ← (if decide (n_vertices quant ≤ length c_w)
              then Done (take (n_vertices quant) c_w) else Undef);
  let c2v := c2v connect in
  let theta := l_saturation tc in
  (* 2) Update c_w and c_p *)
  let n_soils := cs_gwf_get_n_soils g in
  st ← for_range 0 n_soils (fun soil_id st =>
    soil ← cs_gwf_soil_by_id g soil_id;
    z ← cs_volume_zone_by_id g (zone_id soil);
    rho ← rd (rho_bulk tc) (id_of_soil soil);
    let inv_rho := real_1 / rho in
    for_range 0 (n_elts z) (fun i st =>
      c_id ← zone_elt z i;
      theta_c ← rdp theta c_id;
      let inv_theta_c := real_1 / theta_c in
      lo ← rd (idx c2v) c_id;
      hi ← rd (idx c2v) (c_id + 1);
      for_range lo hi (fun j '(c_w, c_p) =>
        v_id ← rd (ids c2v) j;
        c_sat ← rd conc_satura v_id;
        cws ← rd c_w_save v_id;
        dissolution ← (if cws <=? c_sat
                       then cpj ← rd c_p j; Done (cpj >? real_0)
                       else Done false);
        if (dissolution : bool) then
          cpj ← rd c_p j;
          let c_w_max := CS_MIN c_sat (cws + rho * inv_theta_c * cpj) in
          c_p ← wr c_p j (cpj - theta_c * inv_rho * (c_w_max - cws));
          cwv ← rd c_w v_id;
          c_w ← wr c_w v_id (CS_MAX cwv c_w_max);
          mret (c_w, c_p)
        else if cws >? c_sat then
          cpj ← rd c_p j;
          c_p ← wr c_p j (cpj + theta_c * inv_rho * (cws - c_sat));
          c_w ← wr c_w v_id c_sat;
          mret (c_w, c_p)
        else mret (c_w, c_p)) st) st) (c_w, c_p);
  let '(c_w, c_p) := st in
  (* Parallel synchronization (in case of dissolution) *)
  c_w ← match interfaces_VTX_SCAL connect with
        | Some itf => cs_interface_set_max itf c_w
        | None => Done c_w
        end;
  (* 3) Update the value of concentration in precipitate in each cell *)
  pfield ← deref (precip_field tc);
  field_val ← for_range 0 (n_cells quant) (fun c_id field_val =>
    field_val ← wr field_val c_id real_0;
    lo ← rd (idx c2v) c_id;
    hi ← rd (idx c2v) (c_id + 1);
    field_val ← for_range lo hi (fun j field_val =>
      x ← rd field_val c_id;
      dv ← rd (dcell_vol quant) j;
      cpj ← rd c_p j;
      wr field_val c_id (x + dv * cpj)) field_val;
    x ← rd field_val c_id;
    cv ← rd (cell_vol quant) c_id;
    wr field_val c_id (x / cv)) (val pfield);
  mret (set_context (set_vertex_values tracer c_w)
          (set_precip tc (Some c_p) (Some conc_satura)
             (Some {| val := field_val |}))).

(** ** Precipitation setup (cs_gwf_tracer.c)

    [BFT_MALLOC] returns a block whose content is indeterminate: [uninit]
    stands for whatever the block of [conc_satura] holds at allocation.
    The OpenMP loop writes distinct entries and is run in index order. *)

Definition nl : string := String (Ascii.ascii_of_nat 10) EmptyString.
Definition dquote : string := String (Ascii.ascii_of_nat 34) EmptyString.

Definition _add_precipitation (g : cs_glob_t) (connect : cs_cdo_connect_t)
    (quant : cs_cdo_quantities_t) (tracer : cs_gwf_tracer_t)
    (uninit : nat → real) : outcome cs_gwf_tracer_t :=
  let tc := context tracer in
  let n_soils := cs_gwf_get_n_soils g in
  let c2v := c2v connect in
  let space_scheme := space_scheme (tr_eq tracer) in
  a_size ← match space_scheme with
           | CS_SPACE_SCHEME_CDOVB => rd (idx c2v) (n_cells quant)
           | CS_SPACE_SCHEME_CDOVCB =>
               x ← rd (idx c2v) (n_cells quant);
               mret (x + n_cells quant)%nat
           | _ => bft_error "_add_precipitation: Invalid space scheme."
           end;
  tc ← deref tc;
  let conc_precip := replicate a_size real_0 in
  (* Build conc_satura *)
  conc_satura ←
    match space_scheme with
    | CS_SPACE_SCHEME_CDOVCB | CS_SPACE_SCHEME_CDOVB =>
      satura ← for_range 0 n_soils (fun soil_id satura =>
        soil ← cs_gwf_soil_by_id g soil_id;
        c_sat ← rdp (conc_w_star tc) (id_of_soil soil);
        if decide (soil_id = 0) then (* Initialize with c_sat *)
          for_range 0 (n_vertices quant) (fun v satura =>
            wr satura v c_sat) satura
        else
          z ← cs_volume_zone_by_id g (zone_id soil);
          elt_ids ← deref (elt_ids z);      (* assert(z->elt_ids != NULL) *)
          for_range 0 (n_elts z) (fun i satura =>
            c_id ← rd elt_ids i;
            lo ← rd (idx c2v) c_id;
            hi ← rd (idx c2v) (c_id + 1);
            for_range lo hi (fun j satura =>
              v_id ← rd (ids c2v) j;
              x ← rd satura v_id;
              wr satura v_id (CS_MIN x c_sat)) satura) satura)
        (uninit <$> seq 0 (n_vertices quant));
      mret (Some satura)
    | _ => mret (conc_satura tc)
    end;
  (* Interface synchronization *)
  conc_satura ← match interfaces_VTX_SCAL connect with
                | Some itf =>
                    satura ← deref conc_satura;
                    satura ← cs_interface_set_min itf satura;
                    mret (Some satura)
                | None => mret conc_satura
                end;
  mret (set_context tracer
          (set_precip tc (Some conc_precip) conc_satura (precip_field tc))).

(** ** cs_gwf_set_main_tracer_param (cs_gwf_tracer.c) *)

Definition _err_empty_tracer : string :=
  " Stop execution. The structure related to a tracer is empty." ++ nl ++
  " Please check your settings." ++ nl.

(** The seven assignments made for the soil of index [k], which the source
    writes out in both branches. *)
Definition set_soil_param (tc : cs_gwf_tracer_context_t) (k : nat)
    (soil : cs_gwf_soil_t) (wmd_ alpha_l_ alpha_t_ distrib_coef rate : real)
  : outcome cs_gwf_tracer_context_t :=
  rb ← wr (rho_bulk tc) k (bulk_density soil);
  kd ← wr (kd0 tc) k distrib_coef;
  rk ← wr (rho_kd tc) k (bulk_density soil * distrib_coef);
  al ← wr (alpha_l tc) k alpha_l_;
  at_ ← wr (alpha_t tc) k alpha_t_;
  wm ← wr (wmd tc) k wmd_;
  rr ← wr (reaction_rate tc) k rate;
  mret {| rho_bulk := rb; kd0 := kd; rho_kd := rk; alpha_l := al;
          alpha_t := at_; wmd := wm; reaction_rate := rr;
          conc_w_star := conc_w_star tc; conc_precip := conc_precip tc;
          conc_satura := conc_satura tc; precip_field := precip_field tc;
          darcy_velocity_field := darcy_velocity_field tc;
          l_saturation := l_saturation tc |}.

Definition cs_gwf_set_main_tracer_param (g : cs_glob_t)
    (tracer : option cs_gwf_tracer_t) (soil_name : option string)
    (wmd_ alpha_l_ alpha_t_ distrib_coef rate : real)
  : outcome cs_gwf_tracer_t :=
  match tracer with
  | None => bft_error _err_empty_tracer
  | Some tracer =>
    match soil_name with
    | None => (* All soils have to be set for this tracer *)
      let n_soils := cs_gwf_get_n_soils g in
      for_range 0 n_soils (fun soil_id tracer =>
        soil ← cs_gwf_soil_by_id g soil_id;
        tc ← deref (context tracer);
        tc ← set_soil_param tc soil_id soil wmd_ alpha_l_ alpha_t_
               distrib_coef rate;
        mret (set_context tracer tc)) tracer
    | Some soil_name => (* Set this tracer equation for a specific soil *)
      match cs_gwf_soil_by_name g soil_name with
      | None =>
          bft_error (" Soil " ++ soil_name ++
                     " not found among the predefined soils." ++ nl ++
                     " Please check your settings.")
      | Some soil =>
          tc ← deref (context tracer);
          tc ← set_soil_param tc (id_of_soil soil) soil wmd_ alpha_l_
                 alpha_t_ distrib_coef rate;
          mret (set_context tracer tc)
      end
    end
  end.

(** ** cs_gwf_tracer_integrate (cs_gwf_tracer.c)

    The literals 0.25 and 0.75 are written 1/4 and 3/4. *)

Definition cs_gwf_tracer_integrate (g : cs_glob_t)
    (connect : cs_cdo_connect_t) (cdoq : cs_cdo_quantities_t)
    (tracer : cs_gwf_tracer_t) (z : cs_zone_t) : outcome real :=
  tc ← deref (context tracer);
  let tr_eqp_space_scheme := space_scheme (tr_eq tracer) in
  let c2s := cs_gwf_get_cell2soil g in
  moisture_val ←
    match l_saturation tc with
    | None => bft_error (" cs_gwf_tracer_integrate: " ++ dquote ++
                         "moisture_content" ++ dquote ++ " not defined")
    | Some m => Done m
    end;
  let c2v := c2v connect in
  int_value ←
    match tr_eqp_space_scheme with
    | CS_SPACE_SCHEME_CDOVB =>
      let v_vals := vertex_values (tr_eq tracer) in
      for_range 0 (n_elts z) (fun i int_value =>
        c_id ← zone_elt z i;
        lo ← rd (idx c2v) c_id;
        hi ← rd (idx c2v) (c_id + 1);
        _int_value ← for_range lo hi (fun j _int_value =>
          dv ← rd (dcell_vol cdoq) j;
          v_id ← rd (ids c2v) j;
          vv ← rd v_vals v_id;
          mret (_int_value + dv * vv)) real_0;
        m ← rd moisture_val c_id;
        s ← rd c2s c_id;
        rk ← rd (rho_kd tc) s;
        mret (int_value + (m + rk) * _int_value)) real_0
    | CS_SPACE_SCHEME_CDOVCB =>
      let v_vals := vertex_values (tr_eq tracer) in
      let c_vals := cell_values (tr_eq tracer) in
      for_range 0 (n_elts z) (fun i int_value =>
        c_id ← zone_elt z i;
        cv ← rd (cell_vol cdoq) c_id;
        cc ← rd c_vals c_id;
        lo ← rd (idx c2v) c_id;
        hi ← rd (idx c2v) (c_id + 1);
        _int_value ← for_range lo hi (fun j _int_value =>
          dv ← rd (dcell_vol cdoq) j;
          v_id ← rd (ids c2v) j;
          vv ← rd v_vals v_id;
          mret (_int_value
                + real_of_int 3 / real_of_int 4 * dv * vv))
          (real_of_int 1 / real_of_int 4 * cv * cc);
        m ← rd moisture_val c_id;
        s ← rd c2s c_id;
        rk ← rd (rho_kd tc) s;
        mret (int_value + (m + rk) * _int_value)) real_0
    | _ => bft_error " cs_gwf_tracer_integrate: Invalid space scheme"
    end;
  (* Parallel synchronization *)
  mret (if decide (1 < cs_glob_n_ranks g) then cs_parall_sum g int_value
        else int_value).

End Embedding.

Arguments cs_quant_t : clear implicits.
Arguments cs_cell_mesh_t : clear implicits.
Arguments cs_interface_set_t : clear implicits.
Arguments cs_cdo_connect_t : clear implicits.
Arguments cs_cdo_quantities_t : clear implicits.
Arguments cs_field_t : clear implicits.
Arguments cs_gwf_soil_t : clear implicits.
Arguments cs_glob_t : clear implicits.
Arguments cs_equation_t : clear implicits.
Arguments cs_gwf_tracer_context_t : clear implicits.
Arguments cs_gwf_tracer_t : clear implicits.

(** * Vocabulary of the statements *)

Section Vocabulary.

Context {real : Type} {ops : cs_real_ops real}.

(** Signed area vector of the face [f] of [cm], component [k]:
    [cm->f_sgn[f] * cm->face[f].meas * cm->face[f].unitv[k]]. *)
Definition signed_area (cm : cs_cell_mesh_t real) (f k : nat) : real :=
  (real_of_int (f_sgn cm !!! f) * meas (face cm !!! f)
   * at3 (unitv (face cm !!! f)) k)%cs.

(** Cell visited at position [i] of a bulk evaluation, and the entry of
    [result] that receives its value. *)
Definition selected (elt_ids : option (list nat)) (i : nat) : nat :=
  match elt_ids with
  | None => i
  | Some l => l !!! i
  end.

Definition out_index (elt_ids : option (list nat)) (dense_output : bool)
    (i : nat) : nat :=
  if dense_output then i else selected elt_ids i.



(** The pattern shared by the updaters: for each soil, some per-soil data
    is fetched ([prelude], which also gives the number of cells of the zone
    and the way to get its i-th cell), then each cell of the zone is
    processed ([cell]).  The loops of the updaters are instances of it
    (lemmas [*_as_soil_cells_loop]). *)
Definition soil_cells_loop {St Par : Type} (n_soils : nat)
    (prelude : nat → outcome (cs_zone_t * Par))
    (cell : Par → nat → St → outcome St) (st : St) : outcome St :=
  for_range 0 n_soils (fun soil_id st =>
    zp ← prelude soil_id;
    for_range 0 (n_elts zp.1) (fun i st =>
      c_id ← zone_elt zp.1 i;
      cell zp.2 c_id st) st) st.

(** *** Diffusion tensor *)

(** Norm of the velocity and the coefficient [delta], as the updaters
    compute them. *)
Definition vnorm_of (v : nat → real) : real :=
  real_sqrt (v 0 * v 0 + v 1 * v 1 + v 2 * v 2)%cs.

Definition delta_of (g : cs_glob_t real) (al at_ vnorm : real) : real :=
  if (vnorm >? cs_math_zero_threshold g)%cs then ((al - at_) / vnorm)%cs
  else real_0.

(** Value stored at row [ki], column [kj]: the diagonal term, or the
    off-diagonal term, which is computed for the pair taken in increasing
    order. *)
Definition tensor_entry (coef1 delta : real) (v : nat → real) (ki kj : nat)
  : real :=
  if decide (ki = kj) then (coef1 + delta * (v ki * v ki))%cs
  else (delta * v (ki `min` kj) * v (ki `max` kj))%cs.

(** The two inner loops of the updaters, which store the nine entries of
    the cell [c_id]. *)
Definition tensor_store (velocity : list real) (c_id : nat)
    (coef1 delta : real) (v2 dcv : list real) (values : list real)
  : outcome (list real) :=
  for_range 0 3 (fun ki values =>
    x ← rd v2 ki;
    values ← wr values (9 * c_id + (3 * ki + ki)) (coef1 + delta * x)%cs;
    for_range (ki + 1) 3 (fun kj values =>
      d ← rd dcv ki;
      vkj ← rd velocity (3 * c_id + kj);
      values ← wr values (9 * c_id + (3 * ki + kj)) (d * vkj)%cs;
      y ← rd values (9 * c_id + (3 * ki + kj));
      wr values (9 * c_id + (3 * kj + ki)) y) values) values.

(** Processing of one cell by [_update_sat_diff_pty]; the per-soil data are
    ([wmd], [at], [al], [theta_s]). *)
Definition sat_diff_cell (g : cs_glob_t real) (velocity : list real)
    (p : real * real * real * real) (c_id : nat) (values : list real)
  : outcome (list real) :=
  let '(wmd, at_, al, theta_s) := p in
  v0 ← rd velocity (3 * c_id + 0);
  v1 ← rd velocity (3 * c_id + 1);
  v2_ ← rd velocity (3 * c_id + 2);
  let vnorm := real_sqrt (v0 * v0 + v1 * v1 + v2_ * v2_)%cs in
  let delta := delta_of g al at_ vnorm in
  tensor_store velocity c_id (wmd * theta_s + at_ * vnorm)%cs delta
    [v0 * v0; v1 * v1; v2_ * v2_]%cs
    [delta * v0; delta * v1; delta * v2_]%cs values.

(** Processing of one cell by [_update_diff_pty]; the per-soil data are
    ([wmd], [at], [al]). *)
Definition diff_cell (g : cs_glob_t real) (velocity : list real)
    (theta : option (list real))
    (p : real * real * real) (c_id : nat) (values : list real)
  : outcome (list real) :=
  let '(wmd, at_, al) := p in
  v0 ← rd velocity (3 * c_id + 0);
  v1 ← rd velocity (3 * c_id + 1);
  v2_ ← rd velocity (3 * c_id + 2);
  let vnorm := real_sqrt (v0 * v0 + v1 * v1 + v2_ * v2_)%cs in
  th ← rdp theta c_id;
  let delta := delta_of g al at_ vnorm in
  tensor_store velocity c_id (wmd * th + at_ * vnorm)%cs delta
    [v0 * v0; v1 * v1; v2_ * v2_]%cs
    [delta * v0; delta * v1; delta * v2_]%cs values.

(** Per-soil data of the two updaters. *)
Definition sat_diff_prelude (g : cs_glob_t real)
    (tc : cs_gwf_tracer_context_t real) (soil_id : nat)
  : outcome (cs_zone_t * (real * real * real * real)) :=
  soil ← cs_gwf_soil_by_id g soil_id;
  z ← cs_volume_zone_by_id g (zone_id soil);
  wmd ← rd (wmd tc) soil_id;
  at_ ← rd (alpha_t tc) soil_id;
  al ← rd (alpha_l tc) soil_id;
  theta_s ← cs_gwf_soil_get_saturated_moisture g soil_id;
  mret (z, (wmd, at_, al, theta_s)).

Definition diff_prelude (g : cs_glob_t real)
    (tc : cs_gwf_tracer_context_t real) (soil_id : nat)
  : outcome (cs_zone_t * (real * real * real)) :=
  soil ← cs_gwf_soil_by_id g soil_id;
  z ← cs_volume_zone_by_id g (zone_id soil);
  wmd ← rd (wmd tc) soil_id;
  at_ ← rd (alpha_t tc) soil_id;
  al ← rd (alpha_l tc) soil_id;
  mret (z, (wmd, at_, al)).

(** Velocity of the cell [c]: [velocity + 3*c]. *)
Definition cell_velocity (velocity : list real) (c : nat) : nat → real :=
  fun k => velocity !!! (3 * c + k).

(** Entry ([ki], [kj]) of the tensor of a cell of velocity [v], for the soil
    parameters [wmd], [at_], [al] and the moisture [theta]. *)
Definition cell_tensor (g : cs_glob_t real) (wmd at_ al theta : real)
    (v : nat → real) (ki kj : nat) : real :=
  tensor_entry (wmd * theta + at_ * vnorm_of v)%cs
               (delta_of g al at_ (vnorm_of v)) v ki kj.

(** *** Soils, zones and cells *)

(** Each soil has its zone, whose list of cells (if any) is long enough. *)
Definition soils_wf (g : cs_glob_t real) : Prop :=
  ∀ s soil, soils g !! s = Some soil →
    ∃ z, zones g !! zone_id soil = Some z ∧
         ∀ l, elt_ids z = Some l → n_elts z ≤ length l.

(** [c] is the cell of position [i] in the zone of the soil [s]. *)
Definition soil_cell_at (g : cs_glob_t real) (s i c : nat) : Prop :=
  ∃ soil z, soils g !! s = Some soil ∧ zones g !! zone_id soil = Some z ∧
            i < n_elts z ∧ zone_elt z i = Done c.

Definition soil_cell (g : cs_glob_t real) (s c : nat) : Prop :=
  ∃ i, soil_cell_at g s i c.

(** What the diffusion tensor updaters need to run: parameters for each
    soil, and room for each cell of a soil in the velocity and diffusivity
    fields. *)
Definition diff_wf (g : cs_glob_t real) (tc : cs_gwf_tracer_context_t real)
    (velocity values : list real) : Prop :=
  soils_wf g ∧
  cs_gwf_get_n_soils g ≤ length (wmd tc) ∧
  cs_gwf_get_n_soils g ≤ length (alpha_t tc) ∧
  cs_gwf_get_n_soils g ≤ length (alpha_l tc) ∧
  ∀ s c, soil_cell g s c →
         3 * c + 2 < length velocity ∧ 9 * c + 8 < length values.

(** The nine entries of the cell [c] in [values] are [T ki kj]. *)
Definition cell_entries (values : list real) (c : nat)
    (T : nat → nat → real) : Prop :=
  ∀ ki kj, ki < 3 → kj < 3 →
    values !! (9 * c + (3 * ki + kj)) = Some (T ki kj).

(** *** Precipitation / dissolution *)

(** The innermost loop of the pattern: the cell gives some data and the
    range [lo, hi) of its slots in the cell to vertex adjacency, then each
    slot is processed. *)
Definition cell_slots_loop {St Par CPar : Type}
    (cellpre : Par → nat → outcome (CPar * (nat * nat)))
    (slot : Par → CPar → nat → St → outcome St)
    (p : Par) (c_id : nat) (st : St) : outcome St :=
  x ← cellpre p c_id;
  for_range x.2.1 x.2.2 (slot p x.1) st.

(** Per-soil data ([rho]) and per-cell data ([theta_c] and the slots of the
    cell) of [_update_precipitation_vb]. *)
Definition precip_prelude (g : cs_glob_t real)
    (tc : cs_gwf_tracer_context_t real) (soil_id : nat)
  : outcome (cs_zone_t * real) :=
  soil ← cs_gwf_soil_by_id g soil_id;
  z ← cs_volume_zone_by_id g (zone_id soil);
  rho ← rd (rho_bulk tc) (id_of_soil soil);
  mret (z, rho).

Definition precip_cellpre (c2v : cs_adjacency_t)
    (theta : option (list real)) (rho : real) (c_id : nat)
  : outcome (real * (nat * nat)) :=
  theta_c ← rdp theta c_id;
  lo ← rd (idx c2v) c_id;
  hi ← rd (idx c2v) (c_id + 1);
  mret (theta_c, (lo, hi)).

(** New values of [c_p[j]] and [c_w[v_id]] after the slot [j] has been
    processed, from the values [cpj] and [cwv] they had, for the saved
    concentration [cws] and the saturation [c_sat] of the vertex. *)
Definition slot_dissolves (c_sat cws cpj : real) : bool :=
  (cws <=? c_sat)%cs && (cpj >? real_0)%cs.

Definition slot_c_w_max (rho theta_c c_sat cws cpj : real) : real :=
  CS_MIN c_sat (cws + rho * (real_1 / theta_c) * cpj)%cs.

Definition slot_c_p (rho theta_c c_sat cws cpj : real) : real :=
  if slot_dissolves c_sat cws cpj then
    (cpj - theta_c * (real_1 / rho)
           * (slot_c_w_max rho theta_c c_sat cws cpj - cws))%cs
  else if (cws >? c_sat)%cs then
    (cpj + theta_c * (real_1 / rho) * (cws - c_sat))%cs
  else cpj.

Definition slot_c_w (rho theta_c c_sat cws cpj cwv : real) : real :=
  if slot_dissolves c_sat cws cpj then
    CS_MAX cwv (slot_c_w_max rho theta_c c_sat cws cpj)
  else if (cws >? c_sat)%cs then c_sat
  else cwv.

(** Processing of the slot [j] by [_update_precipitation_vb]. *)
Definition precip_slot (c2v : cs_adjacency_t)
    (conc_satura c_w_save : list real) (rho theta_c : real) (j : nat)
    (st : list real * list real) : outcome (list real * list real) :=
  let '(c_w, c_p) := st in
  v_id ← rd (ids c2v) j;
  c_sat ← rd conc_satura v_id;
  cws ← rd c_w_save v_id;
  dissolution ← (if (cws <=? c_sat)%cs
                 then cpj ← rd c_p j; Done (cpj >? real_0)%cs
                 else Done false);
  if (dissolution : bool) then
    cpj ← rd c_p j;
    let inv_theta_c := (real_1 / theta_c)%cs in
    let inv_rho := (real_1 / rho)%cs in
    let c_w_max := CS_MIN c_sat (cws + rho * inv_theta_c * cpj)%cs in
    c_p ← wr c_p j (cpj - theta_c * inv_rho * (c_w_max - cws))%cs;
    cwv ← rd c_w v_id;
    c_w ← wr c_w v_id (CS_MAX cwv c_w_max);
    mret (c_w, c_p)
  else if (cws >? c_sat)%cs then
    let inv_rho := (real_1 / rho)%cs in
    cpj ← rd c_p j;
    c_p ← wr c_p j (cpj + theta_c * inv_rho * (cws - c_sat))%cs;
    c_w ← wr c_w v_id c_sat;
    mret (c_w, c_p)
  else mret (c_w, c_p).

(** Step 3 of [_update_precipitation_vb]: the precipitate field. *)
Definition precip_field_update (c2v : cs_adjacency_t)
    (quant : cs_cdo_quantities_t real) (c_p field_val : list real)
  : outcome (list real) :=
  for_range 0 (n_cells quant) (fun c_id field_val =>
    field_val ← wr field_val c_id real_0;
    lo ← rd (idx c2v) c_id;
    hi ← rd (idx c2v) (c_id + 1);
    field_val ← for_range lo hi (fun j field_val =>
      x ← rd field_val c_id;
      dv ← rd (dcell_vol quant) j;
      cpj ← rd c_p j;
      wr field_val c_id (x + dv * cpj)%cs) field_val;
    x ← rd field_val c_id;
    cv ← rd (cell_vol quant) c_id;
    wr field_val c_id (x / cv)%cs) field_val.

(** [j] is a slot of the cell [c] in the cell to vertex adjacency. *)
Definition cell_slot (c2v : cs_adjacency_t) (c j : nat) : Prop :=
  ∃ lo hi, idx c2v !! c = Some lo ∧ idx c2v !! (c + 1) = Some hi ∧
           lo ≤ j < hi.

(** What [_update_precipitation_vb] needs to run: the arrays of the tracer
    are set and the indices met in the three steps are in range. *)
Record precip_wf (g : cs_glob_t real) (tracer : cs_gwf_tracer_t real)
    (connect : cs_cdo_connect_t real) (quant : cs_cdo_quantities_t real)
    (tc : cs_gwf_tracer_context_t real)
    (c_sat c_p theta field_val : list real) : Prop := {
  wf_context : context tracer = Some tc;
  wf_satura : conc_satura tc = Some c_sat;
  wf_precip : conc_precip tc = Some c_p;
  wf_theta : l_saturation tc = Some theta;
  wf_field : precip_field tc = Some {| val := field_val |};
  wf_soils : soils_wf g;
  wf_rho : ∀ s soil, soils g !! s = Some soil →
                     id_of_soil soil < length (rho_bulk tc);
  wf_c_w : n_vertices quant ≤ length (vertex_values (tr_eq tracer));
  wf_c_sat : n_vertices quant ≤ length c_sat;
  wf_cells : ∀ s c, soil_cell g s c →
      c < length theta ∧ c + 1 < length (idx (c2v connect)) ∧
      ∀ j, cell_slot (c2v connect) c j →
           j < length c_p ∧
           ∃ v, ids (c2v connect) !! j = Some v ∧ v < n_vertices quant;
  wf_itf : ∀ itf k p, interfaces_VTX_SCAL connect = Some itf →
                      itf !! k = Some p → p.1 < n_vertices quant;
  wf_step3 : ∀ c, c < n_cells quant →
      c < length field_val ∧ c < length (cell_vol quant) ∧
      c + 1 < length (idx (c2v connect)) ∧
      ∀ j, cell_slot (c2v connect) c j →
           j < length c_p ∧ j < length (dcell_vol quant);
}.



(** *** Saturation table *)

(** Per-cell data and processing of a slot in the min-reduction of
    [_add_precipitation] for a soil of saturated concentration [c_sat]. *)
Definition satura_cellpre (c2v : cs_adjacency_t) (c_sat : real) (c_id : nat)
  : outcome (unit * (nat * nat)) :=
  lo ← rd (idx c2v) c_id;
  hi ← rd (idx c2v) (c_id + 1);
  mret ((), (lo, hi)).

Definition satura_slot (c2v : cs_adjacency_t) (c_sat : real) (_ : unit)
    (j : nat) (satura : list real) : outcome (list real) :=
  v_id ← rd (ids c2v) j;
  x ← rd satura v_id;
  wr satura v_id (CS_MIN x c_sat).

(** The loops of [_add_precipitation] for one soil of positive index. *)
Definition satura_pass (c2v : cs_adjacency_t) (z : cs_zone_t)
    (elt_ids : list nat) (c_sat : real) (satura : list real)
  : outcome (list real) :=
  for_range 0 (n_elts z) (fun i satura =>
    c_id ← rd elt_ids i;
    lo ← rd (idx c2v) c_id;
    hi ← rd (idx c2v) (c_id + 1);
    for_range lo hi (fun j satura =>
      v_id ← rd (ids c2v) j;
      x ← rd satura v_id;
      wr satura v_id (CS_MIN x c_sat)) satura) satura.

(** The loop of [_add_precipitation] for the soil 0. *)
Definition satura_init (n_vertices : nat) (c_sat : real)
    (satura : list real) : outcome (list real) :=
  for_range 0 n_vertices (fun v satura => wr satura v c_sat) satura.

(** What [_add_precipitation] needs to run: a recognised space scheme, the
    saturated concentrations, at least one soil, soils numbered by their
    rank, whose zones (from the soil 1 on) list their cells, and indices in
    range. *)
Record satura_wf (g : cs_glob_t real) (tracer : cs_gwf_tracer_t real)
    (connect : cs_cdo_connect_t real) (quant : cs_cdo_quantities_t real)
    (tc : cs_gwf_tracer_context_t real) (w_star : list real) : Prop := {
  sw_scheme : space_scheme (tr_eq tracer) = CS_SPACE_SCHEME_CDOVB ∨
              space_scheme (tr_eq tracer) = CS_SPACE_SCHEME_CDOVCB;
  sw_context : context tracer = Some tc;
  sw_w_star : conc_w_star tc = Some w_star;
  sw_n_soils : 0 < cs_gwf_get_n_soils g ≤ length w_star;
  sw_ids : ∀ s soil, soils g !! s = Some soil → id_of_soil soil = s;
  sw_soils : soils_wf g;
  sw_zones : ∀ s soil z, 0 < s → soils g !! s = Some soil →
                         zones g !! zone_id soil = Some z →
                         is_Some (elt_ids z);
  sw_size : n_cells quant < length (idx (c2v connect));
  sw_cells : ∀ s c, 0 < s → soil_cell g s c →
      c + 1 < length (idx (c2v connect)) ∧
      ∀ j, cell_slot (c2v connect) c j →
           ∃ v, ids (c2v connect) !! j = Some v ∧ v < n_vertices quant;
  sw_itf : ∀ itf k p, interfaces_VTX_SCAL connect = Some itf →
                      itf !! k = Some p → p.1 < n_vertices quant;
}.

End Vocabulary.

(** ** Vocabulary over the real numbers *)

(** The dispersion tensor in the words of the specification: diagonal terms
    [wmd*theta + alpha_t*|v| + delta*v_i^2], off-diagonal terms
    [delta*v_i*v_j], with [delta = (alpha_l - alpha_t)/|v|] when [|v|]
    exceeds the zero threshold and [delta = 0] otherwise. *)
Definition dispersion_delta (alpha_l alpha_t thr nv : R) : R :=
  if Rlt_dec thr nv then ((alpha_l - alpha_t) / nv)%R else 0%R.

Definition dispersion_tensor (wmd theta alpha_l alpha_t thr : R)
    (v : nat → R) (i j : nat) : R :=
  let nv := vnorm_of v in
  let delta := dispersion_delta alpha_l alpha_t thr nv in
  if decide (i = j) then (wmd * theta + alpha_t * nv + delta * (v i) ^ 2)%R
  else (delta * v i * v j)%R.




(** [x] is the minimum of [w_star[0]] and of the [w_star[s]] for the soils
    [0 < s < k] owning a cell incident to the vertex [v]: it is a lower
    bound of these values and it is one of them. *)
Definition satura_is_min (g : cs_glob_t R) (c2v : cs_adjacency_t)
    (w_star : list R) (k v : nat) (x : R) : Prop :=
  (x <= w_star !!! 0%nat)%R ∧
  (∀ s c j, 0 < s < k → soil_cell g s c → cell_slot c2v c j →
            ids c2v !! j = Some v → (x <= w_star !!! s)%R) ∧
  (x = w_star !!! 0 ∨
   ∃ s c j, 0 < s < k ∧ soil_cell g s c ∧ cell_slot c2v c j ∧
            ids c2v !! j = Some v ∧ x = w_star !!! s).

(** [y] is a value received for the vertex [v] in the synchronisation of
    the parallel interfaces: the entry that another rank sharing [v] holds
    for it. *)
Definition received_at (connect : cs_cdo_connect_t R) (v : nat) (y : R)
  : Prop :=
  ∃ itf, interfaces_VTX_SCAL connect = Some itf ∧ (v, y) ∈ itf.

(** [x] is the minimum of [w_star[0]], of the [w_star[s]] for the soils
    [0 < s < k] owning a cell of this rank incident to the vertex [v], and
    of the values received for [v]: it is a lower bound of these values and
    it is one of them. *)
Definition satura_is_synced_min (g : cs_glob_t R)
    (connect : cs_cdo_connect_t R) (w_star : list R) (k v : nat) (x : R)
  : Prop :=
  (x <= w_star !!! 0%nat)%R ∧
  (∀ s c j, 0 < s < k → soil_cell g s c → cell_slot (c2v connect) c j →
            ids (c2v connect) !! j = Some v → (x <= w_star !!! s)%R) ∧
  (∀ y, received_at connect v y → (x <= y)%R) ∧
  (x = w_star !!! 0 ∨
   (∃ s c j, 0 < s < k ∧ soil_cell g s c ∧ cell_slot (c2v connect) c j ∧
             ids (c2v connect) !! j = Some v ∧ x = w_star !!! s) ∨
   received_at connect v x).

(** The tables of the other ranks are built by the same loops.  With
    [remote s v] for "the soil [s] owns a cell of another rank incident to
    the vertex [v]", a value received for [v] is then [w_star[0]] or the
    [w_star[s]] of such a soil, and every such soil is accounted for by a
    received value. *)
Definition tables_exchanged (connect : cs_cdo_connect_t R)
    (w_star : list R) (remote : nat → nat → Prop) : Prop :=
  (∀ v y, received_at connect v y →
          y = w_star !!! 0 ∨ ∃ s, remote s v ∧ y = w_star !!! s) ∧
  (∀ v s, remote s v →
          ∃ y, received_at connect v y ∧ (y <= w_star !!! s)%R).

(** The soil [0 < s < k] owns a cell incident to the vertex [v], on this
    rank or on another one. *)
Definition soil_at_vertex (g : cs_glob_t R) (c2v : cs_adjacency_t)
    (remote : nat → nat → Prop) (k s v : nat) : Prop :=
  (0 < s < k ∧ ∃ c j, soil_cell g s c ∧ cell_slot c2v c j ∧
                      ids c2v !! j = Some v) ∨
  remote s v.

(** [x] is the minimum of [w_star[0]] and of the [w_star[s]] for the soils
    owning a cell incident to [v] on any rank. *)
Definition satura_is_global_min (g : cs_glob_t R) (c2v : cs_adjacency_t)
    (w_star : list R) (remote : nat → nat → Prop) (k v : nat) (x : R)
  : Prop :=
  (x <= w_star !!! 0%nat)%R ∧
  (∀ s, soil_at_vertex g c2v remote k s v → (x <= w_star !!! s)%R) ∧
  (x = w_star !!! 0 ∨
   ∃ s, soil_at_vertex g c2v remote k s v ∧ x = w_star !!! s).



(** ** A small mesh for the examples

    Two tetrahedra in one soil, glued along the face of the vertices 1, 2
    and 3: the cell 0 has the vertices 0 to 3, the cell 1 the vertices 1 to
    4.  A slot of a cell is the position of one of its vertices in
    [c2v->ids]: the vertex 1 has the slot 1 in the cell 0 and the slot 4 in
    the cell 1. *)
Module Ex.

Definition adjacency : cs_adjacency_t :=
  {| idx := [0; 4; 8]; ids := [0; 1; 2; 3; 1; 2; 3; 4] |}.

Definition connect : cs_cdo_connect_t R :=
  {| c2v := adjacency; interfaces_VTX_SCAL := None |}.

(** The same mesh on a rank that shares the vertex 0 with another rank,
    where this vertex belongs to a cell of a soil of saturated
    concentration 4: the value 4 is received for it. *)
Definition connect_shared : cs_cdo_connect_t R :=
  {| c2v := adjacency; interfaces_VTX_SCAL := Some [(0, 4%R)] |}.

Definition quant : cs_cdo_quantities_t R :=
  {| n_cells := 2; n_vertices := 5;
     cell_vol := [1; 1]%R;
     dcell_vol := replicate 8 (1 / 4)%R |}.

Definition soil : cs_gwf_soil_t R :=
  {| id_of_soil := 0; zone_id := 0; bulk_density := 1%R;
     saturated_moisture := (1 / 2)%R |}.

Definition zone : cs_zone_t :=
  {| name := "soil"; n_elts := 2; elt_ids := None |}.

Definition glob : cs_glob_t R :=
  {| soils := [soil]; zones := [zone]; cell2soil := [0; 0];
     cs_math_zero_threshold := (1 / 1000000)%R;
     cs_glob_n_ranks := 1; parall_contrib := [] |}.

(** Vertex and slot data of the examples: the saturated concentration is
    10 at every vertex; the solution is empty, or above saturation at the
    vertex 1; the precipitate is absent, or held by the slot 1 alone, or by
    the two slots 1 and 4 of the vertex 1. *)
Definition sat : list R := [10; 10; 10; 10; 10]%R.

Definition no_solute : list R := [0; 0; 0; 0; 0]%R.

Definition over_saturated : list R := [0; 12; 0; 0; 0]%R.

Definition no_precip : list R := [0; 0; 0; 0; 0; 0; 0; 0]%R.

Definition one_slot : list R := [0; 1; 0; 0; 0; 0; 0; 0]%R.

Definition two_slots : list R := [0; 1; 0; 0; 3; 0; 0; 0]%R.

(** Tracer context with the precipitate [c_p] and the saturation [c_sat]. *)
Definition tcontext (c_sat c_p : list R) : cs_gwf_tracer_context_t R :=
  {| rho_bulk := [1%R]; kd0 := [0%R]; rho_kd := [0%R];
     alpha_l := [2%R]; alpha_t := [1%R]; wmd := [1%R];
     reaction_rate := [3%R];
     conc_w_star := Some [10%R];
     conc_precip := Some c_p;
     conc_satura := Some c_sat;
     precip_field := Some {| val := [0; 0]%R |};
     darcy_velocity_field := Some {| val := [1; 0; 0; 0; 0; 0]%R |};
     l_saturation := Some [1; 1]%R |}.

(** Tracer with the dissolved concentration [c_w]. *)
Definition tracer (c_w c_sat c_p : list R) : cs_gwf_tracer_t R :=
  {| tr_eq := {| space_scheme := CS_SPACE_SCHEME_CDOVB;
                 vertex_values := c_w; cell_values := [0; 0]%R |};
     diffusivity := Some {| val := replicate 18 0%R |};
     context := Some (tcontext c_sat c_p) |}.

(** The same mesh split in two soils: the cell 0 in the soil 0, the cell 1
    in the soil 1, of saturated concentrations 10 and 4. *)
Definition soil1 : cs_gwf_soil_t R :=
  {| id_of_soil := 1; zone_id := 1; bulk_density := 1%R;
     saturated_moisture := (1 / 2)%R |}.

Definition zone0 : cs_zone_t :=
  {| name := "soil0"; n_elts := 1; elt_ids := Some [0] |}.

Definition zone1 : cs_zone_t :=
  {| name := "soil1"; n_elts := 1; elt_ids := Some [1] |}.

Definition glob2 : cs_glob_t R :=
  {| soils := [soil; soil1]; zones := [zone0; zone1]; cell2soil := [0; 1];
     cs_math_zero_threshold := (1 / 1000000)%R;
     cs_glob_n_ranks := 1; parall_contrib := [] |}.

Definition tcontext2 : cs_gwf_tracer_context_t R :=
  {| rho_bulk := [1; 1]%R; kd0 := [0; 0]%R; rho_kd := [0; 0]%R;
     alpha_l := [2; 2]%R; alpha_t := [1; 1]%R; wmd := [1; 1]%R;
     reaction_rate := [3; 3]%R;
     conc_w_star := Some [10; 4]%R;
     conc_precip := None;
     conc_satura := None;
     precip_field := Some {| val := [0; 0]%R |};
     darcy_velocity_field := Some {| val := [1; 0; 0; 0; 0; 0]%R |};
     l_saturation := None |}.

Definition tracer2 (scheme : cs_param_space_scheme_t) : cs_gwf_tracer_t R :=
  {| tr_eq := {| space_scheme := scheme;
                 vertex_values := no_solute; cell_values := [0; 0]%R |};
     diffusivity := None;
     context := Some tcontext2 |}.

(** A unit cube seen from inside: six faces of area 1, the unit normals
    being those of the mesh faces and the signs giving the outward
    orientation. *)
Definition unit_face (n : R * R * R) : cs_quant_t R :=
  {| meas := 1%R; unitv := n; center := (0, 0, 0)%R |}.

Definition cube : cs_cell_mesh_t R :=
  {| c_id := 0; vol_c := 1%R; n_fc := 6;
     face := [unit_face (1, 0, 0)%R; unit_face (1, 0, 0)%R;
              unit_face (0, 1, 0)%R; unit_face (0, 1, 0)%R;
              unit_face (0, 0, 1)%R; unit_face (0, 0, 1)%R];
     f_sgn := [-1; 1; -1; 1; -1; 1]%Z |}.

End Ex.

(** The same mesh in double precision, in one soil of bulk density 1 with
    the saturation 1 in both cells: the vertex 1 holds the solute 0.1 and
    its slot 1 the precipitate 0.3 (the doubles nearest to these numbers),
    below the saturated concentration 10. *)
Module FEx.

Definition tenth : float := 0x1.999999999999ap-4%float.

Definition three_tenths : float := 0x1.3333333333333p-2%float.

Definition connect : cs_cdo_connect_t float :=
  {| c2v := Ex.adjacency; interfaces_VTX_SCAL := None |}.

Definition quant : cs_cdo_quantities_t float :=
  {| n_cells := 2; n_vertices := 5;
     cell_vol := [1; 1]%float;
     dcell_vol := replicate 8 0.25%float |}.

Definition soil : cs_gwf_soil_t float :=
  {| id_of_soil := 0; zone_id := 0; bulk_density := 1%float;
     saturated_moisture := 0.5%float |}.

Definition glob : cs_glob_t float :=
  {| soils := [soil]; zones := [Ex.zone]; cell2soil := [0; 0];
     cs_math_zero_threshold := 0x1p-20%float;
     cs_glob_n_ranks := 1; parall_contrib := [] |}.

Definition sat : list float := [10; 10; 10; 10; 10]%float.

Definition solute : list float := [0; tenth; 0; 0; 0]%float.

Definition precip : list float :=
  [0; three_tenths; 0; 0; 0; 0; 0; 0]%float.

Definition tcontext : cs_gwf_tracer_context_t float :=
  {| rho_bulk := [1%float]; kd0 := [0%float]; rho_kd := [0%float];
     alpha_l := [2%float]; alpha_t := [1%float]; wmd := [1%float];
     reaction_rate := [3%float];
     conc_w_star := Some [10%float];
     conc_precip := Some precip;
     conc_satura := Some sat;
     precip_field := Some {| val := [0; 0]%float |};
     darcy_velocity_field := Some {| val := [1; 0; 0; 0; 0; 0]%float |};
     l_saturation := Some [1; 1]%float |}.

Definition tracer : cs_gwf_tracer_t float :=
  {| tr_eq := {| space_scheme := CS_SPACE_SCHEME_CDOVB;
                 vertex_values := solute; cell_values := [0; 0]%float |};
     diffusivity := Some {| val := replicate 18 0%float |};
     context := Some tcontext |}.

End FEx.

Section Embedding_more.

Context {real : Type} {ops : cs_real_ops real}.

#[local] Open Scope cs_scope.

(** ** cs_gwf_tracer_integrate_sat (cs_gwf_tracer.c)

    The context is only reached through [tc->rho_kd] inside the loops. *)

Definition cs_gwf_tracer_integrate_sat (g : cs_glob_t real)
    (connect : cs_cdo_connect_t real) (cdoq : cs_cdo_quantities_t real)
    (tracer : cs_gwf_tracer_t real) (z : cs_zone_t) : outcome real :=
  let tc := context tracer in
  let tr_eqp_space_scheme := space_scheme (tr_eq tracer) in
  let c2s := cs_gwf_get_cell2soil g in
  let c2v := c2v connect in
  int_value ←
    match tr_eqp_space_scheme with
    | CS_SPACE_SCHEME_CDOVB =>
      let v_vals := vertex_values (tr_eq tracer) in
      for_range 0 (n_elts z) (fun i int_value =>
        c_id ← zone_elt z i;
        s ← rd c2s c_id;
        sat_moisture ← cs_gwf_soil_get_saturated_moisture g s;
        lo ← rd (idx c2v) c_id;
        hi ← rd (idx c2v) (c_id + 1);
        _int_value ← for_range lo hi (fun j _int_value =>
          dv ← rd (dcell_vol cdoq) j;
          v_id ← rd (ids c2v) j;
          vv ← rd v_vals v_id;
          mret (_int_value + dv * vv)) real_0;
        tc ← deref tc;
        rk ← rd (rho_kd tc) s;
        mret (int_value + (sat_moisture + rk) * _int_value)) real_0
    | CS_SPACE_SCHEME_CDOVCB =>
      let v_vals := vertex_values (tr_eq tracer) in
      let c_vals := cell_values (tr_eq tracer) in
      for_range 0 (n_elts z) (fun i int_value =>
        c_id ← zone_elt z i;
        s ← rd c2s c_id;
        sat_moisture ← cs_gwf_soil_get_saturated_moisture g s;
        cv ← rd (cell_vol cdoq) c_id;
        cc ← rd c_vals c_id;
        lo ← rd (idx c2v) c_id;
        hi ← rd (idx c2v) (c_id + 1);
        _int_value ← for_range lo hi (fun j _int_value =>
          dv ← rd (dcell_vol cdoq) j;
          v_id ← rd (ids c2v) j;
          vv ← rd v_vals v_id;
          mret (_int_value
                + real_of_int 3 / real_of_int 4 * dv * vv))
          (real_of_int 1 / real_of_int 4 * cv * cc);
        tc ← deref tc;
        rk ← rd (rho_kd tc) s;
        mret (int_value + (sat_moisture + rk) * _int_value)) real_0
    | _ => bft_error " cs_gwf_tracer_integrate_sat: Invalid space scheme"
    end;
  (* Parallel synchronization *)
  mret (if decide (1 < cs_glob_n_ranks g) then cs_parall_sum g int_value
        else int_value).

End Embedding_more.

(** ** Vocabulary for the integrals over the real numbers *)

(** Sum of [f i] for [i < n]. *)
Fixpoint sum_upto (n : nat) (f : nat → R) : R :=
  match n with
  | O => 0%R
  | S n' => (sum_upto n' f + f n')%R
  end.

(** Sum of the dual volumes [dcell_vol[j]] of a cell, [lo <= j < hi]. *)
Definition dual_volume (dcell_vol : list R) (lo hi : nat) : R :=
  foldl (fun acc j => (acc + dcell_vol !!! j)%R) 0%R (seq lo (hi - lo)).

(** Factor [theta + rho_kd] of a cell and its volume, which weigh the
    tracer in the integral. *)
Definition cell_capacity (g : cs_glob_t R) (cdoq : cs_cdo_quantities_t R)
    (tc : cs_gwf_tracer_context_t R) (theta : list R) (c : nat) : R :=
  ((theta !!! c + rho_kd tc !!! (cell2soil g !!! c)) * cell_vol cdoq !!! c)%R.

(** The cell of position [i] of the zone [z] can be integrated: the arrays
    have entries for it, its slots hold vertices whose value is [k], and the
    dual volumes of its slots add up to its volume. *)
Definition integrable_cell (g : cs_glob_t R) (connect : cs_cdo_connect_t R)
    (cdoq : cs_cdo_quantities_t R) (tc : cs_gwf_tracer_context_t R)
    (theta v_vals : list R) (z : cs_zone_t) (k : R) (i : nat) : Prop :=
  ∃ c lo hi s,
    zone_elt z i = Done c ∧
    idx (c2v connect) !! c = Some lo ∧
    idx (c2v connect) !! (c + 1) = Some hi ∧
    c < length theta ∧ cell2soil g !! c = Some s ∧
    s < length (rho_kd tc) ∧ c < length (cell_vol cdoq) ∧
    dual_volume (dcell_vol cdoq) lo hi = cell_vol cdoq !!! c ∧
    ∀ j, lo ≤ j < hi →
      j < length (dcell_vol cdoq) ∧
      ∃ v, ids (c2v connect) !! j = Some v ∧ v_vals !! v = Some k.

(** ** Vocabulary for the diffusion tensor over the real numbers *)

(** The tensor stored for the cell [c], and its product with a vector. *)
Definition stored_tensor (values : list R) (c : nat) : nat → nat → R :=
  fun i j => values !!! (9 * c + (3 * i + j)).

Definition tensor_apply (T : nat → nat → R) (u : nat → R) (i : nat) : R :=
  (T i 0%nat * u 0%nat + T i 1%nat * u 1%nat + T i 2%nat * u 2%nat)%R.

Definition dot3 (u v : nat → R) : R :=
  (u 0%nat * v 0%nat + u 1%nat * v 1%nat + u 2%nat * v 2%nat)%R.

Section Embedding_model.

Context {real : Type} {ops : cs_real_ops real}.

#[local] Open Scope cs_scope.

(** ** cs_gwf_set_precip_tracer_param (cs_gwf_tracer.c)

    [tracer->model] is a [cs_flag_t], seen as an integer; it is carried
    beside the members of the tracer that the functions above use.  The
    value of the bit [CS_GWF_TRACER_PRECIPITATION] is declared in
    cs_gwf_tracer.h (not under src/) and is a parameter. *)

Definition cs_gwf_tracer_model_t : Type := Z.

Record cs_gwf_tracer_with_model_t : Type := {
  tracer_members :> cs_gwf_tracer_t real;
  model : cs_gwf_tracer_model_t;
}.

Variable CS_GWF_TRACER_PRECIPITATION : cs_gwf_tracer_model_t.

Definition set_w_star (tc : cs_gwf_tracer_context_t real) (w : list real)
  : cs_gwf_tracer_context_t real :=
  {| rho_bulk := rho_bulk tc; kd0 := kd0 tc; rho_kd := rho_kd tc;
     alpha_l := alpha_l tc; alpha_t := alpha_t tc; wmd := wmd tc;
     reaction_rate := reaction_rate tc;
     conc_w_star := Some w;
     conc_precip := conc_precip tc;
     conc_satura := conc_satura tc;
     precip_field := precip_field tc;
     darcy_velocity_field := darcy_velocity_field tc;
     l_saturation := l_saturation tc |}.

(** [tc->conc_w_star[k] = x] *)
Definition set_conc_w_star (tracer : cs_gwf_tracer_with_model_t) (k : nat)
    (x : real) : outcome cs_gwf_tracer_with_model_t :=
  tc ← deref (context tracer);
  w ← deref (conc_w_star tc);
  w ← wr w k x;
  mret {| tracer_members := set_context tracer (set_w_star tc w);
          model := model tracer |}.

Definition cs_gwf_set_precip_tracer_param (g : cs_glob_t real)
    (tracer : option cs_gwf_tracer_with_model_t)
    (soil_name : option string) (conc_w_star_ : real)
  : outcome cs_gwf_tracer_with_model_t :=
  match tracer with
  | None => bft_error _err_empty_tracer
  | Some tracer =>
    if (Z.land (model tracer) CS_GWF_TRACER_PRECIPITATION =? 0)%Z then
      bft_error (" cs_gwf_set_precip_tracer_param: Precipitation model has"
                 ++ " not been activated for this tracer")
    else
      match soil_name with
      | None => (* All soils have to be set for this tracer *)
        let n_soils := cs_gwf_get_n_soils g in
        for_range 0 n_soils (fun soil_id tracer =>
          set_conc_w_star tracer soil_id conc_w_star_) tracer
      | Some soil_name => (* Set this tracer equation for a specific soil *)
        match cs_gwf_soil_by_name g soil_name with
        | None =>
            bft_error (" Soil " ++ soil_name ++
                       " not found among the predefined soils." ++ nl ++
                       " Please check your settings.")
        | Some soil => set_conc_w_star tracer (id_of_soil soil) conc_w_star_
        end
      end
  end.

End Embedding_model.

Arguments cs_gwf_tracer_with_model_t : clear implicits.

(** ** Vocabulary for the parameter setters *)

Section Setter_vocabulary.
Context {real : Type} {ops : cs_real_ops real}.

(** The seven per-soil parameters of the soil of index [k]. *)
Definition soil_params_at (tc : cs_gwf_tracer_context_t real) (k : nat)
    (rho kd rk al at_ w rate : real) : Prop :=
  rho_bulk tc !! k = Some rho ∧ kd0 tc !! k = Some kd ∧
  rho_kd tc !! k = Some rk ∧ alpha_l tc !! k = Some al ∧
  alpha_t tc !! k = Some at_ ∧ wmd tc !! k = Some w ∧
  reaction_rate tc !! k = Some rate.

(** The parameters of the soil of index [k] are the same in [tc] and
    [tc']. *)
Definition soil_params_kept (tc tc' : cs_gwf_tracer_context_t real)
    (k : nat) : Prop :=
  rho_bulk tc' !! k = rho_bulk tc !! k ∧ kd0 tc' !! k = kd0 tc !! k ∧
  rho_kd tc' !! k = rho_kd tc !! k ∧ alpha_l tc' !! k = alpha_l tc !! k ∧
  alpha_t tc' !! k = alpha_t tc !! k ∧ wmd tc' !! k = wmd tc !! k ∧
  reaction_rate tc' !! k = reaction_rate tc !! k.

(** The seven per-soil arrays have room for the soil of index [k]. *)
Definition soil_params_room (tc : cs_gwf_tracer_context_t real) (k : nat)
  : Prop :=
  k < length (rho_bulk tc) ∧ k < length (kd0 tc) ∧
  k < length (rho_kd tc) ∧ k < length (alpha_l tc) ∧
  k < length (alpha_t tc) ∧ k < length (wmd tc) ∧
  k < length (reaction_rate tc).

(** The members of the context other than the seven per-soil arrays. *)
Definition other_members_kept (tc tc' : cs_gwf_tracer_context_t real)
  : Prop :=
  conc_w_star tc' = conc_w_star tc ∧ conc_precip tc' = conc_precip tc ∧
  conc_satura tc' = conc_satura tc ∧ precip_field tc' = precip_field tc ∧
  darcy_velocity_field tc' = darcy_velocity_field tc ∧
  l_saturation tc' = l_saturation tc.

End Setter_vocabulary.

(** ** Vocabulary for the precipitate field *)

Section Field_vocabulary.
Context {real : Type} {ops : cs_real_ops real}.

(** [sum += dcell_vol[j] * c_p[j]] for [j] from [lo] to [hi - 1], from 0. *)
Definition dual_sum (dcell_vol c_p : list real) (lo hi : nat) : real :=
  foldl (fun acc j => (acc + dcell_vol !!! j * c_p !!! j)%cs) real_0
        (seq lo (hi - lo)).

End Field_vocabulary.

(** * Cartesian mesh generation (src/mesh/cs_mesh_cartesian.c)

    [int] and [cs_lnum_t] counts and indices are natural numbers, except the
    cell numbers of a face, which the source computes through [i - 1] and
    which are integers.  [BFT_MALLOC] returns a block of indeterminate
    content, given by a function of the position ([uninit]); a pointer that
    was never assigned is indeterminate as well and reading through it is
    not defined. *)

Module Cartesian.

Section Embedding.

Context {real : Type} {ops : cs_real_ops real}.

#[local] Open Scope cs_scope.

(** [pow] of math.h, at an exponent that is a count. *)
Variable pow : real → nat → real.

(** Modelled from the spec: the enumeration [cs_mesh_cartesian_law_t] of
    cs_mesh_cartesian.h (not under src/), which the source describes as
    "Constant, geometric, parabolic or user"; the last constructor stands
    for every value other than the three that the code tests. *)
Inductive cs_mesh_cartesian_law_t : Type :=
| CS_MESH_CARTESIAN_CONSTANT_LAW
| CS_MESH_CARTESIAN_GEOMETRIC_LAW
| CS_MESH_CARTESIAN_PARABOLIC_LAW
| CS_MESH_CARTESIAN_USER_LAW.

(** Parameters for a direction (x, y or z). *)
Record _cs_mesh_cartesian_direction_t : Type := {
  law : cs_mesh_cartesian_law_t;
  ncells : nat;
  smin : real;
  smax : real;
  progression : real;
  s : list real;
}.

(** Cartesian mesh parameters structure; an entry of [params] that was
    never assigned is [None]. *)
Record cs_mesh_cartesian_params_t : Type := {
  ndir : nat;
  params : list (option _cs_mesh_cartesian_direction_t);
}.

(** The private global variables of the file. *)
Record cartesian_glob_t : Type := {
  _build_mesh_cartesian : Z;
  _mesh_params : option cs_mesh_cartesian_params_t;
}.

Definition nvtx_per_face : nat := 4.
Definition nfaces_per_cell : nat := 6.

Definition set_mesh_params (st : cartesian_glob_t)
    (mp : option cs_mesh_cartesian_params_t) : cartesian_glob_t :=
  {| _build_mesh_cartesian := _build_mesh_cartesian st;
     _mesh_params := mp |}.

(** [_cs_mesh_cartesian_init]: the returned pointer is [_mesh_params]
    itself. *)
Definition _cs_mesh_cartesian_init (ndir_ : nat) (st : cartesian_glob_t)
  : outcome cartesian_glob_t :=
  match _mesh_params st with
  | Some _ =>
      bft_error ("Error: cartesian mesh parameters were allready defined!"
                 ++ nl)
  | None =>
      mret (set_mesh_params st
              (Some {| ndir := ndir_; params := replicate ndir_ None |}))
  end.

Definition _cs_mesh_cartesian_create_direction
    (law_ : cs_mesh_cartesian_law_t) (ncells_ : nat)
    (smin_ smax_ progression_ : real) (uninit : nat → real)
  : outcome _cs_mesh_cartesian_direction_t :=
  if smax_ <? smin_ then
    bft_error ("Error: smax < smin in _cs_mesh_cartesian_create_direction"
               ++ nl)
  else
    let dir_len := smax_ - smin_ in
    match law_ with
    | CS_MESH_CARTESIAN_CONSTANT_LAW =>
        mret {| law := law_; ncells := ncells_; smin := smin_; smax := smax_;
                progression := real_of_int (-1);
                s := [dir_len / real_of_int (Z.of_nat ncells_)] |}
    | CS_MESH_CARTESIAN_GEOMETRIC_LAW =>
        let rho := progression_ in
        let rho_n := pow rho ncells_ in
        let dx0 := dir_len * (rho - real_1) / (rho_n - real_1) in
        let s_ := uninit <$> seq 0 (ncells_ + 1) in
        let dx_cur := dx0 in
        s_ ← wr s_ 0 smin_;
        st ← for_range 0 ncells_ (fun c_id '(s_, dx_cur) =>
          x ← rd s_ c_id;
          s_ ← wr s_ (c_id + 1) (x + dx_cur);
          mret (s_, dx_cur * rho)) (s_, dx_cur);
        mret {| law := law_; ncells := ncells_; smin := smin_; smax := smax_;
                progression := progression_; s := st.1 |}
    | CS_MESH_CARTESIAN_PARABOLIC_LAW =>
        let s_ := uninit <$> seq 0 (ncells_ + 1) in
        let rho := progression_ in
        (* We need to disguish the case of even or odd number of cells *)
        let is_even := bool_decide (ncells_ `mod` 2 = 0) in
        let '(np, dx0) :=
          if is_even then
            let np := ncells_ `div` 2 in
            let rho_np := pow rho np in
            (np, real_of_int 1 / real_of_int 2 * dir_len * (rho - real_1)
                 / (rho_np - real_1))
          else
            let np := (ncells_ - 1) `div` 2 in
            let rho_np := pow rho np in
            let rho_np1 := rho_np * rho in
            (np, dir_len * (rho - real_1)
                 / (rho_np1 + rho_np - real_of_int 2)) in
        let dx_cur := dx0 in
        s_ ← wr s_ 0 smin_;
        s_ ← wr s_ ncells_ smax_;
        st ← for_range 0 np (fun i '(s_, dx_cur) =>
          x ← rd s_ i;
          s_ ← wr s_ (i + 1) (x + dx_cur);
          y ← rd s_ (ncells_ - i);
          s_ ← wr s_ (ncells_ - i - 1) (y - dx_cur);
          mret (s_, dx_cur * rho)) (s_, dx_cur);
        mret {| law := law_; ncells := ncells_; smin := smin_; smax := smax_;
                progression := progression_; s := st.1 |}
    | _ =>
        bft_error ("Error: Method not yet implemented for "
                   ++ "'_cs_mesh_cartesian_create_direction'" ++ nl)
    end.

Definition cs_mesh_cartesian_get_params (st : cartesian_glob_t)
  : option cs_mesh_cartesian_params_t := _mesh_params st.

Definition cs_mesh_cartesian_create (st : cartesian_glob_t)
  : outcome cartesian_glob_t :=
  st ← _cs_mesh_cartesian_init 3 st;
  mret {| _build_mesh_cartesian := 1; _mesh_params := _mesh_params st |}.

(** [mp->params[idim] = dirp], [mp] being [_mesh_params]. *)
Definition set_direction (st : cartesian_glob_t) (idim : nat)
    (dirp : _cs_mesh_cartesian_direction_t) : outcome cartesian_glob_t :=
  mp ← deref (_mesh_params st);
  ps ← wr (params mp) idim (Some dirp);
  mret (set_mesh_params st (Some {| ndir := ndir mp; params := ps |})).

Definition cs_mesh_cartesian_define_simple (ncells_ : list nat)
    (xyz : list real) (uninit : nat → real) (st : cartesian_glob_t)
  : outcome cartesian_glob_t :=
  st ← match cs_mesh_cartesian_get_params st with
       | None => _cs_mesh_cartesian_init 3 st
       | Some _ => mret st
       end;
  for_range 0 3 (fun idim st =>
    n ← rd ncells_ idim;
    lo ← rd xyz idim;
    hi ← rd xyz (idim + 3);
    dirp ← _cs_mesh_cartesian_create_direction
             CS_MESH_CARTESIAN_CONSTANT_LAW n lo hi (real_of_int (-1)) uninit;
    set_direction st idim dirp) st.

Definition cs_mesh_cartesian_define_dir_params (idim : nat)
    (law_ : cs_mesh_cartesian_law_t) (ncells_ : nat)
    (smin_ smax_ progression_ : real) (uninit : nat → real)
    (st : cartesian_glob_t) : outcome cartesian_glob_t :=
  st ← match cs_mesh_cartesian_get_params st with
       | None => _cs_mesh_cartesian_init 3 st
       | Some _ => mret st
       end;
  dirp ← _cs_mesh_cartesian_create_direction law_ ncells_ smin_ smax_
           progression_ uninit;
  set_direction st idim dirp.

Definition cs_mesh_cartesian_need_build (st : cartesian_glob_t) : Z :=
  let retval := _build_mesh_cartesian st in
  retval.

(** [mp->params[idim]], dereferenced. *)
Definition direction (mp : cs_mesh_cartesian_params_t) (idim : nat)
  : outcome _cs_mesh_cartesian_direction_t :=
  p ← rd (params mp) idim;
  deref (p : option _cs_mesh_cartesian_direction_t).

Definition cs_mesh_cartesian_get_ncells (idim : nat) (st : cartesian_glob_t)
  : outcome nat :=
  mp ← deref (_mesh_params st);
  dirp ← direction mp idim;
  mret (ncells dirp).

(** [BFT_FREE] of the blocks reached through [params[i]]; the freed memory
    itself is not represented. *)
Definition cs_mesh_cartesian_params_destroy (st : cartesian_glob_t)
  : outcome cartesian_glob_t :=
  match _mesh_params st with
  | None => mret st
  | Some mp =>
      _ ← for_range 0 (ndir mp) (fun i (_ : unit) =>
        dirp ← direction mp i;
        mret ()) ();
      mret (set_mesh_params st None)
  end.

(** ** cs_mesh_cartesian_connectivity

    The members of [cs_mesh_builder_t] (cs_mesh_builder.h, not under src/)
    that the function reads or writes; [cs_gnum_t] values are integers. *)
Record cs_mesh_builder_t : Type := {
  n_g_faces : nat;
  n_g_face_connect_size : nat;
  cell_gc_id : option (list Z);
  face_gc_id : option (list Z);
  face_vertices_idx : option (list nat);
  face_cells : option (list Z);
  face_vertices : option (list nat);
  vertex_coords : option (list real);
}.

(** Content of the blocks that the function allocates. *)
Record uninit_t : Type := {
  uninit_int : nat → Z;
  uninit_lnum : nat → nat;
  uninit_gnum : nat → Z;
  uninit_vtx : nat → nat;
  uninit_real : nat → real;
}.

(** [if (p == NULL) BFT_MALLOC(p, n, T);] *)
Definition malloc_if_null {A} (p : option (list A)) (n : nat)
    (content : nat → A) : list A :=
  match p with
  | None => content <$> seq 0 n
  | Some a => a
  end.

(** [if (p == NULL) BFT_MALLOC(p, n, T); else BFT_REALLOC(p, n, T);] *)
Definition malloc_or_realloc {A} (p : option (list A)) (n : nat)
    (content : nat → A) : list A :=
  match p with
  | None => content <$> seq 0 n
  | Some a => take n a ++ (content <$> seq (length a) (n - length a))
  end.

(** The arrays that the loops on the faces fill, and the face counter
    [f_id]. *)
Record faces_t : Type := {
  fgc : list Z;       (* mb->face_gc_id *)
  fcells : list Z;    (* mb->face_cells *)
  fvtx : list nat;    (* mb->face_vertices *)
  f_id : nat;
}.

(** The statements common to the three kinds of faces: the two cells, the
    four vertices, then [f_id += 1]. *)
Definition store_face (c_id1 c_id2 : Z) (v3 v2 v1 v0 : nat) (fa : faces_t)
  : outcome faces_t :=
  fc ← wr (fcells fa) (2 * f_id fa) c_id1;
  fc ← wr fc (2 * f_id fa + 1) c_id2;
  fv ← wr (fvtx fa) (4 * f_id fa + 3) v3;
  fv ← wr fv (4 * f_id fa + 2) v2;
  fv ← wr fv (4 * f_id fa + 1) v1;
  fv ← wr fv (4 * f_id fa + 0) v0;
  mret {| fgc := fgc fa; fcells := fc; fvtx := fv; f_id := f_id fa + 1 |}.

(** [mb->face_gc_id[f_id] = x] *)
Definition set_face_gc (fa : faces_t) (x : Z) : outcome faces_t :=
  a ← wr (fgc fa) (f_id fa) x;
  mret {| fgc := a; fcells := fcells fa; fvtx := fvtx fa; f_id := f_id fa |}.

#[local] Coercion Z.of_nat : nat >-> Z.

Definition cs_mesh_cartesian_connectivity (st : cartesian_glob_t)
    (mb : cs_mesh_builder_t) (echo : Z) (u : uninit_t)
  : outcome cs_mesh_builder_t :=
  mp ← deref (_mesh_params st);
  (* Number of cells per direction *)
  px ← direction mp 0; let nx := ncells px in
  py ← direction mp 1; let ny := ncells py in
  pz ← direction mp 2; let nz := ncells pz in
  (* Number of vertices per direction *)
  let nxp1 := (nx + 1)%nat in
  let nyp1 := (ny + 1)%nat in
  let nzp1 := (nz + 1)%nat in
  (* Global values *)
  let ncells_ := (nx * ny * nz)%nat in
  let nvtx := (nxp1 * nyp1 * nzp1)%nat in
  let nfaces := (3 * ncells_ + nx * ny + nx * ny + ny * nz)%nat in
  (* Group id *)
  let cgc := malloc_if_null (cell_gc_id mb) ncells_ (uninit_int u) in
  cgc ← for_range 0 ncells_ (fun i cgc => wr cgc i 7%Z) cgc;
  let fgc_ := malloc_if_null (face_gc_id mb) nfaces (uninit_int u) in
  fgc_ ← for_range 0 nfaces (fun i fgc_ => wr fgc_ i 7%Z) fgc_;
  (* number of vertices per face array *)
  let fvi := malloc_if_null (face_vertices_idx mb) (nfaces + 1)
               (uninit_lnum u) in
  fvi ← wr fvi 0 0%nat;
  fvi ← for_range 0 nfaces (fun i fvi =>
    x ← rd fvi i;
    wr fvi (i + 1) (x + nvtx_per_face)%nat) fvi;
  (* Face to cell connectivity using global numbering *)
  let fc := malloc_if_null (face_cells mb) (2 * nfaces) (uninit_gnum u) in
  let fv := malloc_or_realloc (face_vertices mb) (4 * nfaces)
              (uninit_vtx u) in
  (* Numbering start at 1! *)
  let i0 := 1%nat in
  let fa := {| fgc := fgc_; fcells := fc; fvtx := fv; f_id := 0 |} in
  (* X normal faces : (Nx+1)*Ny*Nz faces *)
  fa ← for_range 0 nz (fun k fa =>
    for_range 0 ny (fun j fa =>
      for_range 0 nxp1 (fun i fa =>
        (* Face to cell connectivity *)
        let c0 : Z := (i0 + (i - 1) + j * nx + k * nx * ny)%Z in
        x ← ((if decide (i = 0%nat) then
               fa ← set_face_gc fa 1; mret (0%Z, (c0 + 1)%Z, fa)
             else if decide (i = nx) then
               fa ← set_face_gc fa 2; mret (c0, 0%Z, fa)
             else mret (c0, (c0 + 1)%Z, fa))
             : outcome (Z * Z * faces_t));
        let '(c_id1, c_id2, fa) := x in
        store_face c_id1 c_id2
          (i0 + i + j * nxp1 + k * nxp1 * nyp1)%nat
          (i0 + i + j * nxp1 + (k + 1) * nxp1 * nyp1)%nat
          (i0 + i + (j + 1) * nxp1 + (k + 1) * nxp1 * nyp1)%nat
          (i0 + i + (j + 1) * nxp1 + k * nxp1 * nyp1)%nat fa) fa) fa) fa;
  (* Y normal faces *)
  fa ← for_range 0 nz (fun k fa =>
    for_range 0 nyp1 (fun j fa =>
      for_range 0 nx (fun i fa =>
        x ← ((if decide (j = 0%nat) then
               fa ← set_face_gc fa 3;
               mret (0%Z, (i0 + i + j * nx + k * nx * ny)%Z, fa)
             else if decide (j = ny) then
               fa ← set_face_gc fa 4;
               mret ((i0 + i + (j - 1) * nx + k * nx * ny)%Z, 0%Z, fa)
             else
               mret ((i0 + i + (j - 1) * nx + k * nx * ny)%Z,
                     (i0 + i + j * nx + k * nx * ny)%Z, fa))
             : outcome (Z * Z * faces_t));
        let '(c_id1, c_id2, fa) := x in
        store_face c_id1 c_id2
          (i0 + i + j * nxp1 + k * nxp1 * nyp1)%nat
          (i0 + (i + 1) + j * nxp1 + k * nxp1 * nyp1)%nat
          (i0 + (i + 1) + j * nxp1 + (k + 1) * nxp1 * nyp1)%nat
          (i0 + i + j * nxp1 + (k + 1) * nxp1 * nyp1)%nat fa) fa) fa) fa;
  (* Z normal faces *)
  fa ← for_range 0 nzp1 (fun k fa =>
    for_range 0 ny (fun j fa =>
      for_range 0 nx (fun i fa =>
        x ← ((if decide (k = 0%nat) then
               fa ← set_face_gc fa 5;
               mret (0%Z, (i0 + i + j * nx + k * nx * ny)%Z, fa)
             else if decide (k = nz) then
               fa ← set_face_gc fa 6;
               mret ((i0 + i + j * nx + (k - 1) * nx * ny)%Z, 0%Z, fa)
             else
               mret ((i0 + i + j * nx + (k - 1) * nx * ny)%Z,
                     (i0 + i + j * nx + k * nx * ny)%Z, fa))
             : outcome (Z * Z * faces_t));
        let '(c_id1, c_id2, fa) := x in
        store_face c_id1 c_id2
          (i0 + i + j * nxp1 + k * nxp1 * nyp1)%nat
          (i0 + i + (j + 1) * nxp1 + k * nxp1 * nyp1)%nat
          (i0 + (i + 1) + (j + 1) * nxp1 + k * nxp1 * nyp1)%nat
          (i0 + (i + 1) + j * nxp1 + k * nxp1 * nyp1)%nat fa) fa) fa) fa;
  let vc := malloc_if_null (vertex_coords mb) (nvtx * 3) (uninit_real u) in
  (* Vertices coords *)
  vc ← for_range 0 nzp1 (fun k vc =>
    for_range 0 nyp1 (fun j vc =>
      for_range 0 nxp1 (fun i vc =>
        let v_id := (i + j * nxp1 + k * nxp1 * nyp1)%nat in
        let ijk := [i; j; k] in
        for_range 0 3 (fun idim vc =>
          p ← direction mp idim;
          (* Constant step : xyz[idim]  = xyzmin[idim] + ijk*dx[idim] *)
          match law p return outcome (list real) with
          | CS_MESH_CARTESIAN_CONSTANT_LAW =>
              n ← rd ijk idim;
              dx ← rd (s p) 0;
              wr vc (3 * v_id + idim) (smin p + real_of_int (Z.of_nat n) * dx)
          | _ =>
              n ← rd ijk idim;
              x ← rd (s p) n;
              wr vc (3 * v_id + idim) x
          end) vc) vc) vc) vc;
  mret {| n_g_faces := nfaces;
          n_g_face_connect_size := nfaces * 2;
          cell_gc_id := Some cgc;
          face_gc_id := Some (fgc fa);
          face_vertices_idx := Some fvi;
          face_cells := Some (fcells fa);
          face_vertices := Some (fvtx fa);
          vertex_coords := Some vc |}.

End Embedding.

Arguments _cs_mesh_cartesian_direction_t : clear implicits.
Arguments cs_mesh_cartesian_params_t : clear implicits.
Arguments cartesian_glob_t : clear implicits.
Arguments cs_mesh_builder_t : clear implicits.
Arguments uninit_t : clear implicits.

Section Vocabulary.

Context {real : Type} {ops : cs_real_ops real}.

(** The private global variables when the program starts. *)
Definition cartesian_glob_0 : cartesian_glob_t real :=
  {| _build_mesh_cartesian := 0; _mesh_params := None |}.

(** The direction that [cs_mesh_cartesian_define_simple] stores. *)
Definition simple_direction (n : nat) (lo hi : real)
  : _cs_mesh_cartesian_direction_t real :=
  {| law := CS_MESH_CARTESIAN_CONSTANT_LAW; ncells := n;
     smin := lo; smax := hi; progression := real_of_int (-1);
     s := [(hi - lo) / real_of_int (Z.of_nat n)]%cs |}.

End Vocabulary.

(** ** Vocabulary for the connectivity of the cartesian mesh *)

(** What the builder holds on a face: its group, its two cells (0 for none)
    and its four vertices, in the order of [face_vertices]. *)
Record face_t : Type := {
  gc : Z;
  c_id1 : Z;
  c_id2 : Z;
  vtx : list nat;
}.

(** Face [f] of the three arrays, where they are long enough. *)
Definition face_of (g c : list Z) (v : list nat) (f : nat) : option face_t :=
  x ← g !! f;
  c1 ← c !! (2 * f);
  c2 ← c !! (2 * f + 1);
  v0 ← v !! (4 * f + 0);
  v1 ← v !! (4 * f + 1);
  v2 ← v !! (4 * f + 2);
  v3 ← v !! (4 * f + 3);
  Some {| gc := x; c_id1 := c1; c_id2 := c2; vtx := [v0; v1; v2; v3] |}.

Definition builder_face {real} (mb : cs_mesh_builder_t real) (f : nat)
  : option face_t :=
  g ← face_gc_id mb;
  c ← face_cells mb;
  v ← face_vertices mb;
  face_of g c v f.

(** Coordinate [idim] of vertex [v_id] in the builder. *)
Definition builder_coord {real} (mb : cs_mesh_builder_t real)
    (v_id idim : nat) : option real :=
  vc ← vertex_coords mb;
  vc !! (3 * v_id + idim).

(** The builder before the connectivity is built: no array is allocated. *)
Definition fresh_builder {real} (mb : cs_mesh_builder_t real) : Prop :=
  cell_gc_id mb = None ∧ face_gc_id mb = None ∧
  face_vertices_idx mb = None ∧ face_cells mb = None ∧
  face_vertices mb = None ∧ vertex_coords mb = None.

(** Number (from 1) of the cell and of the vertex of indices [i], [j], [k]
    in a mesh of [nx] by [ny] cells in x and y. *)
Definition cell_num (nx ny i j k : nat) : Z :=
  Z.of_nat (1 + i + j * nx + k * nx * ny).

Definition vtx_num (nx ny i j k : nat) : nat :=
  1 + i + j * (nx + 1) + k * (nx + 1) * (ny + 1).

(** Numbers of the faces: the faces of normal x first, then those of normal
    y, then those of normal z, the index [i] running fastest. *)
Definition x_face_id (nx ny nz i j k : nat) : nat :=
  i + (nx + 1) * (j + ny * k).

Definition y_face_id (nx ny nz i j k : nat) : nat :=
  (nx + 1) * (ny * nz) + (i + nx * (j + (ny + 1) * k)).

Definition z_face_id (nx ny nz i j k : nat) : nat :=
  (nx + 1) * (ny * nz) + nx * ((ny + 1) * nz) + (i + nx * (j + ny * k)).

(** The face between the cells [d - 1] and [d] along a direction of [n]
    cells, [lower] and [upper] being the numbers of these cells and [g] the
    group of the low boundary. *)
Definition face_between (n d : nat) (g : Z) (lower upper : Z)
    (vs : list nat) : face_t :=
  if decide (d = 0) then
    {| gc := g; c_id1 := 0; c_id2 := upper; vtx := vs |}
  else if decide (d = n) then
    {| gc := g + 1; c_id1 := lower; c_id2 := 0; vtx := vs |}
  else
    {| gc := 7; c_id1 := lower; c_id2 := upper; vtx := vs |}.

Definition x_face (nx ny nz i j k : nat) : face_t :=
  face_between nx i 1 (cell_num nx ny (i - 1) j k) (cell_num nx ny i j k)
    [vtx_num nx ny i (j + 1) k; vtx_num nx ny i (j + 1) (k + 1);
     vtx_num nx ny i j (k + 1); vtx_num nx ny i j k].

Definition y_face (nx ny nz i j k : nat) : face_t :=
  face_between ny j 3 (cell_num nx ny i (j - 1) k) (cell_num nx ny i j k)
    [vtx_num nx ny i j (k + 1); vtx_num nx ny (i + 1) j (k + 1);
     vtx_num nx ny (i + 1) j k; vtx_num nx ny i j k].

Definition z_face (nx ny nz i j k : nat) : face_t :=
  face_between nz k 5 (cell_num nx ny i j (k - 1)) (cell_num nx ny i j k)
    [vtx_num nx ny (i + 1) j k; vtx_num nx ny (i + 1) (j + 1) k;
     vtx_num nx ny i (j + 1) k; vtx_num nx ny i j k].

(** The sizes that the function gives to the arrays of the faces. *)
Definition faces_sized (cap : nat) (fa : faces_t) : Prop :=
  length (fgc fa) = cap ∧ length (fcells fa) = 2 * cap ∧
  length (fvtx fa) = 4 * cap.

(** The writes for one face: the group where the face is on the boundary,
    then the cells and the vertices. *)
Definition put_face (g : option Z) (c_id1 c_id2 : Z) (v3 v2 v1 v0 : nat)
    (fa : faces_t) : outcome faces_t :=
  fa ← match g with
       | Some x => set_face_gc fa x
       | None => mret fa
       end;
  store_face c_id1 c_id2 v3 v2 v1 v0 fa.

(** What a loop body does to the arrays of the faces when it is given the
    face of number [f_id]: within the arrays it sets this face as [spec]
    says and leaves the others; past the arrays it is not defined. *)
Definition writes_face (cap : nat) (spec : nat → nat → nat → face_t)
    (body : nat → nat → nat → faces_t → outcome faces_t) : Prop :=
  ∀ k j i fa,
    faces_sized cap fa →
    (f_id fa < cap → fgc fa !! f_id fa = Some 7%Z) →
    if decide (f_id fa < cap) then
      ∃ fa', body k j i fa = Done fa' ∧
        f_id fa' = S (f_id fa) ∧ faces_sized cap fa' ∧
        face_of (fgc fa') (fcells fa') (fvtx fa') (f_id fa)
        = Some (spec k j i) ∧
        ∀ f, f ≠ f_id fa →
          fgc fa' !! f = fgc fa !! f ∧
          face_of (fgc fa') (fcells fa') (fvtx fa') f
          = face_of (fgc fa) (fcells fa) (fvtx fa) f
    else body k j i fa = Undef.

Section Coordinates.

Context {real : Type} {ops : cs_real_ops real}.

#[local] Open Scope cs_scope.

(** Position of vertex [n] along a direction, as stored by the function. *)
Definition vertex_coord (p : _cs_mesh_cartesian_direction_t real) (n : nat)
  : option real :=
  match law p with
  | CS_MESH_CARTESIAN_CONSTANT_LAW =>
      dx ← s p !! 0; Some (smin p + real_of_int (Z.of_nat n) * dx)
  | _ => s p !! n
  end.

(** The array [s] holds what the connectivity reads: the step for the
    constant law, the [ncells + 1] vertices otherwise. *)
Definition direction_filled (p : _cs_mesh_cartesian_direction_t real)
  : Prop :=
  match law p with
  | CS_MESH_CARTESIAN_CONSTANT_LAW => 0 < length (s p)
  | _ => ncells p < length (s p)
  end.

End Coordinates.

(** The parameters of the three directions are defined. *)
Definition mesh_directions {real} (st : cartesian_glob_t real)
    (px py pz : _cs_mesh_cartesian_direction_t real) : Prop :=
  ∃ mp, _mesh_params st = Some mp ∧ direction mp 0 = Done px ∧
        direction mp 1 = Done py ∧ direction mp 2 = Done pz.

(** The two cells of a face of the builder. *)
Definition face_cell1 {real} (mb : cs_mesh_builder_t real) (f : nat)
  : option Z := c_id1 <$> builder_face mb f.

Definition face_cell2 {real} (mb : cs_mesh_builder_t real) (f : nat)
  : option Z := c_id2 <$> builder_face mb f.

(** A face that refers to cells and vertices of the mesh of [nx] by [ny]
    by [nz] cells: four vertices numbered from 1, two different cells
    numbered from 1 or 0 for none, and the group 7 exactly when the face has
    a cell on both sides. *)
Definition face_in_mesh (nx ny nz : nat) (F : face_t) : Prop :=
  length (vtx F) = 4 ∧
  Forall (fun v => 1 ≤ v ≤ (nx + 1) * (ny + 1) * (nz + 1)) (vtx F) ∧
  (0 ≤ c_id1 F ≤ Z.of_nat (nx * ny * nz))%Z ∧
  (0 ≤ c_id2 F ≤ Z.of_nat (nx * ny * nz))%Z ∧
  c_id1 F ≠ c_id2 F ∧
  (1 ≤ gc F ≤ 7)%Z ∧
  (gc F = 7%Z ↔ c_id1 F ≠ 0%Z ∧ c_id2 F ≠ 0%Z).

(** ** Vocabulary for the cartesian mesh over the real numbers *)

(** [1 + rho + ... + rho^(t-1)] *)
Fixpoint geom_sum (rho : R) (t : nat) : R :=
  match t with
  | O => 0%R
  | S t' => (geom_sum rho t' + rho ^ t')%R
  end.

(** First step of the geometric law. *)
Definition geometric_step (smin smax rho : R) (n : nat) : R :=
  ((smax - smin) * (rho - 1) / (rho ^ n - 1))%R.

(** First step of the parabolic law. *)
Definition parabolic_step (smin smax rho : R) (n : nat) : R :=
  if bool_decide (n `mod` 2 = 0) then
    (1 / 2 * (smax - smin) * (rho - 1) / (rho ^ (n `div` 2) - 1))%R
  else
    ((smax - smin) * (rho - 1)
     / (rho ^ ((n - 1) `div` 2) * rho + rho ^ ((n - 1) `div` 2) - 2))%R.

End Cartesian.

(** ** More example data

    The mesh of two tetrahedra in a saturated soil (the liquid saturation
    is the saturated moisture 1/2 of the soil), a dissolved concentration
    that is the same at every vertex, and tracers with their model flags
    (the precipitation flag is taken to be the bit 1). *)
Module Ex2.

Definition saturated : cs_gwf_tracer_context_t R :=
  {| rho_bulk := [1%R]; kd0 := [0%R]; rho_kd := [0%R];
     alpha_l := [2%R]; alpha_t := [1%R]; wmd := [1%R];
     reaction_rate := [3%R];
     conc_w_star := Some [10%R];
     conc_precip := Some Ex.no_precip;
     conc_satura := Some Ex.sat;
     precip_field := Some {| val := [0; 0]%R |};
     darcy_velocity_field := Some {| val := [1; 0; 0; 0; 0; 0]%R |};
     l_saturation := Some [1 / 2; 1 / 2]%R |}.

Definition tracer_saturated : cs_gwf_tracer_t R :=
  {| tr_eq := {| space_scheme := CS_SPACE_SCHEME_CDOVB;
                 vertex_values := Ex.no_solute; cell_values := [0; 0]%R |};
     diffusivity := Some {| val := replicate 18 0%R |};
     context := Some saturated |}.

Definition uniform : list R := [3; 3; 3; 3; 3]%R.

Definition with_model (m : cs_gwf_tracer_model_t)
  : cs_gwf_tracer_with_model_t R :=
  {| tracer_members := Ex.tracer2 CS_SPACE_SCHEME_CDOVB; model := m |}.

End Ex2.

(** A mesh of 1 by 2 by 1 cells in the box [0,1] x [0,2] x [0,1], a mesh
    of 1 by 1 by 2 cells, a builder without arrays and allocations filled
    with zeros. *)
Module CEx.

Import Cartesian.

Definition px : _cs_mesh_cartesian_direction_t R := simple_direction 1 0%R 1%R.
Definition py : _cs_mesh_cartesian_direction_t R := simple_direction 2 0%R 2%R.

Definition wide : cartesian_glob_t R :=
  {| _build_mesh_cartesian := 1;
     _mesh_params :=
       Some {| ndir := 3; params := [Some px; Some py; Some px] |} |}.

Definition tall : cartesian_glob_t R :=
  {| _build_mesh_cartesian := 1;
     _mesh_params :=
       Some {| ndir := 3; params := [Some px; Some px; Some py] |} |}.

Definition builder : cs_mesh_builder_t R :=
  {| n_g_faces := 0; n_g_face_connect_size := 0;
     cell_gc_id := None; face_gc_id := None; face_vertices_idx := None;
     face_cells := None; face_vertices := None; vertex_coords := None |}.

Definition zeros : uninit_t R :=
  {| uninit_int := fun _ => 0%Z; uninit_lnum := fun _ => 0;
     uninit_gnum := fun _ => 0%Z; uninit_vtx := fun _ => 0;
     uninit_real := fun _ => 0%R |}.

End CEx.

(** * Facts on the outcome monad, arrays and loops *)

Section Loops.

Context {St : Type}.

Lemma bind_Done {A B} (m : outcome A) (f : A → outcome B) (b : B) :
  m ≫= f = Done b ↔ ∃ a, m = Done a ∧ f a = Done b.
Proof.
  destruct m as [a| |]; simpl; split.
  - intros H. exists a. by split.
  - by intros (a' & [= ->] & H).
  - discriminate.
  - by intros (a' & [=] & _).
  - discriminate.
  - by intros (a' & [=] & _).
Qed.

Lemma rd_Done {A} (a : list A) (i : nat) (x : A) :
  rd a i = Done x ↔ a !! i = Some x.
Proof.
  unfold rd, deref. destruct (a !! i); split; intros H; by inversion H.
Qed.

Lemma rd_lookup {A} (a : list A) (i : nat) (x : A) :
  a !! i = Some x → rd a i = Done x.
Proof. apply rd_Done. Qed.

Lemma rdp_lookup {A} (a : list A) (i : nat) (x : A) :
  a !! i = Some x → rdp (Some a) i = Done x.
Proof. intros H. unfold rdp. simpl. by apply rd_lookup. Qed.

Lemma rd_lt {A} (a : list A) (i : nat) :
  i < length a → ∃ x, a !! i = Some x ∧ rd a i = Done x.
Proof.
  intros H. destruct (lookup_lt_is_Some_2 a i H) as [x Hx].
  exists x. split; [done | by apply rd_lookup].
Qed.

Lemma wr_lt {A} (a : list A) (i : nat) (x : A) :
  i < length a → wr a i x = Done (<[i:=x]> a).
Proof. intros H. unfold wr. by rewrite decide_True. Qed.

Lemma wr_Done {A} (a a' : list A) (i : nat) (x : A) :
  wr a i x = Done a' ↔ i < length a ∧ a' = <[i:=x]> a.
Proof.
  unfold wr. case_decide; split.
  - by intros [= <-].
  - by intros [_ ->].
  - discriminate.
  - by intros [? _].
Qed.

(** A loop whose body keeps an index-dependent invariant runs to completion
    and re-establishes the invariant at the exit index. *)
Lemma for_loop_inv (I : nat → St → Prop) (body : nat → St → outcome St)
    (n lo : nat) (s : St) :
  I lo s →
  (∀ k st, lo ≤ k < lo + n → I k st →
           ∃ st', body k st = Done st' ∧ I (S k) st') →
  ∃ s', for_loop lo n body s = Done s' ∧ I (lo + n) s'.
Proof.
  revert lo s. induction n as [|n IH]; intros lo s H0 Hstep.
  - exists s. rewrite Nat.add_0_r. by split.
  - destruct (Hstep lo s) as (s1 & Hb & H1); [lia | done |].
    destruct (IH (S lo) s1) as (s' & Hl & H'); [done | |].
    + intros k st Hk. apply Hstep. lia.
    + exists s'. simpl. rewrite Hb. simpl. split; [done |].
      by replace (lo + S n) with (S lo + n) by lia.
Qed.

Lemma for_range_inv (I : nat → St → Prop) (body : nat → St → outcome St)
    (lo hi : nat) (s : St) :
  lo ≤ hi →
  I lo s →
  (∀ k st, lo ≤ k < hi → I k st →
           ∃ st', body k st = Done st' ∧ I (S k) st') →
  ∃ s', for_range lo hi body s = Done s' ∧ I hi s'.
Proof.
  intros Hle H0 Hstep. unfold for_range.
  destruct (for_loop_inv I body (hi - lo) lo s) as (s' & Hl & H'); [done | |].
  - intros k st Hk. apply Hstep. lia.
  - exists s'. split; [done |]. by replace hi with (lo + (hi - lo)) by lia.
Qed.

(** The same with an invariant that does not mention the index; the bounds
    need not be ordered. *)
Lemma for_range_pres (P : St → Prop) (body : nat → St → outcome St)
    (lo hi : nat) (s : St) :
  P s →
  (∀ k st, lo ≤ k < hi → P st → ∃ st', body k st = Done st' ∧ P st') →
  ∃ s', for_range lo hi body s = Done s' ∧ P s'.
Proof.
  intros H0 Hstep. unfold for_range.
  destruct (for_loop_inv (fun _ => P) body (hi - lo) lo s)
    as (s' & Hl & H'); [done | |].
  - intros k st Hk. apply Hstep. lia.
  - by exists s'.
Qed.

Lemma for_loop_ext (body body' : nat → St → outcome St) (n lo : nat)
    (s : St) :
  (∀ k st, body k st = body' k st) →
  for_loop lo n body s = for_loop lo n body' s.
Proof.
  intros Hext. revert lo s. induction n as [|n IH]; intros lo s; [done |].
  simpl. rewrite Hext. destruct (body' lo s); simpl; [apply IH | done..].
Qed.

Lemma for_range_ext (body body' : nat → St → outcome St) (lo hi : nat)
    (s : St) :
  (∀ k st, body k st = body' k st) →
  for_range lo hi body s = for_range lo hi body' s.
Proof. apply for_loop_ext. Qed.

(** Invariant rule for [soil_cells_loop]: [I s i st] reads "[st] is the state
    before the cell of position [i] of soil [s] is processed". *)
Lemma soil_cells_loop_inv {Par} (I : nat → nat → St → Prop) (n_soils : nat)
    (prelude : nat → outcome (cs_zone_t * Par))
    (cell : Par → nat → St → outcome St) (st : St) :
  I 0 0 st →
  (∀ s, s < n_soils →
     ∃ z p, prelude s = Done (z, p) ∧
       (∀ st, I s (n_elts z) st → I (S s) 0 st) ∧
       (∀ i st, i < n_elts z → I s i st →
          ∃ c st', zone_elt z i = Done c ∧ cell p c st = Done st' ∧
                   I s (S i) st')) →
  ∃ st', soil_cells_loop n_soils prelude cell st = Done st' ∧
         I n_soils 0 st'.
Proof.
  intros H0 Hsoil. unfold soil_cells_loop.
  apply (for_range_inv (fun s st => I s 0 st)); [lia | done |].
  intros s st1 [_ Hs] H1.
  destruct (Hsoil s Hs) as (z & p & -> & Hnext & Hcell). simpl.
  destruct (for_range_inv (fun i st => I s i st)
              (fun i st => c_id ← zone_elt z i; cell p c_id st)
              0 (n_elts z) st1) as (st2 & Hrun & H2); [lia | done | |].
  - intros i st2 [_ Hi] H2.
    destruct (Hcell i st2 Hi H2) as (c & st3 & -> & Hc & H3).
    by exists st3.
  - exists st2. split; [done | by apply Hnext].
Qed.

End Loops.

(** * Results that hold for every arithmetic *)

Section Generic_facts.

Context {real : Type} {ops : cs_real_ops real}.

Lemma divergence_vect_run (cm : cs_cell_mesh_t real) (div : list real) :
  n_fc cm ≤ length (face cm) →
  n_fc cm ≤ length (f_sgn cm) →
  3 * n_fc cm ≤ length div →
  ∃ div', cs_cdofb_navsto_divergence_vect cm div = Done div' ∧
    length div' = length div ∧
    (∀ f k, f < n_fc cm → k < 3 →
            div' !! (3 * f + k) = Some (signed_area cm f k)) ∧
    (∀ i, 3 * n_fc cm ≤ i → div' !! i = div !! i).
Proof.
  intros Hface Hsgn Hdiv. unfold cs_cdofb_navsto_divergence_vect.
  apply (for_range_inv (fun n d =>
    length d = length div ∧
    (∀ f k, f < n → k < 3 → d !! (3 * f + k) = Some (signed_area cm f k)) ∧
    (∀ i, 3 * n ≤ i → d !! i = div !! i))); [lia | |].
  - split; [done |]. split; [lia | done].
  - intros f d [_ Hf] (Hlen & Hdone & Hrest).
    destruct (rd_lt (face cm) f) as (pfq & Hpfq & ->); [lia |].
    destruct (rd_lt (f_sgn cm) f) as (sgn & Hs & ->); [lia |].
    simpl. rewrite wr_lt by lia. simpl.
    rewrite wr_lt by (rewrite length_insert; lia). simpl.
    rewrite wr_lt by (rewrite !length_insert; lia).
    eexists. split; [done |]. split; [by rewrite !length_insert |]. split.
    + intros f' k Hf' Hk.
      assert (Hval : ∀ j, j < 3 →
                signed_area cm f j
                = (real_of_int sgn * meas pfq * at3 (unitv pfq) j)%cs).
      { intros j _. unfold signed_area.
        by rewrite (list_lookup_total_correct _ _ _ Hpfq),
                   (list_lookup_total_correct _ _ _ Hs). }
      destruct (decide (f' = f)) as [-> | Hne].
      * rewrite Hval by done.
        destruct k as [|[|[|k]]]; [| | | lia].
        -- rewrite !list_lookup_insert_ne by lia.
           by rewrite list_lookup_insert_eq by lia.
        -- rewrite list_lookup_insert_ne by lia.
           by rewrite list_lookup_insert_eq by (rewrite length_insert; lia).
        -- by rewrite list_lookup_insert_eq by (rewrite !length_insert; lia).
      * rewrite !list_lookup_insert_ne by lia. apply Hdone; lia.
    + intros i Hi. rewrite !list_lookup_insert_ne by lia. apply Hrest. lia.
Qed.

Lemma face_sum_ext (n : nat) (g h : nat → real) :
  (∀ f, f < n → g f = h f) → face_sum n g = face_sum n h.
Proof.
  induction n as [|n IH]; intros Hgh; [done |].
  simpl. rewrite IH by (intros; apply Hgh; lia). by rewrite Hgh by lia.
Qed.

(** C4: for every cell-local mesh view whose arrays have room for [n_fc]
    faces, [cs_cdofb_navsto_divergence_vect] completes and writes, for each
    face [f], the three components of [f_sgn(f) * meas(f) * unitv(f)] at the
    contiguous offsets [3f], [3f+1], [3f+2]; the cell volume [vol_c] does not
    occur in the result, and the entries past [3 * n_fc] are left as they
    were. *)
Theorem cs_cdofb_navsto_divergence_vect_spec
    (cm : cs_cell_mesh_t real) (div : list real) :
  n_fc cm ≤ length (face cm) →
  n_fc cm ≤ length (f_sgn cm) →
  3 * n_fc cm ≤ length div →
  ∃ div', cs_cdofb_navsto_divergence_vect cm div = Done div' ∧
    length div' = length div ∧
    (∀ f k, f < n_fc cm → k < 3 →
            div' !! (3 * f + k)
            = Some (real_of_int (f_sgn cm !!! f) * meas (face cm !!! f)
                    * at3 (unitv (face cm !!! f)) k)%cs) ∧
    (∀ i, 3 * n_fc cm ≤ i → div' !! i = div !! i).
Proof. apply divergence_vect_run. Qed.

(** C7: for every cell whose signed face area vectors sum to the zero vector
    (closed cell), the divergence vector built by
    [cs_cdofb_navsto_divergence_vect] sums to zero over the faces, component
    by component. *)
Theorem cs_cdofb_navsto_divergence_vect_sum_zero
    (cm : cs_cell_mesh_t real) (div : list real) :
  n_fc cm ≤ length (face cm) →
  n_fc cm ≤ length (f_sgn cm) →
  3 * n_fc cm ≤ length div →
  (∀ k, k < 3 → face_sum (n_fc cm) (fun f => signed_area cm f k) = real_0) →
  ∃ div', cs_cdofb_navsto_divergence_vect cm div = Done div' ∧
    ∀ k, k < 3 →
      face_sum (n_fc cm) (fun f => div' !!! (3 * f + k)) = real_0.
Proof.
  intros Hface Hsgn Hdiv Hclosed.
  destruct (divergence_vect_run cm div) as (div' & Hrun & _ & Hval & _);
    [done.. |].
  exists div'. split; [done |]. intros k Hk.
  rewrite <- (Hclosed k Hk). apply face_sum_ext. intros f Hf.
  apply list_lookup_total_correct. by apply Hval.
Qed.




Lemma out_index_None (dense : bool) (i : nat) : out_index None dense i = i.
Proof. unfold out_index. by destruct dense. Qed.

End Generic_facts.

(** Destructs the reads at the head of the left-hand side, one by one. *)
Ltac head_reads :=
  repeat (lazymatch goal with
          | |- (?m ≫= _) = _ =>
              lazymatch m with
              | for_range _ _ _ _ => fail
              | _ => destruct m; simpl; [ | reflexivity | reflexivity]
              end
          end).


(** * Bulk and cell-wise property evaluators *)

Section Evaluators.

Context {real : Type} {ops : cs_real_ops real}.

Variable g : cs_glob_t real.







End Evaluators.

(** * Diffusion tensor updaters *)

Section Diffusion_tensor.

Context {real : Type} {ops : cs_real_ops real}.

Variable g : cs_glob_t real.

Lemma _update_sat_diff_pty_as_soil_cells_loop
    (tracer : cs_gwf_tracer_t real) (t_eval : real) :
  _update_sat_diff_pty g tracer t_eval =
  match diffusivity tracer with
  | None => Done tracer
  | Some dfield =>
      tc ← deref (context tracer);
      dvf ← deref (darcy_velocity_field tc);
      values ← soil_cells_loop (cs_gwf_get_n_soils g) (sat_diff_prelude g tc)
                 (sat_diff_cell g (val dvf)) (val dfield);
      mret (set_diffusivity_val tracer values)
  end.
Proof.
  unfold _update_sat_diff_pty. destruct (diffusivity tracer); [| done].
  destruct (deref (context tracer)) as [tc| |]; simpl; [| done..].
  destruct (deref (darcy_velocity_field tc)) as [dvf| |]; simpl; [| done..].
  f_equal. unfold soil_cells_loop. apply for_range_ext. intros s values.
  unfold sat_diff_prelude. head_reads. reflexivity.
Qed.

Lemma rd_insert_eq {A} (a : list A) (i : nat) (x : A) :
  i < length a → rd (<[i:=x]> a) i = Done x.
Proof. intros H. by apply rd_lookup, list_lookup_insert_eq. Qed.

Opaque Nat.mul.

Lemma tensor_store_run (velocity values : list real) (c : nat)
    (coef1 delta : real) (v : nat → real) :
  9 * c + 8 < length values →
  (∀ k, k < 3 → velocity !! (3 * c + k) = Some (v k)) →
  ∃ values',
    tensor_store velocity c coef1 delta
      [v 0 * v 0; v 1 * v 1; v 2 * v 2]%cs
      [delta * v 0; delta * v 1; delta * v 2]%cs values = Done values' ∧
    length values' = length values ∧
    (∀ ki kj, ki < 3 → kj < 3 →
       values' !! (9 * c + (3 * ki + kj))
       = Some (tensor_entry coef1 delta v ki kj)) ∧
    (∀ i, ¬ (9 * c ≤ i < 9 * c + 9) → values' !! i = values !! i).
Proof.
  intros Hlen Hv. unfold tensor_store, for_range. simpl.
  rewrite (rd_lookup _ _ _ (Hv 1 ltac:(lia))).
  rewrite !(rd_lookup _ _ _ (Hv 2 ltac:(lia))).
  repeat (first [ rewrite wr_lt by (rewrite ?length_insert; lia)
                | rewrite rd_insert_eq by (rewrite ?length_insert; lia) ];
          simpl).
  eexists. split; [done |]. split; [by rewrite !length_insert |]. split.
  - intros ki kj Hki Hkj.
    destruct ki as [|[|[|ki]]]; [| | | lia];
      (destruct kj as [|[|[|kj]]]; [| | | lia]);
      unfold tensor_entry; simpl;
      repeat (rewrite list_lookup_insert_ne by lia);
      by rewrite list_lookup_insert_eq by (rewrite ?length_insert; lia).
  - intros i Hi. by rewrite !list_lookup_insert_ne by lia.
Qed.

Transparent Nat.mul.

Lemma cell_velocity_lookup (velocity : list real) (c k : nat) :
  3 * c + 2 < length velocity → k < 3 →
  velocity !! (3 * c + k) = Some (cell_velocity velocity c k).
Proof.
  intros Hlen Hk. apply list_lookup_lookup_total_lt. lia.
Qed.

Lemma sat_diff_cell_run (velocity values : list real)
    (wmd at_ al theta_s : real) (c : nat) :
  3 * c + 2 < length velocity →
  9 * c + 8 < length values →
  ∃ values',
    sat_diff_cell g velocity (wmd, at_, al, theta_s) c values = Done values' ∧
    length values' = length values ∧
    (∀ ki kj, ki < 3 → kj < 3 →
       values' !! (9 * c + (3 * ki + kj))
       = Some (cell_tensor g wmd at_ al theta_s
                 (cell_velocity velocity c) ki kj)) ∧
    (∀ i, ¬ (9 * c ≤ i < 9 * c + 9) → values' !! i = values !! i).
Proof.
  intros Hvel Hval. unfold sat_diff_cell.
  rewrite (rd_lookup _ _ _ (cell_velocity_lookup velocity c 0 Hvel
                              ltac:(lia))),
          (rd_lookup _ _ _ (cell_velocity_lookup velocity c 1 Hvel
                              ltac:(lia))),
          (rd_lookup _ _ _ (cell_velocity_lookup velocity c 2 Hvel
                              ltac:(lia))).
  simpl. apply tensor_store_run; [done |].
  intros k Hk. by apply cell_velocity_lookup.
Qed.

Lemma diff_cell_run (velocity values theta : list real)
    (wmd at_ al : real) (c : nat) :
  3 * c + 2 < length velocity →
  9 * c + 8 < length values →
  c < length theta →
  ∃ values',
    diff_cell g velocity (Some theta) (wmd, at_, al) c values = Done values' ∧
    length values' = length values ∧
    (∀ ki kj, ki < 3 → kj < 3 →
       values' !! (9 * c + (3 * ki + kj))
       = Some (cell_tensor g wmd at_ al (theta !!! c)
                 (cell_velocity velocity c) ki kj)) ∧
    (∀ i, ¬ (9 * c ≤ i < 9 * c + 9) → values' !! i = values !! i).
Proof.
  intros Hvel Hval Hth. unfold diff_cell.
  rewrite (rd_lookup _ _ _ (cell_velocity_lookup velocity c 0 Hvel
                              ltac:(lia))),
          (rd_lookup _ _ _ (cell_velocity_lookup velocity c 1 Hvel
                              ltac:(lia))),
          (rd_lookup _ _ _ (cell_velocity_lookup velocity c 2 Hvel
                              ltac:(lia))).
  simpl. rewrite (rdp_lookup theta c (theta !!! c))
    by (by apply list_lookup_lookup_total_lt).
  simpl. apply tensor_store_run; [done |].
  intros k Hk. by apply cell_velocity_lookup.
Qed.

(** The soil and cell loops, for any per-soil data and any processing of a
    cell that stores the nine entries [E p c] of the cell and nothing else:
    the run completes, and a property [Q] of the entries of a cell [c] holds
    at the end as soon as it holds whenever the entries of [c] are those
    stored by a visit of [c]. *)
Section Tensor_loop.

Context {Par : Type}.
Variables (n : nat) (prelude : nat → outcome (cs_zone_t * Par))
          (cell : Par → nat → list real → outcome (list real))
          (E : Par → nat → nat → nat → real) (L : nat).

Hypothesis Hpre : ∀ s, s < n →
  ∃ z p, prelude s = Done (z, p) ∧
         ∀ i, i < n_elts z → ∃ c, zone_elt z i = Done c.

Hypothesis Hcell : ∀ s z p i c vals,
  s < n → prelude s = Done (z, p) → i < n_elts z → zone_elt z i = Done c →
  length vals = L →
  ∃ vals', cell p c vals = Done vals' ∧ length vals' = L ∧
    (∀ ki kj, ki < 3 → kj < 3 →
       vals' !! (9 * c + (3 * ki + kj)) = Some (E p c ki kj)) ∧
    (∀ k, ¬ (9 * c ≤ k < 9 * c + 9) → vals' !! k = vals !! k).

Lemma tensor_loop_inv (values : list real) (c s0 i0 : nat) (z0 : cs_zone_t)
    (p0 : Par) (Q : list real → Prop) :
  length values = L →
  s0 < n → prelude s0 = Done (z0, p0) → i0 < n_elts z0 →
  zone_elt z0 i0 = Done c →
  (∀ vals vals', (∀ k, 9 * c ≤ k < 9 * c + 9 → vals' !! k = vals !! k) →
                 Q vals → Q vals') →
  (∀ s z p i vals,
     s < n → prelude s = Done (z, p) → i < n_elts z → zone_elt z i = Done c →
     (∀ ki kj, ki < 3 → kj < 3 →
        vals !! (9 * c + (3 * ki + kj)) = Some (E p c ki kj)) →
     Q vals) →
  ∃ values', soil_cells_loop n prelude cell values = Done values' ∧
             length values' = L ∧ Q values'.
Proof.
  intros Hlen Hs0 Hp0 Hi0 Hc0 Hframe Hest.
  destruct (soil_cells_loop_inv (fun s i vals =>
      length vals = L ∧ (s0 < s ∨ (s = s0 ∧ i0 < i) → Q vals))
      n prelude cell values) as (values' & Hrun & HL & HQ).
  - split; [done | lia].
  - intros s Hs. destruct (Hpre s Hs) as (z & p & Hp & Hz).
    exists z, p. split; [done |]. split.
    + intros vals [HlenV HQV]. split; [done |]. intros Hafter.
      apply HQV. destruct (decide (s0 = s)) as [-> | Hne]; [| lia].
      right. split; [done |]. rewrite Hp in Hp0. by injection Hp0 as <- <-.
    + intros i vals Hi [HlenV HQV]. destruct (Hz i Hi) as [c' Hc'].
      destruct (Hcell s z p i c' vals Hs Hp Hi Hc' HlenV)
        as (vals' & Hrun & HlenV' & Hent & Hoth).
      exists c', vals'. split; [done |]. split; [done |]. split; [done |].
      intros Hafter. destruct (decide (c' = c)) as [-> | Hne].
      * by apply (Hest s z p i).
      * apply (Hframe vals).
        { intros k Hk. apply Hoth. lia. }
        apply HQV. destruct Hafter as [? | [-> Hlt]]; [by left |].
        right. split; [done |].
        destruct (decide (i0 = i)) as [-> | ?]; [| lia].
        rewrite Hp in Hp0. injection Hp0 as <- <-. congruence.
  - exists values'. split; [done |]. split; [done |]. apply HQ. lia.
Qed.

Lemma tensor_loop_run (values : list real) :
  length values = L →
  ∃ values', soil_cells_loop n prelude cell values = Done values' ∧
             length values' = L.
Proof.
  intros Hlen.
  apply (soil_cells_loop_inv (fun _ _ vals => length vals = L)); [done |].
  intros s Hs. destruct (Hpre s Hs) as (z & p & Hp & Hz).
  exists z, p. split; [done |]. split; [done |].
  intros i vals Hi HlenV. destruct (Hz i Hi) as [c' Hc'].
  destruct (Hcell s z p i c' vals Hs Hp Hi Hc' HlenV)
    as (vals' & Hrun & HlenV' & _).
  by exists c', vals'.
Qed.

End Tensor_loop.

Lemma zone_elt_defined (z : cs_zone_t) (i : nat) :
  (∀ l, elt_ids z = Some l → n_elts z ≤ length l) →
  i < n_elts z → ∃ c, zone_elt z i = Done c.
Proof.
  intros Hz Hi. unfold zone_elt. destruct (elt_ids z) as [l|]; [| by eexists].
  destruct (rd_lt l i) as (c & _ & Hc); [| by exists c].
  specialize (Hz l eq_refl). lia.
Qed.

Lemma sat_diff_prelude_Done (tc : cs_gwf_tracer_context_t real) (s : nat)
    (z : cs_zone_t) (p : real * real * real * real) :
  sat_diff_prelude g tc s = Done (z, p) ↔
  ∃ soil w a_t a_l,
    soils g !! s = Some soil ∧ zones g !! zone_id soil = Some z ∧
    wmd tc !! s = Some w ∧ alpha_t tc !! s = Some a_t ∧
    alpha_l tc !! s = Some a_l ∧ p = (w, a_t, a_l, saturated_moisture soil).
Proof.
  unfold sat_diff_prelude, cs_gwf_soil_by_id, cs_volume_zone_by_id,
    cs_gwf_soil_get_saturated_moisture. split.
  - intros H.
    apply bind_Done in H as (soil & Hs%rd_Done & H).
    apply bind_Done in H as (z' & Hz%rd_Done & H).
    apply bind_Done in H as (w & Hw%rd_Done & H).
    apply bind_Done in H as (a_t & Hat%rd_Done & H).
    apply bind_Done in H as (a_l & Hal%rd_Done & H).
    apply bind_Done in H as (th & Hth & H).
    apply bind_Done in Hth as (soil' & Hs'%rd_Done & Hth).
    injection H as <- <-. injection Hth as <-.
    rewrite Hs in Hs'. injection Hs' as <-.
    by exists soil, w, a_t, a_l.
  - intros (soil & w & a_t & a_l & Hs & Hz & Hw & Hat & Hal & ->).
    rewrite (rd_lookup _ _ _ Hs). simpl.
    rewrite (rd_lookup _ _ _ Hz), (rd_lookup _ _ _ Hw),
            (rd_lookup _ _ _ Hat), (rd_lookup _ _ _ Hal). by simpl.
Qed.

Lemma diff_prelude_Done (tc : cs_gwf_tracer_context_t real) (s : nat)
    (z : cs_zone_t) (p : real * real * real) :
  diff_prelude g tc s = Done (z, p) ↔
  ∃ soil w a_t a_l,
    soils g !! s = Some soil ∧ zones g !! zone_id soil = Some z ∧
    wmd tc !! s = Some w ∧ alpha_t tc !! s = Some a_t ∧
    alpha_l tc !! s = Some a_l ∧ p = (w, a_t, a_l).
Proof.
  unfold diff_prelude, cs_gwf_soil_by_id, cs_volume_zone_by_id. split.
  - intros H.
    apply bind_Done in H as (soil & Hs%rd_Done & H).
    apply bind_Done in H as (z' & Hz%rd_Done & H).
    apply bind_Done in H as (w & Hw%rd_Done & H).
    apply bind_Done in H as (a_t & Hat%rd_Done & H).
    apply bind_Done in H as (a_l & Hal%rd_Done & H).
    injection H as <- <-.
    by exists soil, w, a_t, a_l.
  - intros (soil & w & a_t & a_l & Hs & Hz & Hw & Hat & Hal & ->).
    rewrite (rd_lookup _ _ _ Hs). simpl.
    rewrite (rd_lookup _ _ _ Hz), (rd_lookup _ _ _ Hw),
            (rd_lookup _ _ _ Hat), (rd_lookup _ _ _ Hal). by simpl.
Qed.

Lemma _update_diff_pty_as_soil_cells_loop
    (tracer : cs_gwf_tracer_t real) (t_eval : real) :
  _update_diff_pty g tracer t_eval =
  match diffusivity tracer with
  | None => Done tracer
  | Some dfield =>
      tc ← deref (context tracer);
      dvf ← deref (darcy_velocity_field tc);
      values ← soil_cells_loop (cs_gwf_get_n_soils g) (diff_prelude g tc)
                 (diff_cell g (val dvf) (l_saturation tc)) (val dfield);
      mret (set_diffusivity_val tracer values)
  end.
Proof.
  unfold _update_diff_pty. destruct (diffusivity tracer); [| done].
  destruct (deref (context tracer)) as [tc| |]; simpl; [| done..].
  destruct (deref (darcy_velocity_field tc)) as [dvf| |]; simpl; [| done..].
  f_equal. unfold soil_cells_loop. apply for_range_ext. intros s values.
  unfold diff_prelude. head_reads. reflexivity.
Qed.

(** What is known of the entries of a cell [c] after a run: any property
    [Q] of these entries that holds for the tensor stored by each soil
    owning [c]. *)
Lemma sat_diff_updater (tracer : cs_gwf_tracer_t real) (t_eval : real)
    (dfield dvf : cs_field_t real) (tc : cs_gwf_tracer_context_t real) :
  diffusivity tracer = Some dfield →
  context tracer = Some tc →
  darcy_velocity_field tc = Some dvf →
  diff_wf g tc (val dvf) (val dfield) →
  ∃ values',
    _update_sat_diff_pty g tracer t_eval
    = Done (set_diffusivity_val tracer values') ∧
    length values' = length (val dfield) ∧
    ∀ c (Q : list real → Prop),
      (∃ s, soil_cell g s c) →
      (∀ vals vals', (∀ k, 9 * c ≤ k < 9 * c + 9 → vals' !! k = vals !! k) →
                     Q vals → Q vals') →
      (∀ s soil w a_t a_l vals,
         soil_cell g s c → soils g !! s = Some soil →
         wmd tc !! s = Some w → alpha_t tc !! s = Some a_t →
         alpha_l tc !! s = Some a_l →
         cell_entries vals c
           (cell_tensor g w a_t a_l (saturated_moisture soil)
              (cell_velocity (val dvf) c)) →
         Q vals) →
      Q values'.
Proof.
  intros Hd Hc Hv (Hsoils & Hwmd & Hat & Hal & Hcells).
  rewrite _update_sat_diff_pty_as_soil_cells_loop, Hd, Hc. simpl.
  rewrite Hv. simpl.
  set (E := fun (p : real * real * real * real) c =>
              cell_tensor g p.1.1.1 p.1.1.2 p.1.2 p.2
                (cell_velocity (val dvf) c)).
  assert (Hpre : ∀ s, s < cs_gwf_get_n_soils g →
            ∃ z p, sat_diff_prelude g tc s = Done (z, p) ∧
                   ∀ i, i < n_elts z → ∃ c, zone_elt z i = Done c).
  { intros s Hs. unfold cs_gwf_get_n_soils in *.
    destruct (lookup_lt_is_Some_2 (soils g) s Hs) as [soil Hsoil].
    destruct (Hsoils s soil Hsoil) as (z & Hz & Hl).
    destruct (lookup_lt_is_Some_2 (wmd tc) s) as [w Hw]; [lia |].
    destruct (lookup_lt_is_Some_2 (alpha_t tc) s) as [a_t Ha_t]; [lia |].
    destruct (lookup_lt_is_Some_2 (alpha_l tc) s) as [a_l Ha_l]; [lia |].
    exists z, (w, a_t, a_l, saturated_moisture soil). split.
    - apply sat_diff_prelude_Done. by exists soil, w, a_t, a_l.
    - intros i Hi. by apply zone_elt_defined. }
  assert (Hcell : ∀ s z p i c vals,
            s < cs_gwf_get_n_soils g → sat_diff_prelude g tc s = Done (z, p) →
            i < n_elts z → zone_elt z i = Done c →
            length vals = length (val dfield) →
            ∃ vals', sat_diff_cell g (val dvf) p c vals = Done vals' ∧
              length vals' = length (val dfield) ∧
              (∀ ki kj, ki < 3 → kj < 3 →
                 vals' !! (9 * c + (3 * ki + kj)) = Some (E p c ki kj)) ∧
              (∀ k, ¬ (9 * c ≤ k < 9 * c + 9) → vals' !! k = vals !! k)).
  { intros s z p i c vals Hs Hp Hi Hzc Hlen.
    apply sat_diff_prelude_Done in Hp
      as (soil & w & a_t & a_l & Hsoil & Hz & _ & _ & _ & ->).
    destruct (Hcells s c) as [Hvel Hval]; [by exists i, soil, z |].
    destruct (sat_diff_cell_run (val dvf) vals w a_t a_l
                (saturated_moisture soil) c) as (vals' & -> & Hl' & Hrest);
      [done | lia |].
    exists vals'. split; [done |]. split; [lia | done]. }
  destruct (tensor_loop_run _ _ _ E _ Hpre Hcell (val dfield) eq_refl)
    as (values' & Hrun & Hlen).
  exists values'. rewrite Hrun. simpl. split; [done |]. split; [done |].
  intros c Q [s (i & soil & z & Hsoil & Hz & Hi & Hzc)] Hframe Hest.
  assert (Hs : s < cs_gwf_get_n_soils g) by by eapply lookup_lt_Some.
  destruct (Hpre s Hs) as (z' & p & Hp & _).
  pose proof Hp as Hp'. apply sat_diff_prelude_Done in Hp'
    as (soil' & w & a_t & a_l & Hsoil' & Hz' & _).
  assert (z' = z) as -> by congruence.
  destruct (tensor_loop_inv _ _ _ E _ Hpre Hcell (val dfield) c s i z p Q)
    as (values'' & Hrun' & _ & HQ); [done.. | |].
  - intros s1 z1 p1 i1 vals Hs1 Hp1 Hi1 Hzc1 Hent.
    apply sat_diff_prelude_Done in Hp1
      as (soil1 & w1 & a_t1 & a_l1 & Hsoil1 & Hz1 & ? & ? & ? & ->).
    apply (Hest s1 soil1 w1 a_t1 a_l1); [by exists i1, soil1, z1 | done..].
  - rewrite Hrun in Hrun'. by injection Hrun' as ->.
Qed.

Lemma diff_updater (tracer : cs_gwf_tracer_t real) (t_eval : real)
    (dfield dvf : cs_field_t real) (tc : cs_gwf_tracer_context_t real)
    (theta : list real) :
  diffusivity tracer = Some dfield →
  context tracer = Some tc →
  darcy_velocity_field tc = Some dvf →
  l_saturation tc = Some theta →
  diff_wf g tc (val dvf) (val dfield) →
  (∀ s c, soil_cell g s c → c < length theta) →
  ∃ values',
    _update_diff_pty g tracer t_eval
    = Done (set_diffusivity_val tracer values') ∧
    length values' = length (val dfield) ∧
    ∀ c (Q : list real → Prop),
      (∃ s, soil_cell g s c) →
      (∀ vals vals', (∀ k, 9 * c ≤ k < 9 * c + 9 → vals' !! k = vals !! k) →
                     Q vals → Q vals') →
      (∀ s w a_t a_l vals,
         soil_cell g s c →
         wmd tc !! s = Some w → alpha_t tc !! s = Some a_t →
         alpha_l tc !! s = Some a_l →
         cell_entries vals c
           (cell_tensor g w a_t a_l (theta !!! c)
              (cell_velocity (val dvf) c)) →
         Q vals) →
      Q values'.
Proof.
  intros Hd Hc Hv Hth (Hsoils & Hwmd & Hat & Hal & Hcells) Htheta.
  rewrite _update_diff_pty_as_soil_cells_loop, Hd, Hc. simpl.
  rewrite Hv, Hth. simpl.
  set (E := fun (p : real * real * real) c =>
              cell_tensor g p.1.1 p.1.2 p.2 (theta !!! c)
                (cell_velocity (val dvf) c)).
  assert (Hpre : ∀ s, s < cs_gwf_get_n_soils g →
            ∃ z p, diff_prelude g tc s = Done (z, p) ∧
                   ∀ i, i < n_elts z → ∃ c, zone_elt z i = Done c).
  { intros s Hs. unfold cs_gwf_get_n_soils in *.
    destruct (lookup_lt_is_Some_2 (soils g) s Hs) as [soil Hsoil].
    destruct (Hsoils s soil Hsoil) as (z & Hz & Hl).
    destruct (lookup_lt_is_Some_2 (wmd tc) s) as [w Hw]; [lia |].
    destruct (lookup_lt_is_Some_2 (alpha_t tc) s) as [a_t Ha_t]; [lia |].
    destruct (lookup_lt_is_Some_2 (alpha_l tc) s) as [a_l Ha_l]; [lia |].
    exists z, (w, a_t, a_l). split.
    - apply diff_prelude_Done. by exists soil, w, a_t, a_l.
    - intros i Hi. by apply zone_elt_defined. }
  assert (Hcell : ∀ s z p i c vals,
            s < cs_gwf_get_n_soils g → diff_prelude g tc s = Done (z, p) →
            i < n_elts z → zone_elt z i = Done c →
            length vals = length (val dfield) →
            ∃ vals', diff_cell g (val dvf) (Some theta) p c vals = Done vals' ∧
              length vals' = length (val dfield) ∧
              (∀ ki kj, ki < 3 → kj < 3 →
                 vals' !! (9 * c + (3 * ki + kj)) = Some (E p c ki kj)) ∧
              (∀ k, ¬ (9 * c ≤ k < 9 * c + 9) → vals' !! k = vals !! k)).
  { intros s z p i c vals Hs Hp Hi Hzc Hlen.
    apply diff_prelude_Done in Hp
      as (soil & w & a_t & a_l & Hsoil & Hz & _ & _ & _ & ->).
    assert (Hsc : soil_cell g s c) by by exists i, soil, z.
    destruct (Hcells s c Hsc) as [Hvel Hval].
    destruct (diff_cell_run (val dvf) vals theta w a_t a_l c)
      as (vals' & -> & Hl' & Hrest); [done | lia | by eapply Htheta |].
    exists vals'. split; [done |]. split; [lia | done]. }
  destruct (tensor_loop_run _ _ _ E _ Hpre Hcell (val dfield) eq_refl)
    as (values' & Hrun & Hlen).
  exists values'. rewrite Hrun. simpl. split; [done |]. split; [done |].
  intros c Q [s (i & soil & z & Hsoil & Hz & Hi & Hzc)] Hframe Hest.
  assert (Hs : s < cs_gwf_get_n_soils g) by by eapply lookup_lt_Some.
  destruct (Hpre s Hs) as (z' & p & Hp & _).
  pose proof Hp as Hp'. apply diff_prelude_Done in Hp'
    as (soil' & w & a_t & a_l & Hsoil' & Hz' & _).
  assert (z' = z) as -> by congruence.
  destruct (tensor_loop_inv _ _ _ E _ Hpre Hcell (val dfield) c s i z p Q)
    as (values'' & Hrun' & _ & HQ); [done.. | |].
  - intros s1 z1 p1 i1 vals Hs1 Hp1 Hi1 Hzc1 Hent.
    apply diff_prelude_Done in Hp1
      as (soil1 & w1 & a_t1 & a_l1 & Hsoil1 & Hz1 & ? & ? & ? & ->).
    apply (Hest s1 w1 a_t1 a_l1); [by exists i1, soil1, z1 | done..].
  - rewrite Hrun in Hrun'. by injection Hrun' as ->.
Qed.

Lemma tensor_entry_sym (coef1 delta : real) (v : nat → real) (ki kj : nat) :
  tensor_entry coef1 delta v ki kj = tensor_entry coef1 delta v kj ki.
Proof.
  unfold tensor_entry. repeat case_decide; try congruence.
  by rewrite (Nat.min_comm kj ki), (Nat.max_comm kj ki).
Qed.

(** C8: for every cell of every soil, the tensor written by
    [_update_sat_diff_pty] and by [_update_diff_pty] is exactly symmetric:
    the entries ([ki], [kj]) and ([kj], [ki]) hold the same value, whatever
    the arithmetic does (the off-diagonal value is computed once and copied
    from the array into the mirrored entry). *)
Theorem diffusion_tensor_symmetric (tracer : cs_gwf_tracer_t real)
    (t_eval : real) (dfield dvf : cs_field_t real)
    (tc : cs_gwf_tracer_context_t real) :
  diffusivity tracer = Some dfield →
  context tracer = Some tc →
  darcy_velocity_field tc = Some dvf →
  diff_wf g tc (val dvf) (val dfield) →
  (∃ values',
     _update_sat_diff_pty g tracer t_eval
     = Done (set_diffusivity_val tracer values') ∧
     ∀ s c ki kj, soil_cell g s c → ki < 3 → kj < 3 →
       ∃ x, values' !! (9 * c + (3 * ki + kj)) = Some x ∧
            values' !! (9 * c + (3 * kj + ki)) = Some x) ∧
  (∀ theta, l_saturation tc = Some theta →
     (∀ s c, soil_cell g s c → c < length theta) →
     ∃ values',
       _update_diff_pty g tracer t_eval
       = Done (set_diffusivity_val tracer values') ∧
       ∀ s c ki kj, soil_cell g s c → ki < 3 → kj < 3 →
         ∃ x, values' !! (9 * c + (3 * ki + kj)) = Some x ∧
              values' !! (9 * c + (3 * kj + ki)) = Some x).
Proof.
  intros Hd Hc Hv Hwf. split.
  - destruct (sat_diff_updater tracer t_eval dfield dvf tc Hd Hc Hv Hwf)
      as (values' & Hrun & _ & HQ).
    exists values'. split; [done |]. intros s c ki kj Hsc Hki Hkj.
    apply (HQ c (fun vals =>
             ∃ x, vals !! (9 * c + (3 * ki + kj)) = Some x ∧
                  vals !! (9 * c + (3 * kj + ki)) = Some x)).
    + by exists s.
    + intros vals vals' Hsame (x & H1 & H2). exists x.
      by rewrite !Hsame by lia.
    + intros s' soil w a_t a_l vals _ _ _ _ _ Hent. eexists. split.
      * by apply Hent.
      * unfold cell_tensor. rewrite tensor_entry_sym. by apply Hent.
  - intros theta Hth Htheta.
    destruct (diff_updater tracer t_eval dfield dvf tc theta Hd Hc Hv Hth
                Hwf Htheta) as (values' & Hrun & _ & HQ).
    exists values'. split; [done |]. intros s c ki kj Hsc Hki Hkj.
    apply (HQ c (fun vals =>
             ∃ x, vals !! (9 * c + (3 * ki + kj)) = Some x ∧
                  vals !! (9 * c + (3 * kj + ki)) = Some x)).
    + by exists s.
    + intros vals vals' Hsame (x & H1 & H2). exists x.
      by rewrite !Hsame by lia.
    + intros s' w a_t a_l vals _ _ _ _ Hent. eexists. split.
      * by apply Hent.
      * unfold cell_tensor. rewrite tensor_entry_sym. by apply Hent.
Qed.

End Diffusion_tensor.

(** * Results over the real numbers *)

(** Unfolds the operations of [R_ops]. *)
Ltac r_ops :=
  unfold CS_MIN, CS_MAX in *;
  cbn [real_0 real_1 real_add real_sub real_mul real_div real_sqrt real_lt
       real_le real_of_int R_ops] in *;
  unfold Rltb, Rleb in *.

Lemma cell_tensor_dispersion (g : cs_glob_t R) (w a_t a_l theta : R)
    (v : nat → R) (ki kj : nat) :
  cell_tensor g w a_t a_l theta v ki kj
  = dispersion_tensor w theta a_l a_t (cs_math_zero_threshold g) v ki kj.
Proof.
  unfold cell_tensor, dispersion_tensor, tensor_entry, delta_of,
    dispersion_delta, vnorm_of. r_ops.
  destruct (Rlt_dec _ _); case_decide.
  - lra.
  - destruct (Nat.le_ge_cases ki kj).
    + rewrite Nat.min_l, Nat.max_r by done. lra.
    + rewrite Nat.min_r, Nat.max_l by done. lra.
  - lra.
  - lra.
Qed.

Lemma dispersion_tensor_zero_velocity (w theta a_l a_t thr : R)
    (v : nat → R) (i j : nat) :
  (0 <= thr)%R →
  vnorm_of v = 0%R →
  dispersion_tensor w theta a_l a_t thr v i j
  = if decide (i = j) then (w * theta)%R else 0%R.
Proof.
  intros Hthr Hnv. unfold dispersion_tensor, dispersion_delta. rewrite Hnv.
  simpl.
  destruct (Rlt_dec thr 0); [lra |]. case_decide; lra.
Qed.

(** C2: for every cell [c] of a soil [s] (the soils partitioning the mesh,
    [c] belongs to no other soil), the tensor recomputed by
    [_update_sat_diff_pty] and by [_update_diff_pty] from the Darcy velocity
    [v] of the cell has the diagonal entries
    [wmd*theta + alpha_t*|v| + delta*v_i^2] and the off-diagonal entries
    [delta*v_i*v_j], where [delta = (alpha_l - alpha_t)/|v|] when [|v|]
    exceeds the zero threshold and [delta = 0] otherwise, and [theta] is the
    saturated moisture of the soil (saturated variant) or the saturation of
    the cell (general variant); when [|v| = 0] (threshold not negative) the
    diagonal is exactly [wmd*theta] and the off-diagonal entries are 0. *)
Theorem diffusion_tensor_formula (g : cs_glob_t R)
    (tracer : cs_gwf_tracer_t R) (t_eval : R) (dfield dvf : cs_field_t R)
    (tc : cs_gwf_tracer_context_t R) :
  diffusivity tracer = Some dfield →
  context tracer = Some tc →
  darcy_velocity_field tc = Some dvf →
  diff_wf g tc (val dvf) (val dfield) →
  (∃ values',
     _update_sat_diff_pty g tracer t_eval
     = Done (set_diffusivity_val tracer values') ∧
     ∀ s c soil w a_t a_l,
       soil_cell g s c → (∀ s', soil_cell g s' c → s' = s) →
       soils g !! s = Some soil → wmd tc !! s = Some w →
       alpha_t tc !! s = Some a_t → alpha_l tc !! s = Some a_l →
       let v := cell_velocity (val dvf) c in
       let theta := saturated_moisture soil in
       cell_entries values' c
         (dispersion_tensor w theta a_l a_t (cs_math_zero_threshold g) v) ∧
       ((0 <= cs_math_zero_threshold g)%R → vnorm_of v = 0%R →
        cell_entries values' c
          (fun i j => if decide (i = j) then (w * theta)%R else 0%R))) ∧
  (∀ theta_arr, l_saturation tc = Some theta_arr →
     (∀ s c, soil_cell g s c → c < length theta_arr) →
     ∃ values',
       _update_diff_pty g tracer t_eval
       = Done (set_diffusivity_val tracer values') ∧
       ∀ s c w a_t a_l,
         soil_cell g s c → (∀ s', soil_cell g s' c → s' = s) →
         wmd tc !! s = Some w →
         alpha_t tc !! s = Some a_t → alpha_l tc !! s = Some a_l →
         let v := cell_velocity (val dvf) c in
         let theta := theta_arr !!! c in
         cell_entries values' c
           (dispersion_tensor w theta a_l a_t (cs_math_zero_threshold g) v) ∧
         ((0 <= cs_math_zero_threshold g)%R → vnorm_of v = 0%R →
          cell_entries values' c
            (fun i j => if decide (i = j) then (w * theta)%R else 0%R))).
Proof.
  intros Hd Hc Hv Hwf. split.
  - destruct (sat_diff_updater g tracer t_eval dfield dvf tc Hd Hc Hv Hwf)
      as (values' & Hrun & _ & HQ).
    exists values'. split; [done |].
    intros s c soil w a_t a_l Hsc Huniq Hsoil Hw Hat Hal v theta.
    assert (Hent : cell_entries values' c
              (dispersion_tensor w theta a_l a_t (cs_math_zero_threshold g) v)).
    { apply (HQ c (fun vals => cell_entries vals c _)); [by exists s | |].
      - intros vals vals' Hsame Hvals ki kj Hki Hkj.
        rewrite Hsame by lia. by apply Hvals.
      - intros s' soil' w' a_t' a_l' vals Hsc' Hsoil' Hw' Hat' Hal' Hvals.
        rewrite (Huniq s' Hsc') in *.
        assert (soil' = soil) as -> by congruence.
        assert (w' = w) as -> by congruence.
        assert (a_t' = a_t) as -> by congruence.
        assert (a_l' = a_l) as -> by congruence.
        intros ki kj Hki Hkj. rewrite (Hvals ki kj Hki Hkj).
        by rewrite cell_tensor_dispersion. }
    split; [done |]. intros Hthr Hnv ki kj Hki Hkj.
    rewrite (Hent ki kj Hki Hkj).
    by rewrite dispersion_tensor_zero_velocity.
  - intros theta_arr Hth Htheta.
    destruct (diff_updater g tracer t_eval dfield dvf tc theta_arr Hd Hc Hv
                Hth Hwf Htheta) as (values' & Hrun & _ & HQ).
    exists values'. split; [done |].
    intros s c w a_t a_l Hsc Huniq Hw Hat Hal v theta.
    assert (Hent : cell_entries values' c
              (dispersion_tensor w theta a_l a_t (cs_math_zero_threshold g) v)).
    { apply (HQ c (fun vals => cell_entries vals c _)); [by exists s | |].
      - intros vals vals' Hsame Hvals ki kj Hki Hkj.
        rewrite Hsame by lia. by apply Hvals.
      - intros s' w' a_t' a_l' vals Hsc' Hw' Hat' Hal' Hvals.
        rewrite (Huniq s' Hsc') in *.
        assert (w' = w) as -> by congruence.
        assert (a_t' = a_t) as -> by congruence.
        assert (a_l' = a_l) as -> by congruence.
        intros ki kj Hki Hkj. rewrite (Hvals ki kj Hki Hkj).
        by rewrite cell_tensor_dispersion. }
    split; [done |]. intros Hthr Hnv ki kj Hki Hkj.
    rewrite (Hent ki kj Hki Hkj).
    by rewrite dispersion_tensor_zero_velocity.
Qed.

(** * Precipitation / dissolution update *)

Section Precipitation_shape.

Context {real : Type} {ops : cs_real_ops real}.

Lemma _update_precipitation_vb_as_soil_cells_loop (g : cs_glob_t real)
    (tracer : cs_gwf_tracer_t real) (t_eval : real)
    (connect : cs_cdo_connect_t real) (quant : cs_cdo_quantities_t real) :
  _update_precipitation_vb g tracer t_eval connect quant =
  (tc ← deref (context tracer);
   conc_satura ← deref (conc_satura tc);
   c_p ← deref (conc_precip tc);
   let c_w := vertex_values (tr_eq tracer) in
   c_w_save ← (if decide (n_vertices quant ≤ length c_w)
               then Done (take (n_vertices quant) c_w) else Undef);
   st ← soil_cells_loop (cs_gwf_get_n_soils g) (precip_prelude g tc)
          (cell_slots_loop (precip_cellpre (c2v connect) (l_saturation tc))
             (precip_slot (c2v connect) conc_satura c_w_save))
          (c_w, c_p);
   let '(c_w, c_p) := st in
   c_w ← match interfaces_VTX_SCAL connect with
         | Some itf => cs_interface_set_max itf c_w
         | None => Done c_w
         end;
   pfield ← deref (precip_field tc);
   field_val ← precip_field_update (c2v connect) quant c_p (val pfield);
   mret (set_context (set_vertex_values tracer c_w)
           (set_precip tc (Some c_p) (Some conc_satura)
              (Some {| val := field_val |})))).
Proof.
  unfold _update_precipitation_vb.
  destruct (deref (context tracer)) as [tc| |]; simpl; [| done..].
  destruct (deref (conc_satura tc)) as [c_sat| |]; simpl; [| done..].
  destruct (deref (conc_precip tc)) as [c_p| |]; simpl; [| done..].
  case_decide; simpl; [| done].
  assert (Hloop : ∀ st,
    for_range 0 (cs_gwf_get_n_soils g) (fun soil_id st =>
      soil ← cs_gwf_soil_by_id g soil_id;
      z ← cs_volume_zone_by_id g (zone_id soil);
      rho ← rd (rho_bulk tc) (id_of_soil soil);
      for_range 0 (n_elts z) (fun i st =>
        c_id ← zone_elt z i;
        theta_c ← rdp (l_saturation tc) c_id;
        lo ← rd (idx (c2v connect)) c_id;
        hi ← rd (idx (c2v connect)) (c_id + 1);
        for_range lo hi
          (precip_slot (c2v connect) c_sat
             (take (n_vertices quant) (vertex_values (tr_eq tracer)))
             rho theta_c) st) st) st
    = soil_cells_loop (cs_gwf_get_n_soils g) (precip_prelude g tc)
        (cell_slots_loop (precip_cellpre (c2v connect) (l_saturation tc))
           (precip_slot (c2v connect) c_sat
              (take (n_vertices quant) (vertex_values (tr_eq tracer))))) st).
  { intros st. unfold soil_cells_loop. apply for_range_ext. intros s st1.
    unfold precip_prelude. head_reads. simpl. apply for_range_ext.
    intros i st2. unfold cell_slots_loop, precip_cellpre.
    destruct (zone_elt a0 i); simpl; [| done..].
    head_reads. reflexivity. }
  rewrite <- Hloop. reflexivity.
Qed.

Lemma precip_slot_run (c2v : cs_adjacency_t)
    (conc_satura c_w_save c_w c_p : list real) (rho theta_c : real)
    (j v : nat) (c_sat cws cpj cwv : real) :
  ids c2v !! j = Some v →
  conc_satura !! v = Some c_sat →
  c_w_save !! v = Some cws →
  c_p !! j = Some cpj →
  c_w !! v = Some cwv →
  precip_slot c2v conc_satura c_w_save rho theta_c j (c_w, c_p)
  = Done (<[v := slot_c_w rho theta_c c_sat cws cpj cwv]> c_w,
          <[j := slot_c_p rho theta_c c_sat cws cpj]> c_p).
Proof.
  intros Hv Hsat Hsave Hp Hw.
  pose proof (lookup_lt_Some _ _ _ Hp) as Hjlt.
  pose proof (lookup_lt_Some _ _ _ Hw) as Hvlt.
  unfold precip_slot, slot_c_w, slot_c_p, slot_dissolves, slot_c_w_max.
  rewrite (rd_lookup _ _ _ Hv). simpl.
  rewrite (rd_lookup _ _ _ Hsat). simpl.
  rewrite (rd_lookup _ _ _ Hsave). simpl.
  rewrite (rd_lookup _ _ _ Hp).
  destruct (cws <=? c_sat)%cs; simpl.
  - destruct (cpj >? real_0)%cs; simpl.
    + rewrite wr_lt by done. simpl. rewrite (rd_lookup _ _ _ Hw). simpl.
      by rewrite wr_lt by done.
    + destruct (cws >? c_sat)%cs; simpl.
      * rewrite wr_lt by done. simpl. by rewrite wr_lt by done.
      * by rewrite !list_insert_id.
  - destruct (cws >? c_sat)%cs; simpl.
    + rewrite wr_lt by done. simpl. by rewrite wr_lt by done.
    + by rewrite !list_insert_id.
Qed.

End Precipitation_shape.

(** Invariant rules for the three nested loops (soils, cells, slots). *)
Section Slots_loop.

Context {St Par CPar : Type}.
Variables (n : nat) (prelude : nat → outcome (cs_zone_t * Par))
          (cellpre : Par → nat → outcome (CPar * (nat * nat)))
          (slot : Par → CPar → nat → St → outcome St).

Hypothesis Hpre : ∀ s, s < n →
  ∃ z p, prelude s = Done (z, p) ∧
    ∀ i, i < n_elts z →
      ∃ c x, zone_elt z i = Done c ∧ cellpre p c = Done x.

(** Every processing of a slot keeps [G]. *)
Lemma slots_loop_pres (G : St → Prop) (st : St) :
  (∀ s i j z p c cp lo hi st,
     s < n → prelude s = Done (z, p) → i < n_elts z →
     zone_elt z i = Done c → cellpre p c = Done (cp, (lo, hi)) →
     lo ≤ j < hi → G st →
     ∃ st', slot p cp j st = Done st' ∧ G st') →
  G st →
  ∃ st', soil_cells_loop n prelude (cell_slots_loop cellpre slot) st
         = Done st' ∧ G st'.
Proof.
  intros Hslot HG.
  apply (soil_cells_loop_inv (fun _ _ => G)); [done |].
  intros s Hs. destruct (Hpre s Hs) as (z & p & Hp & Hz).
  exists z, p. split; [done |]. split; [done |].
  intros i st1 Hi HG1. destruct (Hz i Hi) as (c & [cp [lo hi]] & Hc & Hx).
  destruct (for_range_pres G (slot p cp) lo hi st1) as (st2 & Hrun & HG2);
    [done | |].
  - intros j st2 Hj HG2. by apply (Hslot s i j z p c cp lo hi).
  - exists c, st2. unfold cell_slots_loop. rewrite Hx. by simpl.
Qed.

(** A slot visit ([s0], [i0], [j0]) takes [Pre] to [Post]; every other
    processing of a slot keeps [Pre] and keeps [Post]; all keep [G]. *)
Lemma slots_loop_target (G Pre Post : St → Prop) (s0 i0 j0 : nat)
    (z0 : cs_zone_t) (p0 : Par) (c0 : nat) (cp0 : CPar) (lo0 hi0 : nat)
    (st : St) :
  s0 < n → prelude s0 = Done (z0, p0) → i0 < n_elts z0 →
  zone_elt z0 i0 = Done c0 → cellpre p0 c0 = Done (cp0, (lo0, hi0)) →
  lo0 ≤ j0 < hi0 →
  (∀ s i j z p c cp lo hi st,
     s < n → prelude s = Done (z, p) → i < n_elts z →
     zone_elt z i = Done c → cellpre p c = Done (cp, (lo, hi)) →
     lo ≤ j < hi → ¬ (s = s0 ∧ i = i0 ∧ j = j0) → G st →
     ∃ st', slot p cp j st = Done st' ∧ G st' ∧
            (Pre st → Pre st') ∧ (Post st → Post st')) →
  (∀ st, G st → Pre st →
     ∃ st', slot p0 cp0 j0 st = Done st' ∧ G st' ∧ Post st') →
  G st → Pre st →
  ∃ st', soil_cells_loop n prelude (cell_slots_loop cellpre slot) st
         = Done st' ∧ G st' ∧ Post st'.
Proof.
  intros Hs0 Hp0 Hi0 Hc0 Hx0 Hj0 Hother Htarget HG HPre.
  set (Ph := fun (b : bool) st => if b then Pre st else Post st).
  destruct (soil_cells_loop_inv (fun s i st =>
      G st ∧ Ph (bool_decide (s < s0 ∨ (s = s0 ∧ i ≤ i0))) st)
      n prelude (cell_slots_loop cellpre slot) st)
    as (st' & Hrun & HG' & HPh).
  - split; [done |]. rewrite bool_decide_eq_true_2 by lia. done.
  - intros s Hs. destruct (Hpre s Hs) as (z & p & Hp & Hz).
    exists z, p. split; [done |]. split.
    + intros st1 [HG1 HPh1]. split; [done |].
      assert (s = s0 → n_elts z > i0).
      { intros ->. rewrite Hp in Hp0. injection Hp0 as <- <-. lia. }
      destruct (decide (s < s0)).
      * rewrite bool_decide_eq_true_2 by lia.
        by rewrite bool_decide_eq_true_2 in HPh1 by lia.
      * rewrite bool_decide_eq_false_2 by lia.
        by rewrite bool_decide_eq_false_2 in HPh1 by lia.
    + intros i st1 Hi [HG1 HPh1].
      destruct (Hz i Hi) as (c & [cp [lo hi]] & Hc & Hx).
      assert (Hcell : ∀ st2, for_range lo hi (slot p cp) st1 = Done st2 →
                cell_slots_loop cellpre slot p c st1 = Done st2).
      { intros st2 Hst2. unfold cell_slots_loop. rewrite Hx. by simpl. }
      destruct (decide (s = s0 ∧ i = i0)) as [[-> ->] | Hne].
      * (* the cell of the target *)
        rewrite Hp in Hp0. injection Hp0 as -> ->.
        rewrite Hc in Hc0. injection Hc0 as ->.
        rewrite Hx in Hx0. injection Hx0 as -> -> ->.
        rewrite bool_decide_eq_true_2 in HPh1 by lia.
        destruct (for_range_inv (fun j st =>
            G st ∧ Ph (bool_decide (j ≤ j0)) st) (slot p0 cp0) lo0 hi0 st1)
          as (st2 & Hrun & HG2 & HPh2); [lia | | |].
        -- split; [done |]. by rewrite bool_decide_eq_true_2 by lia.
        -- intros j st2 Hj [HG2 HPh2].
           destruct (decide (j = j0)) as [-> | Hnej].
           ++ rewrite bool_decide_eq_true_2 in HPh2 by lia.
              destruct (Htarget st2 HG2 HPh2) as (st3 & Hst3 & HG3 & HP3).
              exists st3. split; [done |]. split; [done |].
              by rewrite bool_decide_eq_false_2 by lia.
           ++ destruct (Hother s0 i0 j z0 p0 c0 cp0 lo0 hi0 st2)
                as (st3 & Hst3 & HG3 & HPre3 & HPost3);
                [done.. | lia | done |].
              exists st3. split; [done |]. split; [done |].
              destruct (decide (j < j0)).
              ** rewrite bool_decide_eq_true_2 by lia.
                 rewrite bool_decide_eq_true_2 in HPh2 by lia. by apply HPre3.
              ** rewrite bool_decide_eq_false_2 by lia.
                 rewrite bool_decide_eq_false_2 in HPh2 by lia.
                 by apply HPost3.
        -- exists c0, st2. split; [done |]. split; [by apply Hcell |].
           split; [done |].
           rewrite bool_decide_eq_false_2 in HPh2 by lia.
           by rewrite bool_decide_eq_false_2 by lia.
      * (* another cell *)
        set (b := bool_decide (s < s0 ∨ s = s0 ∧ i ≤ i0)) in *.
        assert (Hb : bool_decide (s < s0 ∨ s = s0 ∧ S i ≤ i0) = b).
        { apply bool_decide_ext. lia. }
        rewrite Hb.
        destruct (for_range_pres (fun st => G st ∧ Ph b st) (slot p cp)
                    lo hi st1) as (st2 & Hrun & HG2 & HPh2); [done | |].
        -- intros j st2 Hj [HG2 HPh2].
           destruct (Hother s i j z p c cp lo hi st2)
             as (st3 & Hst3 & HG3 & HPre3 & HPost3); [done.. | lia | done |].
           exists st3. split; [done |]. split; [done |].
           destruct b; [by apply HPre3 | by apply HPost3].
        -- exists c, st2. split; [done |]. split; [by apply Hcell | done].
  - exists st'. split; [done |]. split; [done |].
    by rewrite bool_decide_eq_false_2 in HPh by lia.
Qed.


End Slots_loop.

Section Precipitation_run.

Context {real : Type} {ops : cs_real_ops real}.

Lemma cs_interface_set_max_inv (P : list real → Prop)
    (itf : cs_interface_set_t real) (var : list real) :
  (∀ k p, itf !! k = Some p → p.1 < length var) →
  P var →
  (∀ k p var1 x, itf !! k = Some p → length var1 = length var →
                 var1 !! p.1 = Some x → P var1 →
                 P (<[p.1 := CS_MAX x p.2]> var1)) →
  ∃ var', cs_interface_set_max itf var = Done var' ∧
          length var' = length var ∧ P var'.
Proof.
  intros Hitf HP Hstep. unfold cs_interface_set_max.
  apply (for_range_pres (fun v => length v = length var ∧ P v)); [done |].
  intros k var1 [_ Hk] [Hlen HP1].
  destruct (rd_lt itf k Hk) as (p & Hp & ->). simpl.
  destruct (rd_lt var1 p.1) as (x & Hx & ->);
    [rewrite Hlen; by eapply Hitf |]. simpl.
  rewrite wr_lt by (rewrite Hlen; by eapply Hitf).
  eexists. split; [done |]. split; [by rewrite length_insert |].
  by eapply Hstep.
Qed.

Lemma precip_field_update_run (c2v : cs_adjacency_t)
    (quant : cs_cdo_quantities_t real) (c_p field_val : list real) :
  (∀ c, c < n_cells quant →
      c < length field_val ∧ c < length (cell_vol quant) ∧
      c + 1 < length (idx c2v) ∧
      ∀ j, cell_slot c2v c j →
           j < length c_p ∧ j < length (dcell_vol quant)) →
  ∃ field_val', precip_field_update c2v quant c_p field_val = Done field_val'.
Proof.
  intros Hwf. unfold precip_field_update.
  destruct (for_range_pres (fun fv => length fv = length field_val)
              (fun c_id field_val =>
                 field_val ← wr field_val c_id real_0;
                 lo ← rd (idx c2v) c_id;
                 hi ← rd (idx c2v) (c_id + 1);
                 field_val ← for_range lo hi (fun j field_val =>
                   x ← rd field_val c_id;
                   dv ← rd (dcell_vol quant) j;
                   cpj ← rd c_p j;
                   wr field_val c_id (x + dv * cpj)%cs) field_val;
                 x ← rd field_val c_id;
                 cv ← rd (cell_vol quant) c_id;
                 wr field_val c_id (x / cv)%cs)
              0 (n_cells quant) field_val) as (fv' & Hrun & _);
    [done | | by exists fv'].
  intros c fv [_ Hc] Hlen. destruct (Hwf c Hc) as (Hfv & Hcv & Hidx & Hslots).
  rewrite wr_lt by lia. simpl.
  destruct (rd_lt (idx c2v) c) as (lo & Hlo & ->); [lia |]. simpl.
  destruct (rd_lt (idx c2v) (c + 1)) as (hi & Hhi & ->); [lia |]. simpl.
  destruct (for_range_pres (fun fv1 => length fv1 = length field_val)
              (fun j field_val =>
                 x ← rd field_val c;
                 dv ← rd (dcell_vol quant) j;
                 cpj ← rd c_p j;
                 wr field_val c (x + dv * cpj)%cs)
              lo hi (<[c:=real_0]> fv)) as (fv1 & -> & Hlen1).
  - by rewrite length_insert.
  - intros j fv1 Hj Hlen1.
    destruct (Hslots j) as [Hjp Hjd]; [by exists lo, hi |].
    destruct (rd_lt fv1 c) as (x & _ & ->); [lia |]. simpl.
    destruct (rd_lt (dcell_vol quant) j) as (dv & _ & ->); [lia |]. simpl.
    destruct (rd_lt c_p j) as (cpj & _ & ->); [lia |]. simpl.
    rewrite wr_lt by lia. eexists. split; [done |].
    by rewrite length_insert.
  - simpl. destruct (rd_lt fv1 c) as (x & _ & ->); [lia |]. simpl.
    destruct (rd_lt (cell_vol quant) c) as (cv & _ & ->); [lia |]. simpl.
    rewrite wr_lt by lia. eexists. split; [done |].
    by rewrite length_insert.
Qed.

Lemma precip_prelude_Done (g : cs_glob_t real)
    (tc : cs_gwf_tracer_context_t real) (s : nat) (z : cs_zone_t)
    (rho : real) :
  precip_prelude g tc s = Done (z, rho) ↔
  ∃ soil, soils g !! s = Some soil ∧ zones g !! zone_id soil = Some z ∧
          rho_bulk tc !! id_of_soil soil = Some rho.
Proof.
  unfold precip_prelude, cs_gwf_soil_by_id, cs_volume_zone_by_id. split.
  - intros H.
    apply bind_Done in H as (soil & Hs%rd_Done & H).
    apply bind_Done in H as (z' & Hz%rd_Done & H).
    apply bind_Done in H as (r & Hr%rd_Done & H).
    injection H as <- <-. by exists soil.
  - intros (soil & Hs & Hz & Hr).
    rewrite (rd_lookup _ _ _ Hs). simpl.
    rewrite (rd_lookup _ _ _ Hz). simpl.
    by rewrite (rd_lookup _ _ _ Hr).
Qed.

Lemma precip_cellpre_Done (c2v : cs_adjacency_t) (theta : list real)
    (rho : real) (c : nat) (theta_c : real) (lo hi : nat) :
  precip_cellpre c2v (Some theta) rho c = Done (theta_c, (lo, hi)) ↔
  theta !! c = Some theta_c ∧ idx c2v !! c = Some lo ∧
  idx c2v !! (c + 1) = Some hi.
Proof.
  unfold precip_cellpre, rdp. simpl. split.
  - intros H.
    apply bind_Done in H as (t & Ht%rd_Done & H).
    apply bind_Done in H as (l & Hl%rd_Done & H).
    apply bind_Done in H as (h & Hh%rd_Done & H).
    by injection H as <- <- <-.
  - intros (Ht & Hl & Hh).
    rewrite (rd_lookup _ _ _ Ht). simpl.
    rewrite (rd_lookup _ _ _ Hl). simpl.
    by rewrite (rd_lookup _ _ _ Hh).
Qed.

Section With_wf.

Variables (g : cs_glob_t real) (tracer : cs_gwf_tracer_t real)
          (connect : cs_cdo_connect_t real)
          (quant : cs_cdo_quantities_t real)
          (tc : cs_gwf_tracer_context_t real)
          (c_sat c_p0 theta field_val : list real).

Hypothesis Hwf : precip_wf g tracer connect quant tc c_sat c_p0 theta
                   field_val.

#[local] Abbreviation c_w0 := (vertex_values (tr_eq tracer)).
#[local] Abbreviation c_w_save := (take (n_vertices quant) c_w0).

(** Lengths of the two arrays of the state. *)
#[local] Abbreviation sized st :=
  (length (fst st) = length c_w0 ∧ length (snd st) = length c_p0).

Lemma precip_Hpre : ∀ s, s < cs_gwf_get_n_soils g →
  ∃ z p, precip_prelude g tc s = Done (z, p) ∧
    ∀ i, i < n_elts z →
      ∃ c x, zone_elt z i = Done c ∧
             precip_cellpre (c2v connect) (Some theta) p c = Done x.
Proof.
  intros s Hs. unfold cs_gwf_get_n_soils in Hs.
  destruct (lookup_lt_is_Some_2 (soils g) s Hs) as [soil Hsoil].
  destruct (wf_soils _ _ _ _ _ _ _ _ _ Hwf s soil Hsoil) as (z & Hz & Hl).
  destruct (lookup_lt_is_Some_2 (rho_bulk tc) (id_of_soil soil))
    as [rho Hrho]; [by eapply wf_rho |].
  exists z, rho. split; [apply precip_prelude_Done; by exists soil |].
  intros i Hi. destruct (zone_elt_defined z i Hl Hi) as [c Hc].
  destruct (wf_cells _ _ _ _ _ _ _ _ _ Hwf s c) as (Hth & Hidx & _);
    [by exists i, soil, z |].
  destruct (lookup_lt_is_Some_2 theta c Hth) as [theta_c Htc].
  destruct (lookup_lt_is_Some_2 (idx (c2v connect)) c) as [lo Hlo]; [lia |].
  destruct (lookup_lt_is_Some_2 (idx (c2v connect)) (c + 1) Hidx)
    as [hi Hhi].
  exists c, (theta_c, (lo, hi)). split; [done |].
  by apply precip_cellpre_Done.
Qed.

(** Processing of a slot met by the loops, on a state of the right size. *)
Lemma precip_slot_visit (s i j : nat) (z : cs_zone_t) (rho theta_c : real)
    (c lo hi : nat) (c_w c_p : list real) :
  precip_prelude g tc s = Done (z, rho) → i < n_elts z →
  zone_elt z i = Done c →
  precip_cellpre (c2v connect) (Some theta) rho c = Done (theta_c, (lo, hi)) →
  lo ≤ j < hi → sized (c_w, c_p) →
  ∃ v sat cws cpj cwv,
    v < n_vertices quant ∧
    ids (c2v connect) !! j = Some v ∧ c_sat !! v = Some sat ∧
    c_w0 !! v = Some cws ∧ c_p !! j = Some cpj ∧ c_w !! v = Some cwv ∧
    soil_cell_at g s i c ∧ cell_slot (c2v connect) c j ∧
    theta !! c = Some theta_c ∧
    precip_slot (c2v connect) c_sat c_w_save rho theta_c j (c_w, c_p)
    = Done (<[v := slot_c_w rho theta_c sat cws cpj cwv]> c_w,
            <[j := slot_c_p rho theta_c sat cws cpj]> c_p).
Proof.
  intros Hp Hi Hc Hx Hj [Hlw Hlp]. simpl in Hlw, Hlp.
  apply precip_prelude_Done in Hp as (soil & Hsoil & Hz & Hrho).
  apply precip_cellpre_Done in Hx as (Htc & Hlo & Hhi).
  assert (Hsc : soil_cell_at g s i c) by by exists soil, z.
  assert (Hslot : cell_slot (c2v connect) c j) by by exists lo, hi.
  destruct (wf_cells _ _ _ _ _ _ _ _ _ Hwf s c) as (_ & _ & Hslots);
    [by exists i |].
  destruct (Hslots j Hslot) as (Hjp & v & Hv & Hvn).
  pose proof (wf_c_w _ _ _ _ _ _ _ _ _ Hwf) as Hnw.
  pose proof (wf_c_sat _ _ _ _ _ _ _ _ _ Hwf) as Hns.
  destruct (lookup_lt_is_Some_2 c_sat v) as [sat Hsat]; [lia |].
  destruct (lookup_lt_is_Some_2 c_w0 v) as [cws Hcws]; [lia |].
  destruct (lookup_lt_is_Some_2 c_p j) as [cpj Hcpj]; [lia |].
  destruct (lookup_lt_is_Some_2 c_w v) as [cwv Hcwv]; [lia |].
  exists v, sat, cws, cpj, cwv. repeat (split; [done |]).
  apply precip_slot_run; try done.
  by rewrite lookup_take_lt.
Qed.


(** From the state left by the loops to the result of the function. *)
Lemma precip_finish (t_eval : real) (c_w1 c_p1 : list real) :
  soil_cells_loop (cs_gwf_get_n_soils g) (precip_prelude g tc)
    (cell_slots_loop (precip_cellpre (c2v connect) (Some theta))
       (precip_slot (c2v connect) c_sat c_w_save)) (c_w0, c_p0)
  = Done (c_w1, c_p1) →
  sized (c_w1, c_p1) →
  ∃ c_w' field_val',
    _update_precipitation_vb g tracer t_eval connect quant
    = Done (set_context (set_vertex_values tracer c_w')
              (set_precip tc (Some c_p1) (Some c_sat)
                 (Some {| val := field_val' |}))) ∧
    length c_w' = length c_w0 ∧
    ∀ P : list real → Prop,
      P c_w1 →
      (∀ itf k p var x,
         interfaces_VTX_SCAL connect = Some itf → itf !! k = Some p →
         length var = length c_w0 → var !! p.1 = Some x → P var →
         P (<[p.1 := CS_MAX x p.2]> var)) →
      P c_w'.
Proof.
  intros Hloop [Hlw Hlp]. simpl in Hlw, Hlp.
  pose proof (wf_c_w _ _ _ _ _ _ _ _ _ Hwf) as Hnw.
  rewrite _update_precipitation_vb_as_soil_cells_loop.
  rewrite (wf_context _ _ _ _ _ _ _ _ _ Hwf). simpl.
  rewrite (wf_satura _ _ _ _ _ _ _ _ _ Hwf). simpl.
  rewrite (wf_precip _ _ _ _ _ _ _ _ _ Hwf). simpl.
  rewrite decide_True by done. simpl.
  rewrite (wf_theta _ _ _ _ _ _ _ _ _ Hwf).
  rewrite Hloop. simpl.
  rewrite (wf_field _ _ _ _ _ _ _ _ _ Hwf). simpl.
  destruct (precip_field_update_run (c2v connect) quant c_p1 field_val)
    as [fv' Hfv].
  { intros c Hc.
    destruct (wf_step3 _ _ _ _ _ _ _ _ _ Hwf c Hc) as (? & ? & ? & Hs).
    repeat (split; [done |]). intros j Hj. rewrite Hlp. by apply Hs. }
  destruct (interfaces_VTX_SCAL connect) as [itf|] eqn:Hitf.
  - assert (Hin : ∀ k p, itf !! k = Some p → p.1 < length c_w1).
    { intros k p Hp. rewrite Hlw.
      pose proof (wf_itf _ _ _ _ _ _ _ _ _ Hwf itf k p Hitf Hp).
      lia. }
    destruct (cs_interface_set_max_inv (fun _ => True) itf c_w1)
      as (c_w' & Hsync & Hlen' & _); [done.. |].
    exists c_w', fv'. rewrite Hsync. simpl. rewrite Hfv. simpl.
    split; [done |]. split; [lia |]. intros P HP Hstep.
    destruct (cs_interface_set_max_inv P itf c_w1)
      as (c_w'' & Hsync' & _ & HP'); [done.. | |].
    + intros k p var x Hp Hlv Hx HPv.
      apply (Hstep itf k); [done.. | lia | done | done].
    + rewrite Hsync in Hsync'. by injection Hsync' as ->.
  - exists c_w1, fv'. simpl. rewrite Hfv. simpl.
    split; [done |]. split; [done |]. by intros P HP _.
Qed.

End With_wf.

End Precipitation_run.

(** ** The slot transition over the real numbers *)

Lemma slot_c_w_max_bounds (rho theta sat cws cpj : R) :
  (0 < rho)%R → (0 < theta)%R →
  (slot_c_w_max rho theta sat cws cpj <= sat)%R ∧
  (slot_c_w_max rho theta sat cws cpj <= cws + rho * (1 / theta) * cpj)%R ∧
  ((cws <= sat)%R → (0 <= cpj)%R →
   (cws <= slot_c_w_max rho theta sat cws cpj)%R).
Proof.
  intros Hrho Hth. unfold slot_c_w_max. r_ops.
  assert (0 < rho * (1 / theta))%R.
  { apply Rmult_lt_0_compat; [done |]. apply Rdiv_lt_0_compat; lra. }
  destruct (Rlt_dec _ _); repeat split; try lra; intros; nra.
Qed.

Lemma slot_c_p_nonneg (rho theta sat cws cpj : R) :
  (0 < rho)%R → (0 < theta)%R → (0 <= cpj)%R →
  (0 <= slot_c_p rho theta sat cws cpj)%R.
Proof.
  intros Hrho Hth Hcpj.
  destruct (slot_c_w_max_bounds rho theta sat cws cpj Hrho Hth)
    as (_ & Hle & _).
  unfold slot_c_p, slot_dissolves. r_ops.
  set (m := slot_c_w_max rho theta sat cws cpj) in *.
  assert (Hk : (0 < theta * (1 / rho))%R).
  { apply Rmult_lt_0_compat; [done |]. apply Rdiv_lt_0_compat; lra. }
  assert (Hid : (theta * (1 / rho) * (rho * (1 / theta) * cpj) = cpj)%R)
    by (field; lra).
  destruct (Rle_dec cws sat); destruct (Rlt_dec 0 cpj); simpl;
    try destruct (Rlt_dec sat cws); try lra.
  - assert (theta * (1 / rho) * (m - cws)
            <= theta * (1 / rho) * (rho * (1 / theta) * cpj))%R
      by (apply Rmult_le_compat_l; lra).
    lra.
  - assert (0 <= theta * (1 / rho) * (cws - sat))%R
      by (apply Rmult_le_pos; lra).
    lra.
  - assert (0 <= theta * (1 / rho) * (cws - sat))%R
      by (apply Rmult_le_pos; lra).
    lra.
Qed.



Lemma slot_idle (rho theta sat cws cpj cwv : R) :
  (cws <= sat)%R → (cpj <= 0)%R →
  slot_c_p rho theta sat cws cpj = cpj ∧
  slot_c_w rho theta sat cws cpj cwv = cwv.
Proof.
  intros Hle Hcpj. unfold slot_c_p, slot_c_w, slot_dissolves. r_ops.
  destruct (Rle_dec cws sat); [| lra]. destruct (Rlt_dec 0 cpj); [lra |].
  simpl. destruct (Rlt_dec sat cws); [lra | done].
Qed.




(** ** Properties of [_update_precipitation_vb] *)

(** C6, amended: in exact real arithmetic (no rounding), when
    [conc_precip] is non-negative before the run and the bulk density of
    every soil and the saturation of every cell of a soil are positive,
    [_update_precipitation_vb] completes and [conc_precip] is non-negative
    in every (cell, local vertex) slot after the run. *)
Theorem _update_precipitation_vb_precip_nonneg (g : cs_glob_t R)
    (tracer : cs_gwf_tracer_t R) (t_eval : R) (connect : cs_cdo_connect_t R)
    (quant : cs_cdo_quantities_t R) (tc : cs_gwf_tracer_context_t R)
    (c_sat c_p theta field_val : list R) :
  precip_wf g tracer connect quant tc c_sat c_p theta field_val →
  (∀ j x, c_p !! j = Some x → (0 <= x)%R) →
  (∀ s soil rho, soils g !! s = Some soil →
                 rho_bulk tc !! id_of_soil soil = Some rho → (0 < rho)%R) →
  (∀ s c theta_c, soil_cell g s c → theta !! c = Some theta_c →
                  (0 < theta_c)%R) →
  ∃ c_w' c_p' field_val',
    _update_precipitation_vb g tracer t_eval connect quant
    = Done (set_context (set_vertex_values tracer c_w')
              (set_precip tc (Some c_p') (Some c_sat)
                 (Some {| val := field_val' |}))) ∧
    length c_p' = length c_p ∧
    ∀ j x, c_p' !! j = Some x → (0 <= x)%R.
Proof.
  intros Hwf Hpos Hrho Htheta.
  destruct (slots_loop_pres (cs_gwf_get_n_soils g) (precip_prelude g tc)
              (precip_cellpre (c2v connect) (Some theta))
              (precip_slot (c2v connect) c_sat
                 (take (n_vertices quant) (vertex_values (tr_eq tracer))))
              (precip_Hpre _ _ _ _ _ _ _ _ _ Hwf)
              (fun st => (length st.1 = length (vertex_values (tr_eq tracer))
                          ∧ length st.2 = length c_p) ∧
                         ∀ j x, st.2 !! j = Some x → (0 <= x)%R)
              (vertex_values (tr_eq tracer), c_p))
    as ([c_w1 c_p1] & Hloop & Hsized & Hnn).
  - intros s i j z rho c theta_c lo hi [c_w2 c_p2] Hs Hp Hi Hc Hx Hj
      [Hsz Hnn].
    destruct (precip_slot_visit _ _ _ _ _ _ _ _ _ Hwf s i j z rho theta_c
                c lo hi c_w2 c_p2 Hp Hi Hc Hx Hj Hsz)
      as (v & sat & cws & cpj & cwv & Hvn & Hv & Hsat & Hcws & Hcpj & Hcwv
          & Hsc & Hslot & Hth & ->).
    eexists. split; [done |]. simpl. split.
    + simpl in Hsz. by rewrite !length_insert.
    + intros j' x Hx'.
      destruct (decide (j' = j)) as [-> | Hne].
      * rewrite list_lookup_insert_eq in Hx' by by eapply lookup_lt_Some.
        injection Hx' as <-.
        apply precip_prelude_Done in Hp as (soil & Hsoil & _ & Hr).
        apply slot_c_p_nonneg.
        -- by eapply Hrho.
        -- eapply Htheta; [by exists i | done].
        -- by eapply Hnn.
      * rewrite list_lookup_insert_ne in Hx' by done. by eapply Hnn.
  - done.
  - destruct (precip_finish _ _ _ _ _ _ _ _ _ Hwf t_eval c_w1 c_p1 Hloop
                Hsized) as (c_w' & fv' & Hrun & _).
    exists c_w', c_p1, fv'. split; [done |]. split; [apply Hsized | done].
Qed.










(** * The example mesh *)

Lemma Ex_soil_cell_at (s i c : nat) :
  soil_cell_at Ex.glob s i c ↔ s = 0 ∧ i = c ∧ c < 2.
Proof.
  split.
  - intros (soil & z & Hs & Hz & Hi & Hc).
    destruct s; [| done]. injection Hs as <-. injection Hz as <-.
    simpl in Hi. injection Hc as <-. done.
  - intros (-> & -> & Hc). by exists Ex.soil, Ex.zone.
Qed.

Lemma Ex_cell_slot (c j : nat) :
  c < 2 → cell_slot Ex.adjacency c j ↔ 4 * c ≤ j < 4 * c + 4.
Proof.
  intros Hc. unfold cell_slot. destruct c as [|[|c]]; [| | lia]; simpl.
  - split; [intros (lo & hi & [= <-] & [= <-] & ?); lia |].
    intros Hj. by exists 0, 4.
  - split; [intros (lo & hi & [= <-] & [= <-] & ?); lia |].
    intros Hj. by exists 4, 8.
Qed.

Lemma Ex_soils_wf : soils_wf Ex.glob.
Proof.
  intros s soil Hs. destruct s; [| done]. injection Hs as <-.
  exists Ex.zone. split; [done |]. by intros l [=].
Qed.

Lemma Ex_precip_wf (c_w c_sat c_p : list R) :
  length c_w = 5 → length c_sat = 5 → length c_p = 8 →
  precip_wf Ex.glob (Ex.tracer c_w c_sat c_p) Ex.connect Ex.quant
    (Ex.tcontext c_sat c_p) c_sat c_p [1; 1]%R [0; 0]%R.
Proof.
  intros Hw Hs Hp. split; try done.
  - apply Ex_soils_wf.
  - intros s soil Hsoil. destruct s; [| done]. injection Hsoil as <-.
    simpl. lia.
  - simpl. lia.
  - simpl. lia.
  - intros s c [i (-> & -> & Hc)%Ex_soil_cell_at]. simpl.
    split; [lia |]. split; [lia |].
    intros j Hj%Ex_cell_slot; [| done]. split; [lia |].
    do 8 (destruct j as [|j]; [simpl; eexists; split; [done | lia] |]).
    lia.
  - intros c Hc. simpl in *. split; [lia |]. split; [lia |]. split; [lia |].
    intros j Hj%Ex_cell_slot; [| done]. lia.
Qed.

(** Resolves the comparisons of real numbers met while running the code on
    a concrete input, innermost first. *)
Ltac r_decide :=
  repeat match goal with
         | |- context [Rlt_dec ?a ?b] =>
             lazymatch a with
             | context [Rlt_dec _ _] => fail
             | context [Rle_dec _ _] => fail
             | _ => idtac
             end;
             lazymatch b with
             | context [Rlt_dec _ _] => fail
             | context [Rle_dec _ _] => fail
             | _ => idtac
             end;
             destruct (Rlt_dec a b); [try (exfalso; lra) | try (exfalso; lra)]
         | |- context [Rle_dec ?a ?b] =>
             lazymatch a with
             | context [Rlt_dec _ _] => fail
             | context [Rle_dec _ _] => fail
             | _ => idtac
             end;
             lazymatch b with
             | context [Rlt_dec _ _] => fail
             | context [Rle_dec _ _] => fail
             | _ => idtac
             end;
             destruct (Rle_dec a b); [try (exfalso; lra) | try (exfalso; lra)]
         end.

Ltac r_run := repeat (r_ops; simpl; r_decide).



Lemma _update_precipitation_vb_precip_nonneg_witness :
  ∃ c_w' c_p' field_val',
    _update_precipitation_vb Ex.glob
      (Ex.tracer Ex.no_solute Ex.sat Ex.two_slots) 0%R
      Ex.connect Ex.quant
    = Done (set_context
              (set_vertex_values
                 (Ex.tracer Ex.no_solute Ex.sat Ex.two_slots) c_w')
              (set_precip (Ex.tcontext Ex.sat Ex.two_slots)
                 (Some c_p') (Some Ex.sat)
                 (Some {| val := field_val' |}))) ∧
    length c_p' = 8 ∧
    ∀ j x, c_p' !! j = Some x → (0 <= x)%R.
Proof.
  apply (_update_precipitation_vb_precip_nonneg Ex.glob
           (Ex.tracer Ex.no_solute Ex.sat Ex.two_slots) 0%R
           Ex.connect Ex.quant (Ex.tcontext Ex.sat Ex.two_slots)
           Ex.sat Ex.two_slots [1; 1]%R [0; 0]%R).
  - by apply Ex_precip_wf.
  - intros j x Hx.
    do 8 (destruct j as [|j]; [injection Hx as <-; lra |]). discriminate.
  - intros s soil rho Hs Hr. destruct s; [| discriminate].
    injection Hs as <-. simpl in Hr. injection Hr as <-. lra.
  - intros s c theta_c _ Hc. destruct c as [|[|c]]; simpl in Hc;
      [injection Hc as <-; lra.. | discriminate].
Defined.




(** C6, counterexample: in double precision, on the example mesh with the
    bulk density 1 and the saturation 1, the precipitate being
    non-negative before the run, the vertex 1 holds the solute 0.1 below
    its saturated concentration 10 and its slot 1 holds the precipitate 0.3
    (the doubles nearest to 0.1 and 0.3).  The target [0.1 + 0.3] is
    rounded to the double nearest to 0.4, and the amount given up,
    [1 * (1/1) * (0.4 - 0.1)], is rounded to the double next above the one
    held by the slot: after the run the slot holds [-2^-54], a negative
    number, and the precipitate field of the cell 0 is negative too. *)
Lemma _update_precipitation_vb_precip_nonneg_counterexample :
  Forall (fun x => (0 <=? x)%float = true) FEx.precip ∧
  Forall (fun x => (0 <? x)%float = true) (rho_bulk FEx.tcontext) ∧
  l_saturation FEx.tcontext = Some [1; 1]%float ∧
  _update_precipitation_vb FEx.glob FEx.tracer 0%float FEx.connect FEx.quant
  = Done (set_context
            (set_vertex_values FEx.tracer
               [0; 0x1.999999999999ap-2; 0; 0; 0]%float)
            (set_precip FEx.tcontext
               (Some [0; -0x1p-54; 0; 0; 0; 0; 0; 0]%float)
               (Some FEx.sat)
               (Some {| val := [-0x1p-56; 0]%float |}))) ∧
  (-0x1p-54 <? 0)%float = true.
Proof.
  split; [repeat constructor |].
  split; [repeat constructor |].
  split; [reflexivity |].
  split; [vm_compute; reflexivity | reflexivity].
Qed.

(** * Fatal precondition violations *)

(** C9: precondition violations are fatal.  [cs_gwf_set_main_tracer_param]
    called with a NULL tracer aborts with the message [_err_empty_tracer];
    [_add_precipitation] aborts with "Invalid space scheme." when the space
    scheme of the tracer equation is neither CDO-Vb nor CDO-VCb;
    [cs_gwf_tracer_integrate] aborts with "Invalid space scheme" in the
    same case, and with a message naming the missing moisture content when
    the saturation field is unset.  None of them returns a value. *)
Theorem precondition_violations_abort {real : Type} {ops : cs_real_ops real}
    (g : cs_glob_t real) :
  (∀ soil_name wmd_ alpha_l_ alpha_t_ distrib_coef rate,
     cs_gwf_set_main_tracer_param g None soil_name wmd_ alpha_l_ alpha_t_
       distrib_coef rate
     = Abort _err_empty_tracer) ∧
  (∀ connect quant tracer uninit,
     space_scheme (tr_eq tracer) ≠ CS_SPACE_SCHEME_CDOVB →
     space_scheme (tr_eq tracer) ≠ CS_SPACE_SCHEME_CDOVCB →
     _add_precipitation g connect quant tracer uninit
     = Abort "_add_precipitation: Invalid space scheme.") ∧
  (∀ connect cdoq tracer z tc,
     context tracer = Some tc →
     is_Some (l_saturation tc) →
     space_scheme (tr_eq tracer) ≠ CS_SPACE_SCHEME_CDOVB →
     space_scheme (tr_eq tracer) ≠ CS_SPACE_SCHEME_CDOVCB →
     cs_gwf_tracer_integrate g connect cdoq tracer z
     = Abort " cs_gwf_tracer_integrate: Invalid space scheme") ∧
  (∀ connect cdoq tracer z tc,
     context tracer = Some tc →
     l_saturation tc = None →
     cs_gwf_tracer_integrate g connect cdoq tracer z
     = Abort (" cs_gwf_tracer_integrate: " ++ dquote ++ "moisture_content"
              ++ dquote ++ " not defined")).
Proof.
  repeat split.
  - intros connect quant tracer uninit Hvb Hvcb.
    unfold _add_precipitation.
    by destruct (space_scheme (tr_eq tracer)).
  - intros connect cdoq tracer z tc Hc [m Hm] Hvb Hvcb.
    unfold cs_gwf_tracer_integrate. rewrite Hc. simpl. rewrite Hm. simpl.
    by destruct (space_scheme (tr_eq tracer)).
  - intros connect cdoq tracer z tc Hc Hm.
    unfold cs_gwf_tracer_integrate. rewrite Hc. simpl. by rewrite Hm.
Qed.

Lemma precondition_violations_abort_witness :
  let tracer : cs_gwf_tracer_t R :=
    {| tr_eq := {| space_scheme := CS_SPACE_SCHEME_CDOFB;
                   vertex_values := Ex.no_solute; cell_values := [0; 0]%R |};
       diffusivity := None;
       context := Some (Ex.tcontext Ex.sat Ex.no_precip) |} in
  _add_precipitation Ex.glob Ex.connect Ex.quant tracer (fun _ => 0%R)
  = Abort "_add_precipitation: Invalid space scheme." ∧
  cs_gwf_tracer_integrate Ex.glob Ex.connect Ex.quant tracer Ex.zone
  = Abort " cs_gwf_tracer_integrate: Invalid space scheme" ∧
  cs_gwf_tracer_integrate Ex.glob2 Ex.connect Ex.quant
    (Ex.tracer2 CS_SPACE_SCHEME_CDOVB) Ex.zone0
  = Abort (" cs_gwf_tracer_integrate: " ++ dquote ++ "moisture_content"
           ++ dquote ++ " not defined").
Proof.
  intros tracer.
  destruct (precondition_violations_abort Ex.glob) as (_ & H2 & H3 & _).
  destruct (precondition_violations_abort Ex.glob2) as (_ & _ & _ & H4).
  split; [| split].
  - apply H2; discriminate.
  - apply (H3 _ _ _ _ (Ex.tcontext Ex.sat Ex.no_precip));
      [reflexivity | by eexists | discriminate | discriminate].
  - apply (H4 _ _ _ _ Ex.tcontext2); reflexivity.
Defined.

(** * Saturation table built by [_add_precipitation] *)

Section Saturation_shape.

Context {real : Type} {ops : cs_real_ops real}.

Lemma bind_Done_r {A} (m : outcome A) : m ≫= Done = m.
Proof. by destruct m. Qed.

Lemma for_range_one {St} (body : nat → St → outcome St) (s : St) :
  for_range 0 1 body s = body 0 s.
Proof. unfold for_range. simpl. apply bind_Done_r. Qed.

Lemma satura_pass_as_soil_cells_loop (c2v : cs_adjacency_t) (z : cs_zone_t)
    (l : list nat) (c_sat : real) (satura : list real) :
  elt_ids z = Some l →
  satura_pass c2v z l c_sat satura
  = soil_cells_loop 1 (fun _ => Done (z, c_sat))
      (cell_slots_loop (satura_cellpre c2v) (satura_slot c2v)) satura.
Proof.
  intros Hl. unfold soil_cells_loop, satura_pass.
  rewrite for_range_one. simpl.
  apply for_range_ext. intros i st. unfold zone_elt. rewrite Hl.
  destruct (rd l i) as [c| |]; simpl; [| done..].
  unfold cell_slots_loop, satura_cellpre.
  destruct (rd (idx c2v) c) as [lo| |]; simpl; [| done..].
  destruct (rd (idx c2v) (c + 1)) as [hi| |]; simpl; [| done..].
  reflexivity.
Qed.

Lemma _add_precipitation_unfold (g : cs_glob_t real)
    (connect : cs_cdo_connect_t real) (quant : cs_cdo_quantities_t real)
    (tracer : cs_gwf_tracer_t real) (uninit : nat → real)
    (tc : cs_gwf_tracer_context_t real) (a : nat) :
  space_scheme (tr_eq tracer) = CS_SPACE_SCHEME_CDOVB ∨
  space_scheme (tr_eq tracer) = CS_SPACE_SCHEME_CDOVCB →
  context tracer = Some tc →
  idx (c2v connect) !! n_cells quant = Some a →
  _add_precipitation g connect quant tracer uninit =
  (satura ← for_range 0 (cs_gwf_get_n_soils g) (fun soil_id satura =>
     soil ← cs_gwf_soil_by_id g soil_id;
     c_sat ← rdp (conc_w_star tc) (id_of_soil soil);
     if decide (soil_id = 0) then satura_init (n_vertices quant) c_sat satura
     else
       z ← cs_volume_zone_by_id g (zone_id soil);
       elt_ids ← deref (elt_ids z);
       satura_pass (c2v connect) z elt_ids c_sat satura)
     (uninit <$> seq 0 (n_vertices quant));
   conc_satura ← match interfaces_VTX_SCAL connect with
                 | Some itf =>
                     satura ← cs_interface_set_min itf satura;
                     mret (Some satura)
                 | None => mret (Some satura)
                 end;
   mret (set_context tracer
           (set_precip tc
              (Some (replicate
                       (match space_scheme (tr_eq tracer) with
                        | CS_SPACE_SCHEME_CDOVCB => a + n_cells quant
                        | _ => a
                        end) real_0))
              conc_satura (precip_field tc)))).
Proof.
  intros Hscheme Hc Ha. unfold _add_precipitation.
  rewrite Hc, (rd_lookup _ _ _ Ha).
  destruct Hscheme as [-> | ->]; simpl;
    match goal with
    | |- (_ ≫= ?k1) = (?L ≫= ?k2) =>
        change ((L ≫= (fun satura : list real => mret (Some satura))) ≫= k1
                = (L ≫= k2));
        destruct L as [satura| |]; simpl; [| done..]
    end;
    by destruct (interfaces_VTX_SCAL connect).
Qed.

Lemma satura_init_run (n : nat) (c_sat : real) (satura : list real) :
  length satura = n →
  ∃ satura', satura_init n c_sat satura = Done satura' ∧
    length satura' = n ∧ ∀ v, v < n → satura' !! v = Some c_sat.
Proof.
  intros Hlen. unfold satura_init.
  apply (for_range_inv (fun k sat =>
    length sat = n ∧ ∀ v, v < k → sat !! v = Some c_sat)); [lia | |].
  - split; [done | lia].
  - intros k sat [_ Hk] [Hl Hprev]. rewrite wr_lt by lia.
    eexists. split; [done |]. split; [by rewrite length_insert |].
    intros v Hv. destruct (decide (v = k)) as [-> | Hne].
    + apply list_lookup_insert_eq. lia.
    + rewrite list_lookup_insert_ne by done. apply Hprev. lia.
Qed.

Lemma cs_interface_set_min_inv (P : list real → Prop)
    (itf : cs_interface_set_t real) (var : list real) :
  (∀ k p, itf !! k = Some p → p.1 < length var) →
  P var →
  (∀ k p var1 x, itf !! k = Some p → length var1 = length var →
                 var1 !! p.1 = Some x → P var1 →
                 P (<[p.1 := CS_MIN x p.2]> var1)) →
  ∃ var', cs_interface_set_min itf var = Done var' ∧
          length var' = length var ∧ P var'.
Proof.
  intros Hitf HP Hstep. unfold cs_interface_set_min.
  apply (for_range_pres (fun v => length v = length var ∧ P v)); [done |].
  intros k var1 [_ Hk] [Hlen HP1].
  destruct (rd_lt itf k Hk) as (p & Hp & ->). simpl.
  destruct (rd_lt var1 p.1) as (x & Hx & ->);
    [rewrite Hlen; by eapply Hitf |]. simpl.
  rewrite wr_lt by (rewrite Hlen; by eapply Hitf).
  eexists. split; [done |]. split; [by rewrite length_insert |].
  by eapply Hstep.
Qed.

End Saturation_shape.

Lemma CS_MIN_R (x w : R) :
  (CS_MIN x w <= x)%R ∧ (CS_MIN x w <= w)%R ∧
  (CS_MIN x w = x ∨ CS_MIN x w = w).
Proof. r_ops. destruct (Rlt_dec x w); repeat split; (lra || auto). Qed.

Lemma satura_cellpre_Done (c2v : cs_adjacency_t) (w : R) (c : nat)
    (cp : unit) (lo hi : nat) :
  satura_cellpre c2v w c = Done (cp, (lo, hi)) ↔
  idx c2v !! c = Some lo ∧ idx c2v !! (c + 1) = Some hi.
Proof.
  unfold satura_cellpre. split.
  - intros H.
    apply bind_Done in H as (l & Hl%rd_Done & H).
    apply bind_Done in H as (h & Hh%rd_Done & H).
    by injection H as <- <- <-.
  - intros (Hl & Hh). destruct cp.
    rewrite (rd_lookup _ _ _ Hl). simpl.
    by rewrite (rd_lookup _ _ _ Hh).
Qed.

(** Effect of the loops of [_add_precipitation] for one soil [k > 0] of
    saturated concentration [w]: each entry is kept or lowered to [w], and
    is at most [w] for the vertices of the cells of the soil. *)
Lemma satura_pass_spec (g : cs_glob_t R) (c2v : cs_adjacency_t) (nv k : nat)
    (soil : cs_gwf_soil_t R) (z : cs_zone_t) (l : list nat) (w : R)
    (satura0 : list R) :
  soils g !! k = Some soil → zones g !! zone_id soil = Some z →
  elt_ids z = Some l → n_elts z ≤ length l →
  (∀ c, soil_cell g k c →
     c + 1 < length (idx c2v) ∧
     ∀ j, cell_slot c2v c j → ∃ v, ids c2v !! j = Some v ∧ v < nv) →
  length satura0 = nv →
  ∃ satura', satura_pass c2v z l w satura0 = Done satura' ∧
    length satura' = nv ∧
    ∀ v, v < nv →
      ∃ x x0, satura0 !! v = Some x0 ∧ satura' !! v = Some x ∧
        (x <= x0)%R ∧
        (∀ c j, soil_cell g k c → cell_slot c2v c j →
                ids c2v !! j = Some v → (x <= w)%R) ∧
        (x = x0 ∨
         (x = w ∧ ∃ c j, soil_cell g k c ∧ cell_slot c2v c j ∧
                         ids c2v !! j = Some v)).
Proof.
  intros Hsoil Hz Hl Hn Hcells Hlen.
  rewrite (satura_pass_as_soil_cells_loop c2v z l w satura0 Hl).
  assert (Hcell_at : ∀ i c, i < n_elts z → zone_elt z i = Done c →
                            soil_cell g k c).
  { intros i c Hi Hc. by exists i, soil, z. }
  assert (Hpre : ∀ s, s < 1 →
            ∃ z' p, (fun _ : nat => Done (z, w)) s = Done (z', p) ∧
              ∀ i, i < n_elts z' →
                ∃ c x, zone_elt z' i = Done c ∧
                       satura_cellpre c2v p c = Done x).
  { intros s _. exists z, w. split; [done |]. intros i Hi.
    destruct (zone_elt_defined z i) as [c Hc];
      [intros l' Hl'; congruence | done |].
    destruct (Hcells c (Hcell_at i c Hi Hc)) as [Hidx _].
    destruct (lookup_lt_is_Some_2 (idx c2v) c) as [lo Hlo]; [lia |].
    destruct (lookup_lt_is_Some_2 (idx c2v) (c + 1) Hidx) as [hi Hhi].
    exists c, ((), (lo, hi)). split; [done |]. by apply satura_cellpre_Done. }
  assert (Hvisit : ∀ i j z' p c cp lo hi (sat : list R),
            Done (z, w) = Done (z', p) → i < n_elts z' →
            zone_elt z' i = Done c →
            satura_cellpre c2v p c = Done (cp, (lo, hi)) → lo ≤ j < hi →
            length sat = nv →
            ∃ v x, v < nv ∧ ids c2v !! j = Some v ∧ sat !! v = Some x ∧
                   soil_cell g k c ∧ cell_slot c2v c j ∧
                   satura_slot c2v p cp j sat = Done (<[v := CS_MIN x w]> sat)).
  { intros i j z' p c cp lo hi sat [= <- <-] Hi Hc Hx Hj Hls.
    apply satura_cellpre_Done in Hx as [Hlo Hhi].
    assert (Hsc : soil_cell g k c) by by eapply Hcell_at.
    assert (Hslot : cell_slot c2v c j) by by exists lo, hi.
    destruct (Hcells c Hsc) as [_ Hslots].
    destruct (Hslots j Hslot) as (v & Hv & Hvn).
    destruct (lookup_lt_is_Some_2 sat v) as [x Hx]; [lia |].
    exists v, x. repeat (split; [done |]).
    unfold satura_slot. rewrite (rd_lookup _ _ _ Hv). simpl.
    rewrite (rd_lookup _ _ _ Hx). simpl. by rewrite wr_lt by lia. }
  set (G := fun sat : list R =>
    length sat = nv ∧
    ∀ v, v < nv →
      ∃ x x0, satura0 !! v = Some x0 ∧ sat !! v = Some x ∧ (x <= x0)%R ∧
        (x = x0 ∨
         (x = w ∧ ∃ c j, soil_cell g k c ∧ cell_slot c2v c j ∧
                         ids c2v !! j = Some v))).
  assert (HG : ∀ s i j z' p c cp lo hi sat,
            s < 1 → Done (z, w) = Done (z', p) → i < n_elts z' →
            zone_elt z' i = Done c →
            satura_cellpre c2v p c = Done (cp, (lo, hi)) → lo ≤ j < hi →
            G sat →
            ∃ sat', satura_slot c2v p cp j sat = Done sat' ∧ G sat').
  { intros s i j z' p c cp lo hi sat _ Hp Hi Hc Hx Hj [Hls Hsat].
    destruct (Hvisit i j z' p c cp lo hi sat Hp Hi Hc Hx Hj Hls)
      as (v & x & Hvn & Hv & Hxv & Hsc & Hslot & ->).
    eexists. split; [done |]. split; [by rewrite length_insert |].
    intros v' Hv'. destruct (Hsat v' Hv') as (y & y0 & Hy0 & Hy & Hle & Hor).
    destruct (decide (v' = v)) as [-> | Hne].
    - assert (y = x) as -> by congruence.
      destruct (CS_MIN_R x w) as (Hmx & Hmw & Hm).
      exists (CS_MIN x w), y0. split; [done |].
      split; [apply list_lookup_insert_eq; lia |]. split; [lra |].
      destruct Hm as [-> | ->]; [done |]. right. split; [done |].
      by exists c, j.
    - exists y, y0. by rewrite list_lookup_insert_ne. }
  destruct (slots_loop_pres 1 (fun _ => Done (z, w)) (satura_cellpre c2v)
              (satura_slot c2v) Hpre G satura0) as (satura' & Hrun & HG').
  { done. }
  { split; [done |]. intros v Hv.
    destruct (lookup_lt_is_Some_2 satura0 v) as [x0 Hx0]; [lia |].
    exists x0, x0. repeat split; (done || lra || by left). }
  exists satura'. split; [done |]. destruct HG' as [Hlen' Hsat'].
  split; [done |]. intros v Hv.
  destruct (Hsat' v Hv) as (x & x0 & Hx0 & Hx & Hle & Hor).
  exists x, x0. repeat (split; [done |]). split; [| done].
  intros c j [i (soil' & z' & Hsoil' & Hz' & Hi & Hzc)] Hslot Hvj.
  assert (soil' = soil) as -> by congruence.
  assert (z' = z) as -> by congruence.
  destruct Hslot as (lo & hi & Hlo & Hhi & Hj).
  destruct (slots_loop_target 1 (fun _ => Done (z, w)) (satura_cellpre c2v)
              (satura_slot c2v) Hpre (fun sat => length sat = nv)
              (fun _ => True)
              (fun sat => ∃ y, sat !! v = Some y ∧ (y <= w)%R)
              0 i j z w c () lo hi satura0)
    as (satura'' & Hrun' & _ & y & Hy & Hyw);
    [lia | done | done | done | by apply satura_cellpre_Done | done
    | | | done | done |].
  - intros s i' j' z' p c' cp lo' hi' sat _ Hp Hi' Hc' Hx' Hj' _ Hls.
    destruct (Hvisit i' j' z' p c' cp lo' hi' sat Hp Hi' Hc' Hx' Hj' Hls)
      as (v' & x' & Hvn' & Hv' & Hxv' & _ & _ & ->).
    eexists. split; [done |]. split; [by rewrite length_insert |].
    split; [done |]. intros (y & Hy & Hyw).
    destruct (decide (v' = v)) as [-> | Hne].
    + assert (y = x') as -> by congruence.
      destruct (CS_MIN_R x' w) as (Hmx & Hmw & _).
      exists (CS_MIN x' w). split; [apply list_lookup_insert_eq; lia | lra].
    + exists y. by rewrite list_lookup_insert_ne.
  - intros sat Hls _.
    destruct (Hvisit i j z w c () lo hi sat eq_refl Hi Hzc
                (proj2 (satura_cellpre_Done c2v w c () lo hi)
                   (conj Hlo Hhi)) Hj Hls)
      as (v' & x' & Hvn' & Hv' & Hxv' & _ & _ & ->).
    assert (v' = v) as -> by congruence.
    destruct (CS_MIN_R x' w) as (Hmx & Hmw & _).
    eexists. split; [done |]. split; [by rewrite length_insert |].
    exists (CS_MIN x' w). split; [apply list_lookup_insert_eq; lia | lra].
  - rewrite Hrun in Hrun'. injection Hrun' as <-.
    assert (y = x) as -> by congruence. done.
Qed.

(** Effect of the min-synchronisation: each entry becomes the minimum of
    its value and of the values received for its vertex. *)
Lemma cs_interface_set_min_spec (itf : cs_interface_set_t R)
    (var : list R) :
  (∀ k p, itf !! k = Some p → p.1 < length var) →
  ∃ var', cs_interface_set_min itf var = Done var' ∧
    length var' = length var ∧
    ∀ v x0, var !! v = Some x0 →
      ∃ x, var' !! v = Some x ∧ (x <= x0)%R ∧
           (∀ y, (v, y) ∈ itf → (x <= y)%R) ∧
           (x = x0 ∨ (v, x) ∈ itf).
Proof.
  intros Hitf. unfold cs_interface_set_min.
  destruct (for_range_inv (fun k var1 =>
      length var1 = length var ∧
      ∀ v x0, var !! v = Some x0 →
        ∃ x, var1 !! v = Some x ∧ (x <= x0)%R ∧
             (∀ y, (v, y) ∈ take k itf → (x <= y)%R) ∧
             (x = x0 ∨ (v, x) ∈ take k itf))
      (fun k var1 => p ← rd itf k; x ← rd var1 p.1;
                     wr var1 p.1 (CS_MIN x p.2))
      0 (length itf) var) as (var' & Hrun & Hlen & Hall); [lia | | |].
  - split; [done |]. intros v x0 Hx0. exists x0.
    split; [done |]. split; [lra |]. split; [| by left].
    intros y Hy. by apply elem_of_nil in Hy.
  - intros k var1 [_ Hk] [Hlen Hall].
    destruct (rd_lt itf k Hk) as ([v1 y1] & Hp & ->). simpl.
    pose proof (Hitf k _ Hp) as Hv1. simpl in Hv1.
    destruct (rd_lt var1 v1) as (x1 & Hx1 & ->); [lia |]. simpl.
    rewrite wr_lt by lia. eexists. split; [done |].
    split; [by rewrite length_insert |].
    intros v x0 Hx0. destruct (Hall v x0 Hx0) as (x & Hx & Hle & Hlow & Hatt).
    rewrite (take_S_r _ _ _ Hp).
    destruct (CS_MIN_R x1 y1) as (Hmx & Hmy & Hm).
    destruct (decide (v = v1)) as [-> | Hne].
    + assert (x1 = x) as -> by congruence.
      exists (CS_MIN x y1).
      split; [apply list_lookup_insert_eq; lia |]. split; [lra |]. split.
      * intros y [Hy | Hy%list_elem_of_singleton]%elem_of_app.
        -- pose proof (Hlow y Hy). lra.
        -- injection Hy as ->. lra.
      * destruct Hm as [-> | ->].
        -- destruct Hatt as [-> | Hin]; [by left |].
           right. apply elem_of_app. by left.
        -- right. apply elem_of_app. right. by apply list_elem_of_singleton.
    + exists x. split; [by rewrite list_lookup_insert_ne |].
      split; [done |]. split.
      * intros y [Hy | Hy%list_elem_of_singleton]%elem_of_app.
        -- by apply Hlow.
        -- congruence.
      * destruct Hatt as [-> | Hin]; [by left |].
        right. apply elem_of_app. by left.
  - exists var'. split; [done |]. split; [done |].
    intros v x0 Hx0. destruct (Hall v x0 Hx0) as (x & Hx & Hle & Hlow & Hatt).
    rewrite firstn_all in Hlow, Hatt. by exists x.
Qed.

Lemma satura_synced_min_intro (g : cs_glob_t R)
    (connect : cs_cdo_connect_t R) (w_star : list R) (k v : nat)
    (x0 x : R) :
  satura_is_min g (c2v connect) w_star k v x0 →
  (x <= x0)%R →
  (∀ y, received_at connect v y → (x <= y)%R) →
  x = x0 ∨ received_at connect v x →
  satura_is_synced_min g connect w_star k v x.
Proof.
  intros (H0 & Hlow & Hatt) Hle Hrecv Hor.
  split; [lra |]. split; [| split; [done |]].
  - intros s c j Hs Hsc Hslot Hv.
    pose proof (Hlow s c j Hs Hsc Hslot Hv). lra.
  - destruct Hor as [-> | Hr]; [| by right; right].
    destruct Hatt as [-> | Hex]; [by left | by right; left].
Qed.

Lemma satura_synced_min_global (g : cs_glob_t R)
    (connect : cs_cdo_connect_t R) (w_star : list R)
    (remote : nat → nat → Prop) (k v : nat) (x : R) :
  satura_is_synced_min g connect w_star k v x →
  tables_exchanged connect w_star remote →
  satura_is_global_min g (c2v connect) w_star remote k v x.
Proof.
  intros (H0 & Hlow & Hrecv & Hatt) [Hfrom Hto].
  split; [done |]. split.
  - intros s [(Hs & c & j & Hsc & Hslot & Hv) | Hrem].
    + by eapply Hlow.
    + destruct (Hto v s Hrem) as (y & Hy & Hle).
      pose proof (Hrecv y Hy). lra.
  - destruct Hatt as [-> | [(s & c & j & Hs & Hsc & Hslot & Hv & ->) | Hr]].
    + by left.
    + right. exists s. split; [| done]. left. split; [done |].
      by exists c, j.
    + destruct (Hfrom v x Hr) as [-> | (s & Hrem & ->)]; [by left |].
      right. exists s. split; [by right | done].
Qed.

(** C10: [_add_precipitation] completes and builds [conc_satura] by
    assigning [conc_w_star[0]] to every vertex, then min-reducing with
    [conc_w_star[s]] over the vertices of the cells of each soil [s > 0],
    then min-reducing with the entries of the other ranks at the shared
    vertices.  Every entry is at most [conc_w_star[0]] (also for a vertex
    incident to no cell of the soil 0).  In a run on one rank it is the
    minimum of [conc_w_star[0]] and of the [conc_w_star[s]] of the soils
    [s > 0] owning a cell incident to the vertex.  In a parallel run it is
    the minimum of these values and of the values received for the vertex;
    the received values being the entries of tables built by the same loops
    on the other ranks, it is the minimum of [conc_w_star[0]] and of the
    [conc_w_star[s]] of the soils owning a cell incident to the vertex on
    any rank.  The result does not depend on the content of the allocated
    block. *)
Theorem _add_precipitation_conc_satura (g : cs_glob_t R)
    (connect : cs_cdo_connect_t R) (quant : cs_cdo_quantities_t R)
    (tracer : cs_gwf_tracer_t R) (uninit : nat → R)
    (tc : cs_gwf_tracer_context_t R) (w_star : list R) :
  satura_wf g tracer connect quant tc w_star →
  ∃ tracer' tc' satura,
    _add_precipitation g connect quant tracer uninit = Done tracer' ∧
    context tracer' = Some tc' ∧ conc_satura tc' = Some satura ∧
    length satura = n_vertices quant ∧
    ∀ v, v < n_vertices quant →
      ∃ x, satura !! v = Some x ∧
        (x <= w_star !!! 0%nat)%R ∧
        (interfaces_VTX_SCAL connect = None →
         satura_is_min g (c2v connect) w_star (cs_gwf_get_n_soils g) v x) ∧
        satura_is_synced_min g connect w_star (cs_gwf_get_n_soils g) v x ∧
        (∀ remote, tables_exchanged connect w_star remote →
           satura_is_global_min g (c2v connect) w_star remote
             (cs_gwf_get_n_soils g) v x).
Proof.
  intros Hwf.
  destruct (lookup_lt_is_Some_2 (idx (c2v connect)) (n_cells quant))
    as [a Ha]; [by eapply sw_size |].
  rewrite (_add_precipitation_unfold g connect quant tracer uninit tc a
             (sw_scheme _ _ _ _ _ _ Hwf) (sw_context _ _ _ _ _ _ Hwf) Ha).
  rewrite (sw_w_star _ _ _ _ _ _ Hwf).
  pose proof (sw_n_soils _ _ _ _ _ _ Hwf) as Hn.
  set (nv := n_vertices quant).
  destruct (for_range_inv (fun k satura =>
      length satura = nv ∧
      (0 < k → ∀ v, v < nv →
         ∃ x, satura !! v = Some x ∧
              satura_is_min g (c2v connect) w_star k v x))
      (fun soil_id satura =>
         soil ← cs_gwf_soil_by_id g soil_id;
         c_sat ← rdp (Some w_star) (id_of_soil soil);
         if decide (soil_id = 0) then satura_init nv c_sat satura
         else
           z ← cs_volume_zone_by_id g (zone_id soil);
           elt_ids ← deref (elt_ids z);
           satura_pass (c2v connect) z elt_ids c_sat satura)
      0 (cs_gwf_get_n_soils g) (uninit <$> seq 0 nv))
    as (satura & Hrun & Hlen & Hmin); [lia | | |].
  - split; [by rewrite length_fmap, length_seq | lia].
  - intros k sat [_ Hk] [Hls Hprev]. unfold cs_gwf_get_n_soils in Hk, Hn.
    destruct (lookup_lt_is_Some_2 (soils g) k Hk) as [soil Hsoil].
    unfold cs_gwf_soil_by_id. rewrite (rd_lookup _ _ _ Hsoil). simpl.
    rewrite (sw_ids _ _ _ _ _ _ Hwf k soil Hsoil).
    rewrite (rdp_lookup w_star k (w_star !!! k))
      by (apply list_lookup_lookup_total_lt; lia).
    simpl. case_decide as Hk0.
    + (* soil 0 *)
      subst k.
      destruct (satura_init_run nv (w_star !!! 0) sat Hls)
        as (sat' & -> & Hls' & Hall).
      exists sat'. split; [done |]. split; [done |]. intros _ v Hv.
      exists (w_star !!! 0). split; [by apply Hall |].
      split; [lra |]. split; [intros s c j Hs; lia | by left].
    + (* a soil k > 0 *)
      destruct (sw_soils _ _ _ _ _ _ Hwf k soil Hsoil) as (z & Hz & Hzl).
      destruct (sw_zones _ _ _ _ _ _ Hwf k soil z) as [l Hl];
        [lia | done | done |].
      unfold cs_volume_zone_by_id. rewrite (rd_lookup _ _ _ Hz). simpl.
      rewrite Hl. simpl.
      destruct (satura_pass_spec g (c2v connect) nv k soil z l
                  (w_star !!! k) sat Hsoil Hz Hl (Hzl l Hl))
        as (sat' & -> & Hls' & Hpass); [| done |].
      { intros c Hc. apply (sw_cells _ _ _ _ _ _ Hwf k c); [lia | done]. }
      exists sat'. split; [done |]. split; [done |]. intros _ v Hv.
      destruct (Hprev ltac:(lia) v Hv) as (x0 & Hx0 & Hle0 & Hlow0 & Hatt0).
      destruct (Hpass v Hv) as (x & x0' & Hx0' & Hx & Hle & Hlow & Hatt).
      assert (x0' = x0) as -> by congruence.
      exists x. split; [done |]. split; [lra |]. split.
      * intros s c j Hs Hsc Hslot Hvj.
        destruct (decide (s = k)) as [-> | Hne].
        -- by eapply Hlow.
        -- pose proof (Hlow0 s c j ltac:(lia) Hsc Hslot Hvj). lra.
      * destruct Hatt as [-> | [-> (c & j & Hsc & Hslot & Hvj)]].
        -- destruct Hatt0 as [? | (s & c & j & Hs & Hrest)]; [by left |].
           right. exists s, c, j. split; [lia | done].
        -- right. exists k, c, j. split; [lia | done].
  - rewrite Hrun. simpl.
    assert (Hfin : ∀ v, v < nv →
              ∃ x, satura !! v = Some x ∧
                   satura_is_min g (c2v connect) w_star
                     (cs_gwf_get_n_soils g) v x).
    { apply Hmin. lia. }
    destruct (interfaces_VTX_SCAL connect) as [itf|] eqn:Hitf.
    + destruct (cs_interface_set_min_spec itf satura)
        as (satura' & -> & Hlen' & Hsync).
      { intros k p Hp. rewrite Hlen. by eapply sw_itf. }
      simpl. eexists _, _, satura'. split; [done |].
      split; [done |]. split; [done |]. split; [lia |].
      intros v Hv. destruct (Hfin v Hv) as (x0 & Hx0 & Hmin0).
      destruct (Hsync v x0 Hx0) as (x & Hx & Hle & Hlow & Hatt).
      assert (Hs : satura_is_synced_min g connect w_star
                     (cs_gwf_get_n_soils g) v x).
      { apply (satura_synced_min_intro g connect w_star _ v x0 x);
          [done | done | |].
        - intros y (itf' & Hitf' & Hy). rewrite Hitf in Hitf'.
          injection Hitf' as <-. by apply Hlow.
        - destruct Hatt as [-> | Hin]; [by left |]. right. by exists itf. }
      exists x. split; [done |]. split; [exact (proj1 Hs) |].
      split; [discriminate |]. split; [done |].
      intros remote Hex. by apply satura_synced_min_global.
    + simpl. eexists _, _, satura. split; [done |].
      split; [done |]. split; [done |]. split; [done |].
      intros v Hv. destruct (Hfin v Hv) as (x & Hx & Hmin').
      assert (Hs : satura_is_synced_min g connect w_star
                     (cs_gwf_get_n_soils g) v x).
      { apply (satura_synced_min_intro g connect w_star _ v x x);
          [done | lra | | by left].
        intros y (itf' & Hitf' & _). congruence. }
      exists x. split; [done |]. split; [apply Hmin' |].
      split; [done |]. split; [done |].
      intros remote Hex. by apply satura_synced_min_global.
Qed.

(** * Instances on the example mesh *)

Lemma cs_cdofb_navsto_divergence_vect_spec_witness :
  ∃ div', cs_cdofb_navsto_divergence_vect Ex.cube (replicate 18 0%R)
          = Done div' ∧
    length div' = length (replicate 18 0%R) ∧
    (∀ f k, f < n_fc Ex.cube → k < 3 →
            div' !! (3 * f + k)
            = Some (real_of_int (f_sgn Ex.cube !!! f)
                    * meas (face Ex.cube !!! f)
                    * at3 (unitv (face Ex.cube !!! f)) k)%cs) ∧
    (∀ i, 3 * n_fc Ex.cube ≤ i → div' !! i = replicate 18 0%R !! i).
Proof.
  apply (cs_cdofb_navsto_divergence_vect_spec Ex.cube (replicate 18 0%R));
    simpl; lia.
Defined.

Lemma cs_cdofb_navsto_divergence_vect_sum_zero_witness :
  ∃ div', cs_cdofb_navsto_divergence_vect Ex.cube (replicate 18 0%R)
          = Done div' ∧
    ∀ k, k < 3 →
      face_sum (n_fc Ex.cube) (fun f => div' !!! (3 * f + k)) = real_0.
Proof.
  apply (cs_cdofb_navsto_divergence_vect_sum_zero Ex.cube
           (replicate 18 0%R)); simpl; try lia.
  intros k Hk. unfold signed_area.
  destruct k as [|[|[|k]]]; [| | | lia]; simpl; lra.
Defined.


Lemma Ex_diff_wf :
  diff_wf Ex.glob (Ex.tcontext Ex.sat Ex.no_precip)
    [1; 0; 0; 0; 0; 0]%R (replicate 18 0%R).
Proof.
  split; [apply Ex_soils_wf |].
  repeat (split; [unfold cs_gwf_get_n_soils; simpl; lia |]).
  intros s c [i (-> & -> & Hc)%Ex_soil_cell_at]. simpl. lia.
Qed.

Lemma diffusion_tensor_symmetric_witness :
  let tracer := Ex.tracer Ex.no_solute Ex.sat Ex.no_precip in
  ∃ values',
    _update_sat_diff_pty Ex.glob tracer 0%R
    = Done (set_diffusivity_val tracer values') ∧
    ∀ s c ki kj, soil_cell Ex.glob s c → ki < 3 → kj < 3 →
      ∃ x, values' !! (9 * c + (3 * ki + kj)) = Some x ∧
           values' !! (9 * c + (3 * kj + ki)) = Some x.
Proof.
  intros tracer.
  exact (proj1 (diffusion_tensor_symmetric Ex.glob tracer 0%R
                  {| val := replicate 18 0%R |}
                  {| val := [1; 0; 0; 0; 0; 0]%R |}
                  (Ex.tcontext Ex.sat Ex.no_precip)
                  eq_refl eq_refl eq_refl Ex_diff_wf)).
Defined.

Lemma diffusion_tensor_formula_witness :
  let tracer := Ex.tracer Ex.no_solute Ex.sat Ex.no_precip in
  ∃ values',
    _update_diff_pty Ex.glob tracer 0%R
    = Done (set_diffusivity_val tracer values') ∧
    ∀ s c w a_t a_l,
      soil_cell Ex.glob s c → (∀ s', soil_cell Ex.glob s' c → s' = s) →
      [1%R] !! s = Some w → [1%R] !! s = Some a_t → [2%R] !! s = Some a_l →
      let v := cell_velocity [1; 0; 0; 0; 0; 0]%R c in
      let theta := [1; 1]%R !!! c in
      cell_entries values' c
        (dispersion_tensor w theta a_l a_t (1 / 1000000)%R v) ∧
      ((0 <= 1 / 1000000)%R → vnorm_of v = 0%R →
       cell_entries values' c
         (fun i j => if decide (i = j) then (w * theta)%R else 0%R)).
Proof.
  intros tracer.
  refine (proj2 (diffusion_tensor_formula Ex.glob tracer 0%R
                   {| val := replicate 18 0%R |}
                   {| val := [1; 0; 0; 0; 0; 0]%R |}
                   (Ex.tcontext Ex.sat Ex.no_precip)
                   eq_refl eq_refl eq_refl Ex_diff_wf)
                [1; 1]%R eq_refl _).
  intros s c [i (-> & -> & Hc)%Ex_soil_cell_at]. simpl. lia.
Defined.

Lemma Ex_satura_wf :
  satura_wf Ex.glob2 (Ex.tracer2 CS_SPACE_SCHEME_CDOVB) Ex.connect Ex.quant
    Ex.tcontext2 [10; 4]%R.
Proof.
  split; try done.
  - by left.
  - unfold cs_gwf_get_n_soils. simpl. lia.
  - intros s soil Hs. destruct s as [|[|s]]; [| | done];
      by injection Hs as <-.
  - intros s soil Hs. destruct s as [|[|s]]; [| | done];
      injection Hs as <-; eexists; (split; [done |]);
      intros l [= <-]; simpl; lia.
  - intros s soil z Hpos Hs Hz. destruct s as [|[|s]]; [lia | | done].
    injection Hs as <-. injection Hz as <-. by eexists.
  - simpl. lia.
  - intros s c Hpos [i (soil & z & Hs & Hz & Hi & Hc)].
    destruct s as [|[|s]]; [lia | | done].
    injection Hs as <-. injection Hz as <-. simpl in Hi.
    destruct i; [| lia]. injection Hc as <-. simpl. split; [lia |].
    intros j Hj%Ex_cell_slot; [| lia].
    do 8 (destruct j as [|j];
          [first [lia | simpl; eexists; split; [done | lia]] |]).
    lia.
Qed.

Lemma Ex_satura_wf_shared :
  satura_wf Ex.glob2 (Ex.tracer2 CS_SPACE_SCHEME_CDOVB) Ex.connect_shared
    Ex.quant Ex.tcontext2 [10; 4]%R.
Proof.
  destruct Ex_satura_wf as [H1 H2 H3 H4 H5 H6 H7 H8 H9 H10].
  split; try done.
  intros itf k p [= <-] Hp. destruct k as [|k]; [| done].
  injection Hp as <-. simpl. lia.
Qed.

(** The exchange on this example: the soil 1 owns a cell of the other rank
    incident to the vertex 0. *)
Lemma Ex_tables_exchanged :
  tables_exchanged Ex.connect_shared [10; 4]%R (fun s v => s = 1 ∧ v = 0).
Proof.
  split.
  - intros v y (itf & [= <-] & Hin%list_elem_of_singleton).
    injection Hin as -> ->. right. by exists 1.
  - intros v s [-> ->]. exists 4%R. split; [| simpl; lra].
    eexists. split; [done |]. by apply list_elem_of_singleton.
Qed.

Lemma _add_precipitation_conc_satura_witness :
  ∃ tracer' tc' satura,
    _add_precipitation Ex.glob2 Ex.connect_shared Ex.quant
      (Ex.tracer2 CS_SPACE_SCHEME_CDOVB) (fun _ => 7%R) = Done tracer' ∧
    context tracer' = Some tc' ∧ conc_satura tc' = Some satura ∧
    length satura = n_vertices Ex.quant ∧
    ∀ v, v < n_vertices Ex.quant →
      ∃ x, satura !! v = Some x ∧
        (x <= [10; 4]%R !!! 0%nat)%R ∧
        (interfaces_VTX_SCAL Ex.connect_shared = None →
         satura_is_min Ex.glob2 (c2v Ex.connect_shared) [10; 4]%R
           (cs_gwf_get_n_soils Ex.glob2) v x) ∧
        satura_is_synced_min Ex.glob2 Ex.connect_shared [10; 4]%R
          (cs_gwf_get_n_soils Ex.glob2) v x ∧
        (∀ remote, tables_exchanged Ex.connect_shared [10; 4]%R remote →
           satura_is_global_min Ex.glob2 (c2v Ex.connect_shared)
             [10; 4]%R remote (cs_gwf_get_n_soils Ex.glob2) v x).
Proof.
  exact (_add_precipitation_conc_satura Ex.glob2 Ex.connect_shared Ex.quant
           (Ex.tracer2 CS_SPACE_SCHEME_CDOVB) (fun _ => 7%R) Ex.tcontext2
           [10; 4]%R Ex_satura_wf_shared).
Defined.

(** On the mesh with two soils, the vertex 0 keeps the saturated
    concentration of the soil 0 and the vertices 1 to 4 of the cell of the
    soil 1 get the smaller one. *)
Lemma Ex_add_precipitation_run :
  _add_precipitation Ex.glob2 Ex.connect Ex.quant
    (Ex.tracer2 CS_SPACE_SCHEME_CDOVB) (fun _ => 7%R)
  = Done (set_context (Ex.tracer2 CS_SPACE_SCHEME_CDOVB)
            (set_precip Ex.tcontext2 (Some Ex.no_precip)
               (Some [10; 4; 4; 4; 4]%R) (Some {| val := [0; 0]%R |}))).
Proof.
  unfold _add_precipitation, for_range. simpl. r_run. reflexivity.
Qed.

(** On the mesh with two soils, the vertex 0 being shared with a rank that
    holds 4 for it: every entry is 4. *)
Lemma Ex_add_precipitation_run_shared :
  _add_precipitation Ex.glob2 Ex.connect_shared Ex.quant
    (Ex.tracer2 CS_SPACE_SCHEME_CDOVB) (fun _ => 7%R)
  = Done (set_context (Ex.tracer2 CS_SPACE_SCHEME_CDOVB)
            (set_precip Ex.tcontext2 (Some Ex.no_precip)
               (Some [4; 4; 4; 4; 4]%R) (Some {| val := [0; 0]%R |}))).
Proof.
  unfold _add_precipitation, cs_interface_set_min, for_range. simpl. r_run.
  reflexivity.
Qed.

(** * Parameter setters *)

Section Setter.
Context {real : Type} {ops : cs_real_ops real}.

Lemma set_context_id (tracer : cs_gwf_tracer_t real)
    (tc : cs_gwf_tracer_context_t real) :
  context tracer = Some tc → set_context tracer tc = tracer.
Proof. destruct tracer. simpl. by intros ->. Qed.

Lemma set_soil_param_run (tc : cs_gwf_tracer_context_t real) (k : nat)
    (soil : cs_gwf_soil_t real) (w al at_ kd rate : real) :
  soil_params_room tc k →
  ∃ tc', set_soil_param tc k soil w al at_ kd rate = Done tc' ∧
    soil_params_at tc' k (bulk_density soil) kd
      (bulk_density soil * kd)%cs al at_ w rate ∧
    (∀ k', k' ≠ k → soil_params_kept tc tc' k') ∧
    (∀ k', soil_params_room tc k' → soil_params_room tc' k') ∧
    other_members_kept tc tc'.
Proof.
  intros (H1 & H2 & H3 & H4 & H5 & H6 & H7). unfold set_soil_param.
  rewrite !wr_lt by done. simpl. eexists. split; [done |].
  split; [| split; [| split]].
  - unfold soil_params_at. simpl.
    by rewrite !list_lookup_insert_eq by done.
  - intros k' Hk'. unfold soil_params_kept. simpl.
    by rewrite !list_lookup_insert_ne by done.
  - unfold soil_params_room. simpl. by rewrite !length_insert.
  - done.
Qed.

Lemma soil_params_kept_trans (tc1 tc2 tc3 : cs_gwf_tracer_context_t real)
    (k : nat) :
  soil_params_kept tc1 tc2 k → soil_params_kept tc2 tc3 k →
  soil_params_kept tc1 tc3 k.
Proof.
  intros (A1 & A2 & A3 & A4 & A5 & A6 & A7) (B1 & B2 & B3 & B4 & B5 & B6 & B7).
  unfold soil_params_kept. by rewrite B1, B2, B3, B4, B5, B6, B7.
Qed.

Lemma soil_params_at_kept (tc tc' : cs_gwf_tracer_context_t real) (k : nat)
    (rho kd rk al at_ w rate : real) :
  soil_params_at tc k rho kd rk al at_ w rate → soil_params_kept tc tc' k →
  soil_params_at tc' k rho kd rk al at_ w rate.
Proof.
  intros (A1 & A2 & A3 & A4 & A5 & A6 & A7) (B1 & B2 & B3 & B4 & B5 & B6 & B7).
  unfold soil_params_at. by rewrite B1, B2, B3, B4, B5, B6, B7.
Qed.

Lemma other_members_kept_trans (tc1 tc2 tc3 : cs_gwf_tracer_context_t real) :
  other_members_kept tc1 tc2 → other_members_kept tc2 tc3 →
  other_members_kept tc1 tc3.
Proof.
  intros (A1 & A2 & A3 & A4 & A5 & A6) (B1 & B2 & B3 & B4 & B5 & B6).
  unfold other_members_kept. by rewrite B1, B2, B3, B4, B5, B6.
Qed.

(** The loop on the soils of [cs_gwf_set_main_tracer_param], stopped
    after [n] soils. *)
Lemma set_main_tracer_param_loop (g : cs_glob_t real)
    (tracer : cs_gwf_tracer_t real) (tc : cs_gwf_tracer_context_t real)
    (w al at_ kd rate : real) (n : nat) :
  context tracer = Some tc →
  (∀ s, s < cs_gwf_get_n_soils g → soil_params_room tc s) →
  n ≤ cs_gwf_get_n_soils g →
  ∃ tc',
    for_range 0 n (fun soil_id tracer =>
      soil ← cs_gwf_soil_by_id g soil_id;
      tc ← deref (context tracer);
      tc ← set_soil_param tc soil_id soil w al at_ kd rate;
      mret (set_context tracer tc)) tracer
    = Done (set_context tracer tc') ∧
    (∀ s soil, s < n → soils g !! s = Some soil →
       soil_params_at tc' s (bulk_density soil) kd
         (bulk_density soil * kd)%cs al at_ w rate) ∧
    (∀ k, n ≤ k → soil_params_kept tc tc' k) ∧
    other_members_kept tc tc'.
Proof.
  intros Hc Hroom Hn.
  destruct (for_range_inv (fun n tr =>
      ∃ tc1, tr = set_context tracer tc1 ∧
        (∀ s, s < cs_gwf_get_n_soils g → soil_params_room tc1 s) ∧
        (∀ s soil, s < n → soils g !! s = Some soil →
           soil_params_at tc1 s (bulk_density soil) kd
             (bulk_density soil * kd)%cs al at_ w rate) ∧
        (∀ k, n ≤ k → soil_params_kept tc tc1 k) ∧
        other_members_kept tc tc1)
      (fun soil_id tracer =>
         soil ← cs_gwf_soil_by_id g soil_id;
         tc ← deref (context tracer);
         tc ← set_soil_param tc soil_id soil w al at_ kd rate;
         mret (set_context tracer tc))
      0 n tracer)
    as (tr' & Hrun & tc' & -> & _ & Hset & Hkept & Hother); [lia | | |].
  - exists tc. split; [by rewrite set_context_id |]. split; [done |].
    split; [lia |]. split; [done | done].
  - intros s tr [_ Hs] (tc1 & -> & Hroom1 & Hset1 & Hkept1 & Hother1).
    assert (Hs' : s < cs_gwf_get_n_soils g) by lia.
    unfold cs_gwf_soil_by_id.
    destruct (rd_lt (soils g) s Hs') as (soil & Hsoil & ->). simpl.
    destruct (set_soil_param_run tc1 s soil w al at_ kd rate (Hroom1 s Hs'))
      as (tc2 & -> & Hat & Hne & Hroom2 & Hother2).
    simpl. eexists. split; [done |]. exists tc2. split; [done |].
    split; [by intros s' Hs''; apply Hroom2, Hroom1 |].
    split; [| split].
    + intros s' soil' Hs'' Hsoil'.
      destruct (decide (s' = s)) as [-> | Hne'].
      * by replace soil' with soil by congruence.
      * eapply soil_params_at_kept; [apply Hset1; [lia | done] |].
        by apply Hne.
    + intros k Hk. eapply soil_params_kept_trans; [apply Hkept1; lia |].
      apply Hne. lia.
    + by eapply other_members_kept_trans.
  - by exists tc'.
Qed.

(** X1: [cs_gwf_set_main_tracer_param] called without a soil name on a
    tracer whose context has room for every soil returns the tracer with,
    for every soil, the seven parameters of this soil set from the
    arguments and from the bulk density of the soil ([rho_kd] being
    [bulk_density * kd]); the entries past the soils and the other members
    of the context are the ones it was given. *)
Theorem cs_gwf_set_main_tracer_param_all_soils (g : cs_glob_t real)
    (tracer : cs_gwf_tracer_t real) (tc : cs_gwf_tracer_context_t real)
    (w al at_ kd rate : real) :
  context tracer = Some tc →
  (∀ s, s < cs_gwf_get_n_soils g → soil_params_room tc s) →
  ∃ tc',
    cs_gwf_set_main_tracer_param g (Some tracer) None w al at_ kd rate
    = Done (set_context tracer tc') ∧
    (∀ s soil, soils g !! s = Some soil →
       soil_params_at tc' s (bulk_density soil) kd
         (bulk_density soil * kd)%cs al at_ w rate) ∧
    (∀ k, cs_gwf_get_n_soils g ≤ k → soil_params_kept tc tc' k) ∧
    other_members_kept tc tc'.
Proof.
  intros Hc Hroom. unfold cs_gwf_set_main_tracer_param.
  destruct (set_main_tracer_param_loop g tracer tc w al at_ kd rate
              (cs_gwf_get_n_soils g) Hc Hroom (le_n _))
    as (tc' & Hrun & Hset & Hkept & Hother).
  exists tc'. split; [exact Hrun |]. split; [| done].
  intros s soil Hsoil. apply Hset; [| done].
  by eapply lookup_lt_Some.
Qed.

(** X2: [cs_gwf_set_main_tracer_param] called with a soil name sets the
    seven parameters of the soil of that name and of no other soil, and
    keeps the other members of the context; when no soil has that name it
    aborts with a message that gives the name. *)
Theorem cs_gwf_set_main_tracer_param_one_soil (g : cs_glob_t real)
    (tracer : cs_gwf_tracer_t real) (tc : cs_gwf_tracer_context_t real)
    (soil_name : string) (w al at_ kd rate : real) :
  context tracer = Some tc →
  (cs_gwf_soil_by_name g soil_name = None →
   cs_gwf_set_main_tracer_param g (Some tracer) (Some soil_name)
     w al at_ kd rate
   = Abort (" Soil " ++ soil_name ++
            " not found among the predefined soils." ++ nl ++
            " Please check your settings.")) ∧
  (∀ soil, cs_gwf_soil_by_name g soil_name = Some soil →
     soil_params_room tc (id_of_soil soil) →
     ∃ tc',
       cs_gwf_set_main_tracer_param g (Some tracer) (Some soil_name)
         w al at_ kd rate
       = Done (set_context tracer tc') ∧
       soil_params_at tc' (id_of_soil soil) (bulk_density soil) kd
         (bulk_density soil * kd)%cs al at_ w rate ∧
       (∀ k, k ≠ id_of_soil soil → soil_params_kept tc tc' k) ∧
       other_members_kept tc tc').
Proof.
  intros Hc. unfold cs_gwf_set_main_tracer_param. split.
  - by intros ->.
  - intros soil -> Hroom. rewrite Hc. simpl.
    destruct (set_soil_param_run tc (id_of_soil soil) soil w al at_ kd rate
                Hroom) as (tc' & -> & Hat & Hne & _ & Hother).
    by exists tc'.
Qed.

End Setter.

(** * More on the precipitation and dissolution update *)

(** X3: [_update_precipitation_vb] leaves an equilibrium as it is.  When
    no vertex is above its saturated concentration, no slot holds
    precipitate and the values received from the other ranks do not exceed
    the local ones, the run returns the dissolved and the precipitated
    concentrations that it was given. *)
Theorem _update_precipitation_vb_equilibrium (g : cs_glob_t R)
    (tracer : cs_gwf_tracer_t R) (t_eval : R) (connect : cs_cdo_connect_t R)
    (quant : cs_cdo_quantities_t R) (tc : cs_gwf_tracer_context_t R)
    (c_sat c_p theta field_val : list R) :
  precip_wf g tracer connect quant tc c_sat c_p theta field_val →
  (∀ v x sat, vertex_values (tr_eq tracer) !! v = Some x →
              c_sat !! v = Some sat → (x <= sat)%R) →
  (∀ j x, c_p !! j = Some x → (x <= 0)%R) →
  (∀ itf k p x, interfaces_VTX_SCAL connect = Some itf → itf !! k = Some p →
                vertex_values (tr_eq tracer) !! p.1 = Some x →
                (p.2 <= x)%R) →
  ∃ field_val',
    _update_precipitation_vb g tracer t_eval connect quant
    = Done (set_context
              (set_vertex_values tracer (vertex_values (tr_eq tracer)))
              (set_precip tc (Some c_p) (Some c_sat)
                 (Some {| val := field_val' |}))).
Proof.
  intros Hwf Hle Hnone Hitf.
  destruct (slots_loop_pres (cs_gwf_get_n_soils g) (precip_prelude g tc)
              (precip_cellpre (c2v connect) (Some theta))
              (precip_slot (c2v connect) c_sat
                 (take (n_vertices quant) (vertex_values (tr_eq tracer))))
              (precip_Hpre _ _ _ _ _ _ _ _ _ Hwf)
              (fun st => st = (vertex_values (tr_eq tracer), c_p))
              (vertex_values (tr_eq tracer), c_p))
    as (st & Hloop & ->).
  - intros s i j z rho c theta_c lo hi st Hs Hp Hi Hc Hx Hj ->.
    destruct (precip_slot_visit _ _ _ _ _ _ _ _ _ Hwf s i j z rho theta_c
                c lo hi (vertex_values (tr_eq tracer)) c_p Hp Hi Hc Hx Hj)
      as (v & sat & cws & cpj & cwv & Hvn & Hv & Hsat & Hcws & Hcpj & Hcwv
          & _ & _ & _ & ->); [done |].
    assert (cwv = cws) as -> by congruence.
    destruct (slot_idle rho theta_c sat cws cpj cws) as [-> ->];
      [by eapply Hle | by eapply Hnone |].
    eexists. split; [done |]. by rewrite !list_insert_id.
  - done.
  - destruct (precip_finish _ _ _ _ _ _ _ _ _ Hwf t_eval _ _ Hloop)
      as (c_w' & fv' & Hrun & Hlen & HP); [done |].
    exists fv'. rewrite Hrun.
    assert (c_w' = vertex_values (tr_eq tracer)) as ->; [| done].
    apply (HP (fun var => var = vertex_values (tr_eq tracer))); [done |].
    intros itf k p var x Hi Hk _ Hx ->.
    apply list_insert_id. rewrite Hx. f_equal.
    pose proof (Hitf itf k p x Hi Hk Hx). r_ops.
    destruct (Rlt_dec _ _); [done | lra].
Qed.


Section Field.
Context {real : Type} {ops : cs_real_ops real}.

Lemma dual_sum_step (dv c_p : list real) (lo k : nat) :
  lo ≤ k →
  dual_sum dv c_p lo (S k)
  = (dual_sum dv c_p lo k + dv !!! k * c_p !!! k)%cs.
Proof.
  intros Hk. unfold dual_sum.
  replace (S k - lo) with (S (k - lo)) by lia.
  rewrite seq_S, foldl_app. simpl. by replace (lo + (k - lo)) with k by lia.
Qed.

Lemma dual_sum_ext (dv c_p c_p' : list real) (lo hi : nat) :
  (∀ j, lo ≤ j < hi → c_p' !!! j = c_p !!! j) →
  dual_sum dv c_p' lo hi = dual_sum dv c_p lo hi.
Proof.
  intros Hext. destruct (decide (lo ≤ hi)) as [Hle | Hgt].
  - induction Hle as [|hi Hle IH]; [unfold dual_sum; by rewrite Nat.sub_diag |].
    rewrite !dual_sum_step by done. rewrite IH by (intros; apply Hext; lia).
    by rewrite Hext by lia.
  - unfold dual_sum. by replace (hi - lo) with 0 by lia.
Qed.

Lemma precip_field_update_spec (c2v : cs_adjacency_t)
    (quant : cs_cdo_quantities_t real) (c_p field_val : list real) :
  (∀ c, c < n_cells quant →
      c < length field_val ∧ c < length (cell_vol quant) ∧
      c + 1 < length (idx c2v) ∧
      ∀ j, cell_slot c2v c j →
           j < length c_p ∧ j < length (dcell_vol quant)) →
  ∃ field_val',
    precip_field_update c2v quant c_p field_val = Done field_val' ∧
    length field_val' = length field_val ∧
    (∀ c lo hi, c < n_cells quant →
       idx c2v !! c = Some lo → idx c2v !! (c + 1) = Some hi →
       field_val' !! c
       = Some (dual_sum (dcell_vol quant) c_p lo hi
               / cell_vol quant !!! c)%cs) ∧
    (∀ c, n_cells quant ≤ c → field_val' !! c = field_val !! c).
Proof.
  intros Hwf. unfold precip_field_update.
  destruct (for_range_inv (fun n fv =>
      length fv = length field_val ∧
      (∀ c lo hi, c < n →
         idx c2v !! c = Some lo → idx c2v !! (c + 1) = Some hi →
         fv !! c = Some (dual_sum (dcell_vol quant) c_p lo hi
                         / cell_vol quant !!! c)%cs) ∧
      (∀ c, n ≤ c → fv !! c = field_val !! c))
              (fun c_id field_val =>
                 field_val ← wr field_val c_id real_0;
                 lo ← rd (idx c2v) c_id;
                 hi ← rd (idx c2v) (c_id + 1);
                 field_val ← for_range lo hi (fun j field_val =>
                   x ← rd field_val c_id;
                   dv ← rd (dcell_vol quant) j;
                   cpj ← rd c_p j;
                   wr field_val c_id (x + dv * cpj)%cs) field_val;
                 x ← rd field_val c_id;
                 cv ← rd (cell_vol quant) c_id;
                 wr field_val c_id (x / cv)%cs)
              0 (n_cells quant) field_val) as (fv' & Hrun & Hfv');
    [lia | | | by exists fv'].
  { split; [done |]. split; [lia | done]. }
  intros c fv [_ Hc] (Hlen & Hdone & Hrest).
  destruct (Hwf c Hc) as (Hfv & Hcv & Hidx & Hslots).
  rewrite wr_lt by lia. simpl.
  destruct (rd_lt (idx c2v) c) as (lo & Hlo & ->); [lia |]. simpl.
  destruct (rd_lt (idx c2v) (c + 1)) as (hi & Hhi & ->); [lia |]. simpl.
  unfold for_range at 1.
  destruct (for_loop_inv (fun k fv1 =>
      length fv1 = length field_val ∧
      fv1 !! c = Some (dual_sum (dcell_vol quant) c_p lo k) ∧
      ∀ c', c' ≠ c → fv1 !! c' = fv !! c')
              (fun j field_val =>
                 x ← rd field_val c;
                 dv ← rd (dcell_vol quant) j;
                 cpj ← rd c_p j;
                 wr field_val c (x + dv * cpj)%cs)
              (hi - lo) lo (<[c:=real_0]> fv))
    as (fv1 & -> & Hlen1 & Hsum & Hoth).
  - rewrite length_insert. split; [done |]. split.
    + rewrite list_lookup_insert_eq by lia. unfold dual_sum.
      by rewrite Nat.sub_diag.
    + intros c' Hc'. by rewrite list_lookup_insert_ne.
  - intros j fv1 Hj (Hlen1 & Hsum & Hoth).
    destruct (Hslots j) as [Hjp Hjd]; 
      [exists lo, hi; split; [done | split; [done | lia]] |].
    rewrite (rd_lookup _ _ _ Hsum). simpl.
    destruct (rd_lt (dcell_vol quant) j) as (dv & Hdv & ->); [lia |]. simpl.
    destruct (rd_lt c_p j) as (cpj & Hcpj & ->); [lia |]. simpl.
    rewrite wr_lt by lia. eexists. split; [done |].
    rewrite length_insert. split; [done |]. split.
    + rewrite list_lookup_insert_eq by lia.
      rewrite dual_sum_step by lia.
      by rewrite (list_lookup_total_correct _ _ _ Hdv),
                 (list_lookup_total_correct _ _ _ Hcpj).
    + intros c' Hc'. rewrite list_lookup_insert_ne by done. by apply Hoth.
  - simpl. rewrite (rd_lookup _ _ _ Hsum). simpl.
    destruct (rd_lt (cell_vol quant) c) as (cv & Hcv' & ->); [lia |]. simpl.
    rewrite wr_lt by lia. eexists. split; [done |].
    rewrite length_insert. split; [done |]. split.
    + intros c' lo' hi' Hc' Hlo' Hhi'.
      destruct (decide (c' = c)) as [-> | Hne].
      * rewrite list_lookup_insert_eq by lia.
        assert (lo' = lo) as -> by congruence.
        assert (hi' = hi) as -> by congruence.
        rewrite (list_lookup_total_correct _ _ _ Hcv').
        destruct (decide (lo ≤ hi)) as [Hle | Hgt].
        -- by replace (lo + (hi - lo)) with hi by lia.
        -- unfold dual_sum.
           replace (lo + (hi - lo) - lo) with 0 by lia.
           by replace (hi - lo) with 0 by lia.
      * rewrite list_lookup_insert_ne by done. rewrite Hoth by done.
        apply Hdone; [lia | done | done].
    + intros c' Hc'. rewrite list_lookup_insert_ne by lia.
      rewrite Hoth by lia. apply Hrest. lia.
Qed.

End Field.

Section Field_run.
Context {real : Type} {ops : cs_real_ops real}.

(** Whatever the run does to [c_w] and [c_p], the precipitate field it
    returns is computed from the updated [c_p]. *)
Lemma _update_precipitation_vb_field_inv (g : cs_glob_t real)
    (tracer tracer' : cs_gwf_tracer_t real) (t_eval : real)
    (connect : cs_cdo_connect_t real) (quant : cs_cdo_quantities_t real) :
  _update_precipitation_vb g tracer t_eval connect quant = Done tracer' →
  ∃ tc pf tc' c_p' fv',
    context tracer = Some tc ∧ precip_field tc = Some pf ∧
    context tracer' = Some tc' ∧ conc_precip tc' = Some c_p' ∧
    precip_field tc' = Some {| val := fv' |} ∧
    precip_field_update (c2v connect) quant c_p' (val pf) = Done fv'.
Proof.
  rewrite _update_precipitation_vb_as_soil_cells_loop. intros H.
  apply bind_Done in H as (tc & Htc & H).
  apply bind_Done in H as (sat & Hsat & H).
  apply bind_Done in H as (c_p & Hcp & H).
  apply bind_Done in H as (c_w_save & Hsave & H).
  apply bind_Done in H as ([c_w1 c_p1] & Hloop & H).
  apply bind_Done in H as (c_w' & Hsync & H).
  apply bind_Done in H as (pf & Hpf & H).
  apply bind_Done in H as (fv' & Hfv & H).
  injection H as <-.
  exists tc, pf, (set_precip tc (Some c_p1) (Some sat) (Some {| val := fv' |})),
    c_p1, fv'.
  destruct (context tracer); [| done]. injection Htc as ->.
  destruct (precip_field tc); [| done]. injection Hpf as ->.
  done.
Qed.

(** X5: the precipitate field that [_update_precipitation_vb] stores.  In
    every cell it is the sum, over the slots of the cell, of the dual volume
    times the updated precipitate, divided by the volume of the cell; the
    entries past the cells and the length of the field are kept. *)
Theorem _update_precipitation_vb_precip_field (g : cs_glob_t real)
    (tracer : cs_gwf_tracer_t real) (t_eval : real)
    (connect : cs_cdo_connect_t real) (quant : cs_cdo_quantities_t real)
    (tc : cs_gwf_tracer_context_t real)
    (c_sat c_p theta field_val : list real) :
  precip_wf g tracer connect quant tc c_sat c_p theta field_val →
  ∃ c_w' c_p' field_val',
    _update_precipitation_vb g tracer t_eval connect quant
    = Done (set_context (set_vertex_values tracer c_w')
              (set_precip tc (Some c_p') (Some c_sat)
                 (Some {| val := field_val' |}))) ∧
    length field_val' = length field_val ∧
    (∀ c lo hi, c < n_cells quant →
       idx (c2v connect) !! c = Some lo →
       idx (c2v connect) !! (c + 1) = Some hi →
       field_val' !! c
       = Some (dual_sum (dcell_vol quant) c_p' lo hi
               / cell_vol quant !!! c)%cs) ∧
    (∀ c, n_cells quant ≤ c → field_val' !! c = field_val !! c).
Proof.
  intros Hwf.
  destruct (slots_loop_pres (cs_gwf_get_n_soils g) (precip_prelude g tc)
              (precip_cellpre (c2v connect) (Some theta))
              (precip_slot (c2v connect) c_sat
                 (take (n_vertices quant) (vertex_values (tr_eq tracer))))
              (precip_Hpre _ _ _ _ _ _ _ _ _ Hwf)
              (fun st => length st.1 = length (vertex_values (tr_eq tracer))
                         ∧ length st.2 = length c_p)
              (vertex_values (tr_eq tracer), c_p))
    as ([c_w1 c_p1] & Hloop & Hsized); [| done |].
  { intros s i j z rho c theta_c lo hi [c_w2 c_p2] Hs Hp Hi Hc Hx Hj Hsz.
    destruct (precip_slot_visit _ _ _ _ _ _ _ _ _ Hwf s i j z rho theta_c
                c lo hi c_w2 c_p2 Hp Hi Hc Hx Hj Hsz)
      as (v & sat & cws & cpj & cwv & _ & _ & _ & _ & _ & _ & _ & _ & _
          & ->).
    eexists. split; [done |]. simpl in *. by rewrite !length_insert. }
  destruct (precip_finish _ _ _ _ _ _ _ _ _ Hwf t_eval c_w1 c_p1 Hloop
              Hsized) as (c_w' & fv' & Hrun & _).
  exists c_w', c_p1, fv'. split; [done |].
  destruct (_update_precipitation_vb_field_inv _ _ _ _ _ _ Hrun)
    as (tc0 & pf & tc' & c_p' & fv2 & Htc0 & Hpf & Htc' & Hcp' & Hfv2 & Hupd).
  simpl in Htc'. injection Htc' as <-. simpl in Hcp', Hfv2.
  injection Hcp' as <-. injection Hfv2 as <-.
  rewrite (wf_context _ _ _ _ _ _ _ _ _ Hwf) in Htc0. injection Htc0 as <-.
  rewrite (wf_field _ _ _ _ _ _ _ _ _ Hwf) in Hpf. injection Hpf as <-.
  destruct (precip_field_update_spec (c2v connect) quant c_p1 field_val)
    as (fv3 & Hfv3 & Hspec).
  { intros c Hc.
    destruct (wf_step3 _ _ _ _ _ _ _ _ _ Hwf c Hc) as (? & ? & ? & Hs).
    repeat (split; [done |]). intros j Hj. destruct Hsized as [_ Hlp].
    simpl in Hlp. rewrite Hlp. by apply Hs. }
  simpl in Hupd. rewrite Hupd in Hfv3. by injection Hfv3 as <-.
Qed.

End Field_run.

(** * Integrals of the tracer *)

Section Loops_more.
Context {St : Type}.

Lemma for_loop_ext_in (body body' : nat → St → outcome St) (n lo : nat)
    (s : St) :
  (∀ k st, lo ≤ k < lo + n → body k st = body' k st) →
  for_loop lo n body s = for_loop lo n body' s.
Proof.
  revert lo s. induction n as [|n IH]; intros lo s Hext; [done |].
  simpl. rewrite Hext by lia.
  destruct (body' lo s); simpl; [| done..].
  apply IH. intros k st Hk. apply Hext. lia.
Qed.

Lemma for_range_ext_in (body body' : nat → St → outcome St) (lo hi : nat)
    (s : St) :
  (∀ k st, lo ≤ k < hi → body k st = body' k st) →
  for_range lo hi body s = for_range lo hi body' s.
Proof.
  intros Hext. apply for_loop_ext_in. intros k st Hk. apply Hext. lia.
Qed.

End Loops_more.

Section Integrate.
Context {real : Type} {ops : cs_real_ops real}.

(** X6: [cs_gwf_tracer_integrate_sat] and [cs_gwf_tracer_integrate] have
    the same outcome (the same value, or the same failure) for the CDO-Vb
    and CDO-VCb schemes when the liquid saturation of every cell of the zone
    is the saturated moisture of the soil of the cell. *)
Theorem cs_gwf_tracer_integrate_sat_agree (g : cs_glob_t real)
    (connect : cs_cdo_connect_t real) (cdoq : cs_cdo_quantities_t real)
    (tracer : cs_gwf_tracer_t real) (z : cs_zone_t)
    (tc : cs_gwf_tracer_context_t real) (moisture_val : list real) :
  context tracer = Some tc →
  l_saturation tc = Some moisture_val →
  space_scheme (tr_eq tracer) = CS_SPACE_SCHEME_CDOVB ∨
  space_scheme (tr_eq tracer) = CS_SPACE_SCHEME_CDOVCB →
  (∀ i c, i < n_elts z → zone_elt z i = Done c →
     ∃ s soil, cell2soil g !! c = Some s ∧ soils g !! s = Some soil ∧
               moisture_val !! c = Some (saturated_moisture soil)) →
  cs_gwf_tracer_integrate_sat g connect cdoq tracer z
  = cs_gwf_tracer_integrate g connect cdoq tracer z.
Proof.
  intros Hc Hm Hscheme Hsat.
  unfold cs_gwf_tracer_integrate_sat, cs_gwf_tracer_integrate.
  rewrite Hc. simpl. rewrite Hm. simpl.
  destruct Hscheme as [-> | ->]; f_equal.
  - apply for_range_ext_in. intros i x [_ Hi].
    destruct (zone_elt z i) as [c| |] eqn:Hz; simpl; [| done..].
    destruct (Hsat i c Hi Hz) as (s & soil & Hs & Hsoil & Hmc).
    unfold cs_gwf_get_cell2soil. rewrite (rd_lookup _ _ _ Hs). simpl.
    unfold cs_gwf_soil_get_saturated_moisture.
    rewrite (rd_lookup _ _ _ Hsoil), (rd_lookup _ _ _ Hmc). simpl.
    destruct (rd (idx (c2v connect)) c); simpl; [| done..].
    destruct (rd (idx (c2v connect)) (c + 1)); simpl; [| done..].
    by destruct (for_range _ _ _ _).
  - apply for_range_ext_in. intros i x [_ Hi].
    destruct (zone_elt z i) as [c| |] eqn:Hz; simpl; [| done..].
    destruct (Hsat i c Hi Hz) as (s & soil & Hs & Hsoil & Hmc).
    unfold cs_gwf_get_cell2soil. rewrite (rd_lookup _ _ _ Hs). simpl.
    unfold cs_gwf_soil_get_saturated_moisture.
    rewrite (rd_lookup _ _ _ Hsoil), (rd_lookup _ _ _ Hmc). simpl.
    destruct (rd (cell_vol cdoq) c); simpl; [| done..].
    destruct (rd (cell_values (tr_eq tracer)) c); simpl; [| done..].
    destruct (rd (idx (c2v connect)) c); simpl; [| done..].
    destruct (rd (idx (c2v connect)) (c + 1)); simpl; [| done..].
    by destruct (for_range _ _ _ _).
Qed.

End Integrate.

Lemma dual_volume_step (dv : list R) (lo k : nat) :
  lo ≤ k → dual_volume dv lo (S k) = (dual_volume dv lo k + dv !!! k)%R.
Proof.
  intros Hk. unfold dual_volume.
  replace (S k - lo) with (S (k - lo)) by lia.
  rewrite seq_S, foldl_app. simpl. by replace (lo + (k - lo)) with k by lia.
Qed.

Lemma dual_volume_end (dv : list R) (lo hi : nat) :
  dual_volume dv lo (lo + (hi - lo)) = dual_volume dv lo hi.
Proof.
  destruct (decide (lo ≤ hi)).
  - by replace (lo + (hi - lo)) with hi by lia.
  - unfold dual_volume. replace (lo + (hi - lo) - lo) with 0 by lia.
    by replace (hi - lo) with 0 by lia.
Qed.

Lemma zone_elt_selected (z : cs_zone_t) (i c : nat) :
  zone_elt z i = Done c → c = selected (elt_ids z) i.
Proof.
  unfold zone_elt, selected. destruct (elt_ids z) as [l|].
  - intros H%rd_Done. by rewrite (list_lookup_total_correct _ _ _ H).
  - by intros [= ->].
Qed.

(** X7: the integral of a constant.  For a tracer whose value is [k] at
    the vertices (and, for CDO-VCb, in the cells) of the zone, on one rank
    and on a mesh where the dual volumes of each cell add up to the volume
    of the cell, [cs_gwf_tracer_integrate] returns [k] times the sum over
    the cells of the zone of [(theta + rho_kd) * |c|]. *)
Theorem cs_gwf_tracer_integrate_constant (g : cs_glob_t R)
    (connect : cs_cdo_connect_t R) (cdoq : cs_cdo_quantities_t R)
    (tracer : cs_gwf_tracer_t R) (z : cs_zone_t)
    (tc : cs_gwf_tracer_context_t R) (theta : list R) (k : R) :
  context tracer = Some tc →
  l_saturation tc = Some theta →
  space_scheme (tr_eq tracer) = CS_SPACE_SCHEME_CDOVB ∨
  (space_scheme (tr_eq tracer) = CS_SPACE_SCHEME_CDOVCB ∧
   ∀ i, i < n_elts z →
        cell_values (tr_eq tracer) !! selected (elt_ids z) i = Some k) →
  cs_glob_n_ranks g ≤ 1 →
  (∀ i, i < n_elts z →
        integrable_cell g connect cdoq tc theta (vertex_values (tr_eq tracer))
          z k i) →
  cs_gwf_tracer_integrate g connect cdoq tracer z
  = Done (k * sum_upto (n_elts z)
                (fun i => cell_capacity g cdoq tc theta
                            (selected (elt_ids z) i)))%R.
Proof.
  intros Hc Hth Hscheme Hranks Hcells. unfold cs_gwf_tracer_integrate.
  rewrite Hc. simpl. rewrite Hth. simpl.
  destruct (decide (1 < cs_glob_n_ranks g)) as [? | _]; [lia |].
  set (f := fun i => cell_capacity g cdoq tc theta (selected (elt_ids z) i)).
  (* the slots of a cell *)
  assert (Hslots : ∀ (a init : R) lo hi
            (body : nat → R → outcome R),
            (∀ j acc, body j acc
               = (dv ← rd (dcell_vol cdoq) j;
                  v_id ← rd (ids (c2v connect)) j;
                  vv ← rd (vertex_values (tr_eq tracer)) v_id;
                  Done (acc + a * dv * vv)%R)) →
            (∀ j, lo ≤ j < hi →
               j < length (dcell_vol cdoq) ∧
               ∃ v, ids (c2v connect) !! j = Some v ∧
                    vertex_values (tr_eq tracer) !! v = Some k) →
            for_range lo hi body init
            = Done (init + a * k * dual_volume (dcell_vol cdoq) lo hi)%R).
  { intros a init lo hi body Hbody Hj. unfold for_range.
    destruct (for_loop_inv (fun n acc =>
                acc = (init + a * k * dual_volume (dcell_vol cdoq) lo n)%R)
                body (hi - lo) lo init) as (r & -> & ->).
    - unfold dual_volume. rewrite Nat.sub_diag. simpl. lra.
    - intros j acc Hjr ->. rewrite Hbody.
      destruct (Hj j) as (Hdv & v & Hv & Hk); [lia |].
      destruct (rd_lt (dcell_vol cdoq) j Hdv) as (dv & Hdv' & ->). simpl.
      rewrite (rd_lookup _ _ _ Hv). simpl.
      rewrite (rd_lookup _ _ _ Hk). simpl.
      eexists. split; [done |]. rewrite dual_volume_step by lia.
      rewrite (list_lookup_total_correct _ _ _ Hdv'). lra.
    - by rewrite dual_volume_end. }
  destruct Hscheme as [-> | [-> Hcv]].
  - match goal with
    | |- context [for_range 0 (n_elts z) ?b ?init] =>
        destruct (for_range_inv (fun n acc => acc = (k * sum_upto n f)%R)
                    b 0 (n_elts z) init) as (r & -> & ->);
          [lia | simpl; lra | | done]
    end.
    intros i acc [_ Hi] ->.
    destruct (Hcells i Hi)
      as (c & lo & hi & s & Hz & Hlo & Hhi & Hm & Hs & Hrk & Hvol & Hdual
          & Hj).
    rewrite Hz. simpl.
    rewrite (rd_lookup _ _ _ Hlo), (rd_lookup _ _ _ Hhi). simpl.
    rewrite (Hslots 1%R 0%R lo hi); [| | done].
    2:{ intros j acc. simpl.
        destruct (rd (dcell_vol cdoq) j); simpl; [| done..].
        destruct (rd (ids (c2v connect)) j); simpl; [| done..].
        destruct (rd (vertex_values (tr_eq tracer)) _); simpl; [| done..].
        f_equal. lra. }
    simpl. destruct (rd_lt theta c Hm) as (m & Hm' & ->). simpl.
    unfold cs_gwf_get_cell2soil. rewrite (rd_lookup _ _ _ Hs). simpl.
    destruct (rd_lt (rho_kd tc) s Hrk) as (rk & Hrk' & ->). simpl.
    eexists. split; [done |].
    assert (Hfi : f i = ((m + rk) * cell_vol cdoq !!! c)%R).
    { unfold f, cell_capacity. rewrite <- (zone_elt_selected z i c) by done.
      by rewrite (list_lookup_total_correct _ _ _ Hm'),
                 (list_lookup_total_correct _ _ _ Hs),
                 (list_lookup_total_correct _ _ _ Hrk'). }
    simpl. rewrite Hfi, <- Hdual. lra.
  - match goal with
    | |- context [for_range 0 (n_elts z) ?b ?init] =>
        destruct (for_range_inv (fun n acc => acc = (k * sum_upto n f)%R)
                    b 0 (n_elts z) init) as (r & -> & ->);
          [lia | simpl; lra | | done]
    end.
    intros i acc [_ Hi] ->.
    destruct (Hcells i Hi)
      as (c & lo & hi & s & Hz & Hlo & Hhi & Hm & Hs & Hrk & Hvol & Hdual
          & Hj).
    rewrite Hz. simpl.
    destruct (rd_lt (cell_vol cdoq) c Hvol) as (cv & Hcv' & ->). simpl.
    pose proof (Hcv i Hi) as Hcc.
    rewrite <- (zone_elt_selected z i c Hz) in Hcc.
    rewrite (rd_lookup _ _ _ Hcc). simpl.
    rewrite (rd_lookup _ _ _ Hlo), (rd_lookup _ _ _ Hhi). simpl.
    rewrite (Hslots (3 / 4)%R (1 / 4 * cv * k)%R lo hi); [| done | done].
    simpl. destruct (rd_lt theta c Hm) as (m & Hm' & ->). simpl.
    unfold cs_gwf_get_cell2soil. rewrite (rd_lookup _ _ _ Hs). simpl.
    destruct (rd_lt (rho_kd tc) s Hrk) as (rk & Hrk' & ->). simpl.
    eexists. split; [done |].
    assert (Hfi : f i = ((m + rk) * cv)%R).
    { unfold f, cell_capacity. rewrite <- (zone_elt_selected z i c) by done.
      by rewrite (list_lookup_total_correct _ _ _ Hm'),
                 (list_lookup_total_correct _ _ _ Hs),
                 (list_lookup_total_correct _ _ _ Hrk'),
                 (list_lookup_total_correct _ _ _ Hcv'). }
    simpl. rewrite Hfi, Hdual, (list_lookup_total_correct _ _ _ Hcv'). lra.
Qed.

(** * Set-up of the precipitation *)

(** The run of [_add_precipitation]: any property [Q] of the saturated
    concentrations of the soils that the min-synchronisation keeps holds
    for every entry of the table. *)
Lemma add_precipitation_table (g : cs_glob_t R)
    (connect : cs_cdo_connect_t R) (quant : cs_cdo_quantities_t R)
    (tracer : cs_gwf_tracer_t R) (uninit : nat → R)
    (tc : cs_gwf_tracer_context_t R) (w_star : list R) (Q : R → Prop) :
  satura_wf g tracer connect quant tc w_star →
  (∀ s, s < cs_gwf_get_n_soils g → Q (w_star !!! s)) →
  (∀ itf k p x, interfaces_VTX_SCAL connect = Some itf →
                itf !! k = Some p → Q x → Q (CS_MIN x p.2)) →
  ∃ a satura,
    idx (c2v connect) !! n_cells quant = Some a ∧
    _add_precipitation g connect quant tracer uninit
    = Done (set_context tracer
              (set_precip tc
                 (Some (replicate
                          (match space_scheme (tr_eq tracer) with
                           | CS_SPACE_SCHEME_CDOVCB => a + n_cells quant
                           | _ => a
                           end) 0%R))
                 (Some satura) (precip_field tc))) ∧
    length satura = n_vertices quant ∧
    ∀ v, v < n_vertices quant → ∃ x, satura !! v = Some x ∧ Q x.
Proof.
  intros Hwf HQ Hsync.
  destruct (lookup_lt_is_Some_2 (idx (c2v connect)) (n_cells quant))
    as [a Ha]; [by eapply sw_size |].
  exists a.
  rewrite (_add_precipitation_unfold g connect quant tracer uninit tc a
             (sw_scheme _ _ _ _ _ _ Hwf) (sw_context _ _ _ _ _ _ Hwf) Ha).
  rewrite (sw_w_star _ _ _ _ _ _ Hwf).
  pose proof (sw_n_soils _ _ _ _ _ _ Hwf) as Hn.
  set (nv := n_vertices quant).
  destruct (for_range_inv (fun k satura =>
      length satura = nv ∧
      (0 < k → ∀ v, v < nv → ∃ x, satura !! v = Some x ∧ Q x))
      (fun soil_id satura =>
         soil ← cs_gwf_soil_by_id g soil_id;
         c_sat ← rdp (Some w_star) (id_of_soil soil);
         if decide (soil_id = 0) then satura_init nv c_sat satura
         else
           z ← cs_volume_zone_by_id g (zone_id soil);
           elt_ids ← deref (elt_ids z);
           satura_pass (c2v connect) z elt_ids c_sat satura)
      0 (cs_gwf_get_n_soils g) (uninit <$> seq 0 nv))
    as (satura & Hrun & Hlen & Hall); [lia | | |].
  - split; [by rewrite length_fmap, length_seq | lia].
  - intros k sat [_ Hk] [Hls Hprev].
    pose proof (HQ k Hk) as HQk. unfold cs_gwf_get_n_soils in Hk, Hn.
    destruct (lookup_lt_is_Some_2 (soils g) k Hk) as [soil Hsoil].
    unfold cs_gwf_soil_by_id. rewrite (rd_lookup _ _ _ Hsoil). simpl.
    rewrite (sw_ids _ _ _ _ _ _ Hwf k soil Hsoil).
    rewrite (rdp_lookup w_star k (w_star !!! k))
      by (apply list_lookup_lookup_total_lt; lia).
    simpl. case_decide as Hk0.
    + subst k.
      destruct (satura_init_run nv (w_star !!! 0) sat Hls)
        as (sat' & -> & Hls' & Hinit).
      exists sat'. split; [done |]. split; [done |]. intros _ v Hv.
      exists (w_star !!! 0). split; [by apply Hinit | done].
    + destruct (sw_soils _ _ _ _ _ _ Hwf k soil Hsoil) as (z & Hz & Hzl).
      destruct (sw_zones _ _ _ _ _ _ Hwf k soil z) as [l Hl];
        [lia | done | done |].
      unfold cs_volume_zone_by_id. rewrite (rd_lookup _ _ _ Hz). simpl.
      rewrite Hl. simpl.
      destruct (satura_pass_spec g (c2v connect) nv k soil z l
                  (w_star !!! k) sat Hsoil Hz Hl (Hzl l Hl))
        as (sat' & -> & Hls' & Hpass); [| done |].
      { intros c Hc. apply (sw_cells _ _ _ _ _ _ Hwf k c); [lia | done]. }
      exists sat'. split; [done |]. split; [done |]. intros _ v Hv.
      destruct (Hprev ltac:(lia) v Hv) as (x0 & Hx0 & HQ0).
      destruct (Hpass v Hv) as (x & x0' & Hx0' & Hx & _ & _ & Hcase).
      assert (x0' = x0) as -> by congruence.
      exists x. split; [done |]. by destruct Hcase as [-> | [-> _]].
  - rewrite Hrun. simpl.
    assert (Hfin : ∀ v, v < nv → ∃ x, satura !! v = Some x ∧ Q x).
    { apply Hall. lia. }
    destruct (interfaces_VTX_SCAL connect) as [itf|] eqn:Hitf.
    + destruct (cs_interface_set_min_inv
                  (fun var => ∀ v, v < nv → ∃ x, var !! v = Some x ∧ Q x)
                  itf satura) as (satura' & -> & Hlen' & HQ').
      * intros k p Hp. rewrite Hlen. by eapply sw_itf.
      * done.
      * intros k p var x Hp Hlv Hx Hvar v Hv.
        destruct (Hvar v Hv) as (y & Hy & HQy).
        destruct (decide (p.1 = v)) as [Hpv | Hne].
        -- rewrite Hpv in *. assert (y = x) as -> by congruence.
           exists (CS_MIN x p.2).
           split; [apply list_lookup_insert_eq; lia | by eapply Hsync].
        -- exists y. by rewrite list_lookup_insert_ne.
      * simpl. exists satura'. split; [done |]. split; [done |].
        split; [lia | done].
    + simpl. exists satura. split; [done |]. split; [done |]. by split.
Qed.

(** X8: [_add_precipitation] starts without precipitate.  The array
    [conc_precip] that it allocates has one entry for each (cell, vertex)
    slot, that is [c2v->idx[n_cells]] entries, and [n_cells] more for
    CDO-VCb; every entry is zero, whatever the allocation held; the
    precipitate field of the context is kept. *)
Theorem _add_precipitation_conc_precip (g : cs_glob_t R)
    (connect : cs_cdo_connect_t R) (quant : cs_cdo_quantities_t R)
    (tracer : cs_gwf_tracer_t R) (uninit : nat → R)
    (tc : cs_gwf_tracer_context_t R) (w_star : list R) :
  satura_wf g tracer connect quant tc w_star →
  ∃ a satura,
    idx (c2v connect) !! n_cells quant = Some a ∧
    _add_precipitation g connect quant tracer uninit
    = Done (set_context tracer
              (set_precip tc
                 (Some (replicate
                          (match space_scheme (tr_eq tracer) with
                           | CS_SPACE_SCHEME_CDOVCB => a + n_cells quant
                           | _ => a
                           end) 0%R))
                 (Some satura) (precip_field tc))).
Proof.
  intros Hwf.
  destruct (add_precipitation_table g connect quant tracer uninit tc w_star
              (fun _ => True) Hwf) as (a & satura & Ha & Hrun & _);
    [done | done |].
  by exists a, satura.
Qed.

Section Precip_param.
Context {real : Type} {ops : cs_real_ops real}.
Variable bit : cs_gwf_tracer_model_t.

Lemma set_conc_w_star_run (tracer : cs_gwf_tracer_with_model_t real)
    (tc : cs_gwf_tracer_context_t real) (w : list real) (k : nat) (x : real) :
  context tracer = Some tc → conc_w_star tc = Some w → k < length w →
  set_conc_w_star tracer k x
  = Done {| tracer_members := set_context tracer (set_w_star tc (<[k:=x]> w));
            model := model tracer |}.
Proof.
  intros Hc Hw Hk. unfold set_conc_w_star. rewrite Hc. simpl.
  rewrite Hw. simpl. by rewrite wr_lt.
Qed.

Lemma set_context_set_context (tracer : cs_gwf_tracer_t real)
    (tc tc' : cs_gwf_tracer_context_t real) :
  set_context (set_context tracer tc) tc' = set_context tracer tc'.
Proof. done. Qed.

Lemma set_w_star_set_w_star (tc : cs_gwf_tracer_context_t real)
    (w w' : list real) :
  set_w_star (set_w_star tc w) w' = set_w_star tc w'.
Proof. done. Qed.

(** The loop on the soils of [cs_gwf_set_precip_tracer_param], stopped
    after [n] soils. *)
Lemma set_precip_tracer_param_loop (tracer : cs_gwf_tracer_with_model_t real)
    (tc : cs_gwf_tracer_context_t real) (w : list real) (x : real)
    (n : nat) :
  context tracer = Some tc → conc_w_star tc = Some w → n ≤ length w →
  ∃ w',
    for_range 0 n (fun soil_id tracer => set_conc_w_star tracer soil_id x)
      tracer
    = Done {| tracer_members := set_context tracer (set_w_star tc w');
              model := model tracer |} ∧
    length w' = length w ∧
    (∀ s, s < n → w' !! s = Some x) ∧
    (∀ s, n ≤ s → w' !! s = w !! s).
Proof.
  intros Hc Hw Hn.
  destruct (for_range_inv (fun n tr =>
      ∃ w1, tr = {| tracer_members := set_context tracer (set_w_star tc w1);
                    model := model tracer |} ∧
        length w1 = length w ∧
        (∀ s, s < n → w1 !! s = Some x) ∧
        (∀ s, n ≤ s → w1 !! s = w !! s))
      (fun soil_id tracer => set_conc_w_star tracer soil_id x)
      0 n tracer)
    as (tr' & Hrun & w' & -> & Hlen & Hset & Hkept); [lia | | | by exists w'].
  - exists w. split; [| split; [done | split; [lia | done]]].
    destruct tracer as [[eq d c] m]. simpl in *. subst c.
    unfold set_context, set_w_star. simpl. destruct tc. simpl in *.
    by subst.
  - intros s tr [_ Hs] (w1 & -> & Hlen1 & Hset1 & Hkept1).
    rewrite (set_conc_w_star_run _ (set_w_star tc w1) w1 s x)
      by (done || lia).
    eexists. split; [done |]. exists (<[s:=x]> w1). simpl.
    split; [done |]. split; [by rewrite length_insert |]. split.
    + intros s' Hs'. destruct (decide (s' = s)) as [-> | Hne].
      * apply list_lookup_insert_eq. lia.
      * rewrite list_lookup_insert_ne by done. apply Hset1. lia.
    + intros s' Hs'. rewrite list_lookup_insert_ne by lia.
      apply Hkept1. lia.
Qed.

(** X9: [cs_gwf_set_precip_tracer_param] called without a soil name, on a
    tracer whose model has the precipitation flag, sets the saturated
    concentration [conc_w_star] of every soil to the value given and keeps
    the entries past the soils, the other members of the context and the
    model of the tracer. *)
Theorem cs_gwf_set_precip_tracer_param_all_soils (g : cs_glob_t real)
    (tracer : cs_gwf_tracer_with_model_t real)
    (tc : cs_gwf_tracer_context_t real) (w : list real) (x : real) :
  Z.land (model tracer) bit ≠ 0%Z →
  context tracer = Some tc → conc_w_star tc = Some w →
  cs_gwf_get_n_soils g ≤ length w →
  ∃ w',
    cs_gwf_set_precip_tracer_param bit g (Some tracer) None x
    = Done {| tracer_members := set_context tracer (set_w_star tc w');
              model := model tracer |} ∧
    length w' = length w ∧
    (∀ s, s < cs_gwf_get_n_soils g → w' !! s = Some x) ∧
    (∀ s, cs_gwf_get_n_soils g ≤ s → w' !! s = w !! s).
Proof.
  intros Hbit Hc Hw Hn. unfold cs_gwf_set_precip_tracer_param.
  rewrite (proj2 (Z.eqb_neq _ _) Hbit).
  exact (set_precip_tracer_param_loop tracer tc w x (cs_gwf_get_n_soils g)
           Hc Hw Hn).
Qed.

(** X10: the guards of [cs_gwf_set_precip_tracer_param].  On a tracer
    whose model does not have the precipitation flag the function aborts
    with the message that the precipitation model has not been activated,
    whatever the soil name and the context.  With the flag and a soil name,
    it aborts with a message that gives the name when no soil has that
    name, and otherwise writes the value in the entry of that soil and in
    no other entry of [conc_w_star]. *)
Theorem cs_gwf_set_precip_tracer_param_named_soil (g : cs_glob_t real)
    (tracer : cs_gwf_tracer_with_model_t real) (soil_name : string)
    (x : real) :
  (Z.land (model tracer) bit = 0%Z →
   ∀ name, cs_gwf_set_precip_tracer_param bit g (Some tracer) name x
           = Abort (" cs_gwf_set_precip_tracer_param: Precipitation model"
                    ++ " has not been activated for this tracer")) ∧
  (Z.land (model tracer) bit ≠ 0%Z →
   (cs_gwf_soil_by_name g soil_name = None →
    cs_gwf_set_precip_tracer_param bit g (Some tracer) (Some soil_name) x
    = Abort (" Soil " ++ soil_name ++
             " not found among the predefined soils." ++ nl ++
             " Please check your settings.")) ∧
   (∀ soil tc w,
      cs_gwf_soil_by_name g soil_name = Some soil →
      context tracer = Some tc → conc_w_star tc = Some w →
      id_of_soil soil < length w →
      cs_gwf_set_precip_tracer_param bit g (Some tracer) (Some soil_name) x
      = Done {| tracer_members :=
                  set_context tracer
                    (set_w_star tc (<[id_of_soil soil:=x]> w));
                model := model tracer |})).
Proof.
  unfold cs_gwf_set_precip_tracer_param. split.
  - intros Hbit name. by rewrite Hbit.
  - intros Hbit. rewrite (proj2 (Z.eqb_neq _ _) Hbit). split.
    + by intros ->.
    + intros soil tc w -> Hc Hw Hid. by apply set_conc_w_star_run.
Qed.

End Precip_param.

(** X11: the two steps of the set-up of the precipitation compose.  After
    [cs_gwf_set_precip_tracer_param] has set the saturated concentration
    [x] for all the soils, [_add_precipitation] builds a table [conc_satura]
    with one entry for each vertex, all of them equal to [x] (the values
    received from the other ranks being at least [x]). *)
Theorem uniform_saturated_concentration (bit : cs_gwf_tracer_model_t)
    (g : cs_glob_t R) (connect : cs_cdo_connect_t R)
    (quant : cs_cdo_quantities_t R) (tracer : cs_gwf_tracer_with_model_t R)
    (uninit : nat → R) (tc : cs_gwf_tracer_context_t R) (w : list R)
    (x : R) :
  Z.land (model tracer) bit ≠ 0%Z →
  satura_wf g tracer connect quant tc w →
  (∀ itf k p, interfaces_VTX_SCAL connect = Some itf → itf !! k = Some p →
              (x <= p.2)%R) →
  ∃ tracer' tracer'' tc'' satura,
    cs_gwf_set_precip_tracer_param bit g (Some tracer) None x
    = Done tracer' ∧
    _add_precipitation g connect quant tracer' uninit = Done tracer'' ∧
    context tracer'' = Some tc'' ∧ conc_satura tc'' = Some satura ∧
    length satura = n_vertices quant ∧
    ∀ v, v < n_vertices quant → satura !! v = Some x.
Proof.
  intros Hbit Hwf Hitf.
  destruct (set_precip_tracer_param_loop tracer tc w x
              (cs_gwf_get_n_soils g)
              (sw_context _ _ _ _ _ _ Hwf) (sw_w_star _ _ _ _ _ _ Hwf))
    as (w' & Hset & Hlen & Hall & _);
    [apply (sw_n_soils _ _ _ _ _ _ Hwf) |].
  eexists. unfold cs_gwf_set_precip_tracer_param.
  rewrite (proj2 (Z.eqb_neq _ _) Hbit). rewrite Hset.
  destruct (add_precipitation_table g connect quant
              (set_context tracer (set_w_star tc w')) uninit
              (set_w_star tc w') w' (fun y => y = x))
    as (a & satura & Ha & Hrun & Hls & Hx).
  - destruct Hwf. split; try done. by rewrite Hlen.
  - intros s Hs. apply list_lookup_total_correct. by apply Hall.
  - intros itf k p y Hi Hk ->. pose proof (Hitf itf k p Hi Hk). r_ops.
    destruct (Rlt_dec x p.2); [done | lra].
  - simpl in Hrun. eexists _, _, satura. split; [done |].
    split; [exact Hrun |]. split; [done |]. split; [done |].
    split; [done |]. intros v Hv. by destruct (Hx v Hv) as (y & Hy & ->).
Qed.

(** * More on the diffusion tensor *)

(** Principal directions of the dispersion tensor. *)
Lemma vnorm_of_sqr (v : nat → R) :
  (vnorm_of v * vnorm_of v
   = v 0%nat * v 0%nat + v 1%nat * v 1%nat + v 2%nat * v 2%nat)%R.
Proof.
  unfold vnorm_of. r_ops. apply sqrt_sqrt.
  pose proof (Rle_0_sqr (v 0%nat)). pose proof (Rle_0_sqr (v 1%nat)).
  pose proof (Rle_0_sqr (v 2%nat)). unfold Rsqr in *. lra.
Qed.

Lemma dispersion_tensor_longitudinal (w theta a_l a_t thr : R)
    (v : nat → R) (i : nat) :
  (0 <= thr)%R → (thr < vnorm_of v)%R → i < 3 →
  tensor_apply (dispersion_tensor w theta a_l a_t thr v) v i
  = ((w * theta + a_l * vnorm_of v) * v i)%R.
Proof.
  intros Hthr Hv Hi. pose proof (vnorm_of_sqr v) as Hsq.
  unfold tensor_apply, dispersion_tensor, dispersion_delta.
  destruct (Rlt_dec thr (vnorm_of v)); [| lra].
  set (n := vnorm_of v) in *.
  assert (Hd : ∀ y, ((a_l - a_t) / n * y * (n * n) = (a_l - a_t) * n * y)%R).
  { intros y. field. lra. }
  destruct i as [|[|[|i]]]; [| | | lia]; simpl;
    match goal with
    | |- (_ = _ * ?y)%R => specialize (Hd y)
    end; rewrite Hsq in Hd; lra.
Qed.

Lemma dispersion_tensor_transverse (w theta a_l a_t thr : R)
    (v u : nat → R) (i : nat) :
  dot3 v u = 0%R → i < 3 →
  tensor_apply (dispersion_tensor w theta a_l a_t thr v) u i
  = ((w * theta + a_t * vnorm_of v) * u i)%R.
Proof.
  intros Horth Hi. unfold dot3 in Horth.
  unfold tensor_apply, dispersion_tensor.
  set (d := dispersion_delta a_l a_t thr (vnorm_of v)).
  set (n := vnorm_of v).
  destruct i as [|[|[|i]]]; [| | | lia]; simpl;
    match goal with
    | |- (?L = ?c * u ?k)%R =>
        assert (L - c * u k
                = d * v k * (v 0%nat * u 0%nat + v 1%nat * u 1%nat
                             + v 2%nat * u 2%nat))%R as Heq by ring;
        rewrite Horth in Heq; lra
    end.
Qed.

Lemma tensor_apply_ext (T T' : nat → nat → R) (u : nat → R) (i : nat) :
  (∀ j, j < 3 → T i j = T' i j) → tensor_apply T u i = tensor_apply T' u i.
Proof. intros H. unfold tensor_apply. by rewrite !H by lia. Qed.

Lemma stored_tensor_entries (values : list R) (c : nat)
    (T : nat → nat → R) (i j : nat) :
  cell_entries values c T → i < 3 → j < 3 → stored_tensor values c i j = T i j.
Proof.
  intros H Hi Hj. unfold stored_tensor.
  apply list_lookup_total_correct. by apply H.
Qed.

(** The entries stored for a cell that belongs to one soil only. *)
Lemma sat_diff_entries (g : cs_glob_t R) (tracer : cs_gwf_tracer_t R)
    (t_eval : R) (dfield dvf : cs_field_t R)
    (tc : cs_gwf_tracer_context_t R) :
  diffusivity tracer = Some dfield →
  context tracer = Some tc →
  darcy_velocity_field tc = Some dvf →
  diff_wf g tc (val dvf) (val dfield) →
  ∃ values',
    _update_sat_diff_pty g tracer t_eval
    = Done (set_diffusivity_val tracer values') ∧
    ∀ s c soil w a_t a_l,
      soil_cell g s c → (∀ s', soil_cell g s' c → s' = s) →
      soils g !! s = Some soil → wmd tc !! s = Some w →
      alpha_t tc !! s = Some a_t → alpha_l tc !! s = Some a_l →
      cell_entries values' c
        (dispersion_tensor w (saturated_moisture soil) a_l a_t
           (cs_math_zero_threshold g) (cell_velocity (val dvf) c)).
Proof.
  intros Hd Hc Hv Hwf.
  destruct (sat_diff_updater g tracer t_eval dfield dvf tc Hd Hc Hv Hwf)
    as (values' & Hrun & _ & HQ).
  exists values'. split; [done |].
  intros s c soil w a_t a_l Hsc Huniq Hsoil Hw Hat Hal.
  apply (HQ c (fun vals => cell_entries vals c _)); [by exists s | |].
  - intros vals vals' Hsame Hvals ki kj Hki Hkj.
    rewrite Hsame by lia. by apply Hvals.
  - intros s' soil' w' a_t' a_l' vals Hsc' Hsoil' Hw' Hat' Hal' Hvals.
    rewrite (Huniq s' Hsc') in *.
    assert (soil' = soil) as -> by congruence.
    assert (w' = w) as -> by congruence.
    assert (a_t' = a_t) as -> by congruence.
    assert (a_l' = a_l) as -> by congruence.
    intros ki kj Hki Hkj. rewrite (Hvals ki kj Hki Hkj).
    by rewrite cell_tensor_dispersion.
Qed.

Lemma diff_entries (g : cs_glob_t R) (tracer : cs_gwf_tracer_t R)
    (t_eval : R) (dfield dvf : cs_field_t R)
    (tc : cs_gwf_tracer_context_t R) (theta : list R) :
  diffusivity tracer = Some dfield →
  context tracer = Some tc →
  darcy_velocity_field tc = Some dvf →
  diff_wf g tc (val dvf) (val dfield) →
  l_saturation tc = Some theta →
  (∀ s c, soil_cell g s c → c < length theta) →
  ∃ values',
    _update_diff_pty g tracer t_eval
    = Done (set_diffusivity_val tracer values') ∧
    ∀ s c w a_t a_l,
      soil_cell g s c → (∀ s', soil_cell g s' c → s' = s) →
      wmd tc !! s = Some w →
      alpha_t tc !! s = Some a_t → alpha_l tc !! s = Some a_l →
      cell_entries values' c
        (dispersion_tensor w (theta !!! c) a_l a_t
           (cs_math_zero_threshold g) (cell_velocity (val dvf) c)).
Proof.
  intros Hd Hc Hv Hwf Hth Htheta.
  destruct (diff_updater g tracer t_eval dfield dvf tc theta Hd Hc Hv
              Hth Hwf Htheta) as (values' & Hrun & _ & HQ).
  exists values'. split; [done |].
  intros s c w a_t a_l Hsc Huniq Hw Hat Hal.
  apply (HQ c (fun vals => cell_entries vals c _)); [by exists s | |].
  - intros vals vals' Hsame Hvals ki kj Hki Hkj.
    rewrite Hsame by lia. by apply Hvals.
  - intros s' w' a_t' a_l' vals Hsc' Hw' Hat' Hal' Hvals.
    rewrite (Huniq s' Hsc') in *.
    assert (w' = w) as -> by congruence.
    assert (a_t' = a_t) as -> by congruence.
    assert (a_l' = a_l) as -> by congruence.
    intros ki kj Hki Hkj. rewrite (Hvals ki kj Hki Hkj).
    by rewrite cell_tensor_dispersion.
Qed.

(** X12: principal directions of the diffusion tensor.  The tensor that
    [_update_sat_diff_pty] and [_update_diff_pty] store for a cell maps the
    Darcy velocity [v] of the cell to [(wmd*theta + alpha_l*|v|) v] when
    [|v|] exceeds the zero threshold, and every vector [u] orthogonal to [v]
    to [(wmd*theta + alpha_t*|v|) u]: the dispersion is [alpha_l]
    along the flow and [alpha_t] across it. *)
Theorem diffusion_tensor_principal_directions (g : cs_glob_t R)
    (tracer : cs_gwf_tracer_t R) (t_eval : R) (dfield dvf : cs_field_t R)
    (tc : cs_gwf_tracer_context_t R) :
  diffusivity tracer = Some dfield →
  context tracer = Some tc →
  darcy_velocity_field tc = Some dvf →
  diff_wf g tc (val dvf) (val dfield) →
  (0 <= cs_math_zero_threshold g)%R →
  (∃ values',
     _update_sat_diff_pty g tracer t_eval
     = Done (set_diffusivity_val tracer values') ∧
     ∀ s c soil w a_t a_l i,
       soil_cell g s c → (∀ s', soil_cell g s' c → s' = s) →
       soils g !! s = Some soil → wmd tc !! s = Some w →
       alpha_t tc !! s = Some a_t → alpha_l tc !! s = Some a_l → i < 3 →
       let v := cell_velocity (val dvf) c in
       let theta := saturated_moisture soil in
       ((cs_math_zero_threshold g < vnorm_of v)%R →
        tensor_apply (stored_tensor values' c) v i
        = ((w * theta + a_l * vnorm_of v) * v i)%R) ∧
       (∀ u, dot3 v u = 0%R →
          tensor_apply (stored_tensor values' c) u i
          = ((w * theta + a_t * vnorm_of v) * u i)%R)) ∧
  (∀ theta_arr, l_saturation tc = Some theta_arr →
     (∀ s c, soil_cell g s c → c < length theta_arr) →
     ∃ values',
       _update_diff_pty g tracer t_eval
       = Done (set_diffusivity_val tracer values') ∧
       ∀ s c w a_t a_l i,
         soil_cell g s c → (∀ s', soil_cell g s' c → s' = s) →
         wmd tc !! s = Some w →
         alpha_t tc !! s = Some a_t → alpha_l tc !! s = Some a_l → i < 3 →
         let v := cell_velocity (val dvf) c in
         let theta := theta_arr !!! c in
         ((cs_math_zero_threshold g < vnorm_of v)%R →
          tensor_apply (stored_tensor values' c) v i
          = ((w * theta + a_l * vnorm_of v) * v i)%R) ∧
         (∀ u, dot3 v u = 0%R →
            tensor_apply (stored_tensor values' c) u i
            = ((w * theta + a_t * vnorm_of v) * u i)%R)).
Proof.
  intros Hd Hc Hv Hwf Hthr. split.
  - destruct (sat_diff_entries g tracer t_eval dfield dvf tc Hd Hc Hv Hwf)
      as (values' & Hrun & Hent).
    exists values'. split; [done |].
    intros s c soil w a_t a_l i Hsc Huniq Hsoil Hw Hat Hal Hi v theta.
    pose proof (Hent s c soil w a_t a_l Hsc Huniq Hsoil Hw Hat Hal) as HT.
    split.
    + intros Hn.
      rewrite (tensor_apply_ext _ _ _ _
                 (fun j Hj => stored_tensor_entries _ _ _ i j HT Hi Hj)).
      by apply dispersion_tensor_longitudinal.
    + intros u Hu.
      rewrite (tensor_apply_ext _ _ _ _
                 (fun j Hj => stored_tensor_entries _ _ _ i j HT Hi Hj)).
      by apply dispersion_tensor_transverse.
  - intros theta_arr Hth Htheta.
    destruct (diff_entries g tracer t_eval dfield dvf tc theta_arr Hd Hc Hv
                Hwf Hth Htheta) as (values' & Hrun & Hent).
    exists values'. split; [done |].
    intros s c w a_t a_l i Hsc Huniq Hw Hat Hal Hi v theta.
    pose proof (Hent s c w a_t a_l Hsc Huniq Hw Hat Hal) as HT.
    split.
    + intros Hn.
      rewrite (tensor_apply_ext _ _ _ _
                 (fun j Hj => stored_tensor_entries _ _ _ i j HT Hi Hj)).
      by apply dispersion_tensor_longitudinal.
    + intros u Hu.
      rewrite (tensor_apply_ext _ _ _ _
                 (fun j Hj => stored_tensor_entries _ _ _ i j HT Hi Hj)).
      by apply dispersion_tensor_transverse.
Qed.

Section Coefficients.
Context {real : Type} {ops : cs_real_ops real}.

(** X13: the setter and the evaluators compose.  After
    [cs_gwf_set_main_tracer_param] for all the soils, the cell-wise
    evaluators return, in a cell of the soil [soil], the time coefficient
    [theta + bulk_density * kd] and the reaction coefficient
    [(theta + bulk_density * kd) * rate], [theta] being the saturated
    moisture of the soil for the saturated variants and the liquid
    saturation of the cell for the others. *)
Theorem main_tracer_param_coefficients (g : cs_glob_t real)
    (tracer : cs_gwf_tracer_t real) (tc : cs_gwf_tracer_context_t real)
    (w al at_ kd rate t_eval : real) (cm : cs_cell_mesh_t real)
    (s : nat) (soil : cs_gwf_soil_t real) :
  context tracer = Some tc →
  (∀ s, s < cs_gwf_get_n_soils g → soil_params_room tc s) →
  cell2soil g !! c_id cm = Some s → soils g !! s = Some soil →
  ∃ tracer',
    cs_gwf_set_main_tracer_param g (Some tracer) None w al at_ kd rate
    = Done tracer' ∧
    let retardation (theta : real) :=
      (theta + bulk_density soil * kd)%cs in
    _get_time_pty4std_sat_tracer_cw g cm t_eval (context tracer')
    = Done (retardation (saturated_moisture soil)) ∧
    _get_reaction_pty4std_sat_tracer_cw g cm t_eval (context tracer')
    = Done (retardation (saturated_moisture soil) * rate)%cs ∧
    ∀ theta th, l_saturation tc = Some theta → theta !! c_id cm = Some th →
      _get_time_pty4std_tracer_cw g cm t_eval (context tracer')
      = Done (retardation th) ∧
      _get_reaction_pty4std_tracer_cw g cm t_eval (context tracer')
      = Done (retardation th * rate)%cs.
Proof.
  intros Hc Hroom Hs Hsoil.
  destruct (set_main_tracer_param_loop g tracer tc w al at_ kd rate
              (cs_gwf_get_n_soils g) Hc Hroom (le_n _))
    as (tc' & Hrun & Hset & _ & Hother).
  exists (set_context tracer tc'). split; [exact Hrun |].
  destruct (Hset s soil (lookup_lt_Some _ _ _ Hsoil) Hsoil)
    as (_ & _ & Hrk & _ & _ & _ & Hrate).
  destruct Hother as (_ & _ & _ & _ & _ & Hsat).
  simpl. split; [| split].
  - unfold _get_time_pty4std_sat_tracer_cw, cs_gwf_get_cell2soil,
      cs_gwf_soil_get_saturated_moisture.
    rewrite (rd_lookup _ _ _ Hs). simpl.
    rewrite (rd_lookup _ _ _ Hsoil). simpl.
    by rewrite (rd_lookup _ _ _ Hrk).
  - unfold _get_reaction_pty4std_sat_tracer_cw, cs_gwf_get_cell2soil,
      cs_gwf_soil_get_saturated_moisture. simpl.
    rewrite (rd_lookup _ _ _ Hs). simpl.
    rewrite (rd_lookup _ _ _ Hsoil). simpl.
    rewrite (rd_lookup _ _ _ Hrk). simpl.
    by rewrite (rd_lookup _ _ _ Hrate).
  - intros theta th Hth Hthc. split.
    + unfold _get_time_pty4std_tracer_cw, cs_gwf_get_cell2soil. simpl.
      rewrite Hsat, Hth. rewrite (rdp_lookup _ _ _ Hthc). simpl.
      rewrite (rd_lookup _ _ _ Hs). simpl.
      by rewrite (rd_lookup _ _ _ Hrk).
    + unfold _get_reaction_pty4std_tracer_cw, cs_gwf_get_cell2soil. simpl.
      rewrite (rd_lookup _ _ _ Hs). simpl.
      rewrite Hsat, Hth. rewrite (rdp_lookup _ _ _ Hthc). simpl.
      rewrite (rd_lookup _ _ _ Hrk). simpl.
      by rewrite (rd_lookup _ _ _ Hrate).
Qed.

End Coefficients.

Section Tensor_agree.
Context {real : Type} {ops : cs_real_ops real}.

Opaque Nat.mul.

(** X14: [_update_diff_pty] and [_update_sat_diff_pty] have the same
    outcome when the liquid saturation of every cell of every soil is the
    saturated moisture of the soil. *)
Theorem diffusion_updaters_agree (g : cs_glob_t real)
    (tracer : cs_gwf_tracer_t real) (t_eval : real)
    (tc : cs_gwf_tracer_context_t real) (theta : list real) :
  context tracer = Some tc →
  l_saturation tc = Some theta →
  (∀ s soil z i c,
     soils g !! s = Some soil → zones g !! zone_id soil = Some z →
     i < n_elts z → zone_elt z i = Done c →
     theta !! c = Some (saturated_moisture soil)) →
  _update_diff_pty g tracer t_eval = _update_sat_diff_pty g tracer t_eval.
Proof.
  intros Hc Hth Hsat. unfold _update_diff_pty, _update_sat_diff_pty.
  destruct (diffusivity tracer) as [dfield|]; [| done].
  rewrite Hc. simpl. rewrite Hth.
  destruct (darcy_velocity_field tc) as [dvf|]; simpl; [| done].
  f_equal. apply for_range_ext_in. intros s values [_ Hs].
  unfold cs_gwf_soil_by_id, cs_volume_zone_by_id,
    cs_gwf_soil_get_saturated_moisture.
  destruct (rd (soils g) s) as [soil| |] eqn:Hsoil; simpl; [| done..].
  apply rd_Done in Hsoil.
  destruct (rd (zones g) (zone_id soil)) as [z| |] eqn:Hz; simpl; [| done..].
  apply rd_Done in Hz.
  destruct (rd (wmd tc) s); simpl; [| done..].
  destruct (rd (alpha_t tc) s); simpl; [| done..].
  destruct (rd (alpha_l tc) s); simpl; [| done..].
  apply for_range_ext_in. intros i vals [_ Hi].
  destruct (zone_elt z i) as [c| |] eqn:Hzc; simpl; [| done..].
  destruct (rd (val dvf) (3 * c + 0)); simpl; [| done..].
  destruct (rd (val dvf) (3 * c + 1)); simpl; [| done..].
  destruct (rd (val dvf) (3 * c + 2)); simpl; [| done..].
  by rewrite (rdp_lookup _ _ _ (Hsat s soil z i c Hsoil Hz Hi Hzc)).
Qed.

Transparent Nat.mul.

End Tensor_agree.

(** * The properties above on the examples *)

Lemma Ex_soil_params_room (c_sat c_p : list R) (s : nat) :
  s < cs_gwf_get_n_soils Ex.glob → soil_params_room (Ex.tcontext c_sat c_p) s.
Proof.
  unfold cs_gwf_get_n_soils. simpl. intros Hs.
  repeat split; simpl; lia.
Qed.

Lemma cs_gwf_set_main_tracer_param_all_soils_witness :
  let tracer := Ex.tracer Ex.no_solute Ex.sat Ex.no_precip in
  let tc := Ex.tcontext Ex.sat Ex.no_precip in
  ∃ tc',
    cs_gwf_set_main_tracer_param Ex.glob (Some tracer) None
      5%R 6%R 7%R 8%R 9%R
    = Done (set_context tracer tc') ∧
    (∀ s soil, soils Ex.glob !! s = Some soil →
       soil_params_at tc' s (bulk_density soil) 8%R
         (bulk_density soil * 8)%R 6%R 7%R 5%R 9%R) ∧
    (∀ k, cs_gwf_get_n_soils Ex.glob ≤ k → soil_params_kept tc tc' k) ∧
    other_members_kept tc tc'.
Proof.
  intros tracer tc.
  exact (cs_gwf_set_main_tracer_param_all_soils Ex.glob tracer tc
           5%R 6%R 7%R 8%R 9%R eq_refl
           (Ex_soil_params_room Ex.sat Ex.no_precip)).
Defined.

Lemma cs_gwf_set_main_tracer_param_one_soil_witness :
  let tracer := Ex.tracer Ex.no_solute Ex.sat Ex.no_precip in
  let tc := Ex.tcontext Ex.sat Ex.no_precip in
  cs_gwf_set_main_tracer_param Ex.glob (Some tracer) (Some "clay")
    5%R 6%R 7%R 8%R 9%R
  = Abort (" Soil " ++ "clay" ++
           " not found among the predefined soils." ++ nl ++
           " Please check your settings.") ∧
  ∃ tc',
    cs_gwf_set_main_tracer_param Ex.glob (Some tracer) (Some "soil")
      5%R 6%R 7%R 8%R 9%R
    = Done (set_context tracer tc') ∧
    soil_params_at tc' (id_of_soil Ex.soil) (bulk_density Ex.soil) 8%R
      (bulk_density Ex.soil * 8)%R 6%R 7%R 5%R 9%R ∧
    (∀ k, k ≠ id_of_soil Ex.soil → soil_params_kept tc tc' k) ∧
    other_members_kept tc tc'.
Proof.
  intros tracer tc. split.
  - apply (proj1 (cs_gwf_set_main_tracer_param_one_soil Ex.glob tracer tc
                    "clay" 5%R 6%R 7%R 8%R 9%R eq_refl)).
    reflexivity.
  - refine (proj2 (cs_gwf_set_main_tracer_param_one_soil Ex.glob tracer tc
                     "soil" 5%R 6%R 7%R 8%R 9%R eq_refl) Ex.soil eq_refl _).
    apply Ex_soil_params_room. unfold cs_gwf_get_n_soils. simpl. lia.
Defined.

Lemma _update_precipitation_vb_equilibrium_witness :
  ∃ field_val',
    _update_precipitation_vb Ex.glob
      (Ex.tracer Ex.no_solute Ex.sat Ex.no_precip) 0%R Ex.connect Ex.quant
    = Done (set_context
              (set_vertex_values
                 (Ex.tracer Ex.no_solute Ex.sat Ex.no_precip) Ex.no_solute)
              (set_precip (Ex.tcontext Ex.sat Ex.no_precip)
                 (Some Ex.no_precip) (Some Ex.sat)
                 (Some {| val := field_val' |}))).
Proof.
  apply (_update_precipitation_vb_equilibrium Ex.glob
           (Ex.tracer Ex.no_solute Ex.sat Ex.no_precip) 0%R
           Ex.connect Ex.quant (Ex.tcontext Ex.sat Ex.no_precip)
           Ex.sat Ex.no_precip [1; 1]%R [0; 0]%R).
  - by apply Ex_precip_wf.
  - intros v x sat Hx Hs.
    do 5 (destruct v as [|v];
          [injection Hx as <-; injection Hs as <-; lra |]).
    discriminate.
  - intros j x Hx.
    do 8 (destruct j as [|j]; [injection Hx as <-; lra |]). discriminate.
  - intros itf k p x Hitf. discriminate.
Defined.


Lemma _update_precipitation_vb_precip_field_witness :
  ∃ c_w' c_p' field_val',
    _update_precipitation_vb Ex.glob
      (Ex.tracer Ex.over_saturated Ex.sat Ex.two_slots) 0%R
      Ex.connect Ex.quant
    = Done (set_context
              (set_vertex_values
                 (Ex.tracer Ex.over_saturated Ex.sat Ex.two_slots) c_w')
              (set_precip (Ex.tcontext Ex.sat Ex.two_slots)
                 (Some c_p') (Some Ex.sat)
                 (Some {| val := field_val' |}))) ∧
    length field_val' = length [0; 0]%R ∧
    (∀ c lo hi, c < n_cells Ex.quant →
       idx Ex.adjacency !! c = Some lo →
       idx Ex.adjacency !! (c + 1) = Some hi →
       field_val' !! c
       = Some (dual_sum (dcell_vol Ex.quant) c_p' lo hi
               / cell_vol Ex.quant !!! c)%R) ∧
    (∀ c, n_cells Ex.quant ≤ c → field_val' !! c = [0; 0]%R !! c).
Proof.
  exact (_update_precipitation_vb_precip_field Ex.glob
           (Ex.tracer Ex.over_saturated Ex.sat Ex.two_slots) 0%R
           Ex.connect Ex.quant (Ex.tcontext Ex.sat Ex.two_slots)
           Ex.sat Ex.two_slots [1; 1]%R [0; 0]%R
           (Ex_precip_wf Ex.over_saturated Ex.sat Ex.two_slots
              eq_refl eq_refl eq_refl)).
Defined.

Lemma cs_gwf_tracer_integrate_sat_agree_witness :
  cs_gwf_tracer_integrate_sat Ex.glob Ex.connect Ex.quant
    Ex2.tracer_saturated Ex.zone
  = cs_gwf_tracer_integrate Ex.glob Ex.connect Ex.quant
      Ex2.tracer_saturated Ex.zone.
Proof.
  apply (cs_gwf_tracer_integrate_sat_agree Ex.glob Ex.connect Ex.quant
           Ex2.tracer_saturated Ex.zone Ex2.saturated [1 / 2; 1 / 2]%R).
  - reflexivity.
  - reflexivity.
  - by left.
  - intros i c Hi [= <-]. exists 0, Ex.soil. simpl in Hi.
    destruct i as [|[|i]]; [done | done | lia].
Defined.

Lemma cs_gwf_tracer_integrate_constant_witness :
  let tc := Ex.tcontext Ex.sat Ex.no_precip in
  cs_gwf_tracer_integrate Ex.glob Ex.connect Ex.quant
    (Ex.tracer Ex2.uniform Ex.sat Ex.no_precip) Ex.zone
  = Done (3 * sum_upto 2
                (fun i => cell_capacity Ex.glob Ex.quant tc [1; 1]%R i))%R.
Proof.
  intros tc.
  apply (cs_gwf_tracer_integrate_constant Ex.glob Ex.connect Ex.quant
           (Ex.tracer Ex2.uniform Ex.sat Ex.no_precip) Ex.zone tc
           [1; 1]%R 3%R).
  - reflexivity.
  - reflexivity.
  - by left.
  - simpl. lia.
  - intros i Hi. simpl in Hi. exists i, (4 * i), (4 * i + 4), 0.
    destruct i as [|[|i]]; [| | lia];
      repeat (split; [first [ done | simpl; lia
                            | unfold dual_volume; simpl; lra ] |]).
    + do 4 (destruct j as [|j]; [by eexists |]). lia.
    + do 4 (destruct j as [|j]; [lia |]).
      do 4 (destruct j as [|j]; [by eexists |]). lia.
Defined.

Lemma _add_precipitation_conc_precip_witness :
  ∃ a satura,
    idx (c2v Ex.connect) !! n_cells Ex.quant = Some a ∧
    _add_precipitation Ex.glob2 Ex.connect Ex.quant
      (Ex.tracer2 CS_SPACE_SCHEME_CDOVB) (fun _ => 7%R)
    = Done (set_context (Ex.tracer2 CS_SPACE_SCHEME_CDOVB)
              (set_precip Ex.tcontext2
                 (Some (replicate
                          (match space_scheme
                                   (tr_eq (Ex.tracer2 CS_SPACE_SCHEME_CDOVB))
                           with
                           | CS_SPACE_SCHEME_CDOVCB => a + n_cells Ex.quant
                           | _ => a
                           end) 0%R))
                 (Some satura) (precip_field Ex.tcontext2))).
Proof.
  exact (_add_precipitation_conc_precip Ex.glob2 Ex.connect Ex.quant
           (Ex.tracer2 CS_SPACE_SCHEME_CDOVB) (fun _ => 7%R) Ex.tcontext2
           [10; 4]%R Ex_satura_wf).
Defined.

Lemma cs_gwf_set_precip_tracer_param_all_soils_witness :
  ∃ w',
    cs_gwf_set_precip_tracer_param 1%Z Ex.glob2 (Some (Ex2.with_model 1%Z))
      None 6%R
    = Done {| tracer_members :=
                set_context (Ex2.with_model 1%Z)
                  (set_w_star Ex.tcontext2 w');
              model := model (Ex2.with_model 1%Z) |} ∧
    length w' = length [10; 4]%R ∧
    (∀ s, s < cs_gwf_get_n_soils Ex.glob2 → w' !! s = Some 6%R) ∧
    (∀ s, cs_gwf_get_n_soils Ex.glob2 ≤ s → w' !! s = [10; 4]%R !! s).
Proof.
  refine (cs_gwf_set_precip_tracer_param_all_soils 1%Z Ex.glob2
            (Ex2.with_model 1%Z) Ex.tcontext2 [10; 4]%R 6%R _ eq_refl eq_refl
            _).
  - discriminate.
  - unfold cs_gwf_get_n_soils. simpl. lia.
Defined.

Lemma cs_gwf_set_precip_tracer_param_named_soil_witness :
  cs_gwf_set_precip_tracer_param 1%Z Ex.glob2 (Some (Ex2.with_model 2%Z))
    (Some "soil0") 6%R
  = Abort (" cs_gwf_set_precip_tracer_param: Precipitation model"
           ++ " has not been activated for this tracer") ∧
  cs_gwf_set_precip_tracer_param 1%Z Ex.glob2 (Some (Ex2.with_model 1%Z))
    (Some "clay") 6%R
  = Abort (" Soil " ++ "clay" ++
           " not found among the predefined soils." ++ nl ++
           " Please check your settings.") ∧
  cs_gwf_set_precip_tracer_param 1%Z Ex.glob2 (Some (Ex2.with_model 1%Z))
    (Some "soil1") 6%R
  = Done {| tracer_members :=
              set_context (Ex2.with_model 1%Z)
                (set_w_star Ex.tcontext2 [10; 6]%R);
            model := 1%Z |}.
Proof.
  split; [| split].
  - exact (proj1 (cs_gwf_set_precip_tracer_param_named_soil 1%Z Ex.glob2
                    (Ex2.with_model 2%Z) "soil0" 6%R) eq_refl
                 (Some "soil0")).
  - refine (proj1 (proj2 (cs_gwf_set_precip_tracer_param_named_soil 1%Z
                            Ex.glob2 (Ex2.with_model 1%Z) "clay" 6%R) _)
                  eq_refl).
    discriminate.
  - refine (proj2 (proj2 (cs_gwf_set_precip_tracer_param_named_soil 1%Z
                            Ex.glob2 (Ex2.with_model 1%Z) "soil1" 6%R) _)
                  Ex.soil1 Ex.tcontext2 [10; 4]%R eq_refl eq_refl eq_refl
                  _).
    + discriminate.
    + simpl. lia.
Defined.

Lemma uniform_saturated_concentration_witness :
  ∃ tracer' tracer'' tc'' satura,
    cs_gwf_set_precip_tracer_param 1%Z Ex.glob2 (Some (Ex2.with_model 1%Z))
      None 6%R
    = Done tracer' ∧
    _add_precipitation Ex.glob2 Ex.connect Ex.quant tracer' (fun _ => 7%R)
    = Done tracer'' ∧
    context tracer'' = Some tc'' ∧ conc_satura tc'' = Some satura ∧
    length satura = n_vertices Ex.quant ∧
    ∀ v, v < n_vertices Ex.quant → satura !! v = Some 6%R.
Proof.
  refine (uniform_saturated_concentration 1%Z Ex.glob2 Ex.connect Ex.quant
            (Ex2.with_model 1%Z) (fun _ => 7%R) Ex.tcontext2 [10; 4]%R 6%R
            _ Ex_satura_wf _).
  - discriminate.
  - intros itf k p Hitf. discriminate.
Defined.

Lemma diffusion_tensor_principal_directions_witness :
  let tracer := Ex.tracer Ex.no_solute Ex.sat Ex.no_precip in
  let tc := Ex.tcontext Ex.sat Ex.no_precip in
  ∃ values',
    _update_sat_diff_pty Ex.glob tracer 0%R
    = Done (set_diffusivity_val tracer values') ∧
    ∀ s c soil w a_t a_l i,
      soil_cell Ex.glob s c → (∀ s', soil_cell Ex.glob s' c → s' = s) →
      soils Ex.glob !! s = Some soil → wmd tc !! s = Some w →
      alpha_t tc !! s = Some a_t → alpha_l tc !! s = Some a_l → i < 3 →
      let v := cell_velocity [1; 0; 0; 0; 0; 0]%R c in
      let theta := saturated_moisture soil in
      ((cs_math_zero_threshold Ex.glob < vnorm_of v)%R →
       tensor_apply (stored_tensor values' c) v i
       = ((w * theta + a_l * vnorm_of v) * v i)%R) ∧
      (∀ u, dot3 v u = 0%R →
         tensor_apply (stored_tensor values' c) u i
         = ((w * theta + a_t * vnorm_of v) * u i)%R).
Proof.
  intros tracer tc.
  refine (proj1 (diffusion_tensor_principal_directions Ex.glob tracer 0%R
                   {| val := replicate 18 0%R |}
                   {| val := [1; 0; 0; 0; 0; 0]%R |} tc
                   eq_refl eq_refl eq_refl Ex_diff_wf _)).
  simpl. lra.
Defined.

Lemma main_tracer_param_coefficients_witness :
  let tracer := Ex.tracer Ex.no_solute Ex.sat Ex.no_precip in
  let tc := Ex.tcontext Ex.sat Ex.no_precip in
  ∃ tracer',
    cs_gwf_set_main_tracer_param Ex.glob (Some tracer) None
      5%R 6%R 7%R 8%R 9%R
    = Done tracer' ∧
    let retardation (theta : R) := (theta + bulk_density Ex.soil * 8)%R in
    _get_time_pty4std_sat_tracer_cw Ex.glob Ex.cube 0%R (context tracer')
    = Done (retardation (saturated_moisture Ex.soil)) ∧
    _get_reaction_pty4std_sat_tracer_cw Ex.glob Ex.cube 0%R
      (context tracer')
    = Done (retardation (saturated_moisture Ex.soil) * 9)%R ∧
    ∀ theta th, l_saturation tc = Some theta →
      theta !! c_id Ex.cube = Some th →
      _get_time_pty4std_tracer_cw Ex.glob Ex.cube 0%R (context tracer')
      = Done (retardation th) ∧
      _get_reaction_pty4std_tracer_cw Ex.glob Ex.cube 0%R (context tracer')
      = Done (retardation th * 9)%R.
Proof.
  intros tracer tc.
  exact (main_tracer_param_coefficients Ex.glob tracer tc
           5%R 6%R 7%R 8%R 9%R 0%R Ex.cube 0 Ex.soil eq_refl
           (Ex_soil_params_room Ex.sat Ex.no_precip) eq_refl eq_refl).
Defined.

Lemma diffusion_updaters_agree_witness :
  _update_diff_pty Ex.glob Ex2.tracer_saturated 0%R
  = _update_sat_diff_pty Ex.glob Ex2.tracer_saturated 0%R.
Proof.
  refine (diffusion_updaters_agree Ex.glob Ex2.tracer_saturated 0%R
            Ex2.saturated [1 / 2; 1 / 2]%R eq_refl eq_refl _).
  intros s soil z i c Hs Hz Hi Hc.
  destruct s; [| done]. injection Hs as <-. injection Hz as <-.
  injection Hc as <-. simpl in Hi.
  destruct i as [|[|i]]; [done | done | lia].
Defined.

(** * Cartesian mesh: laws of the directions *)

Import Cartesian.

Lemma geom_sum_closed (rho : R) (t : nat) :
  (geom_sum rho t * (rho - 1) = rho ^ t - 1)%R.
Proof. induction t as [|t IH]; simpl; [lra |]. nra. Qed.

Lemma pow_ne_1 (rho : R) (n : nat) :
  (0 < rho)%R → rho ≠ 1%R → 0 < n →
  (0 < (rho - 1) / (rho ^ n - 1))%R.
Proof.
  intros Hpos Hne Hn. destruct (Rlt_dec 1 rho) as [Hgt | Hle].
  - pose proof (Rlt_pow_R1 rho n Hgt Hn).
    apply Rdiv_lt_0_compat; lra.
  - assert (Hlt : (0 <= rho < 1)%R) by lra.
    pose proof (pow_lt_1_compat rho n Hlt Hn) as [_ Hp].
    replace ((rho - 1) / (rho ^ n - 1))%R
      with ((1 - rho) / (1 - rho ^ n))%R by (field; lra).
    apply Rdiv_lt_0_compat; lra.
Qed.

(** The vertices of the geometric law. *)
Lemma geometric_vertices (n : nat) (smin_ smax_ rho : R)
    (uninit : nat → R) :
  ¬ (smax_ < smin_)%R →
  ∃ d,
    _cs_mesh_cartesian_create_direction pow CS_MESH_CARTESIAN_GEOMETRIC_LAW
      n smin_ smax_ rho uninit = Done d ∧
    law d = CS_MESH_CARTESIAN_GEOMETRIC_LAW ∧
    ncells d = n ∧ smin d = smin_ ∧ smax d = smax_ ∧ progression d = rho ∧
    length (s d) = n + 1 ∧
    ∀ t, t ≤ n →
      s d !! t
      = Some (smin_ + geometric_step smin_ smax_ rho n * geom_sum rho t)%R.
Proof.
  intros Hle. unfold _cs_mesh_cartesian_create_direction. r_ops.
  destruct (Rlt_dec smax_ smin_); [done |]. simpl.
  rewrite wr_lt by (rewrite length_fmap, length_seq; lia). simpl.
  set (dx0 := ((smax_ - smin_) * (rho - 1) / (rho ^ n - 1))%R).
  match goal with
  | |- context [for_range 0 n ?b ?init] =>
      destruct (for_range_inv (fun c st =>
                  length st.1 = n + 1 ∧ st.2 = (dx0 * rho ^ c)%R ∧
                  ∀ t, t ≤ c →
                    st.1 !! t = Some (smin_ + dx0 * geom_sum rho t)%R)
                  b 0 n init) as ([s' dx'] & -> & Hlen & _ & Hs)
  end.
  - lia.
  - simpl. rewrite length_insert, length_fmap, length_seq.
    split; [done |]. split; [lra |]. intros t Ht.
    replace t with 0 by lia. simpl.
    rewrite list_lookup_insert_eq by (rewrite length_fmap, length_seq; lia).
    f_equal. lra.
  - intros c [s1 dx1] [_ Hc] (Hlen & Hdx & Hs). simpl in *. subst dx1.
    rewrite (rd_lookup _ _ _ (Hs c ltac:(lia))). simpl.
    rewrite wr_lt by lia. simpl. eexists. split; [done |]. simpl.
    rewrite length_insert. split; [done |]. split; [lra |].
    intros t Ht. destruct (decide (t = c + 1)) as [-> | Hne].
    + rewrite list_lookup_insert_eq by lia. f_equal.
      replace (c + 1) with (S c) by lia. simpl. lra.
    + rewrite list_lookup_insert_ne by lia. apply Hs. lia.
  - simpl. eexists. split; [done |]. simpl. split_and!; [done.. |].
    intros t Ht. by rewrite Hs.
Qed.

(** X15: the geometric law of [_cs_mesh_cartesian_create_direction].  For
    [smin <= smax], a progression [rho > 0] other than 1 and [n > 0] cells
    (exact arithmetic), the function returns [n + 1] vertices that start at
    [smin], end at [smax] and do not decrease, the step of the cell [c]
    being the first step times [rho^c]. *)
Theorem _cs_mesh_cartesian_create_direction_geometric (n : nat)
    (smin_ smax_ rho : R) (uninit : nat → R) :
  (smin_ <= smax_)%R → (0 < rho)%R → rho ≠ 1%R → 0 < n →
  ∃ d,
    _cs_mesh_cartesian_create_direction pow CS_MESH_CARTESIAN_GEOMETRIC_LAW
      n smin_ smax_ rho uninit = Done d ∧
    ncells d = n ∧ length (s d) = n + 1 ∧
    s d !! 0 = Some smin_ ∧ s d !! n = Some smax_ ∧
    ∀ c, c < n →
      ∃ x y, s d !! c = Some x ∧ s d !! (c + 1) = Some y ∧
             (y - x = geometric_step smin_ smax_ rho n * rho ^ c)%R ∧
             (x <= y)%R.
Proof.
  intros Hle Hpos Hne Hn.
  destruct (geometric_vertices n smin_ smax_ rho uninit) as
    (d & Hrun & _ & Hnc & _ & _ & _ & Hlen & Hs); [lra |].
  pose proof (pow_ne_1 rho n Hpos Hne Hn) as Hfac.
  assert (Hden : (rho ^ n - 1)%R ≠ 0%R).
  { intros H0. rewrite H0 in Hfac. unfold Rdiv in Hfac.
    rewrite Rinv_0 in Hfac. lra. }
  assert (Hstep : (0 <= geometric_step smin_ smax_ rho n)%R).
  { unfold geometric_step.
    replace ((smax_ - smin_) * (rho - 1) / (rho ^ n - 1))%R
      with ((smax_ - smin_) * ((rho - 1) / (rho ^ n - 1)))%R
      by (field; lra).
    apply Rmult_le_pos; lra. }
  exists d. split; [done |]. split; [done |]. split; [done |].
  split; [| split].
  - rewrite Hs by lia. simpl. f_equal. lra.
  - rewrite Hs by lia. f_equal. pose proof (geom_sum_closed rho n) as Hg.
    unfold geometric_step.
    replace ((smax_ - smin_) * (rho - 1) / (rho ^ n - 1) * geom_sum rho n)%R
      with ((smax_ - smin_) * (geom_sum rho n * (rho - 1)) / (rho ^ n - 1))%R
      by (field; lra).
    rewrite Hg. field. lra.
  - intros c Hc. eexists _, _. split; [by apply Hs; lia |].
    split; [by apply Hs; lia |].
    replace (c + 1) with (S c) by lia. simpl.
    pose proof (pow_lt rho c Hpos).
    split; [lra |]. nra.
Qed.

(** The loop of the parabolic law. *)
Lemma parabolic_loop (n np : nat) (smin_ smax_ rho dx0 : R) (s0 : list R) :
  2 * np ≤ n → length s0 = n + 1 →
  (0 < n → s0 !! 0 = Some smin_) → s0 !! n = Some smax_ →
  ∃ s' dx',
    for_range 0 np (fun i '(s_, dx_cur) =>
      x ← rd s_ i;
      s_ ← wr s_ (i + 1) (x + dx_cur)%R;
      y ← rd s_ (n - i);
      s_ ← wr s_ (n - i - 1) (y - dx_cur)%R;
      mret (s_, (dx_cur * rho)%R)) (s0, dx0) = Done (s', dx') ∧
    length s' = n + 1 ∧
    (∀ t, t ≤ np → 2 * t < n →
       s' !! t = Some (smin_ + dx0 * geom_sum rho t)%R) ∧
    (∀ t, t ≤ np →
       s' !! (n - t) = Some (smax_ - dx0 * geom_sum rho t)%R).
Proof.
  intros Hnp Hlen0 H0 Hn.
  match goal with
  | |- context [for_range 0 np ?b ?init] =>
      destruct (for_range_inv (fun i st =>
                  length st.1 = n + 1 ∧ st.2 = (dx0 * rho ^ i)%R ∧
                  (∀ t, t ≤ i → 2 * t < n →
                     st.1 !! t = Some (smin_ + dx0 * geom_sum rho t)%R) ∧
                  (∀ t, t ≤ i →
                     st.1 !! (n - t)
                     = Some (smax_ - dx0 * geom_sum rho t)%R))
                  b 0 np init) as ([s' dx'] & Hrun & Hlen & _ & Hl & Hr)
  end.
  - lia.
  - simpl. split; [done |]. split; [lra |]. split.
    + intros t Ht Htn. replace t with 0 by lia. simpl.
      rewrite H0 by lia. f_equal. lra.
    + intros t Ht. replace t with 0 by lia. rewrite Nat.sub_0_r. simpl.
      rewrite Hn. f_equal. lra.
  - intros i [s1 dx1] [_ Hi] (Hlen & Hdx & Hl & Hr). simpl in *. subst dx1.
    rewrite (rd_lookup _ _ _ (Hl i ltac:(lia) ltac:(lia))). simpl.
    rewrite wr_lt by lia. simpl.
    rewrite (rd_lookup (<[i + 1:=_]> s1) (n - i)
               (smax_ - dx0 * geom_sum rho i)%R)
      by (rewrite list_lookup_insert_ne by lia; apply Hr; lia).
    simpl. rewrite wr_lt by (rewrite length_insert; lia). simpl.
    eexists. split; [done |]. simpl. rewrite !length_insert.
    split; [done |]. split; [lra |]. split.
    + intros t Ht Htn. rewrite list_lookup_insert_ne by lia.
      destruct (decide (t = i + 1)) as [-> | Hne].
      * rewrite list_lookup_insert_eq by lia. f_equal.
        replace (i + 1) with (S i) by lia. simpl. lra.
      * rewrite list_lookup_insert_ne by lia. apply Hl; lia.
    + intros t Ht. destruct (decide (t = i + 1)) as [-> | Hne].
      * replace (n - (i + 1)) with (n - i - 1) by lia.
        rewrite list_lookup_insert_eq by (rewrite length_insert; lia).
        f_equal. replace (i + 1) with (S i) by lia. simpl. lra.
      * rewrite list_lookup_insert_ne by lia.
        rewrite list_lookup_insert_ne by lia. apply Hr. lia.
  - by exists s', dx'.
Qed.

Opaque Nat.div Nat.modulo.

(** The vertices of the parabolic law: the first half is laid from [smin]
    upwards, the second half from [smax] downwards. *)
Lemma parabolic_vertices (n : nat) (smin_ smax_ rho : R)
    (uninit : nat → R) :
  ¬ (smax_ < smin_)%R →
  ∃ d,
    _cs_mesh_cartesian_create_direction pow CS_MESH_CARTESIAN_PARABOLIC_LAW
      n smin_ smax_ rho uninit = Done d ∧
    law d = CS_MESH_CARTESIAN_PARABOLIC_LAW ∧
    ncells d = n ∧ smin d = smin_ ∧ smax d = smax_ ∧ progression d = rho ∧
    length (s d) = n + 1 ∧
    ∀ t, t ≤ n →
      s d !! t
      = Some (if decide (2 * t < n)
              then (smin_ + parabolic_step smin_ smax_ rho n
                            * geom_sum rho t)%R
              else (smax_ - parabolic_step smin_ smax_ rho n
                            * geom_sum rho (n - t))%R).
Proof.
  intros Hle. unfold _cs_mesh_cartesian_create_direction, parabolic_step.
  r_ops. destruct (Rlt_dec smax_ smin_); [done |]. simpl.
  pose proof (Nat.div_mod_eq n 2) as Hdm.
  pose proof (Nat.div_mod_eq (n - 1) 2) as Hdm1.
  pose proof (Nat.mod_upper_bound n 2 ltac:(lia)) as Hm.
  pose proof (Nat.mod_upper_bound (n - 1) 2 ltac:(lia)) as Hm1.
  case_bool_decide as Hev;
    (rewrite wr_lt by (rewrite length_fmap, length_seq; lia); simpl;
     rewrite wr_lt
       by (rewrite length_insert, length_fmap, length_seq; lia); simpl;
     match goal with
     | |- context [for_range 0 ?np _ (?s0, ?dx0)] =>
         destruct (parabolic_loop n np smin_ smax_ rho dx0 s0)
           as (s' & dx' & -> & Hlen & Hl & Hr);
           [lia
           | by rewrite !length_insert, length_fmap, length_seq
           | intros Hn; rewrite list_lookup_insert_ne by lia;
             apply list_lookup_insert_eq;
             rewrite length_fmap, length_seq; lia
           | apply list_lookup_insert_eq;
             rewrite length_insert, length_fmap, length_seq; lia
           |]
     end;
     simpl; eexists; split; [done |]; simpl; split_and!; [done.. |];
     intros t Ht; case_decide as Ht2;
       [apply Hl; [lia | done]
       | replace t with (n - (n - t)) at 1 by lia; apply Hr; lia]).
Qed.

Transparent Nat.div Nat.modulo.

Lemma half_cases (n : nat) :
  (n `mod` 2 = 0 ∧ n = 2 * (n `div` 2)) ∨
  (n `mod` 2 ≠ 0 ∧ n = 2 * ((n - 1) `div` 2) + 1).
Proof.
  pose proof (Nat.div_mod_eq n 2) as Hdm.
  pose proof (Nat.div_mod_eq (n - 1) 2) as Hdm1.
  pose proof (Nat.mod_upper_bound n 2 ltac:(lia)) as Hm.
  pose proof (Nat.mod_upper_bound (n - 1) 2 ltac:(lia)) as Hm1.
  destruct (decide (n `mod` 2 = 0)) as [H0 | H1]; [left; lia |].
  right. split; [done |].
  assert (n `mod` 2 = 1) as Hn1 by lia.
  assert ((n - 1) `mod` 2 = 0); [| lia].
  replace n with (1 + (n - 1)) in Hn1 by lia.
  rewrite <- Nat.Div0.add_mod_idemp_r in Hn1.
  destruct ((n - 1) `mod` 2) as [|[|k]]; [done | | lia].
  simpl in Hn1. discriminate.
Qed.

(** The first step of the parabolic law is what makes the two halves meet:
    the step across the middle continues the progression. *)
Lemma parabolic_step_middle (smin_ smax_ rho : R) (n : nat) :
  (smin_ <= smax_)%R → (0 < rho)%R → rho ≠ 1%R → 0 < n →
  let dx0 := parabolic_step smin_ smax_ rho n in
  (0 <= dx0)%R ∧
  ∃ np, (n = 2 * np ∧ 0 < np ∧
         (2 * dx0 * geom_sum rho np = smax_ - smin_)%R) ∨
        (n = 2 * np + 1 ∧
         (smax_ - smin_ - 2 * dx0 * geom_sum rho np = dx0 * rho ^ np)%R).
Proof.
  intros Hle Hpos Hne Hn dx0. unfold dx0, parabolic_step.
  destruct (half_cases n) as [[Hev Hn2] | [Hodd Hn2]].
  - rewrite bool_decide_eq_true_2 by done.
    set (np := n `div` 2) in *.
    assert (Hnp : 0 < np) by lia.
    pose proof (pow_ne_1 rho np Hpos Hne Hnp) as Hfac.
    assert (Hden : (rho ^ np - 1)%R ≠ 0%R).
    { intros H0. rewrite H0 in Hfac. unfold Rdiv in Hfac.
      rewrite Rinv_0 in Hfac. lra. }
    pose proof (geom_sum_closed rho np) as Hg. split.
    + replace (1 / 2 * (smax_ - smin_) * (rho - 1) / (rho ^ np - 1))%R
        with (1 / 2 * (smax_ - smin_) * ((rho - 1) / (rho ^ np - 1)))%R
        by (field; lra).
      apply Rmult_le_pos; lra.
    + exists np. left. split; [done |]. split; [done |].
      replace (2 * (1 / 2 * (smax_ - smin_) * (rho - 1) / (rho ^ np - 1))
               * geom_sum rho np)%R
        with ((smax_ - smin_) * (geom_sum rho np * (rho - 1))
              / (rho ^ np - 1))%R by (field; lra).
      rewrite Hg. field. lra.
  - rewrite bool_decide_eq_false_2 by done.
    set (np := (n - 1) `div` 2) in *.
    pose proof (geom_sum_closed rho np) as Hg.
    pose proof (pow_lt rho np Hpos) as Hp.
    set (D := (rho ^ np * rho + rho ^ np - 2)%R).
    assert (HD : (0 < (rho - 1) / D)%R).
    { unfold D. destruct (Rlt_dec 1 rho) as [Hgt | Hngt].
      - assert (1 <= rho ^ np)%R by (apply pow_R1_Rle; lra).
        apply Rdiv_lt_0_compat; [lra | nra].
      - assert (rho ^ np <= 1)%R.
        { destruct np as [|k]; [simpl; lra |].
          pose proof (pow_lt_1_compat rho (S k) ltac:(lra) ltac:(lia)).
          lra. }
        replace ((rho - 1) / (rho ^ np * rho + rho ^ np - 2))%R
          with ((1 - rho) / (2 - rho ^ np * rho - rho ^ np))%R.
        + apply Rdiv_lt_0_compat; [lra | nra].
        + field. nra. }
    assert (HD0 : D ≠ 0%R).
    { intros H0. rewrite H0 in HD. unfold Rdiv in HD.
      rewrite Rinv_0 in HD. lra. }
    split.
    + replace ((smax_ - smin_) * (rho - 1) / D)%R
        with ((smax_ - smin_) * ((rho - 1) / D))%R by (field; lra).
      apply Rmult_le_pos; lra.
    + exists np. right. split; [done |].
      replace (2 * ((smax_ - smin_) * (rho - 1) / D) * geom_sum rho np)%R
        with (2 * (smax_ - smin_) * (geom_sum rho np * (rho - 1)) / D)%R
        by (field; lra).
      rewrite Hg. unfold D. field. exact HD0.
Qed.

(** X16: the parabolic law of [_cs_mesh_cartesian_create_direction].  For
    [smin <= smax], a progression [rho > 0] other than 1 and [n > 0] cells
    (exact arithmetic), the function returns [n + 1] vertices that start at
    [smin], end at [smax] and do not decrease, the step of the cell [c]
    being the first step times [rho] to the power of the distance from [c]
    to the nearer end: the steps are symmetric, for even and for odd
    [n]. *)
Theorem _cs_mesh_cartesian_create_direction_parabolic (n : nat)
    (smin_ smax_ rho : R) (uninit : nat → R) :
  (smin_ <= smax_)%R → (0 < rho)%R → rho ≠ 1%R → 0 < n →
  ∃ d,
    _cs_mesh_cartesian_create_direction pow CS_MESH_CARTESIAN_PARABOLIC_LAW
      n smin_ smax_ rho uninit = Done d ∧
    ncells d = n ∧ length (s d) = n + 1 ∧
    s d !! 0 = Some smin_ ∧ s d !! n = Some smax_ ∧
    ∀ c, c < n →
      ∃ x y, s d !! c = Some x ∧ s d !! (c + 1) = Some y ∧
             (y - x = parabolic_step smin_ smax_ rho n
                      * rho ^ (c `min` (n - 1 - c)))%R ∧
             (x <= y)%R.
Proof.
  intros Hle Hpos Hne Hn.
  destruct (parabolic_vertices n smin_ smax_ rho uninit) as
    (d & Hrun & _ & Hnc & _ & _ & _ & Hlen & Hs); [lra |].
  destruct (parabolic_step_middle smin_ smax_ rho n Hle Hpos Hne Hn)
    as (Hdx & np & Hmid).
  set (dx0 := parabolic_step smin_ smax_ rho n) in *.
  exists d. split; [done |]. split; [done |]. split; [done |].
  split; [| split].
  - rewrite Hs by lia. rewrite decide_True by lia. simpl. f_equal. lra.
  - rewrite Hs by lia. rewrite decide_False by lia.
    rewrite Nat.sub_diag. simpl. f_equal. lra.
  - intros c Hc. eexists _, _. split; [by apply Hs; lia |].
    split; [by apply Hs; lia |].
    assert (Hgoal : ∀ x y e, (y - x = dx0 * rho ^ e)%R →
                             (y - x = dx0 * rho ^ e)%R ∧ (x <= y)%R).
    { intros x y e He. split; [done |]. pose proof (pow_lt rho e Hpos).
      nra. }
    apply Hgoal. repeat case_decide.
    + (* both in the first half *)
      rewrite Nat.min_l by lia. replace (c + 1) with (S c) by lia.
      cbn [geom_sum]. lra.
    + lia.
    + (* across the middle *)
      rewrite Nat.min_l by lia.
      destruct Hmid as [(Hn2 & Hnp & He) | (Hn2 & Ho)].
      * assert (np = S c) as -> by lia.
        replace (n - (c + 1)) with (S c) by lia.
        cbn [geom_sum] in He |- *. clearbody dx0. nra.
      * assert (np = c) as -> by lia.
        replace (n - (c + 1)) with c by lia. clearbody dx0. nra.
    + (* both in the second half *)
      rewrite Nat.min_r by lia.
      replace (n - c) with (S (n - 1 - c)) by lia.
      replace (n - (c + 1)) with (n - 1 - c) by lia.
      cbn [geom_sum]. lra.
Qed.

(** * Cartesian mesh: parameters *)

Section Params.
Context {real : Type} {ops : cs_real_ops real}.
Variable pow : real → nat → real.

Lemma create_direction_constant (n : nat) (lo hi prog : real)
    (uninit : nat → real) :
  (hi <? lo)%cs = false →
  _cs_mesh_cartesian_create_direction pow CS_MESH_CARTESIAN_CONSTANT_LAW
    n lo hi prog uninit = Done (simple_direction n lo hi).
Proof.
  intros H. unfold _cs_mesh_cartesian_create_direction. by rewrite H.
Qed.

Lemma define_simple_run (ncells_ : list nat) (xyz : list real)
    (uninit : nat → real) (st : cartesian_glob_t real) :
  3 ≤ length ncells_ → 6 ≤ length xyz →
  (∀ idim, idim < 3 →
     (xyz !!! (idim + 3)%nat <? xyz !!! idim)%cs = false) →
  (∀ mp, _mesh_params st = Some mp → 3 ≤ length (params mp)) →
  ∃ mp',
    cs_mesh_cartesian_define_simple pow ncells_ xyz uninit st
    = Done {| _build_mesh_cartesian := _build_mesh_cartesian st;
              _mesh_params := Some mp' |} ∧
    ndir mp' = match _mesh_params st with
               | Some mp => ndir mp
               | None => 3
               end ∧
    length (params mp') = match _mesh_params st with
                          | Some mp => length (params mp)
                          | None => 3
                          end ∧
    ∀ idim, idim < 3 →
      params mp' !! idim
      = Some (Some (simple_direction (ncells_ !!! idim) (xyz !!! idim)
                      (xyz !!! (idim + 3)))).
Proof.
  intros Hn Hx Hle Hmp. unfold cs_mesh_cartesian_define_simple.
  set (mp0 := match _mesh_params st with
              | Some mp => mp
              | None => {| ndir := 3; params := replicate 3 None |}
              end).
  assert (Hst : (match cs_mesh_cartesian_get_params st with
                 | None => _cs_mesh_cartesian_init 3 st
                 | Some _ => mret st
                 end)
                = Done {| _build_mesh_cartesian := _build_mesh_cartesian st;
                          _mesh_params := Some mp0 |}).
  { unfold cs_mesh_cartesian_get_params, _cs_mesh_cartesian_init, mp0.
    destruct st as [b [mp|]]; simpl; done. }
  rewrite Hst. simpl.
  assert (Hlen0 : 3 ≤ length (params mp0)).
  { unfold mp0. destruct (_mesh_params st) as [mp|] eqn:E; [by apply Hmp |].
    simpl. lia. }
  match goal with
  | |- context [for_range 0 3 ?b ?init] =>
      destruct (for_range_inv (fun k st1 =>
        ∃ mp1, st1 = {| _build_mesh_cartesian := _build_mesh_cartesian st;
                        _mesh_params := Some mp1 |} ∧
          ndir mp1 = ndir mp0 ∧ length (params mp1) = length (params mp0) ∧
          ∀ idim, idim < k →
            params mp1 !! idim
            = Some (Some (simple_direction (ncells_ !!! idim) (xyz !!! idim)
                            (xyz !!! (idim + 3)))))
        b 0 3 init) as (st' & -> & mp' & -> & Hnd & Hlen & Hdir)
  end.
  - lia.
  - exists mp0. split; [done |]. split; [done |]. split; [done | lia].
  - intros k st1 [_ Hk] (mp1 & -> & Hnd & Hlen & Hdir).
    destruct (rd_lt ncells_ k) as (n & Hnk & ->); [lia |]. simpl.
    destruct (rd_lt xyz k) as (lo & Hlo & ->); [lia |]. simpl.
    destruct (rd_lt xyz (k + 3)) as (hi & Hhi & ->); [lia |]. simpl.
    rewrite create_direction_constant.
    2:{ rewrite <- (list_lookup_total_correct _ _ _ Hlo),
                <- (list_lookup_total_correct _ _ _ Hhi). by apply Hle. }
    simpl. unfold set_direction. simpl. rewrite wr_lt by lia. simpl.
    eexists. split; [done |]. eexists. split; [done |]. simpl.
    split; [done |]. split; [by rewrite length_insert |].
    intros idim Hidim. destruct (decide (idim = k)) as [-> | Hne].
    + rewrite list_lookup_insert_eq by lia.
      by rewrite (list_lookup_total_correct _ _ _ Hnk),
                 (list_lookup_total_correct _ _ _ Hlo),
                 (list_lookup_total_correct _ _ _ Hhi).
    + rewrite list_lookup_insert_ne by done. apply Hdir. lia.
  - exists mp'. split; [done |]. rewrite Hnd, Hlen. unfold mp0.
    by destruct (_mesh_params st).
Qed.

(** X17: round trip of the numbers of cells.  After
    [cs_mesh_cartesian_define_simple] with a box whose maxima are not below
    its minima, [cs_mesh_cartesian_get_ncells] returns for each direction
    the number of cells that was given, and
    [cs_mesh_cartesian_need_build] is what it was. *)
Theorem cs_mesh_cartesian_define_simple_get_ncells (ncells_ : list nat)
    (xyz : list real) (uninit : nat → real) (st : cartesian_glob_t real) :
  3 ≤ length ncells_ → 6 ≤ length xyz →
  (∀ idim, idim < 3 →
     (xyz !!! (idim + 3)%nat <? xyz !!! idim)%cs = false) →
  (∀ mp, _mesh_params st = Some mp → 3 ≤ length (params mp)) →
  ∃ st',
    cs_mesh_cartesian_define_simple pow ncells_ xyz uninit st = Done st' ∧
    cs_mesh_cartesian_need_build st' = cs_mesh_cartesian_need_build st ∧
    ∀ idim, idim < 3 →
      cs_mesh_cartesian_get_ncells idim st' = Done (ncells_ !!! idim).
Proof.
  intros Hn Hx Hle Hmp.
  destruct (define_simple_run ncells_ xyz uninit st Hn Hx Hle Hmp)
    as (mp' & Hrun & _ & _ & Hdir).
  eexists. split; [done |]. split; [done |]. intros idim Hidim.
  unfold cs_mesh_cartesian_get_ncells, direction. simpl.
  by rewrite (rd_lookup _ _ _ (Hdir idim Hidim)).
Qed.

(** X18: life cycle of the mesh parameters.  [cs_mesh_cartesian_create]
    from the initial state flags the mesh as to be built; a second call
    aborts because the parameters are already defined; reading the number
    of cells or destroying the parameters before a direction is defined goes
    through pointers that were never assigned (no defined behaviour); after
    [cs_mesh_cartesian_define_simple] the destruction succeeds, resets the
    parameters to NULL, and can be repeated. *)
Theorem cs_mesh_cartesian_params_life_cycle (ncells_ : list nat)
    (xyz : list real) (uninit : nat → real) :
  3 ≤ length ncells_ → 6 ≤ length xyz →
  (∀ idim, idim < 3 →
     (xyz !!! (idim + 3)%nat <? xyz !!! idim)%cs = false) →
  ∃ st1 st2,
    cs_mesh_cartesian_create cartesian_glob_0 = Done st1 ∧
    cs_mesh_cartesian_need_build st1 = 1%Z ∧
    cs_mesh_cartesian_create st1
    = Abort ("Error: cartesian mesh parameters were allready defined!"
             ++ nl) ∧
    cs_mesh_cartesian_get_ncells 0 st1 = Undef ∧
    cs_mesh_cartesian_params_destroy st1 = Undef ∧
    cs_mesh_cartesian_define_simple pow ncells_ xyz uninit st1 = Done st2 ∧
    cs_mesh_cartesian_params_destroy st2 = Done (set_mesh_params st2 None) ∧
    cs_mesh_cartesian_params_destroy (set_mesh_params st2 None)
    = Done (set_mesh_params st2 None).
Proof.
  intros Hn Hx Hle.
  set (st1 := {| _build_mesh_cartesian := 1%Z;
                 _mesh_params := Some {| ndir := 3;
                                         params := replicate 3 None |} |}
              : cartesian_glob_t real).
  destruct (define_simple_run ncells_ xyz uninit st1 Hn Hx Hle)
    as (mp' & Hrun & Hnd & Hlen & Hdir).
  { intros mp [= <-]. simpl. lia. }
  eexists st1, _. split; [done |]. split; [done |]. split; [done |].
  split; [done |]. split; [done |]. split; [exact Hrun |].
  split; [| done].
  unfold cs_mesh_cartesian_params_destroy. simpl in *. rewrite Hnd.
  destruct (for_range_pres (fun _ => True)
              (fun i (_ : unit) => dirp ← direction mp' i; mret ())
              0 3 ()) as ([] & -> & _); [done | | done].
  intros k [] Hk _. unfold direction.
  rewrite (rd_lookup _ _ _ (Hdir k ltac:(lia))). simpl. by eexists.
Qed.

End Params.

(** * Cartesian mesh: connectivity *)

(** * Loops that may fail *)

Section Loops_outcome.
Context {St : Type}.

Lemma for_loop_outcome (K : nat → outcome St → Prop)
    (body : nat → St → outcome St) (n lo : nat) (s : St) :
  K lo (Done s) →
  (∀ k st, lo ≤ k < lo + n → K k (Done st) → K (S k) (body k st)) →
  (∀ k o, lo ≤ k < lo + n → (∀ st, o ≠ Done st) → K k o → K (S k) o) →
  K (lo + n) (for_loop lo n body s).
Proof.
  revert lo s. induction n as [|n IH]; intros lo s H0 Hstep Hfail.
  - by rewrite Nat.add_0_r.
  - pose proof (Hstep lo s ltac:(lia) H0) as H1.
    replace (lo + S n) with (S lo + n) by lia.
    assert (Hprop : ∀ o, (∀ st, o ≠ Done st) → K (S lo) o →
                    ∀ m, m ≤ n → K (S lo + m) o).
    { intros o Ho Hlo. induction m as [|m IHm]; intros Hm.
      - by rewrite Nat.add_0_r.
      - replace (S lo + S m) with (S (S lo + m)) by lia.
        apply Hfail; [lia | done | apply IHm; lia]. }
    cbn [for_loop].
    destruct (body lo s) as [s1|msg|] eqn:Hb.
    + apply (IH (S lo) s1); [done | |].
      * intros k st Hk. apply Hstep. lia.
      * intros k o Hk. apply Hfail. lia.
    + by apply (Hprop (Abort msg)).
    + by apply (Hprop Undef).
Qed.

Lemma for_range_outcome (K : nat → outcome St → Prop)
    (body : nat → St → outcome St) (n : nat) (s : St) :
  K 0 (Done s) →
  (∀ k st, k < n → K k (Done st) → K (S k) (body k st)) →
  (∀ k o, k < n → (∀ st, o ≠ Done st) → K k o → K (S k) o) →
  K n (for_range 0 n body s).
Proof.
  intros H0 Hstep Hfail. unfold for_range. rewrite Nat.sub_0_r.
  apply (for_loop_outcome K body n 0 s); [done | |].
  - intros k st Hk. apply Hstep. lia.
  - intros k o Hk. apply Hfail. lia.
Qed.

(** Three nested loops, the innermost index running fastest: the step
    number of ([k], [j], [i]) is [i + n1 * (j + n2 * k)]. *)
Lemma loop3_outcome (K : nat → outcome St → Prop) (n3 n2 n1 : nat)
    (body : nat → nat → nat → St → outcome St) (s : St) :
  K 0 (Done s) →
  (∀ k j i st, k < n3 → j < n2 → i < n1 →
     K (i + n1 * (j + n2 * k)) (Done st) →
     K (S (i + n1 * (j + n2 * k))) (body k j i st)) →
  (∀ m o, (∀ st, o ≠ Done st) → K m o → K (S m) o) →
  K (n1 * (n2 * n3))
    (for_range 0 n3 (fun k st =>
       for_range 0 n2 (fun j st =>
         for_range 0 n1 (fun i st => body k j i st) st) st) s).
Proof.
  intros H0 Hstep Hfail.
  assert (Hfails : ∀ d m o, (∀ st, o ≠ Done st) → K m o → K (m + d) o).
  { induction d as [|d IHd]; intros m o Ho Hm.
    - by rewrite Nat.add_0_r.
    - replace (m + S d) with (S (m + d)) by lia. apply Hfail; [done |].
      by apply IHd. }
  apply (for_range_outcome (fun k o => K (n1 * (n2 * k)) o)).
  - by rewrite !Nat.mul_0_r.
  - intros k st Hk Hst.
    replace (n1 * (n2 * S k)) with (n1 * (n2 + n2 * k)) by lia.
    apply (for_range_outcome (fun j o => K (n1 * (j + n2 * k)) o)).
    + done.
    + intros j st1 Hj Hst1.
      replace (n1 * (S j + n2 * k)) with (n1 + n1 * (j + n2 * k)) by lia.
      apply (for_range_outcome (fun i o => K (i + n1 * (j + n2 * k)) o)).
      * done.
      * intros i st2 Hi Hst2. by apply Hstep.
      * intros i o Hi Ho Hm. by apply Hfail.
    + intros j o Hj Ho Hm.
      replace (n1 * (S j + n2 * k)) with (n1 * (j + n2 * k) + n1) by lia.
      by apply Hfails.
  - intros k o Hk Ho Hm.
    replace (n1 * (n2 * S k)) with (n1 * (n2 * k) + n1 * n2) by lia.
    by apply Hfails.
Qed.

(** The same for loops that complete. *)
Lemma loop3_inv (I : nat → St → Prop) (n3 n2 n1 : nat)
    (body : nat → nat → nat → St → outcome St) (s : St) :
  I 0 s →
  (∀ k j i st, k < n3 → j < n2 → i < n1 →
     I (i + n1 * (j + n2 * k)) st →
     ∃ st', body k j i st = Done st' ∧ I (S (i + n1 * (j + n2 * k))) st') →
  ∃ s', for_range 0 n3 (fun k st =>
          for_range 0 n2 (fun j st =>
            for_range 0 n1 (fun i st => body k j i st) st) st) s = Done s' ∧
        I (n1 * (n2 * n3)) s'.
Proof.
  intros H0 Hstep.
  apply (loop3_outcome (fun m o => ∃ st, o = Done st ∧ I m st)).
  - by exists s.
  - intros k j i st Hk Hj Hi (st0 & [= <-] & Hst).
    destruct (Hstep k j i st Hk Hj Hi Hst) as (st' & -> & Hst').
    by exists st'.
  - intros m o Ho (st & -> & _). by destruct (Ho st).
Qed.

End Loops_outcome.

Lemma euclid_inj (n a b a' b' : nat) :
  a < n → a' < n → a + n * b = a' + n * b' → a = a' ∧ b = b'.
Proof.
  intros Ha Ha' Heq.
  destruct (Nat.lt_trichotomy b b') as [Hlt | [-> | Hgt]].
  - destruct (Nat.le_exists_sub (S b) b') as (d & -> & _); [lia |].
    pose proof (Nat.le_0_l (n * d)). lia.
  - lia.
  - destruct (Nat.le_exists_sub (S b') b) as (d & -> & _); [lia |].
    pose proof (Nat.le_0_l (n * d)). lia.
Qed.

Lemma lin_inj (n1 n2 i j k i' j' k' : nat) :
  i < n1 → i' < n1 → j < n2 → j' < n2 →
  i + n1 * (j + n2 * k) = i' + n1 * (j' + n2 * k') →
  i = i' ∧ j = j' ∧ k = k'.
Proof.
  intros Hi Hi' Hj Hj' Heq.
  apply euclid_inj in Heq as [-> Heq]; [| done..].
  apply euclid_inj in Heq as [-> ->]; done.
Qed.

Lemma lin_lt (n1 n2 n3 i j k : nat) :
  i < n1 → j < n2 → k < n3 → i + n1 * (j + n2 * k) < n1 * (n2 * n3).
Proof.
  intros Hi Hj Hk.
  assert (Hjk : S (j + n2 * k) ≤ n2 * n3).
  { destruct (Nat.le_exists_sub (S k) n3) as (d & -> & _); [lia |].
    pose proof (Nat.le_0_l (n2 * d)). lia. }
  apply (Nat.mul_le_mono_l _ _ n1) in Hjk. lia.
Qed.

(** * The loops on the faces of the cartesian mesh *)

Opaque Nat.mul.

Lemma face_of_Some (g c : list Z) (v : list nat) (f : nat) (x c1 c2 : Z)
    (v0 v1 v2 v3 : nat) :
  g !! f = Some x → c !! (2 * f) = Some c1 → c !! (2 * f + 1) = Some c2 →
  v !! (4 * f + 0) = Some v0 → v !! (4 * f + 1) = Some v1 →
  v !! (4 * f + 2) = Some v2 → v !! (4 * f + 3) = Some v3 →
  face_of g c v f
  = Some {| gc := x; c_id1 := c1; c_id2 := c2; vtx := [v0; v1; v2; v3] |}.
Proof.
  intros Hg H1 H2 H3 H4 H5 H6. unfold face_of.
  by rewrite Hg, H1, H2, H3, H4, H5, H6.
Qed.

Lemma face_of_ext (g g' c c' : list Z) (v v' : list nat) (f : nat) :
  g' !! f = g !! f →
  c' !! (2 * f) = c !! (2 * f) →
  c' !! (2 * f + 1) = c !! (2 * f + 1) →
  (∀ t, t < 4 → v' !! (4 * f + t) = v !! (4 * f + t)) →
  face_of g' c' v' f = face_of g c v f.
Proof.
  intros Hg Hc0 Hc1 Hv. unfold face_of.
  rewrite Hg, Hc0, Hc1, (Hv 0), (Hv 1), (Hv 2), (Hv 3) by lia. done.
Qed.

(** The writes for one face: within the arrays they set the face and leave
    the others; past the arrays they are not defined. *)
Lemma put_face_run (cap : nat) (g : option Z) (c1 c2 : Z)
    (v3 v2 v1 v0 : nat) (fa : faces_t) :
  faces_sized cap fa →
  (f_id fa < cap → fgc fa !! f_id fa = Some 7%Z) →
  if decide (f_id fa < cap) then
    ∃ fa', put_face g c1 c2 v3 v2 v1 v0 fa = Done fa' ∧
      f_id fa' = S (f_id fa) ∧ faces_sized cap fa' ∧
      face_of (fgc fa') (fcells fa') (fvtx fa') (f_id fa)
      = Some {| gc := default 7%Z g; c_id1 := c1; c_id2 := c2;
                vtx := [v0; v1; v2; v3] |} ∧
      ∀ f, f ≠ f_id fa →
        fgc fa' !! f = fgc fa !! f ∧
        face_of (fgc fa') (fcells fa') (fvtx fa') f
        = face_of (fgc fa) (fcells fa) (fvtx fa) f
  else put_face g c1 c2 v3 v2 v1 v0 fa = Undef.
Proof.
  intros (Hg & Hc & Hv) H7. destruct fa as [ga ca va f]. simpl in *.
  case_decide as Hf.
  - set (ga' := match g with Some x => <[f:=x]> ga | None => ga end).
    exists {| fgc := ga';
              fcells := <[2 * f + 1:=c2]> (<[2 * f:=c1]> ca);
              fvtx := <[4 * f + 0:=v0]> (<[4 * f + 1:=v1]>
                        (<[4 * f + 2:=v2]> (<[4 * f + 3:=v3]> va)));
              f_id := f + 1 |}.
    assert (Hga' : length ga' = cap).
    { unfold ga'. destruct g; by rewrite ?length_insert. }
    split.
    { unfold put_face, ga', set_face_gc, store_face. simpl.
      destruct g as [x|]; simpl.
      - rewrite wr_lt by lia. simpl.
        rewrite !wr_lt by (rewrite ?length_insert; lia). simpl.
        rewrite !wr_lt by (rewrite ?length_insert; lia). simpl.
        rewrite !wr_lt by (rewrite ?length_insert; lia). simpl.
        rewrite !wr_lt by (rewrite ?length_insert; lia). done.
      - rewrite !wr_lt by (rewrite ?length_insert; lia). simpl.
        rewrite !wr_lt by (rewrite ?length_insert; lia). simpl.
        rewrite !wr_lt by (rewrite ?length_insert; lia). simpl.
        rewrite !wr_lt by (rewrite ?length_insert; lia). done. }
    simpl. split; [lia |]. split.
    { unfold faces_sized. simpl. by rewrite !length_insert. }
    split.
    { apply face_of_Some.
      - unfold ga'. destruct g as [x|]; simpl.
        + apply list_lookup_insert_eq. lia.
        + by apply H7.
      - rewrite list_lookup_insert_ne by lia.
        apply list_lookup_insert_eq. lia.
      - apply list_lookup_insert_eq. rewrite length_insert. lia.
      - apply list_lookup_insert_eq. rewrite !length_insert. lia.
      - rewrite list_lookup_insert_ne by lia.
        apply list_lookup_insert_eq. rewrite !length_insert. lia.
      - rewrite !list_lookup_insert_ne by lia.
        apply list_lookup_insert_eq. rewrite !length_insert. lia.
      - rewrite !list_lookup_insert_ne by lia.
        apply list_lookup_insert_eq. lia. }
    intros f' Hf'.
    assert (Hga : ga' !! f' = ga !! f').
    { unfold ga'. destruct g; [| done].
      rewrite list_lookup_insert_ne by lia. done. }
    split; [done |]. apply face_of_ext; [done | | |].
    + by rewrite !list_lookup_insert_ne by lia.
    + by rewrite !list_lookup_insert_ne by lia.
    + intros t Ht. by rewrite !list_lookup_insert_ne by lia.
  - unfold put_face, set_face_gc, store_face, wr. simpl.
    destruct g as [x|]; simpl.
    + destruct (decide (f < length ga)); [lia | reflexivity].
    + destruct (decide (2 * f < length ca)); [lia | reflexivity].
Qed.

Lemma face_block (cap n3 n2 n1 : nat) (spec : nat → nat → nat → face_t)
    (body : nat → nat → nat → faces_t → outcome faces_t) (fa0 : faces_t) :
  writes_face cap spec body →
  faces_sized cap fa0 →
  f_id fa0 ≤ cap →
  (∀ f, f_id fa0 ≤ f < cap → fgc fa0 !! f = Some 7%Z) →
  let run :=
    for_range 0 n3 (fun k st =>
      for_range 0 n2 (fun j st =>
        for_range 0 n1 (fun i st => body k j i st) st) st) fa0 in
  if decide (f_id fa0 + n1 * (n2 * n3) ≤ cap) then
    ∃ fa', run = Done fa' ∧
      f_id fa' = f_id fa0 + n1 * (n2 * n3) ∧ faces_sized cap fa' ∧
      (∀ k j i, k < n3 → j < n2 → i < n1 →
         face_of (fgc fa') (fcells fa') (fvtx fa')
           (f_id fa0 + (i + n1 * (j + n2 * k)))
         = Some (spec k j i)) ∧
      (∀ f, f < f_id fa0 ∨ f_id fa0 + n1 * (n2 * n3) ≤ f →
         face_of (fgc fa') (fcells fa') (fvtx fa') f
         = face_of (fgc fa0) (fcells fa0) (fvtx fa0) f) ∧
      (∀ f, f_id fa0 + n1 * (n2 * n3) ≤ f < cap →
         fgc fa' !! f = Some 7%Z)
  else run = Undef.
Proof.
  intros Hbody Hsz HB H7 run. set (B := f_id fa0) in *.
  pose (K := fun (m : nat) (o : outcome faces_t) =>
    if decide (B + m ≤ cap) then
      ∃ fa', o = Done fa' ∧ f_id fa' = B + m ∧ faces_sized cap fa' ∧
        (∀ k j i, k < n3 → j < n2 → i < n1 →
           i + n1 * (j + n2 * k) < m →
           face_of (fgc fa') (fcells fa') (fvtx fa')
             (B + (i + n1 * (j + n2 * k)))
           = Some (spec k j i)) ∧
        (∀ f, f < B ∨ B + m ≤ f →
           face_of (fgc fa') (fcells fa') (fvtx fa') f
           = face_of (fgc fa0) (fcells fa0) (fvtx fa0) f) ∧
        (∀ f, B + m ≤ f < cap → fgc fa' !! f = Some 7%Z)
    else o = Undef).
  assert (HK : K (n1 * (n2 * n3)) run).
  { apply (loop3_outcome K).
    - unfold K. rewrite decide_True by lia. exists fa0.
      split; [done |]. split; [unfold B; lia |]. split; [done |].
      split; [intros; lia |]. split; [done |].
      intros f Hf. apply H7. lia.
    - intros k j i st Hk Hj Hi. unfold K.
      set (m := i + n1 * (j + n2 * k)).
      case_decide as Hm; [| discriminate].
      intros (fa & [= <-] & Hfid & Hsz' & Hin & Hlow & Hhigh).
      pose proof (Hbody k j i st Hsz') as Hb. rewrite Hfid in Hb.
      case_decide as Hlt.
      + destruct Hb as (fa' & -> & Hfid' & Hsz'' & Hnew & Hothers).
        { intros _. apply Hhigh. lia. }
        rewrite decide_True by lia. exists fa'.
        split; [done |]. split; [lia |]. split; [done |].
        split; [| split].
        * intros k' j' i' Hk' Hj' Hi' Hlin.
          destruct (decide (i' + n1 * (j' + n2 * k') = m)) as [Heq | Hne].
          -- apply lin_inj in Heq as (-> & -> & ->); [| done..].
             by rewrite <- Hnew.
          -- destruct (Hothers (B + (i' + n1 * (j' + n2 * k'))))
               as [_ ->]; [lia |].
             apply Hin; [done.. | lia].
        * intros f Hf. destruct (Hothers f) as [_ ->]; [lia |].
          apply Hlow. lia.
        * intros f Hf. destruct (Hothers f) as [-> _]; [lia |].
          apply Hhigh. lia.
      + rewrite decide_False by lia. apply Hb. lia.
    - intros m o Ho. unfold K. case_decide as Hm.
      + intros (fa' & -> & _). by destruct (Ho fa').
      + intros ->. by rewrite decide_False by lia. }
  unfold K in HK. case_decide as Hcap; [| done].
  destruct HK as (fa' & Hrun & Hfid & Hsz' & Hin & Hlow & Hhigh).
  exists fa'. split; [done |]. split; [done |]. split; [done |].
  split; [| by split].
  intros k j i Hk Hj Hi. apply Hin; [done.. |]. by apply lin_lt.
Qed.

(** A body that comes down to the writes for one face. *)
Lemma writes_face_put (cap : nat) (spec : nat → nat → nat → face_t)
    (body : nat → nat → nat → faces_t → outcome faces_t) :
  (∀ k j i fa, ∃ g c1 c2 v3 v2 v1 v0,
     body k j i fa = put_face g c1 c2 v3 v2 v1 v0 fa ∧
     spec k j i = {| gc := default 7%Z g; c_id1 := c1; c_id2 := c2;
                     vtx := [v0; v1; v2; v3] |}) →
  writes_face cap spec body.
Proof.
  intros H k j i fa Hsz H7.
  destruct (H k j i fa) as (g & c1 & c2 & v3 & v2 & v1 & v0 & -> & ->).
  by apply put_face_run.
Qed.

Lemma put_face_Some (x c1 c2 : Z) (v3 v2 v1 v0 : nat) (fa : faces_t) :
  (y ← (fa' ← set_face_gc fa x; mret (c1, c2, fa'));
   let '(c_id1, c_id2, fa') := y in store_face c_id1 c_id2 v3 v2 v1 v0 fa')
  = put_face (Some x) c1 c2 v3 v2 v1 v0 fa.
Proof. unfold put_face. by destruct (set_face_gc fa x). Qed.

Transparent Nat.mul.

Lemma bind_run {A B} (m : outcome A) (f : A → outcome B) (a : A) :
  m = Done a → m ≫= f = f a.
Proof. by intros ->. Qed.

Lemma bind_Undef {A B} (m : outcome A) (f : A → outcome B) :
  m = Undef → m ≫= f = Undef.
Proof. by intros ->. Qed.

(** [for (i = 0; i < n; i++) a[i] = x;] *)
Lemma fill_run {A} (x : A) (a : list A) (n : nat) :
  n ≤ length a →
  ∃ a', for_range 0 n (fun i a => wr a i x) a = Done a' ∧
        length a' = length a ∧
        (∀ i, i < n → a' !! i = Some x) ∧
        (∀ i, n ≤ i → a' !! i = a !! i).
Proof.
  intros Hn.
  destruct (for_range_inv
    (fun k a' => length a' = length a ∧ (∀ i, i < k → a' !! i = Some x) ∧
                 (∀ i, k ≤ i → a' !! i = a !! i))
    (fun i a => wr a i x) 0 n a) as (a' & Hrun & H'); [lia | | | by exists a'].
  - split; [done |]. split; [intros; lia | done].
  - intros k a1 Hk (Hl & Hlow & Hhigh). exists (<[k:=x]> a1).
    split; [apply wr_lt; lia |]. split; [by rewrite length_insert |].
    split.
    + intros i Hi. destruct (decide (i = k)) as [-> | Hne].
      * apply list_lookup_insert_eq. lia.
      * rewrite list_lookup_insert_ne by done. apply Hlow. lia.
    + intros i Hi. rewrite list_lookup_insert_ne by lia. apply Hhigh. lia.
Qed.

(** [a[0] = 0; for (i = 0; i < n; i++) a[i+1] = a[i] + 4;] *)
Lemma idx_run (a : list nat) (n : nat) :
  n < length a → a !! 0 = Some 0 →
  ∃ a', for_range 0 n (fun i fvi =>
          x ← rd fvi i; wr fvi (i + 1) (x + nvtx_per_face)) a = Done a' ∧
        length a' = length a ∧ ∀ f, f ≤ n → a' !! f = Some (4 * f).
Proof.
  intros Hn H0.
  destruct (for_range_inv
    (fun k a' => length a' = length a ∧ ∀ f, f ≤ k → a' !! f = Some (4 * f))
    (fun i fvi => x ← rd fvi i; wr fvi (i + 1) (x + nvtx_per_face)) 0 n a)
    as (a' & Hrun & H'); [lia | | | by exists a'].
  - split; [done |]. intros f Hf. by replace f with 0 by lia.
  - intros k a1 Hk (Hl & Hlow). exists (<[k + 1:=4 * k + 4]> a1).
    split.
    { rewrite (rd_lookup _ _ _ (Hlow k (le_n k))). simpl.
      unfold nvtx_per_face. apply wr_lt. lia. }
    split; [by rewrite length_insert |].
    intros f Hf. destruct (decide (f = k + 1)) as [-> | Hne].
    + rewrite list_lookup_insert_eq by lia. f_equal. lia.
    + rewrite list_lookup_insert_ne by lia. apply Hlow. lia.
Qed.

Lemma malloc_lookup {A} (content : nat → A) (n i : nat) :
  i < n → (content <$> seq 0 n) !! i = Some (content i).
Proof.
  intros Hi. rewrite list_lookup_fmap, lookup_seq_lt by done. done.
Qed.

Ltac face_eq :=
  unfold cell_num, vtx_num; simpl; f_equal;
  first [ reflexivity | lia
        | rewrite ?Nat2Z.inj_succ, ?Nat2Z.inj_add, ?Nat2Z.inj_mul,
            ?Nat2Z.inj_sub by lia; lia
        | repeat (apply (f_equal2 cons); [lia |]); reflexivity ].

Section Connectivity.

Context {real : Type} {ops : cs_real_ops real}.

Opaque Nat.mul.

Lemma vertex_coord_Some (p : _cs_mesh_cartesian_direction_t real) (n : nat) :
  direction_filled p → n ≤ ncells p → is_Some (vertex_coord p n).
Proof.
  unfold direction_filled, vertex_coord. intros Hp Hn.
  destruct (law p).
  - destruct (lookup_lt_is_Some_2 (s p) 0 Hp) as [dx ->]. by eexists.
  - apply lookup_lt_is_Some_2. lia.
  - apply lookup_lt_is_Some_2. lia.
  - apply lookup_lt_is_Some_2. lia.
Qed.

(** The statement that stores one coordinate of a vertex. *)
Lemma coord_write (p : _cs_mesh_cartesian_direction_t real) (n pos : nat)
    (x : real) (vc : list real) :
  vertex_coord p n = Some x → pos < length vc →
  match law p return outcome (list real) with
  | CS_MESH_CARTESIAN_CONSTANT_LAW =>
      dx ← rd (s p) 0;
      wr vc pos (smin p + real_of_int (Z.of_nat n) * dx)%cs
  | _ => x ← rd (s p) n; wr vc pos x
  end = Done (<[pos:=x]> vc).
Proof.
  unfold vertex_coord. intros Hx Hpos. destruct (law p).
  - destruct (s p !! 0) as [dx|] eqn:Hdx; [| done].
    injection Hx as <-. rewrite (rd_lookup _ _ _ Hdx). simpl.
    by apply wr_lt.
  - rewrite (rd_lookup _ _ _ Hx). simpl. by apply wr_lt.
  - rewrite (rd_lookup _ _ _ Hx). simpl. by apply wr_lt.
  - rewrite (rd_lookup _ _ _ Hx). simpl. by apply wr_lt.
Qed.

(** The three writes for one vertex. *)
Lemma vertex_write (mp : cs_mesh_cartesian_params_t real)
    (px py pz : _cs_mesh_cartesian_direction_t real) (i j k v_id : nat)
    (vc : list real) :
  direction mp 0 = Done px → direction mp 1 = Done py →
  direction mp 2 = Done pz →
  direction_filled px → direction_filled py → direction_filled pz →
  i ≤ ncells px → j ≤ ncells py → k ≤ ncells pz →
  3 * v_id + 2 < length vc →
  ∃ vc',
    for_range 0 3 (fun idim vc =>
      p ← direction mp idim;
      match law p return outcome (list real) with
      | CS_MESH_CARTESIAN_CONSTANT_LAW =>
          n ← rd [i; j; k] idim;
          dx ← rd (s p) 0;
          wr vc (3 * v_id + idim)
            (smin p + real_of_int (Z.of_nat n) * dx)%cs
      | _ =>
          n ← rd [i; j; k] idim;
          x ← rd (s p) n;
          wr vc (3 * v_id + idim) x
      end) vc = Done vc' ∧
    length vc' = length vc ∧
    vc' !! (3 * v_id + 0) = vertex_coord px i ∧
    vc' !! (3 * v_id + 1) = vertex_coord py j ∧
    vc' !! (3 * v_id + 2) = vertex_coord pz k ∧
    ∀ q, ¬ (3 * v_id ≤ q < 3 * v_id + 3) → vc' !! q = vc !! q.
Proof.
  intros Hpx Hpy Hpz Hfx Hfy Hfz Hi Hj Hk Hlen.
  destruct (vertex_coord_Some px i Hfx Hi) as [x Hx].
  destruct (vertex_coord_Some py j Hfy Hj) as [y Hy].
  destruct (vertex_coord_Some pz k Hfz Hk) as [z Hz].
  exists (<[3 * v_id + 2:=z]> (<[3 * v_id + 1:=y]>
            (<[3 * v_id + 0:=x]> vc))).
  split.
  { unfold for_range. cbn [Nat.sub for_loop].
    rewrite (bind_run _ _ _ Hpx).
    erewrite bind_run;
      [| apply (coord_write px i _ x vc Hx); lia].
    rewrite (bind_run _ _ _ Hpy).
    erewrite bind_run;
      [| apply (coord_write py j _ y _ Hy);
         rewrite !length_insert; lia].
    rewrite (bind_run _ _ _ Hpz).
    erewrite bind_run;
      [| apply (coord_write pz k _ z _ Hz);
         rewrite !length_insert; lia].
    done. }
  split; [by rewrite !length_insert |].
  rewrite Hx, Hy, Hz. split; [| split; [| split]].
  - rewrite !list_lookup_insert_ne by lia. apply list_lookup_insert_eq. lia.
  - rewrite list_lookup_insert_ne by lia. apply list_lookup_insert_eq.
    rewrite length_insert. lia.
  - apply list_lookup_insert_eq. rewrite !length_insert. lia.
  - intros q Hq. by rewrite !list_lookup_insert_ne by lia.
Qed.

Lemma connectivity_run (st : cartesian_glob_t real)
    (mb : cs_mesh_builder_t real) (echo : Z) (u : uninit_t real)
    (mp : cs_mesh_cartesian_params_t real)
    (px py pz : _cs_mesh_cartesian_direction_t real) :
  _mesh_params st = Some mp →
  direction mp 0 = Done px → direction mp 1 = Done py →
  direction mp 2 = Done pz →
  fresh_builder mb →
  let nx := ncells px in
  let ny := ncells py in
  let nz := ncells pz in
  let nfaces := 3 * (nx * ny * nz) + nx * ny + nx * ny + ny * nz in
  let nvtx := (nx + 1) * (ny + 1) * (nz + 1) in
  if decide (nx * nz ≤ nx * ny) then
    direction_filled px ∧ direction_filled py ∧ direction_filled pz →
    ∃ cgc g fvi c v vc,
      cs_mesh_cartesian_connectivity st mb echo u
      = Done {| n_g_faces := nfaces;
                n_g_face_connect_size := nfaces * 2;
                cell_gc_id := Some cgc;
                face_gc_id := Some g;
                face_vertices_idx := Some fvi;
                face_cells := Some c;
                face_vertices := Some v;
                vertex_coords := Some vc |} ∧
      (length cgc = nx * ny * nz ∧
       ∀ i, i < nx * ny * nz → cgc !! i = Some 7%Z) ∧
      (length fvi = nfaces + 1 ∧
       ∀ f, f ≤ nfaces → fvi !! f = Some (4 * f)) ∧
      (length g = nfaces ∧ length c = 2 * nfaces ∧
       length v = 4 * nfaces) ∧
      (∀ i j k, i ≤ nx → j < ny → k < nz →
         face_of g c v (x_face_id nx ny nz i j k)
         = Some (x_face nx ny nz i j k)) ∧
      (∀ i j k, i < nx → j ≤ ny → k < nz →
         face_of g c v (y_face_id nx ny nz i j k)
         = Some (y_face nx ny nz i j k)) ∧
      (∀ i j k, i < nx → j < ny → k ≤ nz →
         face_of g c v (z_face_id nx ny nz i j k)
         = Some (z_face nx ny nz i j k)) ∧
      (∀ f, nfaces - (nx * ny - nx * nz) ≤ f < nfaces →
         face_of g c v f
         = Some {| gc := 7; c_id1 := uninit_gnum u (2 * f);
                   c_id2 := uninit_gnum u (2 * f + 1);
                   vtx := [uninit_vtx u (4 * f + 0);
                           uninit_vtx u (4 * f + 1);
                           uninit_vtx u (4 * f + 2);
                           uninit_vtx u (4 * f + 3)] |}) ∧
      length vc = nvtx * 3 ∧
      (∀ i j k, i ≤ nx → j ≤ ny → k ≤ nz →
         vc !! (3 * (vtx_num nx ny i j k - 1) + 0) = vertex_coord px i ∧
         vc !! (3 * (vtx_num nx ny i j k - 1) + 1) = vertex_coord py j ∧
         vc !! (3 * (vtx_num nx ny i j k - 1) + 2) = vertex_coord pz k)
  else cs_mesh_cartesian_connectivity st mb echo u = Undef.
Proof.
  intros Hmp Hpx Hpy Hpz (Hn1 & Hn2 & Hn3 & Hn4 & Hn5 & Hn6)
    nx ny nz nfaces nvtx.
  match goal with
  | |- if ?d then ?F → ∃ cgc g fvi c v vc, _ = @?D cgc g fvi c v vc ∧
                         @?Q cgc g fvi c v vc
       else _ = Undef =>
      set (P := fun o : outcome (cs_mesh_builder_t real) =>
                  if d then F → ∃ cgc g fvi c v vc,
                                  o = D cgc g fvi c v vc ∧
                                  Q cgc g fvi c v vc
                  else o = Undef)
  end.
  change (P (cs_mesh_cartesian_connectivity st mb echo u)).
  unfold cs_mesh_cartesian_connectivity.
  rewrite Hmp, Hn1, Hn2, Hn3, Hn4, Hn5, Hn6.
  cbn [deref]. rewrite (bind_run _ _ _ eq_refl).
  rewrite (bind_run _ _ _ Hpx), (bind_run _ _ _ Hpy), (bind_run _ _ _ Hpz).
  cbv zeta. fold nx ny nz. unfold malloc_if_null, malloc_or_realloc.
  fold nfaces.
  (* the groups of the cells *)
  destruct (fill_run 7%Z (uninit_int u <$> seq 0 (nx * ny * nz))
              (nx * ny * nz)) as (cgc & Hcgc & Hcgcl & Hcgc7 & _).
  { by rewrite length_fmap, length_seq. }
  rewrite length_fmap, length_seq in Hcgcl.
  rewrite (bind_run _ _ _ Hcgc). clear Hcgc.
  (* the groups of the faces *)
  destruct (fill_run 7%Z (uninit_int u <$> seq 0 nfaces) nfaces)
    as (g0 & Hg0 & Hg0l & Hg07 & _).
  { by rewrite length_fmap, length_seq. }
  rewrite length_fmap, length_seq in Hg0l.
  rewrite (bind_run _ _ _ Hg0). clear Hg0.
  (* the index of the vertices of the faces *)
  erewrite bind_run; [| apply wr_lt; rewrite length_fmap, length_seq; lia].
  destruct (idx_run (<[0:=0]> (uninit_lnum u <$> seq 0 (nfaces + 1))) nfaces)
    as (fvi & Hfvi & Hfvil & Hfvi4).
  { rewrite length_insert, length_fmap, length_seq. lia. }
  { apply list_lookup_insert_eq. rewrite length_fmap, length_seq. lia. }
  rewrite length_insert, length_fmap, length_seq in Hfvil.
  erewrite bind_run; [| apply Hfvi]. clear Hfvi.
  set (c0 := uninit_gnum u <$> seq 0 (2 * nfaces)).
  set (v0 := uninit_vtx u <$> seq 0 (4 * nfaces)).
  set (fa0 := {| fgc := g0; fcells := c0; fvtx := v0; f_id := 0 |}).
  assert (Hsz0 : faces_sized nfaces fa0).
  { unfold faces_sized, fa0, c0, v0. cbn [fgc fcells fvtx].
    by rewrite !length_fmap, !length_seq. }
  set (Fx := (nx + 1) * (ny * nz)).
  set (Fy := nx * ((ny + 1) * nz)).
  set (Fz := nx * (ny * (nz + 1))).
  assert (HFx : Fx = nx * ny * nz + ny * nz) by (unfold Fx; lia).
  assert (HFy : Fy = nx * ny * nz + nx * nz) by (unfold Fy; lia).
  assert (HFz : Fz = nx * ny * nz + nx * ny) by (unfold Fz; lia).
  (* the faces of normal x *)
  match goal with
  | |- context [for_range 0 ?n3 (fun k st =>
                  for_range 0 ?n2 (fun j st1 =>
                    for_range 0 ?n1 (fun i st2 => @?b k j i st2) st1) st)
                  fa0] =>
      pose proof (face_block nfaces n3 n2 n1
                    (fun k j i => x_face nx ny nz i j k) b fa0) as Hblock
  end.
  cbv beta zeta in Hblock. fold Fx in Hblock.
  change (f_id fa0) with 0 in Hblock.
  rewrite decide_True in Hblock by lia.
  destruct Hblock as (fa1 & Hrun & Hid1 & Hsz1 & Hx1 & Hfr1 & H71);
    [| done | lia | |].
  { apply writes_face_put. intros k j i fa.
    destruct (decide (i = 0)) as [-> | Hi0];
      [| destruct (decide (i = nx)) as [-> | Hin]].
    - eexists _, _, _, _, _, _, _. split; [apply put_face_Some |].
      unfold x_face, face_between. rewrite decide_True by done.
      face_eq.
    - eexists _, _, _, _, _, _, _. split; [apply put_face_Some |].
      unfold x_face, face_between. rewrite decide_False by done.
      rewrite decide_True by done.
      face_eq.
    - eexists None, _, _, _, _, _, _. split; [reflexivity |].
      unfold x_face, face_between. rewrite !decide_False by done.
      face_eq. }
  { intros f Hf. apply Hg07. lia. }
  rewrite (bind_run _ _ _ Hrun). clear Hrun.
  (* the faces of normal y *)
  match goal with
  | |- context [for_range 0 ?n3 (fun k st =>
                  for_range 0 ?n2 (fun j st1 =>
                    for_range 0 ?n1 (fun i st2 => @?b k j i st2) st1) st)
                  fa1] =>
      pose proof (face_block nfaces n3 n2 n1
                    (fun k j i => y_face nx ny nz i j k) b fa1) as Hblock
  end.
  cbv beta zeta in Hblock. fold Fy in Hblock. rewrite Hid1 in Hblock.
  assert (Hwy : ∀ A B, A → (A → B) → B) by auto.
  apply Hwy in Hblock; clear Hwy.
  2:{ apply writes_face_put. intros k j i fa.
    destruct (decide (j = 0)) as [-> | Hj0];
      [| destruct (decide (j = ny)) as [-> | Hjn]].
    - eexists _, _, _, _, _, _, _. split; [apply put_face_Some |].
      unfold y_face, face_between. rewrite decide_True by done.
      face_eq.
    - eexists _, _, _, _, _, _, _. split; [apply put_face_Some |].
      unfold y_face, face_between. rewrite decide_False by done.
      rewrite decide_True by done.
      face_eq.
    - eexists None, _, _, _, _, _, _. split; [reflexivity |].
      unfold y_face, face_between. rewrite !decide_False by done.
      face_eq. }
  specialize (Hblock Hsz1 ltac:(lia) H71).
  case_decide as HcapY; cycle 1.
  { rewrite (bind_Undef _ _ Hblock). unfold P.
    rewrite decide_False by lia. done. }
  destruct Hblock as (fa2 & Hrun & Hid2 & Hsz2 & Hy2 & Hfr2 & H72).
  rewrite (bind_run _ _ _ Hrun). clear Hrun.
  (* the faces of normal z *)
  match goal with
  | |- context [for_range 0 ?n3 (fun k st =>
                  for_range 0 ?n2 (fun j st1 =>
                    for_range 0 ?n1 (fun i st2 => @?b k j i st2) st1) st)
                  fa2] =>
      pose proof (face_block nfaces n3 n2 n1
                    (fun k j i => z_face nx ny nz i j k) b fa2) as Hblock
  end.
  cbv beta zeta in Hblock. fold Fz in Hblock. rewrite Hid2 in Hblock.
  assert (Hwz : ∀ A B, A → (A → B) → B) by auto.
  apply Hwz in Hblock; clear Hwz.
  2:{ apply writes_face_put. intros k j i fa.
    destruct (decide (k = 0)) as [-> | Hk0];
      [| destruct (decide (k = nz)) as [-> | Hkn]].
    - eexists _, _, _, _, _, _, _. split; [apply put_face_Some |].
      unfold z_face, face_between. rewrite decide_True by done.
      face_eq.
    - eexists _, _, _, _, _, _, _. split; [apply put_face_Some |].
      unfold z_face, face_between. rewrite decide_False by done.
      rewrite decide_True by done.
      face_eq.
    - eexists None, _, _, _, _, _, _. split; [reflexivity |].
      unfold z_face, face_between. rewrite !decide_False by done.
      face_eq. }
  specialize (Hblock Hsz2 ltac:(lia) H72).
  case_decide as HcapZ; cycle 1.
  { rewrite (bind_Undef _ _ Hblock). unfold P.
    rewrite decide_False by lia. done. }
  destruct Hblock as (fa3 & Hrun & Hid3 & Hsz3 & Hz3 & Hfr3 & H73).
  rewrite (bind_run _ _ _ Hrun). clear Hrun.
  (* the coordinates of the vertices *)
  unfold P. rewrite decide_True by lia. intros (Hfx & Hfy & Hfz).
  set (vc0 := uninit_real u <$> seq 0 ((nx + 1) * (ny + 1) * (nz + 1) * 3)).
  match goal with
  | |- context [for_range 0 ?n3 (fun k st =>
                  for_range 0 ?n2 (fun j st1 =>
                    for_range 0 ?n1 (fun i st2 => @?b k j i st2) st1) st)
                  vc0] =>
      destruct (loop3_inv
        (fun m vc => length vc = nvtx * 3 ∧
           ∀ i j k, i ≤ nx → j ≤ ny → k ≤ nz →
             i + (nx + 1) * (j + (ny + 1) * k) < m →
             vc !! (3 * (vtx_num nx ny i j k - 1) + 0) = vertex_coord px i ∧
             vc !! (3 * (vtx_num nx ny i j k - 1) + 1) = vertex_coord py j ∧
             vc !! (3 * (vtx_num nx ny i j k - 1) + 2) = vertex_coord pz k)
        n3 n2 n1 b vc0) as (vc & Hvc & Hvcl & Hvcs)
  end.
  { split; [| intros; lia]. unfold vc0, nvtx.
    by rewrite length_fmap, length_seq. }
  { intros k j i vc1 Hk Hj Hi [Hl Hdone]. cbv beta.
    assert (Hlin : i + j * (nx + 1) + k * (nx + 1) * (ny + 1)
                   = i + (nx + 1) * (j + (ny + 1) * k)) by lia.
    pose proof (lin_lt (nx + 1) (ny + 1) (nz + 1) i j k Hi Hj Hk) as Hlt.
    assert (Hi2 : i ≤ ncells px) by (fold nx; lia).
    assert (Hj2 : j ≤ ncells py) by (fold ny; lia).
    assert (Hk2 : k ≤ ncells pz) by (fold nz; lia).
    assert (Hlen : 3 * (i + j * (nx + 1) + k * (nx + 1) * (ny + 1)) + 2
                   < length vc1) by (rewrite Hl; unfold nvtx; lia).
    destruct (vertex_write mp px py pz i j k
                (i + j * (nx + 1) + k * (nx + 1) * (ny + 1)) vc1
                Hpx Hpy Hpz Hfx Hfy Hfz Hi2 Hj2 Hk2 Hlen)
      as (vc' & Hw & Hl' & H0 & H1 & H2 & Hfr).
    exists vc'. split; [exact Hw |]. split; [congruence |].
    intros i' j' k' Hi' Hj' Hk' Hm.
    destruct (decide (i' + (nx + 1) * (j' + (ny + 1) * k')
                      = i + (nx + 1) * (j + (ny + 1) * k))) as [Heq | Hne].
    - apply lin_inj in Heq as (-> & -> & ->); [| lia..].
      replace (vtx_num nx ny i j k - 1)
        with (i + j * (nx + 1) + k * (nx + 1) * (ny + 1))
        by (unfold vtx_num; lia).
      done.
    - assert (Hv : vtx_num nx ny i' j' k' - 1
                   = i' + (nx + 1) * (j' + (ny + 1) * k'))
        by (unfold vtx_num; lia).
      rewrite !Hfr by (rewrite Hv; lia).
      apply Hdone; [done.. | lia]. }
  destruct Hsz3 as (Hgl & Hcl & Hvl).
  exists cgc, (fgc fa3), fvi, (fcells fa3), (fvtx fa3), vc.
  split; [by rewrite (bind_run _ _ _ Hvc) |].
  split; [done |]. split; [done |]. split; [done |].
  split; [| split; [| split; [| split; [| split]]]].
  - intros i j k Hi Hj Hk.
    pose proof (lin_lt (nx + 1) ny nz i j k ltac:(lia) Hj Hk) as Hlt.
    unfold x_face_id. rewrite Hfr3, Hfr2 by (fold Fx; lia).
    apply (Hx1 k j i); [done.. | lia].
  - intros i j k Hi Hj Hk.
    pose proof (lin_lt nx (ny + 1) nz i j k Hi ltac:(lia) Hk) as Hlt.
    unfold y_face_id. rewrite Hfr3 by (fold Fx Fy; lia).
    apply (Hy2 k j i); [done | lia | done].
  - intros i j k Hi Hj Hk. unfold z_face_id.
    apply (Hz3 k j i); [lia | done | done].
  - intros f Hf.
    rewrite Hfr3, Hfr2, Hfr1 by (right; simpl; lia).
    unfold fa0, c0, v0. cbn [fgc fcells fvtx].
    apply face_of_Some; [apply Hg07; lia | apply malloc_lookup; lia..].
  - done.
  - intros i j k Hi Hj Hk. apply Hvcs; [done.. |].
    apply lin_lt; lia.
Qed.

Transparent Nat.mul.

End Connectivity.

Lemma euclid_surj (n m f : nat) :
  f < n * m → ∃ a b, a < n ∧ b < m ∧ f = a + n * b.
Proof.
  intros Hf. assert (Hn : n ≠ 0) by (intros ->; simpl in Hf; lia).
  exists (f `mod` n), (f `div` n).
  pose proof (Nat.div_mod_eq f n) as Heq.
  pose proof (Nat.mod_upper_bound f n Hn) as Hlt.
  split; [done |]. split; [| lia].
  apply (Nat.mul_lt_mono_pos_l n); lia.
Qed.

Lemma lin_surj (n1 n2 n3 f : nat) :
  f < n1 * (n2 * n3) →
  ∃ i j k, i < n1 ∧ j < n2 ∧ k < n3 ∧ f = i + n1 * (j + n2 * k).
Proof.
  intros Hf. apply euclid_surj in Hf as (i & q & Hi & Hq & ->).
  apply euclid_surj in Hq as (j & k & Hj & Hk & ->).
  by exists i, j, k.
Qed.

Lemma vtx_num_range (nx ny nz i j k : nat) :
  i ≤ nx → j ≤ ny → k ≤ nz →
  1 ≤ vtx_num nx ny i j k ≤ (nx + 1) * (ny + 1) * (nz + 1).
Proof.
  intros Hi Hj Hk. unfold vtx_num.
  pose proof (lin_lt (nx + 1) (ny + 1) (nz + 1) i j k) as H. lia.
Qed.

Lemma cell_num_range (nx ny nz i j k : nat) :
  i < nx → j < ny → k < nz →
  (1 ≤ cell_num nx ny i j k ≤ Z.of_nat (nx * ny * nz))%Z.
Proof.
  intros Hi Hj Hk. unfold cell_num.
  pose proof (lin_lt nx ny nz i j k Hi Hj Hk) as H. lia.
Qed.

Lemma face_between_in_mesh (nx ny nz n d : nat) (g : Z) (lower upper : Z)
    (vs : list nat) :
  d ≤ n → 0 < n → (g = 1 ∨ g = 3 ∨ g = 5)%Z →
  (d ≠ 0 → (1 ≤ lower ≤ Z.of_nat (nx * ny * nz))%Z) →
  (d ≠ n → (1 ≤ upper ≤ Z.of_nat (nx * ny * nz))%Z) →
  (d ≠ 0 → d ≠ n → lower ≠ upper) →
  length vs = 4 →
  Forall (fun v => 1 ≤ v ≤ (nx + 1) * (ny + 1) * (nz + 1)) vs →
  face_in_mesh nx ny nz (face_between n d g lower upper vs).
Proof.
  intros Hd Hn Hg Hlo Hup Hne Hl Hvs. unfold face_between, face_in_mesh.
  destruct (decide (d = 0)) as [-> | Hd0];
    [| destruct (decide (d = n)) as [-> | Hdn]]; simpl.
  - specialize (Hup ltac:(lia)). repeat split; try done; lia.
  - specialize (Hlo ltac:(lia)). repeat split; try done; lia.
  - specialize (Hlo ltac:(lia)). specialize (Hup ltac:(lia)).
    specialize (Hne Hd0 Hdn).
    repeat split; try done; lia.
Qed.

Lemma x_face_in_mesh (nx ny nz i j k : nat) :
  i ≤ nx → j < ny → k < nz → 0 < nx →
  face_in_mesh nx ny nz (x_face nx ny nz i j k).
Proof.
  intros Hi Hj Hk Hnx. unfold x_face.
  apply face_between_in_mesh; [done | done | by left | | | | done |].
  - intros Hi0. apply cell_num_range; [lia | done..].
  - intros Hin. apply cell_num_range; [lia | done..].
  - intros Hi0 _. unfold cell_num. lia.
  - do 4 (constructor; [apply (vtx_num_range nx ny nz); lia |]).
    constructor.
Qed.

Lemma y_face_in_mesh (nx ny nz i j k : nat) :
  i < nx → j ≤ ny → k < nz → 0 < ny →
  face_in_mesh nx ny nz (y_face nx ny nz i j k).
Proof.
  intros Hi Hj Hk Hny. unfold y_face.
  apply face_between_in_mesh;
    [done | done | by right; left | | | | done |].
  - intros Hj0. apply cell_num_range; [done | lia | done].
  - intros Hjn. apply cell_num_range; [done | lia | done].
  - intros Hj0 _. unfold cell_num. destruct j as [|j]; [done |].
    replace (S j - 1) with j by lia. lia.
  - do 4 (constructor; [apply (vtx_num_range nx ny nz); lia |]).
    constructor.
Qed.

Lemma z_face_in_mesh (nx ny nz i j k : nat) :
  i < nx → j < ny → k ≤ nz → 0 < nz →
  face_in_mesh nx ny nz (z_face nx ny nz i j k).
Proof.
  intros Hi Hj Hk Hnz. unfold z_face.
  apply face_between_in_mesh;
    [done | done | by right; right | | | | done |].
  - intros Hk0. apply cell_num_range; [done | done | lia].
  - intros Hkn. apply cell_num_range; [done | done | lia].
  - intros Hk0 _. unfold cell_num. destruct k as [|k]; [done |].
    replace (S k - 1) with k by lia.
    pose proof (Nat.mul_pos_pos nx ny ltac:(lia) ltac:(lia)). lia.
  - do 4 (constructor; [apply (vtx_num_range nx ny nz); lia |]).
    constructor.
Qed.

Section Connectivity_props.

Context {real : Type} {ops : cs_real_ops real}.

Variable st : cartesian_glob_t real.
Variable mb : cs_mesh_builder_t real.
Variable echo : Z.
Variable u : uninit_t real.
Variables px py pz : _cs_mesh_cartesian_direction_t real.

#[local] Abbreviation nx := (ncells px).
#[local] Abbreviation ny := (ncells py).
#[local] Abbreviation nz := (ncells pz).

Lemma fits_iff : nx * nz ≤ nx * ny ↔ (nx = 0 ∨ nz ≤ ny).
Proof.
  split.
  - intros H. destruct (decide (nx = 0)) as [? | Hnx]; [by left | right].
    apply (Nat.mul_le_mono_pos_l _ _ nx); lia.
  - intros [-> | H]; [done |]. by apply Nat.mul_le_mono_l.
Qed.

(** X19: [cs_mesh_cartesian_connectivity] writes past the arrays of the
    faces when the mesh has a cell in x and fewer cells in y than in z.  The
    arrays are allocated for
    [3*nx*ny*nz + nx*ny + nx*ny + ny*nz] faces while the loops write
    [3*nx*ny*nz + ny*nz + nx*nz + nx*ny] of them, which is more when
    [nx*ny < nx*nz]: the run has no defined behaviour. *)
Theorem cs_mesh_cartesian_connectivity_overflow :
  mesh_directions st px py pz → fresh_builder mb →
  0 < nx → ny < nz →
  cs_mesh_cartesian_connectivity st mb echo u = Undef.
Proof.
  intros (mp & Hmp & Hpx & Hpy & Hpz) Hfresh Hnx Hlt.
  pose proof (connectivity_run st mb echo u mp px py pz Hmp Hpx Hpy Hpz
                Hfresh) as H.
  cbv zeta in H. rewrite decide_False in H; [done |].
  rewrite fits_iff. lia.
Qed.

(** X20: sizes set by [cs_mesh_cartesian_connectivity] when the mesh has
    no more cells in z than in y.  The run completes; [n_g_faces] is the
    number of faces of the mesh plus [nx * (ny - nz)]; the index of the
    vertices of the faces has [n_g_faces + 1] entries, the entry [f] being
    [4 * f], so that its last entry is twice [n_g_face_connect_size]; every
    cell is in the group 7. *)
Theorem cs_mesh_cartesian_connectivity_sizes :
  mesh_directions st px py pz → fresh_builder mb →
  direction_filled px → direction_filled py → direction_filled pz →
  nz ≤ ny →
  ∃ mb' fvi cgc,
    cs_mesh_cartesian_connectivity st mb echo u = Done mb' ∧
    n_g_faces mb'
    = (nx + 1) * ny * nz + nx * (ny + 1) * nz + nx * ny * (nz + 1)
      + nx * (ny - nz) ∧
    face_vertices_idx mb' = Some fvi ∧
    length fvi = n_g_faces mb' + 1 ∧
    (∀ f, f ≤ n_g_faces mb' → fvi !! f = Some (4 * f)) ∧
    fvi !! n_g_faces mb' = Some (2 * n_g_face_connect_size mb') ∧
    cell_gc_id mb' = Some cgc ∧
    cgc = replicate (nx * ny * nz) 7%Z.
Proof.
  intros (mp & Hmp & Hpx & Hpy & Hpz) Hfresh Hfx Hfy Hfz Hle.
  pose proof (connectivity_run st mb echo u mp px py pz Hmp Hpx Hpy Hpz
                Hfresh) as H.
  cbv zeta in H. rewrite decide_True in H by (rewrite fits_iff; lia).
  destruct H as (cgc & g & fvi & c & v & vc & Hrun & [Hcl Hc7] & [Hil Hi4]
                 & _); [done |].
  eexists _, fvi, cgc. split; [exact Hrun |]. simpl.
  assert (Hn : 3 * (nx * ny * nz) + nx * ny + nx * ny + ny * nz
               = (nx + 1) * ny * nz + nx * (ny + 1) * nz
                 + nx * ny * (nz + 1) + nx * (ny - nz)).
  { rewrite Nat.mul_sub_distr_l.
    pose proof (Nat.mul_le_mono_l _ _ nx Hle). lia. }
  split; [done |]. split; [done |]. split; [done |].
  split; [done |]. split; [rewrite Hi4 by lia; f_equal; lia |].
  split; [done |].
  apply list_eq. intros i. destruct (decide (i < nx * ny * nz)) as [Hi | Hi].
  - rewrite Hc7 by done. symmetry. by apply lookup_replicate_2.
  - rewrite !lookup_ge_None_2; [done | rewrite length_replicate | ]; lia.
Qed.

(** X21: the faces built by [cs_mesh_cartesian_connectivity].  The faces
    of normal x come first, then those of normal y, then those of normal z,
    the index [i] running fastest; the face between two cells has the cell
    of lower index first and the group 7, a face of the boundary has 0 for
    the missing cell and the group 1 to 6 of its side (x min, x max, y min,
    y max, z min, z max); the four vertices are those of the vocabulary
    [x_face], [y_face], [z_face]. *)
Theorem cs_mesh_cartesian_connectivity_faces :
  mesh_directions st px py pz → fresh_builder mb →
  direction_filled px → direction_filled py → direction_filled pz →
  nz ≤ ny →
  ∃ mb',
    cs_mesh_cartesian_connectivity st mb echo u = Done mb' ∧
    (∀ i j k, i ≤ nx → j < ny → k < nz →
       builder_face mb' (x_face_id nx ny nz i j k)
       = Some (x_face nx ny nz i j k)) ∧
    (∀ i j k, i < nx → j ≤ ny → k < nz →
       builder_face mb' (y_face_id nx ny nz i j k)
       = Some (y_face nx ny nz i j k)) ∧
    (∀ i j k, i < nx → j < ny → k ≤ nz →
       builder_face mb' (z_face_id nx ny nz i j k)
       = Some (z_face nx ny nz i j k)).
Proof.
  intros (mp & Hmp & Hpx & Hpy & Hpz) Hfresh Hfx Hfy Hfz Hle.
  pose proof (connectivity_run st mb echo u mp px py pz Hmp Hpx Hpy Hpz
                Hfresh) as H.
  cbv zeta in H. rewrite decide_True in H by (rewrite fits_iff; lia).
  destruct H as (cgc & g & fvi & c & v & vc & Hrun & _ & _ & _
                 & Hx & Hy & Hz & _); [done |].
  eexists. split; [exact Hrun |]. unfold builder_face. simpl. done.
Qed.

(** X22: [cs_mesh_cartesian_connectivity] leaves the last
    [nx * (ny - nz)] faces that it announces in [n_g_faces] unset: their
    cells and vertices are what the allocation held, their group is 7. *)
Theorem cs_mesh_cartesian_connectivity_unset_faces :
  mesh_directions st px py pz → fresh_builder mb →
  direction_filled px → direction_filled py → direction_filled pz →
  nz ≤ ny →
  ∃ mb',
    cs_mesh_cartesian_connectivity st mb echo u = Done mb' ∧
    ∀ f, n_g_faces mb' - nx * (ny - nz) ≤ f < n_g_faces mb' →
      builder_face mb' f
      = Some {| gc := 7; c_id1 := uninit_gnum u (2 * f);
                c_id2 := uninit_gnum u (2 * f + 1);
                vtx := [uninit_vtx u (4 * f + 0); uninit_vtx u (4 * f + 1);
                        uninit_vtx u (4 * f + 2); uninit_vtx u (4 * f + 3)]
             |}.
Proof.
  intros (mp & Hmp & Hpx & Hpy & Hpz) Hfresh Hfx Hfy Hfz Hle.
  pose proof (connectivity_run st mb echo u mp px py pz Hmp Hpx Hpy Hpz
                Hfresh) as H.
  cbv zeta in H. rewrite decide_True in H by (rewrite fits_iff; lia).
  destruct H as (cgc & g & fvi & c & v & vc & Hrun & _ & _ & _
                 & _ & _ & _ & Hun & _); [done |].
  eexists. split; [exact Hrun |]. unfold builder_face. simpl.
  intros f Hf. apply Hun. rewrite Nat.mul_sub_distr_l in Hf. done.
Qed.

(** X23: every cell is enclosed by six faces.  The cell of indices [i],
    [j], [k] is the second cell of its faces of lower x, y and z and the
    first cell of its faces of upper x, y and z. *)
Theorem cs_mesh_cartesian_connectivity_cell_faces :
  mesh_directions st px py pz → fresh_builder mb →
  direction_filled px → direction_filled py → direction_filled pz →
  nz ≤ ny →
  ∃ mb',
    cs_mesh_cartesian_connectivity st mb echo u = Done mb' ∧
    ∀ i j k, i < nx → j < ny → k < nz →
      let c := Some (cell_num nx ny i j k) in
      face_cell2 mb' (x_face_id nx ny nz i j k) = c ∧
      face_cell1 mb' (x_face_id nx ny nz (i + 1) j k) = c ∧
      face_cell2 mb' (y_face_id nx ny nz i j k) = c ∧
      face_cell1 mb' (y_face_id nx ny nz i (j + 1) k) = c ∧
      face_cell2 mb' (z_face_id nx ny nz i j k) = c ∧
      face_cell1 mb' (z_face_id nx ny nz i j (k + 1)) = c.
Proof.
  intros (mp & Hmp & Hpx & Hpy & Hpz) Hfresh Hfx Hfy Hfz Hle.
  pose proof (connectivity_run st mb echo u mp px py pz Hmp Hpx Hpy Hpz
                Hfresh) as H.
  cbv zeta in H. rewrite decide_True in H by (rewrite fits_iff; lia).
  destruct H as (cgc & g & fvi & c & v & vc & Hrun & _ & _ & _
                 & Hx & Hy & Hz & _); [done |].
  eexists. split; [exact Hrun |].
  intros i j k Hi Hj Hk. unfold face_cell1, face_cell2, builder_face.
  simpl.
  rewrite (Hx i j k), (Hx (i + 1) j k), (Hy i j k), (Hy i (j + 1) k),
    (Hz i j k), (Hz i j (k + 1)) by lia.
  unfold x_face, y_face, z_face, face_between. simpl.
  rewrite !Nat.add_sub.
  repeat case_decide; try lia; done.
Qed.

(** X24: the faces stay inside the mesh.  In a mesh with a cell in each
    direction, every face that [cs_mesh_cartesian_connectivity] builds has
    four vertices numbered from 1 to the number of vertices and two
    different cells numbered from 1 to the number of cells, or 0 for none;
    its group is 7 exactly when it has a cell on both sides, and from 1 to
    6 otherwise. *)
Theorem cs_mesh_cartesian_connectivity_faces_in_mesh :
  mesh_directions st px py pz → fresh_builder mb →
  direction_filled px → direction_filled py → direction_filled pz →
  0 < nx → 0 < nz → nz ≤ ny →
  ∃ mb',
    cs_mesh_cartesian_connectivity st mb echo u = Done mb' ∧
    ∀ f, f < (nx + 1) * ny * nz + nx * (ny + 1) * nz + nx * ny * (nz + 1) →
      ∃ F, builder_face mb' f = Some F ∧ face_in_mesh nx ny nz F.
Proof.
  intros (mp & Hmp & Hpx & Hpy & Hpz) Hfresh Hfx Hfy Hfz Hnx Hnz Hle.
  pose proof (connectivity_run st mb echo u mp px py pz Hmp Hpx Hpy Hpz
                Hfresh) as H.
  cbv zeta in H. rewrite decide_True in H by (rewrite fits_iff; lia).
  destruct H as (cgc & g & fvi & c & v & vc & Hrun & _ & _ & _
                 & Hx & Hy & Hz & _); [done |].
  eexists. split; [exact Hrun |]. unfold builder_face. simpl.
  intros f Hf.
  destruct (decide (f < (nx + 1) * (ny * nz))) as [Hfx' | Hfx'].
  { apply lin_surj in Hfx' as (i & j & k & Hi & Hj & Hk & ->).
    exists (x_face nx ny nz i j k).
    split; [apply Hx; lia | apply x_face_in_mesh; lia]. }
  destruct (decide (f - (nx + 1) * (ny * nz) < nx * ((ny + 1) * nz)))
    as [Hfy' | Hfy'].
  { apply lin_surj in Hfy' as (i & j & k & Hi & Hj & Hk & Heq).
    exists (y_face nx ny nz i j k).
    split; [| apply y_face_in_mesh; lia].
    replace f with (y_face_id nx ny nz i j k) by (unfold y_face_id; lia).
    apply Hy; lia. }
  assert (Hfz' : f - (nx + 1) * (ny * nz) - nx * ((ny + 1) * nz)
                 < nx * (ny * (nz + 1))) by lia.
  apply lin_surj in Hfz' as (i & j & k & Hi & Hj & Hk & Heq).
  exists (z_face nx ny nz i j k).
  split; [| apply z_face_in_mesh; lia].
  replace f with (z_face_id nx ny nz i j k) by (unfold z_face_id; lia).
  apply Hz; lia.
Qed.

(** X25: the coordinates stored by [cs_mesh_cartesian_connectivity].  The
    vertex of indices [i], [j], [k] has the number
    [1 + i + j*(nx+1) + k*(nx+1)*(ny+1)] and the coordinates of the vertex
    [i] of the direction x, [j] of the direction y and [k] of the direction
    z: [smin + n * s[0]] for the constant law, [s[n]] for the others. *)
Theorem cs_mesh_cartesian_connectivity_vertex_coords :
  mesh_directions st px py pz → fresh_builder mb →
  direction_filled px → direction_filled py → direction_filled pz →
  nz ≤ ny →
  ∃ mb',
    cs_mesh_cartesian_connectivity st mb echo u = Done mb' ∧
    ∀ i j k, i ≤ nx → j ≤ ny → k ≤ nz →
      ∃ x y z,
        vertex_coord px i = Some x ∧ vertex_coord py j = Some y ∧
        vertex_coord pz k = Some z ∧
        builder_coord mb' (vtx_num nx ny i j k - 1) 0 = Some x ∧
        builder_coord mb' (vtx_num nx ny i j k - 1) 1 = Some y ∧
        builder_coord mb' (vtx_num nx ny i j k - 1) 2 = Some z.
Proof.
  intros (mp & Hmp & Hpx & Hpy & Hpz) Hfresh Hfx Hfy Hfz Hle.
  pose proof (connectivity_run st mb echo u mp px py pz Hmp Hpx Hpy Hpz
                Hfresh) as H.
  cbv zeta in H. rewrite decide_True in H by (rewrite fits_iff; lia).
  destruct H as (cgc & g & fvi & c & v & vc & Hrun & _ & _ & _
                 & _ & _ & _ & _ & _ & Hvc); [done |].
  eexists. split; [exact Hrun |].
  intros i j k Hi Hj Hk.
  destruct (vertex_coord_Some px i Hfx Hi) as [x Hx].
  destruct (vertex_coord_Some py j Hfy Hj) as [y Hy].
  destruct (vertex_coord_Some pz k Hfz Hk) as [z Hz].
  exists x, y, z. destruct (Hvc i j k Hi Hj Hk) as (H0 & H1 & H2).
  split; [done |]. split; [done |]. split; [done |].
  rewrite <- Hx, <- Hy, <- Hz, <- H0, <- H1, <- H2. done.
Qed.

End Connectivity_props.

Lemma Rltb_false (a b : R) : (b <= a)%R → Rltb a b = false.
Proof. intros H. unfold Rltb. destruct (Rlt_dec a b); [lra | done]. Qed.

Lemma Rltb_true (a b : R) : (a < b)%R → Rltb a b = true.
Proof. intros H. unfold Rltb. destruct (Rlt_dec a b); [done | lra]. Qed.

Lemma simple_direction_coord (n i : nat) (lo hi : R) :
  vertex_coord (simple_direction n lo hi) i
  = Some (lo + (hi - lo) * IZR (Z.of_nat i) / IZR (Z.of_nat n))%R.
Proof.
  unfold vertex_coord, simple_direction. simpl. f_equal.
  unfold Rdiv. ring.
Qed.

(** X26: a mesh defined by [cs_mesh_cartesian_define_simple] fills its
    box.  With a cell in each direction and no more cells in z than in y
    (exact arithmetic), [cs_mesh_cartesian_connectivity] places the vertex
    of indices [i], [j], [k] at
    [(x0 + (x1-x0)*i/nx, y0 + (y1-y0)*j/ny, z0 + (z1-z0)*k/nz)]; the first
    vertex is the corner of the minima and the last vertex the corner of
    the maxima. *)
Theorem cs_mesh_cartesian_simple_mesh_vertices (pow : R → nat → R)
    (nx ny nz : nat) (x0 y0 z0 x1 y1 z1 : R) (uninit : nat → R)
    (st : cartesian_glob_t R) (mb : cs_mesh_builder_t R) (echo : Z)
    (u : uninit_t R) :
  _mesh_params st = None → fresh_builder mb →
  (x0 <= x1)%R → (y0 <= y1)%R → (z0 <= z1)%R →
  0 < nx → 0 < nz → nz ≤ ny →
  ∃ st' mb',
    cs_mesh_cartesian_define_simple pow [nx; ny; nz]
      [x0; y0; z0; x1; y1; z1] uninit st = Done st' ∧
    cs_mesh_cartesian_connectivity st' mb echo u = Done mb' ∧
    (∀ i j k, i ≤ nx → j ≤ ny → k ≤ nz →
       builder_coord mb' (vtx_num nx ny i j k - 1) 0
       = Some (x0 + (x1 - x0) * IZR (Z.of_nat i) / IZR (Z.of_nat nx))%R ∧
       builder_coord mb' (vtx_num nx ny i j k - 1) 1
       = Some (y0 + (y1 - y0) * IZR (Z.of_nat j) / IZR (Z.of_nat ny))%R ∧
       builder_coord mb' (vtx_num nx ny i j k - 1) 2
       = Some (z0 + (z1 - z0) * IZR (Z.of_nat k) / IZR (Z.of_nat nz))%R) ∧
    builder_coord mb' 0 0 = Some x0 ∧
    builder_coord mb' 0 1 = Some y0 ∧
    builder_coord mb' 0 2 = Some z0 ∧
    builder_coord mb' ((nx + 1) * (ny + 1) * (nz + 1) - 1) 0 = Some x1 ∧
    builder_coord mb' ((nx + 1) * (ny + 1) * (nz + 1) - 1) 1 = Some y1 ∧
    builder_coord mb' ((nx + 1) * (ny + 1) * (nz + 1) - 1) 2 = Some z1.
Proof.
  intros Hnone Hfresh Hx Hy Hz Hnx Hnz Hle.
  destruct (define_simple_run pow [nx; ny; nz] [x0; y0; z0; x1; y1; z1]
              uninit st) as (mp' & Hrun & _ & _ & Hdir).
  { simpl. lia. }
  { simpl. lia. }
  { intros idim Hidim. destruct idim as [|[|[|idim]]]; [| | | lia];
      simpl; by apply Rltb_false. }
  { intros mp Hmp. congruence. }
  set (px := simple_direction nx x0 x1).
  set (py := simple_direction ny y0 y1).
  set (pz := simple_direction nz z0 z1).
  set (st' := {| _build_mesh_cartesian := _build_mesh_cartesian st;
                 _mesh_params := Some mp' |}) in *.
  assert (Hd : ∀ idim p, params mp' !! idim = Some (Some p) →
                 direction mp' idim = Done p).
  { intros idim p Hp. unfold direction. by rewrite (rd_lookup _ _ _ Hp). }
  pose proof (connectivity_run st' mb echo u mp' px py pz eq_refl
                (Hd 0 px (Hdir 0 ltac:(lia))) (Hd 1 py (Hdir 1 ltac:(lia)))
                (Hd 2 pz (Hdir 2 ltac:(lia))) Hfresh) as H.
  cbv zeta in H. change (ncells px) with nx in H.
  change (ncells py) with ny in H. change (ncells pz) with nz in H.
  rewrite decide_True in H by (by apply Nat.mul_le_mono_l).
  destruct H as (cgc & g & fvi & c & v & vc & Hcon & _ & _ & _
                 & _ & _ & _ & _ & _ & Hvc).
  { unfold direction_filled. simpl. lia. }
  exists st'. eexists. split; [exact Hrun |]. split; [exact Hcon |].
  assert (Hall : ∀ i j k, i ≤ nx → j ≤ ny → k ≤ nz →
    vc !! (3 * (vtx_num nx ny i j k - 1) + 0)
    = Some (x0 + (x1 - x0) * IZR (Z.of_nat i) / IZR (Z.of_nat nx))%R ∧
    vc !! (3 * (vtx_num nx ny i j k - 1) + 1)
    = Some (y0 + (y1 - y0) * IZR (Z.of_nat j) / IZR (Z.of_nat ny))%R ∧
    vc !! (3 * (vtx_num nx ny i j k - 1) + 2)
    = Some (z0 + (z1 - z0) * IZR (Z.of_nat k) / IZR (Z.of_nat nz))%R).
  { intros i j k Hi Hj Hk. destruct (Hvc i j k Hi Hj Hk) as (H0 & H1 & H2).
    rewrite H0, H1, H2. unfold px, py, pz.
    by rewrite !simple_direction_coord. }
  split; [exact Hall |].
  assert (Hnz0 : ∀ n, 0 < n → IZR (Z.of_nat n) ≠ 0%R).
  { intros n Hn. apply not_0_IZR. lia. }
  destruct (Hall 0 0 0) as (A0 & A1 & A2); [lia.. |].
  destruct (Hall nx ny nz) as (B0 & B1 & B2); [lia.. |].
  replace (vtx_num nx ny 0 0 0 - 1) with 0 in A0, A1, A2
    by (unfold vtx_num; lia).
  replace (vtx_num nx ny nx ny nz - 1)
    with ((nx + 1) * (ny + 1) * (nz + 1) - 1) in B0, B1, B2
    by (unfold vtx_num; lia).
  unfold builder_coord. cbn [vertex_coords mbind option_bind].
  rewrite A0, A1, A2, B0, B1, B2.
  pose proof (Hnz0 nx Hnx). pose proof (Hnz0 ny ltac:(lia)).
  pose proof (Hnz0 nz Hnz).
  repeat split; f_equal; simpl; field; done.
Qed.

Section Dir_params.

Context {real : Type} {ops : cs_real_ops real}.
Variable pow : real → nat → real.

(** X27: [cs_mesh_cartesian_define_dir_params], the parameters being
    absent or having room for the direction.  It aborts with the messages of
    [_cs_mesh_cartesian_create_direction] when the maximum is below the
    minimum and, the bounds being in order, when the law is not the
    constant, the geometric or the parabolic one.  When the direction can
    be created it is stored as the direction [idim]:
    [cs_mesh_cartesian_get_ncells] then returns its number of cells, the
    other directions and the build flag being left as they were. *)
Theorem cs_mesh_cartesian_define_dir_params_spec (idim : nat)
    (law_ : cs_mesh_cartesian_law_t) (n : nat) (lo hi prog : real)
    (uninit : nat → real) (st : cartesian_glob_t real) :
  let mp0 := default {| ndir := 3; params := replicate 3 None |}
               (_mesh_params st) in
  idim < length (params mp0) →
  ((hi <? lo)%cs = true →
   cs_mesh_cartesian_define_dir_params pow idim law_ n lo hi prog uninit st
   = Abort ("Error: smax < smin in _cs_mesh_cartesian_create_direction"
            ++ nl)) ∧
  ((hi <? lo)%cs = false → law_ = CS_MESH_CARTESIAN_USER_LAW →
   cs_mesh_cartesian_define_dir_params pow idim law_ n lo hi prog uninit st
   = Abort ("Error: Method not yet implemented for "
            ++ "'_cs_mesh_cartesian_create_direction'" ++ nl)) ∧
  (∀ d, _cs_mesh_cartesian_create_direction pow law_ n lo hi prog uninit
        = Done d →
     ∃ st',
       cs_mesh_cartesian_define_dir_params pow idim law_ n lo hi prog
         uninit st = Done st' ∧
       _build_mesh_cartesian st' = _build_mesh_cartesian st ∧
       _mesh_params st'
       = Some {| ndir := ndir mp0;
                 params := <[idim:=Some d]> (params mp0) |} ∧
       cs_mesh_cartesian_get_ncells idim st' = Done (ncells d) ∧
       ∀ j, j ≠ idim →
         cs_mesh_cartesian_get_ncells j st'
         = cs_mesh_cartesian_get_ncells j (set_mesh_params st (Some mp0))).
Proof.
  intros mp0 Hidim.
  assert (Hinit : (match cs_mesh_cartesian_get_params st with
                   | None => _cs_mesh_cartesian_init 3 st
                   | Some _ => mret st
                   end) = Done (set_mesh_params st (Some mp0))).
  { unfold cs_mesh_cartesian_get_params, _cs_mesh_cartesian_init, mp0.
    destruct st as [b [mp|]]; simpl; done. }
  unfold cs_mesh_cartesian_define_dir_params. rewrite Hinit. simpl.
  split; [| split].
  - intros H. unfold _cs_mesh_cartesian_create_direction. by rewrite H.
  - intros H ->. unfold _cs_mesh_cartesian_create_direction. by rewrite H.
  - intros d ->. simpl. unfold set_direction. simpl.
    rewrite wr_lt by done. simpl. eexists. split; [done |]. simpl.
    split; [done |]. split; [done |].
    unfold cs_mesh_cartesian_get_ncells, direction, rd. simpl. split.
    + by rewrite list_lookup_insert_eq.
    + intros j Hj. by rewrite list_lookup_insert_ne.
Qed.

End Dir_params.

(** * The properties of the cartesian mesh on the examples *)

Lemma _cs_mesh_cartesian_create_direction_geometric_witness :
  ∃ d,
    _cs_mesh_cartesian_create_direction pow CS_MESH_CARTESIAN_GEOMETRIC_LAW
      2 0%R 3%R 2%R (fun _ => 0%R) = Done d ∧
    ncells d = 2 ∧ length (s d) = 2 + 1 ∧
    s d !! 0 = Some 0%R ∧ s d !! 2 = Some 3%R ∧
    ∀ c, c < 2 →
      ∃ x y, s d !! c = Some x ∧ s d !! (c + 1) = Some y ∧
             (y - x = geometric_step 0 3 2 2 * 2 ^ c)%R ∧
             (x <= y)%R.
Proof.
  apply (_cs_mesh_cartesian_create_direction_geometric 2 0%R 3%R 2%R
           (fun _ => 0%R)); [lra | lra | lra | lia].
Defined.

Lemma _cs_mesh_cartesian_create_direction_parabolic_witness :
  ∃ d,
    _cs_mesh_cartesian_create_direction pow CS_MESH_CARTESIAN_PARABOLIC_LAW
      3 0%R 4%R 2%R (fun _ => 0%R) = Done d ∧
    ncells d = 3 ∧ length (s d) = 3 + 1 ∧
    s d !! 0 = Some 0%R ∧ s d !! 3 = Some 4%R ∧
    ∀ c, c < 3 →
      ∃ x y, s d !! c = Some x ∧ s d !! (c + 1) = Some y ∧
             (y - x = parabolic_step 0 4 2 3
                      * 2 ^ (c `min` (3 - 1 - c)))%R ∧
             (x <= y)%R.
Proof.
  apply (_cs_mesh_cartesian_create_direction_parabolic 3 0%R 4%R 2%R
           (fun _ => 0%R)); [lra | lra | lra | lia].
Defined.

Lemma Ex_box_ordered (idim : nat) :
  idim < 3 →
  ([0; 0; 0; 1; 2; 1]%R !!! (idim + 3)%nat
   <? [0; 0; 0; 1; 2; 1]%R !!! idim)%cs = false.
Proof.
  intros H. destruct idim as [|[|[|idim]]]; [| | | lia]; simpl;
    apply Rltb_false; lra.
Qed.

Lemma cs_mesh_cartesian_define_simple_get_ncells_witness :
  ∃ st',
    cs_mesh_cartesian_define_simple pow [1; 2; 1] [0; 0; 0; 1; 2; 1]%R
      (fun _ => 0%R) cartesian_glob_0 = Done st' ∧
    cs_mesh_cartesian_need_build st'
    = cs_mesh_cartesian_need_build (cartesian_glob_0 (real := R)) ∧
    ∀ idim, idim < 3 →
      cs_mesh_cartesian_get_ncells idim st' = Done ([1; 2; 1] !!! idim).
Proof.
  apply (cs_mesh_cartesian_define_simple_get_ncells pow [1; 2; 1]
           [0; 0; 0; 1; 2; 1]%R (fun _ => 0%R) cartesian_glob_0).
  - simpl. lia.
  - simpl. lia.
  - apply Ex_box_ordered.
  - intros mp Hmp. discriminate.
Defined.

Lemma cs_mesh_cartesian_params_life_cycle_witness :
  ∃ st1 st2 : cartesian_glob_t R,
    cs_mesh_cartesian_create cartesian_glob_0 = Done st1 ∧
    cs_mesh_cartesian_need_build st1 = 1%Z ∧
    cs_mesh_cartesian_create st1
    = Abort ("Error: cartesian mesh parameters were allready defined!"
             ++ nl) ∧
    cs_mesh_cartesian_get_ncells 0 st1 = Undef ∧
    cs_mesh_cartesian_params_destroy st1 = Undef ∧
    cs_mesh_cartesian_define_simple pow [1; 2; 1] [0; 0; 0; 1; 2; 1]%R
      (fun _ => 0%R) st1 = Done st2 ∧
    cs_mesh_cartesian_params_destroy st2 = Done (set_mesh_params st2 None) ∧
    cs_mesh_cartesian_params_destroy (set_mesh_params st2 None)
    = Done (set_mesh_params st2 None).
Proof.
  apply (cs_mesh_cartesian_params_life_cycle pow [1; 2; 1]
           [0; 0; 0; 1; 2; 1]%R (fun _ => 0%R)).
  - simpl. lia.
  - simpl. lia.
  - apply Ex_box_ordered.
Defined.

Lemma cs_mesh_cartesian_define_dir_params_spec_witness :
  cs_mesh_cartesian_define_dir_params pow 0 CS_MESH_CARTESIAN_CONSTANT_LAW
    4 1%R 0%R 1%R (fun _ => 0%R) cartesian_glob_0
  = Abort ("Error: smax < smin in _cs_mesh_cartesian_create_direction"
           ++ nl) ∧
  cs_mesh_cartesian_define_dir_params pow 0 CS_MESH_CARTESIAN_USER_LAW
    4 0%R 1%R 1%R (fun _ => 0%R) cartesian_glob_0
  = Abort ("Error: Method not yet implemented for "
           ++ "'_cs_mesh_cartesian_create_direction'" ++ nl) ∧
  ∃ st',
    cs_mesh_cartesian_define_dir_params pow 1 CS_MESH_CARTESIAN_CONSTANT_LAW
      4 0%R 1%R 1%R (fun _ => 0%R) CEx.wide = Done st' ∧
    cs_mesh_cartesian_get_ncells 1 st' = Done 4 ∧
    cs_mesh_cartesian_get_ncells 0 st' = Done 1 ∧
    cs_mesh_cartesian_get_ncells 2 st' = Done 1.
Proof.
  split; [| split].
  - refine (proj1 (cs_mesh_cartesian_define_dir_params_spec pow 0
                     CS_MESH_CARTESIAN_CONSTANT_LAW 4 1%R 0%R 1%R
                     (fun _ => 0%R) cartesian_glob_0 _) _).
    + simpl. lia.
    + apply Rltb_true. lra.
  - refine (proj1 (proj2 (cs_mesh_cartesian_define_dir_params_spec pow 0
                            CS_MESH_CARTESIAN_USER_LAW 4 0%R 1%R 1%R
                            (fun _ => 0%R) cartesian_glob_0 _)) _ eq_refl).
    + simpl. lia.
    + apply Rltb_false. lra.
  - destruct (proj2 (proj2 (cs_mesh_cartesian_define_dir_params_spec pow 1
                              CS_MESH_CARTESIAN_CONSTANT_LAW 4 0%R 1%R 1%R
                              (fun _ => 0%R) CEx.wide
                              ltac:(simpl; lia)))
                    (simple_direction 4 0%R 1%R))
      as (st' & Hrun & _ & _ & H1 & Hothers).
    + apply create_direction_constant, Rltb_false. lra.
    + exists st'. split; [exact Hrun |]. split; [exact H1 |].
      split; [by rewrite Hothers | by rewrite Hothers].
Defined.

Lemma CEx_directions : mesh_directions CEx.wide CEx.px CEx.py CEx.px.
Proof. by eexists. Qed.

Lemma CEx_directions_tall :
  mesh_directions CEx.tall CEx.px CEx.px CEx.py.
Proof. by eexists. Qed.

Lemma CEx_fresh : fresh_builder CEx.builder.
Proof. by repeat split. Qed.

Lemma CEx_filled_x : direction_filled CEx.px.
Proof. unfold direction_filled. simpl. lia. Qed.

Lemma CEx_filled_y : direction_filled CEx.py.
Proof. unfold direction_filled. simpl. lia. Qed.

Lemma cs_mesh_cartesian_connectivity_overflow_witness :
  cs_mesh_cartesian_connectivity CEx.tall CEx.builder 0 CEx.zeros
  = Undef.
Proof.
  apply (cs_mesh_cartesian_connectivity_overflow CEx.tall CEx.builder
           0 CEx.zeros CEx.px CEx.px CEx.py CEx_directions_tall CEx_fresh);
    simpl; lia.
Defined.

Lemma cs_mesh_cartesian_connectivity_sizes_witness :
  ∃ mb' fvi cgc,
    cs_mesh_cartesian_connectivity CEx.wide CEx.builder 0 CEx.zeros
    = Done mb' ∧
    n_g_faces mb'
    = (1 + 1) * 2 * 1 + 1 * (2 + 1) * 1 + 1 * 2 * (1 + 1) + 1 * (2 - 1) ∧
    face_vertices_idx mb' = Some fvi ∧
    length fvi = n_g_faces mb' + 1 ∧
    (∀ f, f ≤ n_g_faces mb' → fvi !! f = Some (4 * f)) ∧
    fvi !! n_g_faces mb' = Some (2 * n_g_face_connect_size mb') ∧
    cell_gc_id mb' = Some cgc ∧
    cgc = replicate (1 * 2 * 1) 7%Z.
Proof.
  apply (cs_mesh_cartesian_connectivity_sizes CEx.wide CEx.builder 0
           CEx.zeros CEx.px CEx.py CEx.px CEx_directions CEx_fresh
           CEx_filled_x CEx_filled_y CEx_filled_x).
  simpl. lia.
Defined.

Lemma cs_mesh_cartesian_connectivity_faces_witness :
  ∃ mb',
    cs_mesh_cartesian_connectivity CEx.wide CEx.builder 0 CEx.zeros
    = Done mb' ∧
    (∀ i j k, i ≤ 1 → j < 2 → k < 1 →
       builder_face mb' (x_face_id 1 2 1 i j k)
       = Some (x_face 1 2 1 i j k)) ∧
    (∀ i j k, i < 1 → j ≤ 2 → k < 1 →
       builder_face mb' (y_face_id 1 2 1 i j k)
       = Some (y_face 1 2 1 i j k)) ∧
    (∀ i j k, i < 1 → j < 2 → k ≤ 1 →
       builder_face mb' (z_face_id 1 2 1 i j k)
       = Some (z_face 1 2 1 i j k)).
Proof.
  apply (cs_mesh_cartesian_connectivity_faces CEx.wide CEx.builder 0
           CEx.zeros CEx.px CEx.py CEx.px CEx_directions CEx_fresh
           CEx_filled_x CEx_filled_y CEx_filled_x).
  simpl. lia.
Defined.

Lemma cs_mesh_cartesian_connectivity_unset_faces_witness :
  ∃ mb',
    cs_mesh_cartesian_connectivity CEx.wide CEx.builder 0 CEx.zeros
    = Done mb' ∧
    ∀ f, n_g_faces mb' - 1 * (2 - 1) ≤ f < n_g_faces mb' →
      builder_face mb' f
      = Some {| gc := 7; c_id1 := 0; c_id2 := 0; vtx := [0; 0; 0; 0] |}.
Proof.
  apply (cs_mesh_cartesian_connectivity_unset_faces CEx.wide CEx.builder 0
           CEx.zeros CEx.px CEx.py CEx.px CEx_directions CEx_fresh
           CEx_filled_x CEx_filled_y CEx_filled_x).
  simpl. lia.
Defined.

Lemma cs_mesh_cartesian_connectivity_cell_faces_witness :
  ∃ mb',
    cs_mesh_cartesian_connectivity CEx.wide CEx.builder 0 CEx.zeros
    = Done mb' ∧
    ∀ i j k, i < 1 → j < 2 → k < 1 →
      let c := Some (cell_num 1 2 i j k) in
      face_cell2 mb' (x_face_id 1 2 1 i j k) = c ∧
      face_cell1 mb' (x_face_id 1 2 1 (i + 1) j k) = c ∧
      face_cell2 mb' (y_face_id 1 2 1 i j k) = c ∧
      face_cell1 mb' (y_face_id 1 2 1 i (j + 1) k) = c ∧
      face_cell2 mb' (z_face_id 1 2 1 i j k) = c ∧
      face_cell1 mb' (z_face_id 1 2 1 i j (k + 1)) = c.
Proof.
  apply (cs_mesh_cartesian_connectivity_cell_faces CEx.wide CEx.builder 0
           CEx.zeros CEx.px CEx.py CEx.px CEx_directions CEx_fresh
           CEx_filled_x CEx_filled_y CEx_filled_x).
  simpl. lia.
Defined.

Lemma cs_mesh_cartesian_connectivity_faces_in_mesh_witness :
  ∃ mb',
    cs_mesh_cartesian_connectivity CEx.wide CEx.builder 0 CEx.zeros
    = Done mb' ∧
    ∀ f, f < (1 + 1) * 2 * 1 + 1 * (2 + 1) * 1 + 1 * 2 * (1 + 1) →
      ∃ F, builder_face mb' f = Some F ∧ face_in_mesh 1 2 1 F.
Proof.
  apply (cs_mesh_cartesian_connectivity_faces_in_mesh CEx.wide CEx.builder
           0 CEx.zeros CEx.px CEx.py CEx.px CEx_directions CEx_fresh
           CEx_filled_x CEx_filled_y CEx_filled_x); simpl; lia.
Defined.

Lemma cs_mesh_cartesian_connectivity_vertex_coords_witness :
  ∃ mb',
    cs_mesh_cartesian_connectivity CEx.wide CEx.builder 0 CEx.zeros
    = Done mb' ∧
    ∀ i j k, i ≤ 1 → j ≤ 2 → k ≤ 1 →
      ∃ x y z,
        vertex_coord CEx.px i = Some x ∧ vertex_coord CEx.py j = Some y ∧
        vertex_coord CEx.px k = Some z ∧
        builder_coord mb' (vtx_num 1 2 i j k - 1) 0 = Some x ∧
        builder_coord mb' (vtx_num 1 2 i j k - 1) 1 = Some y ∧
        builder_coord mb' (vtx_num 1 2 i j k - 1) 2 = Some z.
Proof.
  apply (cs_mesh_cartesian_connectivity_vertex_coords CEx.wide CEx.builder
           0 CEx.zeros CEx.px CEx.py CEx.px CEx_directions CEx_fresh
           CEx_filled_x CEx_filled_y CEx_filled_x).
  simpl. lia.
Defined.

Lemma cs_mesh_cartesian_simple_mesh_vertices_witness :
  ∃ st' mb',
    cs_mesh_cartesian_define_simple pow [1; 2; 1]
      [0; 0; 0; 1; 2; 1]%R (fun _ => 0%R) cartesian_glob_0 = Done st' ∧
    cs_mesh_cartesian_connectivity st' CEx.builder 0 CEx.zeros = Done mb' ∧
    (∀ i j k, i ≤ 1 → j ≤ 2 → k ≤ 1 →
       builder_coord mb' (vtx_num 1 2 i j k - 1) 0
       = Some (0 + (1 - 0) * IZR (Z.of_nat i) / IZR (Z.of_nat 1))%R ∧
       builder_coord mb' (vtx_num 1 2 i j k - 1) 1
       = Some (0 + (2 - 0) * IZR (Z.of_nat j) / IZR (Z.of_nat 2))%R ∧
       builder_coord mb' (vtx_num 1 2 i j k - 1) 2
       = Some (0 + (1 - 0) * IZR (Z.of_nat k) / IZR (Z.of_nat 1))%R) ∧
    builder_coord mb' 0 0 = Some 0%R ∧
    builder_coord mb' 0 1 = Some 0%R ∧
    builder_coord mb' 0 2 = Some 0%R ∧
    builder_coord mb' ((1 + 1) * (2 + 1) * (1 + 1) - 1) 0 = Some 1%R ∧
    builder_coord mb' ((1 + 1) * (2 + 1) * (1 + 1) - 1) 1 = Some 2%R ∧
    builder_coord mb' ((1 + 1) * (2 + 1) * (1 + 1) - 1) 2 = Some 1%R.
Proof.
  apply (cs_mesh_cartesian_simple_mesh_vertices pow 1 2 1
           0%R 0%R 0%R 1%R 2%R 1%R (fun _ => 0%R) cartesian_glob_0
           CEx.builder 0 CEx.zeros eq_refl CEx_fresh);
    first [lra | lia].
Defined.
